(** * Thea: the triangle kernel of [Code/Source/Triangle3.cpp]

    A shallow embedding of namespace [Thea::Triangle3Internal]: the
    triangle-triangle overlap tests (after Tomas Moller), the coplanar
    fallback, the intersection-segment reconstruction, and the closest-point,
    containment and ray kernel.

    The scalar type [Real] is a build-time typedef that is declared outside
    this translation unit, so the embedding takes it as a parameter: the
    class [RealArith] lists the operations the kernel uses, and every
    function below is written once, over any such arithmetic.  Properties
    that follow from the control flow alone are proved for every
    [RealArith]; properties that need the laws of arithmetic are proved for
    the exact model [ExactQ] (rational numbers), and for [ExactR] (real
    numbers) where the code takes a square root.  [Binary32] and [Binary64]
    run the same definitions on IEEE 754 single and double precision
    numbers, the two choices of [Real]: for the statements about given
    triangles, and for what the specification of the floating-point
    operations decides (the sign of the ray time).  Where rounding makes a
    statement of the exact model fail, a lemma shows it on binary32 and
    binary64 numbers.

    The last parts of the file relate the kernel to the geometry it
    computes (the points two triangles share, nearest points, containment),
    and embed two neighbours of the kernel in the library: the class
    [SortedArray] and the segment class [LineSegmentN]. *)

From Stdlib Require Import Reals Lra.
From Stdlib Require Import ZArith QArith Qabs Qfield QNsatz Bool Lia Lqa Floats List Sorted.

(** ** The scalar interface *)

Class RealArith (Real : Type) : Type := {
  rzero : Real;
  rone  : Real;
  radd  : Real -> Real -> Real;
  rsub  : Real -> Real -> Real;
  rmul  : Real -> Real -> Real;
  rdiv  : Real -> Real -> Real;
  ropp  : Real -> Real;
  rabs  : Real -> Real;                 (* fabs *)
  rltb  : Real -> Real -> bool;         (* a < b *)
  rleb  : Real -> Real -> bool;         (* a <= b *)
  reqb  : Real -> Real -> bool;         (* a == b *)
  EPSILON : Real;                       (* #define EPSILON 0.000001f *)
  EPS     : Real                        (* static Real const EPS = 1e-30f *)
}.

Declare Scope real_scope.
Delimit Scope real_scope with real.
Notation "a + b" := (radd a b) : real_scope.
Notation "a - b" := (rsub a b) : real_scope.
Notation "a * b" := (rmul a b) : real_scope.
Notation "a / b" := (rdiv a b) : real_scope.
Notation "- a" := (ropp a) : real_scope.
Notation "a <? b" := (rltb a b) (at level 70, no associativity) : real_scope.
Notation "a <=? b" := (rleb a b) (at level 70, no associativity) : real_scope.
Notation "a >? b" := (rltb b a) (at level 70, no associativity) : real_scope.
Notation "a >=? b" := (rleb b a) (at level 70, no associativity) : real_scope.
Notation "a =? b" := (reqb a b) (at level 70, no associativity) : real_scope.
Notation "a <>? b" := (negb (reqb a b)) (at level 70, no associativity) : real_scope.

(** ** Vectors: [Real v[3]] and [Vector3] *)

Record Vec3 (Real : Type) : Type := mkVec3 { e0 : Real; e1 : Real; e2 : Real }.

Arguments mkVec3 {Real} _ _ _.
Arguments e0 {Real} _.
Arguments e1 {Real} _.
Arguments e2 {Real} _.

(** [v[i]] for a run-time index.  Every index the kernel computes is 0, 1
    or 2. *)
Definition vget {Real : Type} (v : Vec3 Real) (i : Z) : Real :=
  if (i =? 0)%Z then e0 v else if (i =? 1)%Z then e1 v else e2 v.

Module Triangle3Internal.

Section Kernel.

Context {Real : Type} {RA : RealArith Real}.

Local Open Scope real_scope.

Notation "0" := rzero : real_scope.
Notation "1" := rone : real_scope.
Notation "v .[ i ]" := (vget v i) (at level 1, left associativity, format "v .[ i ]") : real_scope.

Definition zero3 : Vec3 Real := mkVec3 0 0 0.

(** *** The macros *)

Definition CROSS (v1 v2 : Vec3 Real) : Vec3 Real :=
  mkVec3 (e1 v1 * e2 v2 - e2 v1 * e1 v2)
         (e2 v1 * e0 v2 - e0 v1 * e2 v2)
         (e0 v1 * e1 v2 - e1 v1 * e0 v2).

Definition DOT (v1 v2 : Vec3 Real) : Real :=
  e0 v1 * e0 v2 + e1 v1 * e1 v2 + e2 v1 * e2 v2.

Definition SUB (v1 v2 : Vec3 Real) : Vec3 Real :=
  mkVec3 (e0 v1 - e0 v2) (e1 v1 - e1 v2) (e2 v1 - e2 v2).

Definition ADD (v1 v2 : Vec3 Real) : Vec3 Real :=
  mkVec3 (e0 v1 + e0 v2) (e1 v1 + e1 v2) (e2 v1 + e2 v2).

Definition MULT (v : Vec3 Real) (factor : Real) : Vec3 Real :=
  mkVec3 (factor * e0 v) (factor * e1 v) (factor * e2 v).

(** [SORT(a,b)]: the pair after the swap. *)
Definition SORT (a b : Real) : Real * Real :=
  if a >? b then (b, a) else (a, b).

Definition ISECT (VV0 VV1 VV2 D0 D1 D2 : Real) : Real * Real :=
  (VV0 + (VV1 - VV0) * D0 / (D0 - D1),
   VV0 + (VV2 - VV0) * D0 / (D0 - D2)).

(** [COMPUTE_INTERVALS]: [None] is the last branch, where the macro leaves
    the enclosing function with [coplanar_tri_tri]. *)
Definition COMPUTE_INTERVALS (VV0 VV1 VV2 D0 D1 D2 D0D1 D0D2 : Real)
  : option (Real * Real) :=
  if D0D1 >? 0 then Some (ISECT VV2 VV0 VV1 D2 D0 D1)
  else if D0D2 >? 0 then Some (ISECT VV1 VV0 VV2 D1 D0 D2)
  else if (D1 * D2 >? 0) || (D0 <>? 0) then Some (ISECT VV0 VV1 VV2 D0 D1 D2)
  else if D1 <>? 0 then Some (ISECT VV1 VV0 VV2 D1 D0 D2)
  else if D2 <>? 0 then Some (ISECT VV2 VV0 VV1 D2 D0 D1)
  else None.

(** [EDGE_EDGE_TEST]: [true] when the macro executes [return 1]. *)
Definition EDGE_EDGE_TEST (i0 i1 : Z) (Ax Ay : Real) (V0 U0 U1 : Vec3 Real) : bool :=
  let Bx := U0.[i0] - U1.[i0] in
  let By := U0.[i1] - U1.[i1] in
  let Cx := V0.[i0] - U0.[i0] in
  let Cy := V0.[i1] - U0.[i1] in
  let f := Ay * Bx - Ax * By in
  let d := By * Cx - Bx * Cy in
  if ((f >? 0) && (d >=? 0) && (d <=? f)) || ((f <? 0) && (d <=? 0) && (d >=? f))
  then
    let e := Ax * Cy - Ay * Cx in
    if f >? 0 then (e >=? 0) && (e <=? f)
    else (e <=? 0) && (e >=? f)
  else false.

Definition EDGE_AGAINST_TRI_EDGES (i0 i1 : Z) (V0 V1 U0 U1 U2 : Vec3 Real) : bool :=
  let Ax := V1.[i0] - V0.[i0] in
  let Ay := V1.[i1] - V0.[i1] in
  if EDGE_EDGE_TEST i0 i1 Ax Ay V0 U0 U1 then true
  else if EDGE_EDGE_TEST i0 i1 Ax Ay V0 U1 U2 then true
  else EDGE_EDGE_TEST i0 i1 Ax Ay V0 U2 U0.

Definition POINT_IN_TRI (i0 i1 : Z) (V0 U0 U1 U2 : Vec3 Real) : bool :=
  let a := U1.[i1] - U0.[i1] in
  let b := - (U1.[i0] - U0.[i0]) in
  let c := - a * U0.[i0] - b * U0.[i1] in
  let d0 := a * V0.[i0] + b * V0.[i1] + c in
  let a := U2.[i1] - U1.[i1] in
  let b := - (U2.[i0] - U1.[i0]) in
  let c := - a * U1.[i0] - b * U1.[i1] in
  let d1 := a * V0.[i0] + b * V0.[i1] + c in
  let a := U0.[i1] - U2.[i1] in
  let b := - (U0.[i0] - U2.[i0]) in
  let c := - a * U2.[i0] - b * U2.[i1] in
  let d2 := a * V0.[i0] + b * V0.[i1] + c in
  if d0 * d1 >? 0 then d0 * d2 >? 0 else false.

(** *** [coplanar_tri_tri] *)

(** The first half of [coplanar_tri_tri]: the two coordinates [(i0, i1)] kept
    by the projection, chosen from the normal. *)
Definition projection_axes (N : Vec3 Real) : Z * Z :=
  let A0 := rabs (e0 N) in
  let A1 := rabs (e1 N) in
  let A2 := rabs (e2 N) in
  if A0 >? A1 then
    if A0 >? A2 then (1, 2)%Z else (0, 1)%Z
  else
    if A2 >? A1 then (0, 1)%Z else (0, 2)%Z.

(** The second half: the nine edge tests and the two containment tests. *)
Definition coplanar_tests (i0 i1 : Z) (V0 V1 V2 U0 U1 U2 : Vec3 Real) : bool :=
  if EDGE_AGAINST_TRI_EDGES i0 i1 V0 V1 U0 U1 U2 then true
  else if EDGE_AGAINST_TRI_EDGES i0 i1 V1 V2 U0 U1 U2 then true
  else if EDGE_AGAINST_TRI_EDGES i0 i1 V2 V0 U0 U1 U2 then true
  else if POINT_IN_TRI i0 i1 V0 U0 U1 U2 then true
  else if POINT_IN_TRI i0 i1 U0 V0 V1 V2 then true
  else false.

Definition coplanar_tri_tri (N V0 V1 V2 U0 U1 U2 : Vec3 Real) : bool :=
  let '(i0, i1) := projection_axes N in
  coplanar_tests i0 i1 V0 V1 V2 U0 U1 U2.

(** *** Code shared by the three overlap functions *)

(** [if (fabs(d) < EPSILON) d = 0;] *)
Definition snap (d : Real) : Real :=
  if rabs d <? EPSILON then 0 else d.

(** The index of the largest component of [D]:
    [max = fabs(D[0]); index = 0; if (b > max) max = b, index = 1;
     if (c > max) max = c, index = 2;] *)
Definition largest_component (D : Vec3 Real) : Z :=
  let max := rabs (e0 D) in
  let index := 0%Z in
  let b := rabs (e1 D) in
  let c := rabs (e2 D) in
  let '(max, index) := if b >? max then (b, 1%Z) else (max, index) in
  let '(_, index) := if c >? max then (c, 2%Z) else (max, index) in
  index.

(** [if (isect1[1] < isect2[0] || isect2[1] < isect1[0]) return 0; return 1;]
    after the two [SORT]s. *)
Definition intervals_overlap (i1 i2 : Real * Real) : bool :=
  let '(a0, a1) := SORT (fst i1) (snd i1) in
  let '(b0, b1) := SORT (fst i2) (snd i2) in
  if (a1 <? b0) || (b1 <? a0) then false else true.

(** *** [tri_tri_intersect] *)

Definition tri_tri_intersect (V0 V1 V2 U0 U1 U2 : Vec3 Real) : bool :=
  let E1 := SUB V1 V0 in
  let E2 := SUB V2 V0 in
  let N1 := CROSS E1 E2 in
  let d1 := - DOT N1 V0 in
  let du0 := snap (DOT N1 U0 + d1) in
  let du1 := snap (DOT N1 U1 + d1) in
  let du2 := snap (DOT N1 U2 + d1) in
  let du0du1 := du0 * du1 in
  let du0du2 := du0 * du2 in
  if (du0du1 >? 0) && (du0du2 >? 0) then false else
  let E1 := SUB U1 U0 in
  let E2 := SUB U2 U0 in
  let N2 := CROSS E1 E2 in
  let d2 := - DOT N2 U0 in
  let dv0 := snap (DOT N2 V0 + d2) in
  let dv1 := snap (DOT N2 V1 + d2) in
  let dv2 := snap (DOT N2 V2 + d2) in
  let dv0dv1 := dv0 * dv1 in
  let dv0dv2 := dv0 * dv2 in
  if (dv0dv1 >? 0) && (dv0dv2 >? 0) then false else
  let D := CROSS N1 N2 in
  let index := largest_component D in
  let vp0 := V0.[index] in
  let vp1 := V1.[index] in
  let vp2 := V2.[index] in
  let up0 := U0.[index] in
  let up1 := U1.[index] in
  let up2 := U2.[index] in
  match COMPUTE_INTERVALS vp0 vp1 vp2 dv0 dv1 dv2 dv0dv1 dv0dv2 with
  | None => coplanar_tri_tri N1 V0 V1 V2 U0 U1 U2
  | Some isect1 =>
    match COMPUTE_INTERVALS up0 up1 up2 du0 du1 du2 du0du1 du0du2 with
    | None => coplanar_tri_tri N1 V0 V1 V2 U0 U1 U2
    | Some isect2 => intervals_overlap isect1 isect2
    end
  end.

(** *** [NoDivTriTriIsect] *)

(** [NEWCOMPUTE_INTERVALS]: the five values [(A, B, C, X0, X1)], or [None]
    where the macro returns [coplanar_tri_tri]. *)
Definition NEWCOMPUTE_INTERVALS (VV0 VV1 VV2 D0 D1 D2 D0D1 D0D2 : Real)
  : option (Real * Real * Real * Real * Real) :=
  if D0D1 >? 0 then
    Some (VV2, (VV0 - VV2) * D2, (VV1 - VV2) * D2, D2 - D0, D2 - D1)
  else if D0D2 >? 0 then
    Some (VV1, (VV0 - VV1) * D1, (VV2 - VV1) * D1, D1 - D0, D1 - D2)
  else if (D1 * D2 >? 0) || (D0 <>? 0) then
    Some (VV0, (VV1 - VV0) * D0, (VV2 - VV0) * D0, D0 - D1, D0 - D2)
  else if D1 <>? 0 then
    Some (VV1, (VV0 - VV1) * D1, (VV2 - VV1) * D1, D1 - D0, D1 - D2)
  else if D2 <>? 0 then
    Some (VV2, (VV0 - VV2) * D2, (VV1 - VV2) * D2, D2 - D0, D2 - D1)
  else None.

(** The tail of [NoDivTriTriIsect], from [xx = x0 * x1] on. *)
Definition nodiv_overlap (abc def : Real * Real * Real * Real * Real) : bool :=
  let '(a, b, c, x0, x1) := abc in
  let '(d, e, f, y0, y1) := def in
  let xx := x0 * x1 in
  let yy := y0 * y1 in
  let xxyy := xx * yy in
  let tmp := a * xxyy in
  let isect1_0 := tmp + b * x1 * yy in
  let isect1_1 := tmp + c * x0 * yy in
  let tmp := d * xxyy in
  let isect2_0 := tmp + e * xx * y1 in
  let isect2_1 := tmp + f * xx * y0 in
  intervals_overlap (isect1_0, isect1_1) (isect2_0, isect2_1).

Definition NoDivTriTriIsect (V0 V1 V2 U0 U1 U2 : Vec3 Real) : bool :=
  let E1 := SUB V1 V0 in
  let E2 := SUB V2 V0 in
  let N1 := CROSS E1 E2 in
  let d1 := - DOT N1 V0 in
  let du0 := snap (DOT N1 U0 + d1) in
  let du1 := snap (DOT N1 U1 + d1) in
  let du2 := snap (DOT N1 U2 + d1) in
  let du0du1 := du0 * du1 in
  let du0du2 := du0 * du2 in
  if (du0du1 >? 0) && (du0du2 >? 0) then false else
  let E1 := SUB U1 U0 in
  let E2 := SUB U2 U0 in
  let N2 := CROSS E1 E2 in
  let d2 := - DOT N2 U0 in
  let dv0 := snap (DOT N2 V0 + d2) in
  let dv1 := snap (DOT N2 V1 + d2) in
  let dv2 := snap (DOT N2 V2 + d2) in
  let dv0dv1 := dv0 * dv1 in
  let dv0dv2 := dv0 * dv2 in
  if (dv0dv1 >? 0) && (dv0dv2 >? 0) then false else
  let D := CROSS N1 N2 in
  let index := largest_component D in
  let vp0 := V0.[index] in
  let vp1 := V1.[index] in
  let vp2 := V2.[index] in
  let up0 := U0.[index] in
  let up1 := U1.[index] in
  let up2 := U2.[index] in
  match NEWCOMPUTE_INTERVALS vp0 vp1 vp2 dv0 dv1 dv2 dv0dv1 dv0dv2 with
  | None => coplanar_tri_tri N1 V0 V1 V2 U0 U1 U2
  | Some abc =>
    match NEWCOMPUTE_INTERVALS up0 up1 up2 du0 du1 du2 du0du1 du0du2 with
    | None => coplanar_tri_tri N1 V0 V1 V2 U0 U1 U2
    | Some def => nodiv_overlap abc def
    end
  end.

(** *** [tri_tri_intersect_with_isectline] *)

(** [SORT2(a,b,smallest)]: the pair after the swap, and [smallest]. *)
Definition SORT2 (a b : Real) : Real * Real * Z :=
  if a >? b then (b, a, 1%Z) else (a, b, 0%Z).

(** [isect2]: the values written to [*isect0], [*isect1], [isectpoint0] and
    [isectpoint1]. *)
Definition isect2 (VTX0 VTX1 VTX2 : Vec3 Real) (VV0 VV1 VV2 D0 D1 D2 : Real)
  : Real * Real * Vec3 Real * Vec3 Real :=
  let tmp := D0 / (D0 - D1) in
  let isect0 := VV0 + (VV1 - VV0) * tmp in
  let diff := SUB VTX1 VTX0 in
  let diff := MULT diff tmp in
  let isectpoint0 := ADD diff VTX0 in
  let tmp := D0 / (D0 - D2) in
  let isect1 := VV0 + (VV2 - VV0) * tmp in
  let diff := SUB VTX2 VTX0 in
  let diff := MULT diff tmp in
  let isectpoint1 := ADD VTX0 diff in
  (isect0, isect1, isectpoint0, isectpoint1).

(** [compute_intervals_isectline]: [Some] of the four values written through
    the out-parameters when the function returns 0; [None] when it returns 1
    (coplanar), in which case it has written nothing. *)
Definition compute_intervals_isectline (VERT0 VERT1 VERT2 : Vec3 Real)
    (VV0 VV1 VV2 D0 D1 D2 D0D1 D0D2 : Real)
  : option (Real * Real * Vec3 Real * Vec3 Real) :=
  if D0D1 >? 0 then Some (isect2 VERT2 VERT0 VERT1 VV2 VV0 VV1 D2 D0 D1)
  else if D0D2 >? 0 then Some (isect2 VERT1 VERT0 VERT2 VV1 VV0 VV2 D1 D0 D2)
  else if (D1 * D2 >? 0) || (D0 <>? 0) then
    Some (isect2 VERT0 VERT1 VERT2 VV0 VV1 VV2 D0 D1 D2)
  else if D1 <>? 0 then Some (isect2 VERT1 VERT0 VERT2 VV1 VV0 VV2 D1 D0 D2)
  else if D2 <>? 0 then Some (isect2 VERT2 VERT0 VERT1 VV2 VV0 VV1 D2 D0 D1)
  else None.

(** The memory behind the three out-parameters [int *coplanar],
    [Real isectpt1[3]] and [Real isectpt2[3]]. *)
Record IsectOut : Type := mkIsectOut {
  coplanar : bool;
  isectpt1 : Vec3 Real;
  isectpt2 : Vec3 Real
}.

(** The function takes the caller's memory [out] and returns its [int] result
    with the memory as the call leaves it. *)
Definition tri_tri_intersect_with_isectline (V0 V1 V2 U0 U1 U2 : Vec3 Real)
    (out : IsectOut) : bool * IsectOut :=
  let E1 := SUB V1 V0 in
  let E2 := SUB V2 V0 in
  let N1 := CROSS E1 E2 in
  let d1 := - DOT N1 V0 in
  let du0 := snap (DOT N1 U0 + d1) in
  let du1 := snap (DOT N1 U1 + d1) in
  let du2 := snap (DOT N1 U2 + d1) in
  let du0du1 := du0 * du1 in
  let du0du2 := du0 * du2 in
  if (du0du1 >? 0) && (du0du2 >? 0) then (false, out) else
  let E1 := SUB U1 U0 in
  let E2 := SUB U2 U0 in
  let N2 := CROSS E1 E2 in
  let d2 := - DOT N2 U0 in
  let dv0 := snap (DOT N2 V0 + d2) in
  let dv1 := snap (DOT N2 V1 + d2) in
  let dv2 := snap (DOT N2 V2 + d2) in
  let dv0dv1 := dv0 * dv1 in
  let dv0dv2 := dv0 * dv2 in
  if (dv0dv1 >? 0) && (dv0dv2 >? 0) then (false, out) else
  let D := CROSS N1 N2 in
  let index := largest_component D in
  let vp0 := V0.[index] in
  let vp1 := V1.[index] in
  let vp2 := V2.[index] in
  let up0 := U0.[index] in
  let up1 := U1.[index] in
  let up2 := U2.[index] in
  match compute_intervals_isectline V0 V1 V2 vp0 vp1 vp2 dv0 dv1 dv2 dv0dv1 dv0dv2 with
  | None =>
    (* *coplanar = 1; return coplanar_tri_tri(...) *)
    (coplanar_tri_tri N1 V0 V1 V2 U0 U1 U2,
     mkIsectOut true (isectpt1 out) (isectpt2 out))
  | Some (isect1_0, isect1_1, isectpointA1, isectpointA2) =>
    (* *coplanar = 0 *)
    (* the second call's result is dropped; on 1 its outputs keep their
       initial value {0} *)
    let '(isect2_0, isect2_1, isectpointB1, isectpointB2) :=
      match compute_intervals_isectline U0 U1 U2 up0 up1 up2 du0 du1 du2 du0du1 du0du2 with
      | Some r => r
      | None => (0, 0, zero3, zero3)
      end in
    let '(isect1_0, isect1_1, smallest1) := SORT2 isect1_0 isect1_1 in
    let '(isect2_0, isect2_1, smallest2) := SORT2 isect2_0 isect2_1 in
    if (isect1_1 <? isect2_0) || (isect2_1 <? isect1_0)
    then (false, mkIsectOut false (isectpt1 out) (isectpt2 out))
    else
      let '(pt1, pt2) :=
        if isect2_0 <? isect1_0 then
          (if (smallest1 =? 0)%Z then isectpointA1 else isectpointA2,
           if isect2_1 <? isect1_1 then
             if (smallest2 =? 0)%Z then isectpointB2 else isectpointB1
           else
             if (smallest1 =? 0)%Z then isectpointA2 else isectpointA1)
        else
          (if (smallest2 =? 0)%Z then isectpointB1 else isectpointB2,
           if isect2_1 >? isect1_1 then
             if (smallest1 =? 0)%Z then isectpointA2 else isectpointA1
           else
             if (smallest2 =? 0)%Z then isectpointB2 else isectpointB1)
      in (true, mkIsectOut false pt1 pt2)
  end.

(** *** The closest-point, containment and ray kernel *)

(** [Vector3] arithmetic as the kernel uses it. *)
Definition vsub (a b : Vec3 Real) : Vec3 Real :=
  mkVec3 (e0 a - e0 b) (e1 a - e1 b) (e2 a - e2 b).
Definition vadd (a b : Vec3 Real) : Vec3 Real :=
  mkVec3 (e0 a + e0 b) (e1 a + e1 b) (e2 a + e2 b).
Definition vscale (a : Vec3 Real) (t : Real) : Vec3 Real :=
  mkVec3 (e0 a * t) (e1 a * t) (e2 a * t).
Definition vdot (a b : Vec3 Real) : Real :=
  e0 a * e0 b + e1 a * e1 b + e2 a * e2 b.
Definition vcross (a b : Vec3 Real) : Vec3 Real :=
  mkVec3 (e1 a * e2 b - e2 a * e1 b)
         (e2 a * e0 b - e0 a * e2 b)
         (e0 a * e1 b - e1 a * e0 b).
Definition squaredNorm (a : Vec3 Real) : Real := vdot a a.
(** [a == b] on vectors: all coefficients compare equal. *)
Definition veqb (a b : Vec3 Real) : bool :=
  (e0 a =? e0 b) && (e1 a =? e1 b) && (e2 a =? e2 b).

(** The source declares [edgeLength], [t] and the squared distances [d] as
    [float] next to vectors of [Real]; the kernel is built with one scalar
    width, so both are [Real] here. *)
Definition closestPointOnLineSegment (v0 v1 edgeDirection : Vec3 Real)
    (edgeLength : Real) (point : Vec3 Real) : Vec3 Real :=
  let c := vsub point v0 in
  let t := vdot edgeDirection c in
  if t <=? 0 then v0
  else if t >=? edgeLength then v1
  else vadd v0 (vscale edgeDirection t).

(** A C array of three elements, and [a[i]]. *)
Definition Arr3 (A : Type) : Type := (A * A * A)%type.
Definition aget {A : Type} (a : Arr3 A) (i : Z) : A :=
  let '(a0, a1, a2) := a in
  if (i =? 0)%Z then a0 else if (i =? 1)%Z then a1 else a2.

(** [static const int next[] = {1, 2, 0};] *)
Definition next : Arr3 Z := (1, 2, 0)%Z.

(** The five-argument overload; the result is the returned point with the
    value written to [edgeIndex]. *)
Definition closestPointOnTrianglePerimeter (v edgeDirection : Arr3 (Vec3 Real))
    (edgeLength : Arr3 Real) (point : Vec3 Real) : Vec3 Real * Z :=
  let ri (i : Z) :=
    closestPointOnLineSegment (aget v i) (aget v (aget next i))
                              (aget edgeDirection i) (aget edgeLength i) point in
  let r : Arr3 (Vec3 Real) := (ri 0%Z, ri 1%Z, ri 2%Z) in
  let di (i : Z) := squaredNorm (vsub (aget r i) point) in
  let d : Arr3 Real := (di 0%Z, di 1%Z, di 2%Z) in
  let edgeIndex :=
    if aget d 0 <? aget d 1 then
      if aget d 0 <? aget d 2 then 0%Z else 2%Z
    else
      if aget d 1 <? aget d 2 then 1%Z else 2%Z in
  (aget r edgeIndex, edgeIndex).

(** The four-argument overload.  [norm] is [Vector3::norm]; it is an argument
    here because the scalar interface has no square root. *)
Definition closestPointOnTrianglePerimeter_of_vertices (norm : Vec3 Real -> Real)
    (v0 v1 v2 point : Vec3 Real) : Vec3 Real :=
  let v : Arr3 (Vec3 Real) := (v0, v1, v2) in
  let edgeDirection : Arr3 (Vec3 Real) := (vsub v1 v0, vsub v2 v1, vsub v0 v2) in
  let len (i : Z) := norm (aget edgeDirection i) in
  let edgeLength : Arr3 Real := (len 0%Z, len 1%Z, len 2%Z) in
  let dir (i : Z) :=
    mkVec3 (e0 (aget edgeDirection i) / aget edgeLength i)
           (e1 (aget edgeDirection i) / aget edgeLength i)
           (e2 (aget edgeDirection i) / aget edgeLength i) in
  let edgeDirection : Arr3 (Vec3 Real) := (dir 0%Z, dir 1%Z, dir 2%Z) in
  fst (closestPointOnTrianglePerimeter v edgeDirection edgeLength point).

(** [THEA_TRIANGLE_AREA2(d, e, f)] for the projection coordinates [i], [j]. *)
Definition THEA_TRIANGLE_AREA2 (i j : Z) (d e f : Vec3 Real) : Real :=
  (e.[i] - d.[i]) * (f.[j] - d.[j]) - (f.[i] - d.[i]) * (e.[j] - d.[j]).

(** The [switch (primary_axis)] that sets [i] and [j]. *)
Definition projection_coordinates (primary_axis : Z) : Z * Z :=
  match primary_axis with
  | 1%Z => (2, 0)%Z
  | 2%Z => (0, 1)%Z
  | _ (* 0 *) => (1, 2)%Z
  end.

Definition isPointInsideTriangle (v0 v1 v2 : Vec3 Real) (primary_axis : Z)
    (p : Vec3 Real) : bool :=
  let '(i, j) := projection_coordinates primary_axis in
  let area := THEA_TRIANGLE_AREA2 i j v0 v1 v2 in
  if area =? 0 then veqb v0 p
  else
    let inv_area := 1 / area in
    let b0 := THEA_TRIANGLE_AREA2 i j p v1 v2 * inv_area in
    if (b0 <? 0) || (b0 >? 1) then false
    else
      let b1 := THEA_TRIANGLE_AREA2 i j v0 p v2 * inv_area in
      if (b1 <? 0) || (b1 >? 1) then false
      else
        let b2 := 1 - b0 - b1 in
        (b2 >=? 0) && (b2 <=? 1).

(** [Ray3]: an origin and a direction. *)
Record Ray3 : Type := mkRay3 { getOrigin : Vec3 Real; getDirection : Vec3 Real }.

Definition rayTriangleIntersectionTime (ray : Ray3) (v0 edge01 edge02 : Vec3 Real)
  : Real :=
  let diff := vsub (getOrigin ray) v0 in
  let normal := vcross edge01 edge02 in
  let DdN := vdot (getDirection ray) normal in
  (* [Some (sign, DdN)], or [None] for the parallel case *)
  let branch :=
    if DdN >? EPS then Some (1, DdN)
    else if DdN <? - EPS then Some (- (1), - DdN)
    else None in
  match branch with
  | None => - (1)
  | Some (sign, DdN) =>
    let DdQxE2 := sign * vdot (getDirection ray) (vcross diff edge02) in
    if DdQxE2 >=? 0 then
      let DdE1xQ := sign * vdot (getDirection ray) (vcross edge01 diff) in
      if DdE1xQ >=? 0 then
        if DdQxE2 + DdE1xQ <=? DdN then
          let QdN := - sign * vdot diff normal in
          if QdN >=? 0 then QdN / DdN
          else - (1)
        else - (1)
      else - (1)
    else - (1)
  end.

(** *** Names for the quantities the statements below speak about *)

(** [N1 = cross(V1 - V0, V2 - V0)], the normal of the plane of a triangle. *)
Definition plane_normal (P0 P1 P2 : Vec3 Real) : Vec3 Real :=
  CROSS (SUB P1 P0) (SUB P2 P0).

(** [DOT(N, X) + d] with [d = -DOT(N, P0)], after the epsilon test. *)
Definition plane_distance (N P0 X : Vec3 Real) : Real :=
  snap (DOT N X + - DOT N P0).

(** The rejection test [d0 * d1 > 0 && d0 * d2 > 0]. *)
Definition same_side (d0 d1 d2 : Real) : bool :=
  (d0 * d1 >? 0) && (d0 * d2 >? 0).

Definition all_zero (d0 d1 d2 : Real) : bool :=
  (d0 =? 0) && (d1 =? 0) && (d2 =? 0).

(** [r[i]] and [d[i]] of [closestPointOnTrianglePerimeter]. *)
Definition edge_point (v edgeDirection : Arr3 (Vec3 Real)) (edgeLength : Arr3 Real)
    (point : Vec3 Real) (i : Z) : Vec3 Real :=
  closestPointOnLineSegment (aget v i) (aget v (aget next i))
                            (aget edgeDirection i) (aget edgeLength i) point.

Definition edge_dist2 (v edgeDirection : Arr3 (Vec3 Real)) (edgeLength : Arr3 Real)
    (point : Vec3 Real) (i : Z) : Real :=
  squaredNorm (vsub (edge_point v edgeDirection edgeLength point i) point).

(** [area] of [isPointInsideTriangle]. *)
Definition projected_area2 (primary_axis : Z) (v0 v1 v2 : Vec3 Real) : Real :=
  let '(i, j) := projection_coordinates primary_axis in
  THEA_TRIANGLE_AREA2 i j v0 v1 v2.

(** The ray against the plane of the triangle: [Dot(D, N)], the barycentric
    coordinates [b1], [b2] of the crossing and its time [t], as in the
    comment of [rayTriangleIntersectionTime]. *)
Definition ray_DdN (ray : Ray3) (edge01 edge02 : Vec3 Real) : Real :=
  vdot (getDirection ray) (vcross edge01 edge02).
Definition ray_b1 (ray : Ray3) (v0 edge01 edge02 : Vec3 Real) : Real :=
  vdot (getDirection ray) (vcross (vsub (getOrigin ray) v0) edge02)
  / ray_DdN ray edge01 edge02.
Definition ray_b2 (ray : Ray3) (v0 edge01 edge02 : Vec3 Real) : Real :=
  vdot (getDirection ray) (vcross edge01 (vsub (getOrigin ray) v0))
  / ray_DdN ray edge01 edge02.
Definition ray_t (ray : Ray3) (v0 edge01 edge02 : Vec3 Real) : Real :=
  - vdot (vsub (getOrigin ray) v0) (vcross edge01 edge02)
  / ray_DdN ray edge01 edge02.

End Kernel.

End Triangle3Internal.

(** ** The exact model: rational arithmetic

    The two tolerances are single-precision literals in the source.  Their
    values are 0x1.0c6f7ap-20 = 8796093 / 2^43, a little less than 10^-6,
    and 0x1.4484cp-100 = 332307 / 2^118, a little more than 10^-30; the
    exact model has these values, not the decimal fractions. *)

Definition Qltb (a b : Q) : bool :=
  match a ?= b with Lt => true | _ => false end.

#[export] Instance ExactQ : RealArith Q := {|
  rzero := 0%Q;
  rone  := 1%Q;
  radd  := Qplus;
  rsub  := Qminus;
  rmul  := Qmult;
  rdiv  := Qdiv;
  ropp  := Qopp;
  rabs  := Qabs;
  rltb  := Qltb;
  rleb  := Qle_bool;
  reqb  := Qeq_bool;
  EPSILON := 8796093 # 8796093022208;
  EPS     := 332307 # 332306998946228968225951765070086144
|}.

(** ** IEEE 754 binary64 *)

(** [0.000001f] and [1e-30f] are single-precision literals; the constants
    below are their exact values. *)
#[export] Instance Binary64 : RealArith float := {|
  rzero := 0%float;
  rone  := 1%float;
  radd  := PrimFloat.add;
  rsub  := PrimFloat.sub;
  rmul  := PrimFloat.mul;
  rdiv  := PrimFloat.div;
  ropp  := PrimFloat.opp;
  rabs  := PrimFloat.abs;
  rltb  := PrimFloat.ltb;
  rleb  := PrimFloat.leb;
  reqb  := PrimFloat.eqb;
  EPSILON := 0x1.0c6f7ap-20%float;
  EPS     := 0x1.4484cp-100%float
|}.

(** ** IEEE 754 binary32

    The IEEE 754 operations as [SpecFloat] specifies them, at 24 bits of
    precision and the exponent range of binary32: the arithmetic of a build
    in which [Real] is [float].  [b32 m e] is [m * 2^e], rounded to
    binary32; the two tolerances are binary32 numbers. *)

Definition b32 (m e : Z) : spec_float := binary_normalize 24 128 m e false.

#[export] Instance Binary32 : RealArith spec_float := {|
  rzero := S754_zero false;
  rone  := b32 1 0;
  radd  := SFadd 24 128;
  rsub  := SFsub 24 128;
  rmul  := SFmul 24 128;
  rdiv  := SFdiv 24 128;
  ropp  := SFopp;
  rabs  := SFabs;
  rltb  := SFltb;
  rleb  := SFleb;
  reqb  := SFeqb;
  EPSILON := b32 8796093 (-43);
  EPS     := b32 332307 (-118)
|}.

(** ** The exact model with square roots: real numbers

    The overload of [closestPointOnTrianglePerimeter] that takes the three
    vertices calls [Vector3::norm()], the square root of the squared norm.
    The rational numbers have no square roots, so its properties are stated
    over the real numbers. *)

Definition Rltb (a b : R) : bool := if Rlt_dec a b then true else false.
Definition Rleb (a b : R) : bool := if Rle_dec a b then true else false.
Definition Reqb (a b : R) : bool := if Req_dec_T a b then true else false.

#[export] Instance ExactR : RealArith R := {|
  rzero := 0%R;
  rone  := 1%R;
  radd  := Rplus;
  rsub  := Rminus;
  rmul  := Rmult;
  rdiv  := Rdiv;
  ropp  := Ropp;
  rabs  := Rabs;
  rltb  := Rltb;
  rleb  := Rleb;
  reqb  := Reqb;
  EPSILON := (8796093 / 8796093022208)%R;
  EPS     := (332307 / 332306998946228968225951765070086144)%R
|}.

Import Triangle3Internal.

(** ** Definitions for the statements over the exact model *)

Local Open Scope Q_scope.

(** Equality of vectors as vectors of numbers. *)
Definition veq (a b : Vec3 Q) : Prop :=
  e0 a == e0 b /\ e1 a == e1 b /\ e2 a == e2 b.

(** The arguments of [closestPointOnLineSegment] describe a segment: the
    second end point is at distance [edgeLength] from the first along
    [edgeDirection]. *)
Definition is_segment (v0 v1 edgeDirection : Vec3 Q) (edgeLength : Q) : Prop :=
  0 <= edgeLength /\ veq v1 (vadd v0 (vscale edgeDirection edgeLength)).

(** The two interval macros take the same branch, and the division-free one
    carries the numerators and the nonzero denominators of the other. *)
Inductive intervals_match : option (Q * Q) -> option (Q * Q * Q * Q * Q) -> Prop :=
| im_coplanar : intervals_match None None
| im_interval (A B C X0 X1 : Q) :
    ~ X0 == 0 -> ~ X1 == 0 ->
    intervals_match (Some (A + B / X0, A + C / X1)) (Some (A, B, C, X0, X1)).

(** Points with rational, and with binary64, coordinates. *)
Definition qv (x y z : Q) : Vec3 Q := mkVec3 x y z.
Definition fv (x y z : float) : Vec3 float := mkVec3 x y z.

(** Points with binary32 coordinates: any three, and three integers. *)
Definition sv (x y z : spec_float) : Vec3 spec_float := mkVec3 x y z.
Definition zv (x y z : Z) : Vec3 spec_float := mkVec3 (b32 x 0) (b32 y 0) (b32 z 0).

(** ** Definitions for the geometry of the overlap tests *)

(** The point [a * P0 + b * P1 + c * P2]. *)
Definition combination (a b c : Q) (P0 P1 P2 : Vec3 Q) : Vec3 Q :=
  mkVec3 (a * e0 P0 + b * e0 P1 + c * e0 P2)
         (a * e1 P0 + b * e1 P1 + c * e1 P2)
         (a * e2 P0 + b * e2 P1 + c * e2 P2).

(** [X] is a point of the triangle [P0 P1 P2], border included. *)
Definition in_triangle (P0 P1 P2 X : Vec3 Q) : Prop :=
  exists a b c : Q,
    0 <= a /\ 0 <= b /\ 0 <= c /\ a + b + c == 1 /\ veq X (combination a b c P0 P1 P2).

(** [DOT(N, X) + d] with [d = -DOT(N, P0)], before the epsilon test. *)
Definition raw_distance (N P0 X : Vec3 Q) : Q := (DOT N X + - DOT N P0)%real.

(** [x] lies between [i0] and [i1], whichever of the two is larger. *)
Definition between (x i0 i1 : Q) : Prop := (i0 <= x /\ x <= i1) \/ (i1 <= x /\ x <= i0).

(** The epsilon test has changed none of the three distances. *)
Definition unsnapped (N P0 A B C : Vec3 Q) : Prop :=
  plane_distance N P0 A == raw_distance N P0 A /\
  plane_distance N P0 B == raw_distance N P0 B /\
  plane_distance N P0 C == raw_distance N P0 C.

(** What the rejection test leaves for the vertex that [COMPUTE_INTERVALS]
    treats as alone on its side ([Dp]) and the two others. *)
Definition crossing (Dp Dq Dr : Q) : Prop :=
  Dp * Dq <= 0 /\ Dp * Dr <= 0 /\ ~ Dp - Dq == 0 /\ ~ Dp - Dr == 0.

(** [pt0], [pt1] are where a triangle crosses a plane: points of the
    triangle, on the plane, with coordinates [s0], [s1] along the line. *)
Definition crossing_segment (N P0 A B C : Vec3 Q) (index : Z) (s0 s1 : Q)
    (pt0 pt1 : Vec3 Q) : Prop :=
  (in_triangle A B C pt0 /\ raw_distance N P0 pt0 == 0 /\ vget pt0 index == s0) /\
  (in_triangle A B C pt1 /\ raw_distance N P0 pt1 == 0 /\ vget pt1 index == s1).

Section SegmentSelection.

Context {Real : Type} {RA : RealArith Real}.

Local Open Scope real_scope.

(** The tail of [tri_tri_intersect_with_isectline], from the two [SORT2] on:
    the overlap test and the choice of the two end points. *)
Definition isectline_segment (isect1_0 isect1_1 : Real) (isectpointA1 isectpointA2 : Vec3 Real)
    (isect2_0 isect2_1 : Real) (isectpointB1 isectpointB2 : Vec3 Real) (out : IsectOut)
  : bool * IsectOut :=
  let '(isect1_0, isect1_1, smallest1) := SORT2 isect1_0 isect1_1 in
  let '(isect2_0, isect2_1, smallest2) := SORT2 isect2_0 isect2_1 in
  if (isect1_1 <? isect2_0) || (isect2_1 <? isect1_0)
  then (false, mkIsectOut false (isectpt1 out) (isectpt2 out))
  else
    let '(pt1, pt2) :=
      if isect2_0 <? isect1_0 then
        (if (smallest1 =? 0)%Z then isectpointA1 else isectpointA2,
         if isect2_1 <? isect1_1 then
           if (smallest2 =? 0)%Z then isectpointB2 else isectpointB1
         else
           if (smallest1 =? 0)%Z then isectpointA2 else isectpointA1)
      else
        (if (smallest2 =? 0)%Z then isectpointB1 else isectpointB2,
         if isect2_1 >? isect1_1 then
           if (smallest1 =? 0)%Z then isectpointA2 else isectpointA1
         else
           if (smallest2 =? 0)%Z then isectpointB2 else isectpointB1)
    in (true, mkIsectOut false pt1 pt2).

End SegmentSelection.

(** [X] is a point of both triangles. *)
Definition common_point (V0 V1 V2 U0 U1 U2 X : Vec3 Q) : Prop :=
  in_triangle V0 V1 V2 X /\ in_triangle U0 U1 U2 X.

(** [X] is a point of the segment from [P] to [R]. *)
Definition on_segment (P R X : Vec3 Q) : Prop :=
  exists m n : Q, 0 <= m /\ 0 <= n /\ m + n == 1 /\ veq X (combination m n 0 P R P).

(** ** Definitions for the closest-point, containment and coplanar statements *)

(** The point of the line through [v0] with direction [edgeDirection] at
    parameter [s]. *)
Definition segment_point (v0 edgeDirection : Vec3 Q) (s : Q) : Vec3 Q :=
  vadd v0 (vscale edgeDirection s).

(** Squared distance between two points. *)
Definition dist2 (a b : Vec3 Q) : Q := squaredNorm (vsub a b).

(** The three edges of a triangle as [closestPointOnTrianglePerimeter]
    expects them: edge [i] runs from [v[i]] to [v[next[i]]], with a unit
    direction and its length. *)
Definition is_perimeter (v edgeDirection : Arr3 (Vec3 Q)) (edgeLength : Arr3 Q) : Prop :=
  forall i, (0 <= i <= 2)%Z ->
    is_segment (aget v i) (aget v (aget next i)) (aget edgeDirection i) (aget edgeLength i) /\
    squaredNorm (aget edgeDirection i) == 1.

(** In the two coordinates [i], [j], [p] is a convex combination of the
    three vertices. *)
Definition in_projected_triangle (i j : Z) (v0 v1 v2 p : Vec3 Q) : Prop :=
  exists b0 b1 b2 : Q,
    0 <= b0 /\ 0 <= b1 /\ 0 <= b2 /\ b0 + b1 + b2 == 1 /\
    vget p i == b0 * vget v0 i + b1 * vget v1 i + b2 * vget v2 i /\
    vget p j == b0 * vget v0 j + b1 * vget v1 j + b2 * vget v2 j.

(** The point [(x, y)] of the plane of the coordinates [i], [j] lies on the
    projection of the segment from [A] to [B]. *)
Definition on_projected_segment (i j : Z) (A B : Vec3 Q) (x y : Q) : Prop :=
  exists s, 0 <= s <= 1 /\
    x == vget A i + s * (vget B i - vget A i) /\
    y == vget A j + s * (vget B j - vget A j).

(** [f] of [EDGE_EDGE_TEST] for the edges [V0 V1] and [U0 U1]: the cross
    product of the two projected directions. *)
Definition edge_cross (i0 i1 : Z) (V0 V1 U0 U1 : Vec3 Q) : Q :=
  (vget V1 i1 - vget V0 i1) * (vget U0 i0 - vget U1 i0)
  - (vget V1 i0 - vget V0 i0) * (vget U0 i1 - vget U1 i1).

(** [Vector3::norm()] over the real numbers: the square root of the squared
    norm. *)
Definition norm (w : Vec3 R) : R := R_sqrt.sqrt (squaredNorm w).

(** The point at parameter [s] of the edge from [A] to [B], and the squared
    distance between two points, over the real numbers. *)
Definition edge_atR (A B : Vec3 R) (s : R) : Vec3 R := vadd A (vscale (vsub B A) s).
Definition dist2R (a b : Vec3 R) : R := squaredNorm (vsub a b).

(** Two vertices of the first triangle are vertices of the second: the
    triangles have an edge in common. *)
Definition shares_edge (V0 V1 V2 U0 U1 U2 : Vec3 Q) : Prop :=
  exists i j k l : Z,
    (0 <= i <= 2)%Z /\ (0 <= j <= 2)%Z /\ i <> j /\
    (0 <= k <= 2)%Z /\ (0 <= l <= 2)%Z /\ k <> l /\
    veq (aget (V0, V1, V2) i) (aget (U0, U1, U2) k) /\
    veq (aget (V0, V1, V2) j) (aget (U0, U1, U2) l).

Import ListNotations.

(** * [SortedArray]: an array sorted in ascending order by a comparator *)

Module SortedArray.

Section Array.

(** The element type and the comparator [compare], the "less-than" of the
    class. *)
Context {T : Type} (compare : T -> T -> bool).

(** [intx size() const] *)
Definition size (values : list T) : Z := Z.of_nat (length values).

Definition isEmpty (values : list T) : bool :=
  match values with [] => true | _ => false end.

(** [values[i]]: [None] stands for an access outside the array, which the
    assertion of [operator[]] reports in a debug build and which is
    undefined otherwise. *)
Definition get (values : list T) (i : Z) : option T :=
  if (0 <=? i)%Z && (i <? size values)%Z then nth_error values (Z.to_nat i) else None.

Definition first (values : list T) : option T := get values 0.

Definition last (values : list T) : option T := get values (size values - 1).

(** [contains(t, comp)]: the linear search with another notion of
    equality. *)
Fixpoint contains_with (comp : T -> T -> bool) (values : list T) (t : T) : bool :=
  match values with
  | [] => false
  | x :: rest => if comp x t then true else contains_with comp rest t
  end.

(** The loop of [upperBound], with the state [(first, count)].  One unit of
    [fuel] is one test of [count > 0]; [None] is an exhausted fuel or an
    access outside the array. *)
Fixpoint upperBound_loop (fuel : nat) (values : list T) (t : T) (first count : Z)
  : option Z :=
  match fuel with
  | O => None
  | S fuel =>
    if (count >? 0)%Z then
      let step := Z.shiftr count 1 in
      let mid := (first + step)%Z in
      match get values mid with
      | None => None
      | Some x =>
        if negb (compare t x)
        then upperBound_loop fuel values t (mid + 1)%Z (count - (step + 1))%Z
        else upperBound_loop fuel values t first step
      end
    else Some first
  end.

Definition upperBound (values : list T) (t : T) : option Z :=
  upperBound_loop (S (length values)) values t 0 (size values).

Fixpoint lowerBound_loop (fuel : nat) (values : list T) (t : T) (first count : Z)
  : option Z :=
  match fuel with
  | O => None
  | S fuel =>
    if (count >? 0)%Z then
      let step := Z.shiftr count 1 in
      let mid := (first + step)%Z in
      match get values mid with
      | None => None
      | Some x =>
        if compare x t
        then lowerBound_loop fuel values t (mid + 1)%Z (count - (step + 1))%Z
        else lowerBound_loop fuel values t first step
      end
    else Some first
  end.

Definition lowerBound (values : list T) (t : T) : option Z :=
  lowerBound_loop (S (length values)) values t 0 (size values).

(** [find]: [(lb < size() && !compare(t, values[lb])) ? lb : -1]. *)
Definition find (values : list T) (t : T) : option Z :=
  match lowerBound values t with
  | None => None
  | Some lb =>
    if (lb <? size values)%Z then
      match get values lb with
      | None => None
      | Some x => Some (if negb (compare t x) then lb else (-1)%Z)
      end
    else Some (-1)%Z
  end.

(** [contains(t)]: [find(t) >= 0]. *)
Definition contains (values : list T) (t : T) : option bool :=
  match find values t with
  | None => None
  | Some i => Some (i >=? 0)%Z
  end.

(** [values.insert(values.begin() + i, t)] of the underlying array; outside
    [0 .. size] the iterator is not one of the array. *)
Definition array_insert (values : list T) (i : Z) (t : T) : option (list T) :=
  if (0 <=? i)%Z && (i <=? size values)%Z
  then Some (firstn (Z.to_nat i) values ++ t :: skipn (Z.to_nat i) values)
  else None.

(** [insert]: the array after the call and the index returned. *)
Definition insert (values : list T) (t : T) : option (list T * Z) :=
  if isEmpty values then Some (values ++ [t], 0%Z)
  else
    match upperBound values t with
    | None => None
    | Some ub =>
      match array_insert values ub t with
      | None => None
      | Some values' => Some (values', ub)
      end
    end.

Definition insertUnique (values : list T) (t : T) : option (list T * Z) :=
  match contains values t with
  | None => None
  | Some true => Some (values, (-1)%Z)
  | Some false => insert values t
  end.

(** [erase(intx i)]: [values.erase(values.begin() + (size_t)i)]; the
    iterator has to point at an element. *)
Definition erase (values : list T) (i : Z) : option (list T) :=
  if (0 <=? i)%Z && (i <? size values)%Z
  then Some (firstn (Z.to_nat i) values ++ skipn (S (Z.to_nat i)) values)
  else None.

(** [erase(T const & t)]: [erase(find(t))]. *)
Definition erase_value (values : list T) (t : T) : option (list T) :=
  match find values t with
  | None => None
  | Some i => erase values i
  end.

Definition clear (values : list T) : list T := [].

(** ** Vocabulary *)

(** Ascending order: no element is less than one before it. *)
Definition ascending (values : list T) : Prop :=
  StronglySorted (fun x y => compare y x = false) values.

(** [x] and [t] are equal for the ordering: neither is less than the
    other. *)
Definition equivalent (x t : T) : Prop := compare x t = false /\ compare t x = false.

(** The number of elements that satisfy [p]. *)
Definition count_if (p : T -> bool) (values : list T) : Z :=
  Z.of_nat (length (filter p values)).

End Array.

End SortedArray.

(** * [LineSegmentN], at N = 3 *)

Module LineSegment3.

Section Segment.

Context {Real : Type} {RA : RealArith Real}.

(** [Math::fuzzyEq], the comparison up to a tolerance. *)
Variable fuzzyEq : Real -> Real -> bool.

Local Open Scope real_scope.

Notation "0" := rzero : real_scope.
Notation "1" := rone : real_scope.

(** [Math::clamp(x, lo, hi)] *)
Definition clamp (x lo hi : Real) : Real :=
  if x <? lo then lo else if x >? hi then hi else x.

(** [t * v] *)
Definition scale (t : Real) (v : Vec3 Real) : Vec3 Real :=
  mkVec3 (t * e0 v) (t * e1 v) (t * e2 v).

(** The two members of the class. *)
Record LineSegment : Type := mkLineSegment {
  point : Vec3 Real;
  direction : Vec3 Real
}.

(** [LineSegmentNBase(point1, point2)] *)
Definition fromEndpoints (point1 point2 : Vec3 Real) : LineSegment :=
  mkLineSegment point1 (vsub point2 point1).

Definition getEndpoint (seg : LineSegment) (i : Z) : Vec3 Real :=
  if (i =? 0)%Z then point seg else vadd (point seg) (direction seg).

Definition getPoint (seg : LineSegment) (t : Real) : Vec3 Real :=
  vadd (point seg) (scale t (direction seg)).

Definition squaredLength (seg : LineSegment) : Real := squaredNorm (direction seg).

Definition closestPoint (seg : LineSegment) (p : Vec3 Real) : Vec3 Real :=
  let d2 := squaredNorm (direction seg) in
  if fuzzyEq d2 0 then point seg
  else
    let v := vsub p (point seg) in
    let t := vdot (direction seg) v in
    if (t >=? 0) && (t <=? d2) then
      vadd (point seg) (scale (t / d2) (direction seg))
    else
      let d0_squared := squaredNorm v in
      let d1_squared := squaredNorm (vsub v (direction seg)) in
      if d0_squared <? d1_squared then point seg
      else vadd (point seg) (direction seg).

(** [squaredDistance(VectorT const & p)] *)
Definition squaredDistance (seg : LineSegment) (p : Vec3 Real) : Real :=
  squaredNorm (vsub p (closestPoint seg p)).

(** [closestPtSegmentSegment]: the returned value with the values written
    to [s], [t], [c1] and [c2]. *)
Definition closestPtSegmentSegment (p1 q1 : Vec3 Real) (is_line1 : bool)
    (p2 q2 : Vec3 Real) (is_line2 : bool)
  : Real * Real * Real * Vec3 Real * Vec3 Real :=
  let d1 := vsub q1 p1 in
  let d2 := vsub q2 p2 in
  let r := vsub p1 p2 in
  let a := squaredNorm d1 in
  let e := squaredNorm d2 in
  let f := vdot d2 r in
  let finish (s t : Real) :=
    let c1 := vadd p1 (scale s d1) in
    let c2 := vadd p2 (scale t d2) in
    (vdot (vsub c1 c2) (vsub c1 c2), s, t, c1, c2) in
  if fuzzyEq a 0 then
    if fuzzyEq e 0 then
      (vdot (vsub p1 p2) (vsub p1 p2), 0, 0, p1, p2)
    else
      let s := 0 in
      let t := f / e in
      let t := if negb is_line2 then clamp t 0 1 else t in
      finish s t
  else
    let c := vdot d1 r in
    if fuzzyEq e 0 then
      let t := 0 in
      let s := - c / a in
      let s := if negb is_line1 then clamp s 0 1 else s in
      finish s t
    else
      let b := vdot d1 d2 in
      let denom := a * e - b * b in
      let s :=
        if denom <>? 0 then
          let s := (b * f - c * e) / denom in
          if negb is_line1 then clamp s 0 1 else s
        else 0 in
      let t := (b * s + f) / e in
      let '(s, t) :=
        if negb is_line2 then
          if t <? 0 then
            let t := 0 in
            let s := - c / a in
            (if negb is_line1 then clamp s 0 1 else s, t)
          else if t >? 1 then
            let t := 1 in
            let s := (b - c) / a in
            (if negb is_line1 then clamp s 0 1 else s, t)
          else (s, t)
        else (s, t) in
      finish s t.

(** [squaredDistance(LineSegmentT const & other, this_pt, other_pt)]: the
    returned value with the pair of points. *)
Definition squaredDistance_segment (seg other : LineSegment)
  : Real * Vec3 Real * Vec3 Real :=
  let '(_, _, _, c1, c2) :=
    closestPtSegmentSegment (point seg) (vadd (point seg) (direction seg)) false
                            (point other) (vadd (point other) (direction other)) false in
  (squaredNorm (vsub c1 c2), c1, c2).

End Segment.

End LineSegment3.

(** The parameter of the point [closestPoint] returns. *)
Definition closest_parameter (seg : LineSegment3.LineSegment) (p : Vec3 Q) : Q :=
  let d2 := squaredNorm (LineSegment3.direction seg) in
  let t := vdot (LineSegment3.direction seg) (vsub p (LineSegment3.point seg)) in
  if Qle_bool 0 t && Qle_bool t d2 then t / d2
  else if Qltb t 0 then 0 else 1.

(** The squared distance between the points with the parameters [s] and [t]
    is [a s^2 - 2 b s t + e t^2 + 2 c s - 2 f t + r.r].  These are the
    conditions under which [(s, t)] minimises it over the unit square. *)
Definition square_minimum (a b c e f s t : Q) : Prop :=
  0 <= s <= 1 /\ 0 <= t <= 1 /\
  (s < 1 -> 0 <= a * s - b * t + c) /\ (0 < s -> a * s - b * t + c <= 0) /\
  (t < 1 -> 0 <= e * t - b * s - f) /\ (0 < t -> e * t - b * s - f <= 0).

(** A tolerance test for the examples: equality up to [1e-6]. *)
Definition fuzzyEq_example (a b : Q) : bool := Qle_bool (Qabs (a - b)) (1 # 1000000).

(** * Facts that hold in every arithmetic

    These follow from the control flow alone, so they hold whatever the
    scalar type is, IEEE 754 arithmetic included. *)

Section ControlFlow.

Context {Real : Type} {RA : RealArith Real}.

Local Open Scope real_scope.

(** [tri_tri_intersect], read with the names above. *)
Lemma tri_tri_intersect_eq (V0 V1 V2 U0 U1 U2 : Vec3 Real) :
  tri_tri_intersect V0 V1 V2 U0 U1 U2 =
  let N1 := plane_normal V0 V1 V2 in
  let N2 := plane_normal U0 U1 U2 in
  let du0 := plane_distance N1 V0 U0 in
  let du1 := plane_distance N1 V0 U1 in
  let du2 := plane_distance N1 V0 U2 in
  let dv0 := plane_distance N2 U0 V0 in
  let dv1 := plane_distance N2 U0 V1 in
  let dv2 := plane_distance N2 U0 V2 in
  if same_side du0 du1 du2 then false else
  if same_side dv0 dv1 dv2 then false else
  let index := largest_component (CROSS N1 N2) in
  match COMPUTE_INTERVALS (vget V0 index) (vget V1 index) (vget V2 index)
                          dv0 dv1 dv2 (dv0 * dv1) (dv0 * dv2) with
  | None => coplanar_tri_tri N1 V0 V1 V2 U0 U1 U2
  | Some isect1 =>
    match COMPUTE_INTERVALS (vget U0 index) (vget U1 index) (vget U2 index)
                            du0 du1 du2 (du0 * du1) (du0 * du2) with
    | None => coplanar_tri_tri N1 V0 V1 V2 U0 U1 U2
    | Some isect2 => intervals_overlap isect1 isect2
    end
  end.
Proof. reflexivity. Qed.

(** The interval macro reaches its coplanar branch only with three zero
    distances. *)
Lemma COMPUTE_INTERVALS_None (VV0 VV1 VV2 D0 D1 D2 D0D1 D0D2 : Real) :
  COMPUTE_INTERVALS VV0 VV1 VV2 D0 D1 D2 D0D1 D0D2 = None ->
  all_zero D0 D1 D2 = true.
Proof.
  unfold COMPUTE_INTERVALS, all_zero.
  destruct (D0D1 >? rzero); [discriminate | ].
  destruct (D0D2 >? rzero); [discriminate | ].
  destruct (D1 * D2 >? rzero); [discriminate | ].
  destruct (D0 =? rzero); [ | discriminate].
  destruct (D1 =? rzero); [ | discriminate].
  destruct (D2 =? rzero); [ | discriminate].
  reflexivity.
Qed.

(** The segment reconstruction leaves through its coplanar exit when both
    rejection tests pass and the first interval computation reports
    coplanarity. *)
Lemma isectline_coplanar_branch (V0 V1 V2 U0 U1 U2 : Vec3 Real) (out : IsectOut) :
  let N1 := plane_normal V0 V1 V2 in
  let N2 := plane_normal U0 U1 U2 in
  let du0 := plane_distance N1 V0 U0 in
  let du1 := plane_distance N1 V0 U1 in
  let du2 := plane_distance N1 V0 U2 in
  let dv0 := plane_distance N2 U0 V0 in
  let dv1 := plane_distance N2 U0 V1 in
  let dv2 := plane_distance N2 U0 V2 in
  let index := largest_component (CROSS N1 N2) in
  same_side du0 du1 du2 = false ->
  same_side dv0 dv1 dv2 = false ->
  compute_intervals_isectline V0 V1 V2 (vget V0 index) (vget V1 index) (vget V2 index)
    dv0 dv1 dv2 (dv0 * dv1) (dv0 * dv2) = None ->
  tri_tri_intersect_with_isectline V0 V1 V2 U0 U1 U2 out
  = (coplanar_tri_tri N1 V0 V1 V2 U0 U1 U2,
     mkIsectOut true (isectpt1 out) (isectpt2 out)).
Proof.
  unfold tri_tri_intersect_with_isectline, plane_normal, plane_distance, same_side.
  cbv zeta. intros HU HV HC. rewrite HU, HV, HC. reflexivity.
Qed.

(** Every index the kernel computes is 0, 1 or 2, so [vget] and [aget] are
    never asked for anything else. *)
Lemma largest_component_range (D : Vec3 Real) :
  (0 <= largest_component D <= 2)%Z.
Proof.
  unfold largest_component. cbv zeta.
  destruct (rabs (e1 D) >? rabs (e0 D)).
  - destruct (rabs (e2 D) >? rabs (e1 D)); lia.
  - destruct (rabs (e2 D) >? rabs (e0 D)); lia.
Qed.

Lemma projection_axes_range (N : Vec3 Real) :
  (0 <= fst (projection_axes N) <= 2 /\ 0 <= snd (projection_axes N) <= 2)%Z.
Proof.
  unfold projection_axes. cbv zeta.
  destruct (rabs (e0 N) >? rabs (e1 N)).
  - destruct (rabs (e0 N) >? rabs (e2 N)); cbn; lia.
  - destruct (rabs (e2 N) >? rabs (e1 N)); cbn; lia.
Qed.

Lemma projection_coordinates_range (primary_axis : Z) :
  (0 <= fst (projection_coordinates primary_axis) <= 2 /\
   0 <= snd (projection_coordinates primary_axis) <= 2)%Z.
Proof.
  destruct primary_axis as [ | q | q]; [cbn; lia | | cbn; lia].
  destruct q as [q | q | ]; [cbn; lia | | cbn; lia].
  destruct q; cbn; lia.
Qed.

(** On a projection of zero area the containment test is the comparison
    [v0 == p]. *)
Lemma isPointInsideTriangle_zero_area (v0 v1 v2 : Vec3 Real) (primary_axis : Z)
    (p : Vec3 Real) :
  (projected_area2 primary_axis v0 v1 v2 =? rzero) = true ->
  isPointInsideTriangle v0 v1 v2 primary_axis p = veqb v0 p.
Proof.
  unfold projected_area2, isPointInsideTriangle.
  destruct (projection_coordinates primary_axis) as [i j].
  cbv zeta. intros H. rewrite H. reflexivity.
Qed.

(** C10. [isPointInsideTriangle] is total in [primary_axis]: every value
    other than 1 and 2, in or out of the range 0..2, falls to the [default]
    label of the switch, so it selects the coordinates (1, 2) and the call
    returns what it returns for axis 0.  The coordinates are always among
    0, 1, 2, so no vector is read out of range. *)
Theorem isPointInsideTriangle_default_axis (v0 v1 v2 : Vec3 Real) (primary_axis : Z)
    (p : Vec3 Real) :
  primary_axis <> 1%Z -> primary_axis <> 2%Z ->
  projection_coordinates primary_axis = (1, 2)%Z /\
  isPointInsideTriangle v0 v1 v2 primary_axis p = isPointInsideTriangle v0 v1 v2 0 p.
Proof.
  intros H1 H2.
  assert (E : projection_coordinates primary_axis = (1, 2)%Z).
  { destruct primary_axis as [ | q | q]; [reflexivity | | reflexivity].
    destruct q as [q | q | ]; [reflexivity | | contradiction].
    destruct q; [reflexivity | reflexivity | contradiction]. }
  split; [exact E | ].
  unfold isPointInsideTriangle. rewrite E. reflexivity.
Qed.

(** The two interval macros make the same tests, so they reach their
    coplanar branch together. *)
Lemma NEWCOMPUTE_INTERVALS_None (VV0 VV1 VV2 D0 D1 D2 D0D1 D0D2 : Real) :
  NEWCOMPUTE_INTERVALS VV0 VV1 VV2 D0 D1 D2 D0D1 D0D2 = None <->
  COMPUTE_INTERVALS VV0 VV1 VV2 D0 D1 D2 D0D1 D0D2 = None.
Proof.
  unfold NEWCOMPUTE_INTERVALS, COMPUTE_INTERVALS.
  destruct (D0D1 >? rzero); [split; discriminate | ].
  destruct (D0D2 >? rzero); [split; discriminate | ].
  destruct ((D1 * D2 >? rzero) || (D0 <>? rzero)); [split; discriminate | ].
  destruct (D1 <>? rzero); [split; discriminate | ].
  destruct (D2 <>? rzero); [split; discriminate | ].
  split; reflexivity.
Qed.

(** Whatever the arithmetic, [NoDivTriTriIsect] and [tri_tri_intersect]
    leave through the same exit, and they return the same value when that
    exit is a rejection test or the coplanar test: the two functions differ
    only in how they compute and compare the two intervals. *)
Lemma NoDivTriTriIsect_same_exit (V0 V1 V2 U0 U1 U2 : Vec3 Real) :
  let N1 := plane_normal V0 V1 V2 in
  let N2 := plane_normal U0 U1 U2 in
  let du0 := plane_distance N1 V0 U0 in
  let du1 := plane_distance N1 V0 U1 in
  let du2 := plane_distance N1 V0 U2 in
  let dv0 := plane_distance N2 U0 V0 in
  let dv1 := plane_distance N2 U0 V1 in
  let dv2 := plane_distance N2 U0 V2 in
  let index := largest_component (CROSS N1 N2) in
  same_side du0 du1 du2 = true \/
  same_side dv0 dv1 dv2 = true \/
  COMPUTE_INTERVALS (vget V0 index) (vget V1 index) (vget V2 index)
                    dv0 dv1 dv2 (dv0 * dv1) (dv0 * dv2) = None \/
  COMPUTE_INTERVALS (vget U0 index) (vget U1 index) (vget U2 index)
                    du0 du1 du2 (du0 * du1) (du0 * du2) = None ->
  NoDivTriTriIsect V0 V1 V2 U0 U1 U2 = tri_tri_intersect V0 V1 V2 U0 U1 U2.
Proof.
  unfold NoDivTriTriIsect, tri_tri_intersect, plane_normal, plane_distance, same_side.
  cbv zeta.
  set (N1 := CROSS (SUB V1 V0) (SUB V2 V0)).
  set (N2 := CROSS (SUB U1 U0) (SUB U2 U0)).
  set (du0 := snap (DOT N1 U0 + - DOT N1 V0)).
  set (du1 := snap (DOT N1 U1 + - DOT N1 V0)).
  set (du2 := snap (DOT N1 U2 + - DOT N1 V0)).
  set (dv0 := snap (DOT N2 V0 + - DOT N2 U0)).
  set (dv1 := snap (DOT N2 V1 + - DOT N2 U0)).
  set (dv2 := snap (DOT N2 V2 + - DOT N2 U0)).
  set (index := largest_component (CROSS N1 N2)).
  set (gu := (du0 * du1 >? rzero) && (du0 * du2 >? rzero)).
  set (gv := (dv0 * dv1 >? rzero) && (dv0 * dv2 >? rzero)).
  set (cv := COMPUTE_INTERVALS (vget V0 index) (vget V1 index) (vget V2 index)
               dv0 dv1 dv2 (dv0 * dv1) (dv0 * dv2)).
  set (cu := COMPUTE_INTERVALS (vget U0 index) (vget U1 index) (vget U2 index)
               du0 du1 du2 (du0 * du1) (du0 * du2)).
  set (nv := NEWCOMPUTE_INTERVALS (vget V0 index) (vget V1 index) (vget V2 index)
               dv0 dv1 dv2 (dv0 * dv1) (dv0 * dv2)).
  set (nu := NEWCOMPUTE_INTERVALS (vget U0 index) (vget U1 index) (vget U2 index)
               du0 du1 du2 (du0 * du1) (du0 * du2)).
  assert (EV : nv = None <-> cv = None) by apply NEWCOMPUTE_INTERVALS_None.
  assert (EU : nu = None <-> cu = None) by apply NEWCOMPUTE_INTERVALS_None.
  clearbody gu gv cv cu nv nu.
  intros H.
  destruct gu; [reflexivity | ].
  destruct gv; [reflexivity | ].
  destruct H as [H | [H | [H | H]]]; try discriminate H.
  - rewrite H, (proj2 EV H). reflexivity.
  - rewrite H, (proj2 EU H).
    destruct cv as [i1 | ], nv as [abc | ]; reflexivity.
Qed.

End ControlFlow.

(** * Facts of the exact model *)

(** ** Comparisons of rationals *)

Lemma Qltb_lt (a b : Q) : Qltb a b = true <-> a < b.
Proof.
  unfold Qltb. rewrite Qlt_alt. destruct (a ?= b); split; congruence.
Qed.

Lemma Qltb_ge (a b : Q) : Qltb a b = false <-> b <= a.
Proof.
  rewrite <- not_true_iff_false, Qltb_lt. split; [apply Qnot_lt_le | apply Qle_not_lt].
Qed.

Lemma Qle_bool_gt (a b : Q) : Qle_bool a b = false <-> b < a.
Proof.
  rewrite <- not_true_iff_false, Qle_bool_iff. split; [apply Qnot_le_lt | apply Qlt_not_le].
Qed.

Lemma Qeq_bool_false (a b : Q) : Qeq_bool a b = false <-> ~ a == b.
Proof.
  rewrite <- not_true_iff_false, Qeq_bool_iff. tauto.
Qed.

(** Unfold the operations of [ExactQ] to those of [Q]. *)
Ltac exact_ops :=
  change (@rzero Q ExactQ) with 0;
  change (@rone Q ExactQ) with 1;
  change (@radd Q ExactQ) with Qplus;
  change (@rsub Q ExactQ) with Qminus;
  change (@rmul Q ExactQ) with Qmult;
  change (@rdiv Q ExactQ) with Qdiv;
  change (@ropp Q ExactQ) with Qopp;
  change (@rabs Q ExactQ) with Qabs;
  change (@rltb Q ExactQ) with Qltb;
  change (@rleb Q ExactQ) with Qle_bool;
  change (@reqb Q ExactQ) with Qeq_bool.

(** Replace every boolean comparison by the order fact it decides. *)
Ltac qcases :=
  repeat match goal with
  | |- context [Qltb ?a ?b] =>
      let E := fresh "E" in
      destruct (Qltb a b) eqn:E; [apply Qltb_lt in E | apply Qltb_ge in E]
  | |- context [Qle_bool ?a ?b] =>
      let E := fresh "E" in
      destruct (Qle_bool a b) eqn:E; [apply Qle_bool_iff in E | apply Qle_bool_gt in E]
  | |- context [Qeq_bool ?a ?b] =>
      let E := fresh "E" in
      destruct (Qeq_bool a b) eqn:E; [apply Qeq_bool_iff in E | apply Qeq_bool_false in E]
  end.

Lemma Qltb_scale_pos (k a b : Q) : 0 < k -> Qltb (k * a) (k * b) = Qltb a b.
Proof.
  intros Hk. qcases; try reflexivity; exfalso; nra.
Qed.

Lemma Qltb_scale_neg (k a b : Q) : k < 0 -> Qltb (k * a) (k * b) = Qltb b a.
Proof.
  intros Hk. qcases; try reflexivity; exfalso; nra.
Qed.

Lemma intervals_overlap_ext (a b c d a' b' c' d' : Q) :
  a == a' -> b == b' -> c == c' -> d == d' ->
  intervals_overlap (a, b) (c, d) = intervals_overlap (a', b') (c', d').
Proof.
  intros Ha Hb Hc Hd. unfold intervals_overlap, SORT. exact_ops. cbn [fst snd].
  destruct (Qltb b a) eqn:E1, (Qltb b' a') eqn:E2, (Qltb d c) eqn:E3, (Qltb d' c') eqn:E4;
    rewrite ?Qltb_lt, ?Qltb_ge in *;
    qcases; try reflexivity; exfalso; lra.
Qed.

Lemma intervals_overlap_scale (k a b c d : Q) :
  ~ k == 0 ->
  intervals_overlap (k * a, k * b) (k * c, k * d) = intervals_overlap (a, b) (c, d).
Proof.
  intros Hk. unfold intervals_overlap, SORT. exact_ops. cbn [fst snd].
  destruct (Qlt_le_dec 0 k) as [Hpos | Hle].
  - rewrite !(Qltb_scale_pos k _ _ Hpos).
    destruct (Qltb b a), (Qltb d c); now rewrite !(Qltb_scale_pos k _ _ Hpos).
  - assert (Hneg : k < 0) by (apply Qle_lteq in Hle; destruct Hle; [assumption | contradiction]).
    rewrite !(Qltb_scale_neg k _ _ Hneg).
    destruct (Qltb a b) eqn:Eab, (Qltb b a) eqn:Eba, (Qltb c d) eqn:Ecd, (Qltb d c) eqn:Edc;
      rewrite ?(Qltb_scale_neg k _ _ Hneg);
      rewrite ?Qltb_lt, ?Qltb_ge in *;
      qcases; try reflexivity; exfalso; lra.
Qed.

Lemma sq_nonpos (x : Q) : x * x <= 0 -> x == 0.
Proof. intros H. nra. Qed.

Lemma Qmult_pos_nonzero_l (x y : Q) : 0 < x * y -> ~ x == 0.
Proof. intros H E. rewrite E in H. lra. Qed.

Lemma Qmult_pos_nonzero_r (x y : Q) : 0 < x * y -> ~ y == 0.
Proof. intros H E. rewrite E in H. lra. Qed.

(** A nonzero distance differs from any distance that is zero or of the
    opposite sign. *)
Lemma differ_of_opposite (x y : Q) : ~ x == 0 -> x * y <= 0 -> ~ x - y == 0.
Proof.
  intros Hx Hxy E. apply Hx. apply sq_nonpos.
  assert (Ey : y == x) by lra. rewrite Ey in Hxy. exact Hxy.
Qed.

Lemma differ_of_opposite' (x y : Q) : ~ y == 0 -> x * y <= 0 -> ~ x - y == 0.
Proof.
  intros Hy Hxy E. apply (differ_of_opposite y x Hy); [rewrite Qmult_comm; exact Hxy | lra].
Qed.

Lemma third_opposite (x y z : Q) : 0 < x * y -> x * z <= 0 -> y * z <= 0.
Proof.
  intros Hxy Hxz.
  destruct (Qlt_le_dec 0 (y * z)) as [H | H]; [ | exact H].
  exfalso.
  assert (0 < (x * y) * (y * z)) by (apply Qmult_lt_0_compat; assumption).
  assert (0 <= y * y) by nra.
  assert ((x * y) * (y * z) == (y * y) * (x * z)) by ring.
  nra.
Qed.

(** The two interval macros take the same branch, and the division-free one
    carries the numerators and the (nonzero) denominators of the other. *)
Lemma compute_intervals_match (VV0 VV1 VV2 D0 D1 D2 : Q) :
  (rzero <? D0 * D1)%real && (rzero <? D0 * D2)%real = false ->
  intervals_match
    (COMPUTE_INTERVALS VV0 VV1 VV2 D0 D1 D2 (D0 * D1)%real (D0 * D2)%real)
    (NEWCOMPUTE_INTERVALS VV0 VV1 VV2 D0 D1 D2 (D0 * D1)%real (D0 * D2)%real).
Proof.
  unfold COMPUTE_INTERVALS, NEWCOMPUTE_INTERVALS, ISECT. exact_ops.
  intros G.
  destruct (Qltb 0 (D0 * D1)) eqn:E01; [apply Qltb_lt in E01 | apply Qltb_ge in E01];
  (destruct (Qltb 0 (D0 * D2)) eqn:E02; [apply Qltb_lt in E02 | apply Qltb_ge in E02]);
  try discriminate G; cbn [orb negb].
  - (* D0, D1 on one side *)
    constructor.
    + apply differ_of_opposite'; [eapply Qmult_pos_nonzero_l; eassumption | ].
      rewrite Qmult_comm; exact E02.
    + apply differ_of_opposite'; [eapply Qmult_pos_nonzero_r; eassumption | ].
      rewrite Qmult_comm. eapply third_opposite; eassumption.
  - (* D0, D2 on one side *)
    constructor.
    + apply differ_of_opposite'; [eapply Qmult_pos_nonzero_l; eassumption | ].
      rewrite Qmult_comm; exact E01.
    + apply differ_of_opposite'; [eapply Qmult_pos_nonzero_r; eassumption | ].
      rewrite Qmult_comm. eapply third_opposite; eassumption.
  - destruct (Qltb 0 (D1 * D2)) eqn:E12; [apply Qltb_lt in E12 | apply Qltb_ge in E12];
    cbn [orb].
    + (* D1, D2 on one side *)
      constructor.
      * apply differ_of_opposite'; [eapply Qmult_pos_nonzero_l; eassumption | exact E01].
      * apply differ_of_opposite'; [eapply Qmult_pos_nonzero_r; eassumption | exact E02].
    + destruct (Qeq_bool D0 0) eqn:Z0; [apply Qeq_bool_iff in Z0 | apply Qeq_bool_false in Z0];
      cbn [negb].
      * destruct (Qeq_bool D1 0) eqn:Z1; [apply Qeq_bool_iff in Z1 | apply Qeq_bool_false in Z1];
        cbn [negb].
        -- destruct (Qeq_bool D2 0) eqn:Z2; [apply Qeq_bool_iff in Z2 | apply Qeq_bool_false in Z2];
           cbn [negb].
           ++ constructor.
           ++ constructor; intro; apply Z2; lra.
        -- constructor; [intro; apply Z1; lra | ].
           apply differ_of_opposite; assumption.
      * constructor; apply differ_of_opposite; assumption.
Qed.

Lemma nodiv_overlap_correct (a b c x0 x1 d e f y0 y1 : Q) :
  ~ x0 == 0 -> ~ x1 == 0 -> ~ y0 == 0 -> ~ y1 == 0 ->
  nodiv_overlap (a, b, c, x0, x1) (d, e, f, y0, y1)
  = intervals_overlap (a + b / x0, a + c / x1) (d + e / y0, d + f / y1).
Proof.
  intros Hx0 Hx1 Hy0 Hy1. unfold nodiv_overlap. exact_ops.
  rewrite <- (intervals_overlap_scale (x0 * x1 * (y0 * y1)) (a + b / x0) (a + c / x1)
                (d + e / y0) (d + f / y1)).
  - apply intervals_overlap_ext; field; assumption.
  - intro Hk. apply Qmult_integral in Hk. destruct Hk as [Hk | Hk];
      apply Qmult_integral in Hk; tauto.
Qed.

(** In exact arithmetic the division-based overlap test and the
    division-free one return the same boolean on every pair of triangles:
    after the two rejection tests no denominator [D0 - D1], [D0 - D2] is
    zero, and the division-free intervals are the others multiplied by the
    nonzero product of the four denominators. *)
Lemma NoDivTriTriIsect_exact (V0 V1 V2 U0 U1 U2 : Vec3 Q) :
  NoDivTriTriIsect V0 V1 V2 U0 U1 U2 = tri_tri_intersect V0 V1 V2 U0 U1 U2.
Proof.
  unfold NoDivTriTriIsect, tri_tri_intersect. cbv zeta.
  set (N1 := CROSS (SUB V1 V0) (SUB V2 V0)).
  set (N2 := CROSS (SUB U1 U0) (SUB U2 U0)).
  set (du0 := snap _). set (du1 := snap _). set (du2 := snap _).
  destruct (rltb _ (du0 * du1)%real && _) eqn:GU; [reflexivity | ].
  set (dv0 := snap _). set (dv1 := snap _). set (dv2 := snap _).
  destruct (rltb _ (dv0 * dv1)%real && _) eqn:GV; [reflexivity | ].
  set (index := largest_component _).
  destruct (compute_intervals_match (vget V0 index) (vget V1 index) (vget V2 index)
              dv0 dv1 dv2 GV) as [ | a b c x0 x1 Hx0 Hx1]; [reflexivity | ].
  destruct (compute_intervals_match (vget U0 index) (vget U1 index) (vget U2 index)
              du0 du1 du2 GU) as [ | d e f y0 y1 Hy0 Hy1]; [reflexivity | ].
  apply nodiv_overlap_correct; assumption.
Qed.

(** C1, amended. [tri_tri_intersect] and [NoDivTriTriIsect] return the same
    boolean on every pair of triangles when the arithmetic is exact; and in
    every arithmetic, IEEE 754 included, they return the same boolean
    whenever the call ends at one of the two rejection tests or in the
    coplanar test.  What is left is the comparison of the two intervals in
    rounded arithmetic, where the two can differ. *)
Theorem NoDivTriTriIsect_agrees :
  (forall V0 V1 V2 U0 U1 U2 : Vec3 Q,
     NoDivTriTriIsect V0 V1 V2 U0 U1 U2 = tri_tri_intersect V0 V1 V2 U0 U1 U2) /\
  (forall (Real : Type) (RA : RealArith Real) (V0 V1 V2 U0 U1 U2 : Vec3 Real),
     let N1 := plane_normal V0 V1 V2 in
     let N2 := plane_normal U0 U1 U2 in
     let du0 := plane_distance N1 V0 U0 in
     let du1 := plane_distance N1 V0 U1 in
     let du2 := plane_distance N1 V0 U2 in
     let dv0 := plane_distance N2 U0 V0 in
     let dv1 := plane_distance N2 U0 V1 in
     let dv2 := plane_distance N2 U0 V2 in
     let index := largest_component (CROSS N1 N2) in
     same_side du0 du1 du2 = true \/
     same_side dv0 dv1 dv2 = true \/
     COMPUTE_INTERVALS (vget V0 index) (vget V1 index) (vget V2 index)
                       dv0 dv1 dv2 (dv0 * dv1)%real (dv0 * dv2)%real = None \/
     COMPUTE_INTERVALS (vget U0 index) (vget U1 index) (vget U2 index)
                       du0 du1 du2 (du0 * du1)%real (du0 * du2)%real = None ->
     NoDivTriTriIsect V0 V1 V2 U0 U1 U2 = tri_tri_intersect V0 V1 V2 U0 U1 U2).
Proof.
  split.
  - exact NoDivTriTriIsect_exact.
  - intros Real RA. exact (@NoDivTriTriIsect_same_exit Real RA).
Qed.

(** *** Symmetry of the coplanar test *)

Lemma if_true_orb (a b : bool) : (if a then true else b) = a || b.
Proof. reflexivity. Qed.

(** Two comparisons that decide the same order fact. *)
Ltac qbool_eq := qcases; try reflexivity; exfalso; lra.

(** Swapping the two edges of [EDGE_EDGE_TEST] negates [f] and exchanges
    [d] and [e] with a change of sign; the decision is the same. *)
Lemma EDGE_EDGE_TEST_sym (i0 i1 : Z) (Va Vb Ua Ub : Vec3 Q) :
  EDGE_EDGE_TEST i0 i1 (vget Ub i0 - vget Ua i0) (vget Ub i1 - vget Ua i1) Ua Va Vb
  = EDGE_EDGE_TEST i0 i1 (vget Vb i0 - vget Va i0) (vget Vb i1 - vget Va i1) Va Ua Ub.
Proof.
  unfold EDGE_EDGE_TEST. cbv zeta. exact_ops.
  generalize (vget Va i0) (vget Va i1) (vget Vb i0) (vget Vb i1)
             (vget Ua i0) (vget Ua i1) (vget Ub i0) (vget Ub i1).
  intros vax vay vbx vby uax uay ubx uby.
  set (f := (vby - vay) * (uax - ubx) - (vbx - vax) * (uay - uby)).
  set (d := (uay - uby) * (vax - uax) - (uax - ubx) * (vay - uay)).
  set (e := (vbx - vax) * (vay - uay) - (vby - vay) * (vax - uax)).
  set (f' := (uby - uay) * (vax - vbx) - (ubx - uax) * (vay - vby)).
  set (d' := (vay - vby) * (uax - vax) - (vax - vbx) * (uay - vay)).
  set (e' := (ubx - uax) * (uay - vay) - (uby - uay) * (uax - vax)).
  assert (Hf : f' == - f) by (unfold f, f'; ring).
  assert (Hd : d' == - e) by (unfold d', e; ring).
  assert (He : e' == - d) by (unfold e', d; ring).
  clearbody f d e f' d' e'.
  assert (F1 : Qltb 0 f' = Qltb f 0) by qbool_eq.
  assert (F2 : Qltb f' 0 = Qltb 0 f) by qbool_eq.
  assert (D1 : Qle_bool 0 d' = Qle_bool e 0) by qbool_eq.
  assert (D2 : Qle_bool d' f' = Qle_bool f e) by qbool_eq.
  assert (D3 : Qle_bool d' 0 = Qle_bool 0 e) by qbool_eq.
  assert (D4 : Qle_bool f' d' = Qle_bool e f) by qbool_eq.
  assert (E1 : Qle_bool 0 e' = Qle_bool d 0) by qbool_eq.
  assert (E2 : Qle_bool e' f' = Qle_bool f d) by qbool_eq.
  assert (E3 : Qle_bool e' 0 = Qle_bool 0 d) by qbool_eq.
  assert (E4 : Qle_bool f' e' = Qle_bool d f) by qbool_eq.
  rewrite F1, F2, D1, D2, D3, D4, E1, E2, E3, E4.
  destruct (Qltb 0 f) eqn:Epos, (Qltb f 0) eqn:Eneg; cbn [andb orb].
  - apply Qltb_lt in Epos, Eneg. exfalso; lra.
  - destruct (Qle_bool 0 d), (Qle_bool d f), (Qle_bool 0 e), (Qle_bool e f); reflexivity.
  - destruct (Qle_bool d 0), (Qle_bool f d), (Qle_bool e 0), (Qle_bool f e); reflexivity.
  - reflexivity.
Qed.

Lemma EDGE_AGAINST_TRI_EDGES_spec (i0 i1 : Z) (V0 V1 U0 U1 U2 : Vec3 Q) :
  let E Ua Ub :=
    EDGE_EDGE_TEST i0 i1 (vget V1 i0 - vget V0 i0) (vget V1 i1 - vget V0 i1) V0 Ua Ub in
  EDGE_AGAINST_TRI_EDGES i0 i1 V0 V1 U0 U1 U2 = E U0 U1 || E U1 U2 || E U2 U0.
Proof.
  cbv zeta. unfold EDGE_AGAINST_TRI_EDGES. cbv zeta. exact_ops.
  rewrite !if_true_orb. now rewrite orb_assoc.
Qed.

Lemma coplanar_tests_sym (i0 i1 : Z) (V0 V1 V2 U0 U1 U2 : Vec3 Q) :
  coplanar_tests i0 i1 U0 U1 U2 V0 V1 V2 = coplanar_tests i0 i1 V0 V1 V2 U0 U1 U2.
Proof.
  unfold coplanar_tests. rewrite !EDGE_AGAINST_TRI_EDGES_spec. cbv zeta.
  rewrite !if_true_orb.
  rewrite !(EDGE_EDGE_TEST_sym i0 i1 _ _ U0 U1), !(EDGE_EDGE_TEST_sym i0 i1 _ _ U1 U2),
          !(EDGE_EDGE_TEST_sym i0 i1 _ _ U2 U0).
  repeat match goal with
  | |- context [EDGE_EDGE_TEST ?a ?b ?c ?d ?e ?f ?g] =>
      generalize (EDGE_EDGE_TEST a b c d e f g); intro
  end.
  generalize (POINT_IN_TRI i0 i1 V0 U0 U1 U2) (POINT_IN_TRI i0 i1 U0 V0 V1 V2).
  intros p q.
  apply eq_true_iff_eq. rewrite !orb_true_iff. tauto.
Qed.

Lemma largest_component_ext (D D' : Vec3 Q) :
  Qabs (e0 D) == Qabs (e0 D') -> Qabs (e1 D) == Qabs (e1 D') ->
  Qabs (e2 D) == Qabs (e2 D') ->
  largest_component D = largest_component D'.
Proof.
  unfold largest_component. cbv zeta. exact_ops.
  generalize (Qabs (e0 D)) (Qabs (e1 D)) (Qabs (e2 D))
             (Qabs (e0 D')) (Qabs (e1 D')) (Qabs (e2 D')).
  intros a b c a' b' c' Ha Hb Hc.
  assert (E : Qltb a b = Qltb a' b') by qbool_eq. rewrite E.
  destruct (Qltb a' b').
  - assert (F : Qltb b c = Qltb b' c') by qbool_eq. rewrite F.
    destruct (Qltb _ c'); reflexivity.
  - assert (F : Qltb a c = Qltb a' c') by qbool_eq. rewrite F.
    destruct (Qltb _ c'); reflexivity.
Qed.

Lemma largest_component_CROSS_sym (N1 N2 : Vec3 Q) :
  largest_component (CROSS N2 N1) = largest_component (CROSS N1 N2).
Proof.
  apply largest_component_ext; unfold CROSS; cbn [e0 e1 e2]; exact_ops;
    rewrite <- Qabs_opp; apply Qabs_wd; ring.
Qed.

Lemma intervals_overlap_sym (i1 i2 : Q * Q) :
  intervals_overlap i2 i1 = intervals_overlap i1 i2.
Proof.
  unfold intervals_overlap.
  destruct (SORT (fst i1) (snd i1)) as [a0 a1], (SORT (fst i2) (snd i2)) as [b0 b1].
  now rewrite orb_comm.
Qed.

(** C2, amended. [tri_tri_intersect] gives the same answer for (T1, T2) and
    for (T2, T1) whenever the coplanar fallback is not reached (neither
    triangle has its three snapped distances to the plane of the other all
    zero), or the normals of the two triangles select the same projection in
    [coplanar_tri_tri]. *)
Theorem tri_tri_intersect_sym (V0 V1 V2 U0 U1 U2 : Vec3 Q) :
  let N1 := plane_normal V0 V1 V2 in
  let N2 := plane_normal U0 U1 U2 in
  let du i := plane_distance N1 V0 i in
  let dv i := plane_distance N2 U0 i in
  projection_axes N1 = projection_axes N2 \/
  (all_zero (du U0) (du U1) (du U2) = false /\ all_zero (dv V0) (dv V1) (dv V2) = false) ->
  tri_tri_intersect V0 V1 V2 U0 U1 U2 = tri_tri_intersect U0 U1 U2 V0 V1 V2.
Proof.
  intros N1 N2 du dv H.
  rewrite !tri_tri_intersect_eq. cbv zeta. fold N1 N2.
  rewrite (largest_component_CROSS_sym N1 N2).
  subst du dv. cbv beta in H.
  set (du0 := plane_distance N1 V0 U0) in *. set (du1 := plane_distance N1 V0 U1) in *.
  set (du2 := plane_distance N1 V0 U2) in *.
  set (dv0 := plane_distance N2 U0 V0) in *. set (dv1 := plane_distance N2 U0 V1) in *.
  set (dv2 := plane_distance N2 U0 V2) in *.
  set (index := largest_component _).
  destruct (same_side du0 du1 du2), (same_side dv0 dv1 dv2); try reflexivity.
  destruct (COMPUTE_INTERVALS (vget V0 index) _ _ _ _ _ _ _) as [isect1 | ] eqn:CV,
           (COMPUTE_INTERVALS (vget U0 index) _ _ _ _ _ _ _) as [isect2 | ] eqn:CU.
  - symmetry. apply intervals_overlap_sym.
  - apply COMPUTE_INTERVALS_None in CU.
    destruct H as [H | [H _]]; [ | congruence].
    unfold coplanar_tri_tri. rewrite H.
    destruct (projection_axes N2) as [i0 i1]. symmetry. apply coplanar_tests_sym.
  - apply COMPUTE_INTERVALS_None in CV.
    destruct H as [H | [_ H]]; [ | congruence].
    unfold coplanar_tri_tri. rewrite H.
    destruct (projection_axes N2) as [i0 i1]. symmetry. apply coplanar_tests_sym.
  - apply COMPUTE_INTERVALS_None in CV.
    destruct H as [H | [_ H]]; [ | congruence].
    unfold coplanar_tri_tri. rewrite H.
    destruct (projection_axes N2) as [i0 i1]. symmetry. apply coplanar_tests_sym.
Qed.

(** *** The coplanar exit of the segment reconstruction *)

Lemma all_zero_Qeq (d0 d1 d2 : Q) :
  all_zero d0 d1 d2 = true -> d0 == 0 /\ d1 == 0 /\ d2 == 0.
Proof.
  unfold all_zero. exact_ops. rewrite !andb_true_iff, !Qeq_bool_iff. tauto.
Qed.

Lemma compute_intervals_isectline_None (VERT0 VERT1 VERT2 : Vec3 Q) (VV0 VV1 VV2 D0 D1 D2 : Q) :
  all_zero D0 D1 D2 = true ->
  compute_intervals_isectline VERT0 VERT1 VERT2 VV0 VV1 VV2 D0 D1 D2
    (D0 * D1)%real (D0 * D2)%real = None.
Proof.
  intros H. pose proof (all_zero_Qeq _ _ _ H) as (H0 & H1 & H2).
  unfold compute_intervals_isectline. exact_ops.
  assert (E01 : Qltb 0 (D0 * D1) = false) by (apply Qltb_ge; nra).
  assert (E02 : Qltb 0 (D0 * D2) = false) by (apply Qltb_ge; nra).
  assert (E12 : Qltb 0 (D1 * D2) = false) by (apply Qltb_ge; nra).
  rewrite E01, E02, E12.
  apply Qeq_bool_iff in H0, H1, H2. rewrite H0, H1, H2. reflexivity.
Qed.

Lemma all_zero_not_same_side (d0 d1 d2 : Q) :
  all_zero d0 d1 d2 = true -> same_side d0 d1 d2 = false.
Proof.
  intros H. pose proof (all_zero_Qeq _ _ _ H) as (H0 & H1 & H2).
  unfold same_side. exact_ops.
  assert (E01 : Qltb 0 (d0 * d1) = false) by (apply Qltb_ge; nra).
  now rewrite E01.
Qed.

(** When the three snapped distances of the vertices of the first triangle
    to the plane of the second are zero (and the second triangle is not
    rejected before), the first interval computation reports coplanarity
    and [tri_tri_intersect_with_isectline] does what C3 says: it sets
    [coplanar] to true, leaves [isectpt1] and [isectpt2] as they were, and
    returns the result of [coplanar_tri_tri]. *)
Lemma isectline_coplanar_exit (V0 V1 V2 U0 U1 U2 : Vec3 Q) (out : IsectOut) :
  let N1 := plane_normal V0 V1 V2 in
  let N2 := plane_normal U0 U1 U2 in
  let du i := plane_distance N1 V0 i in
  let dv i := plane_distance N2 U0 i in
  same_side (du U0) (du U1) (du U2) = false ->
  all_zero (dv V0) (dv V1) (dv V2) = true ->
  tri_tri_intersect_with_isectline V0 V1 V2 U0 U1 U2 out
  = (coplanar_tri_tri N1 V0 V1 V2 U0 U1 U2,
     mkIsectOut true (isectpt1 out) (isectpt2 out)).
Proof.
  intros N1 N2 du dv Hside Hzero.
  apply isectline_coplanar_branch.
  - exact Hside.
  - exact (all_zero_not_same_side _ _ _ Hzero).
  - exact (compute_intervals_isectline_None _ _ _ _ _ _ _ _ _ Hzero).
Qed.

(** *** Closest point on the perimeter *)

Lemma closestPointOnTrianglePerimeter_eq (v dir : Arr3 (Vec3 Q)) (len : Arr3 Q) (p : Vec3 Q) :
  closestPointOnTrianglePerimeter v dir len p =
  let d := edge_dist2 v dir len p in
  let k := if Qltb (d 0%Z) (d 1%Z)
           then if Qltb (d 0%Z) (d 2%Z) then 0%Z else 2%Z
           else if Qltb (d 1%Z) (d 2%Z) then 1%Z else 2%Z in
  (edge_point v dir len p k, k).
Proof.
  destruct v as [[v0 v1] v2], dir as [[g0 g1] g2], len as [[l0 l1] l2].
  unfold closestPointOnTrianglePerimeter, edge_dist2, edge_point. cbv zeta.
  cbn [aget next Z.eqb Pos.eqb]. exact_ops.
  set (d0 := squaredNorm (vsub (closestPointOnLineSegment v0 v1 g0 l0 p) p)).
  set (d1 := squaredNorm (vsub (closestPointOnLineSegment v1 v2 g1 l1 p) p)).
  set (d2 := squaredNorm (vsub (closestPointOnLineSegment v2 v0 g2 l2 p) p)).
  destruct (Qltb d0 d1), (Qltb d0 d2), (Qltb d1 d2); reflexivity.
Qed.

(** C4, amended. [closestPointOnTrianglePerimeter] returns the closest
    point of one of the three edges, with the index of that edge; its squared
    distance to the query point is the least of the three, and strictly less
    than that of every edge with a higher index: among tied edges the one
    with the highest index is selected. *)
Theorem closestPointOnTrianglePerimeter_nearest
    (v dir : Arr3 (Vec3 Q)) (len : Arr3 Q) (p : Vec3 Q) :
  let res := closestPointOnTrianglePerimeter v dir len p in
  let k := snd res in
  let d := edge_dist2 v dir len p in
  (k = 0 \/ k = 1 \/ k = 2)%Z /\
  fst res = edge_point v dir len p k /\
  (forall j, (0 <= j <= 2)%Z -> d k <= d j) /\
  (forall j, (k < j <= 2)%Z -> d k < d j).
Proof.
  rewrite closestPointOnTrianglePerimeter_eq. cbv zeta. cbn [fst snd].
  generalize (edge_point v dir len p). intros r.
  set (d := edge_dist2 v dir len p).
  assert (J : forall j, (0 <= j <= 2)%Z -> j = 0%Z \/ j = 1%Z \/ j = 2%Z) by (intros; lia).
  destruct (Qltb (d 0%Z) (d 1%Z)) eqn:E01; [apply Qltb_lt in E01 | apply Qltb_ge in E01].
  - destruct (Qltb (d 0%Z) (d 2%Z)) eqn:E02; [apply Qltb_lt in E02 | apply Qltb_ge in E02].
    + repeat split; [tauto | | ].
      * intros j Hj. destruct (J j Hj) as [-> | [-> | ->]]; lra.
      * intros j Hj. assert (Hj' : j = 1%Z \/ j = 2%Z) by lia.
        destruct Hj' as [-> | ->]; lra.
    + repeat split; [tauto | | ].
      * intros j Hj. destruct (J j Hj) as [-> | [-> | ->]]; lra.
      * intros j Hj. lia.
  - destruct (Qltb (d 1%Z) (d 2%Z)) eqn:E12; [apply Qltb_lt in E12 | apply Qltb_ge in E12].
    + repeat split; [tauto | | ].
      * intros j Hj. destruct (J j Hj) as [-> | [-> | ->]]; lra.
      * intros j Hj. assert (Hj' : j = 2%Z) by lia. subst j. lra.
    + repeat split; [tauto | | ].
      * intros j Hj. destruct (J j Hj) as [-> | [-> | ->]]; lra.
      * intros j Hj. lia.
Qed.

(** *** Ray against triangle *)

Lemma EPS_pos : 0 < @EPS Q ExactQ.
Proof. reflexivity. Qed.

(** The decision of [rayTriangleIntersectionTime] on the four scalars it
    computes: the denominator [D], the two barycentric numerators and the
    numerator of the time. *)
Lemma ray_decision (ray : Ray3) (v0 edge01 edge02 : Vec3 Q) :
  let D := ray_DdN ray edge01 edge02 in
  let b1 := ray_b1 ray v0 edge01 edge02 in
  let b2 := ray_b2 ray v0 edge01 edge02 in
  let t := ray_t ray v0 edge01 edge02 in
  let r := rayTriangleIntersectionTime ray v0 edge01 edge02 in
  (Qabs D <= EPS /\ r = - (1)) \/
  (EPS < Qabs D /\ (b1 < 0 \/ b2 < 0 \/ 1 < b1 + b2 \/ t < 0) /\ r = - (1)) \/
  (EPS < Qabs D /\ 0 <= b1 /\ 0 <= b2 /\ b1 + b2 <= 1 /\ 0 <= t /\ r == t).
Proof.
  unfold ray_b1, ray_b2, ray_t, ray_DdN, rayTriangleIntersectionTime. cbv zeta.
  exact_ops. pose proof EPS_pos as Heps. revert Heps. generalize (@EPS Q ExactQ). intros eps Heps.
  set (D := vdot (getDirection ray) (vcross edge01 edge02)).
  set (n1 := vdot (getDirection ray) (vcross (vsub (getOrigin ray) v0) edge02)).
  set (n2 := vdot (getDirection ray) (vcross edge01 (vsub (getOrigin ray) v0))).
  set (qn := vdot (vsub (getOrigin ray) v0) (vcross edge01 edge02)).
  clearbody D n1 n2 qn.
  destruct (Qltb eps D) eqn:Epos; [apply Qltb_lt in Epos | apply Qltb_ge in Epos].
  - (* sign = 1 *)
    assert (HD : ~ D == 0) by lra.
    assert (Habs : Qabs D == D) by (apply Qabs_pos; lra).
    assert (H1 : n1 == (n1 / D) * D) by (field; exact HD).
    assert (H2 : n2 == (n2 / D) * D) by (field; exact HD).
    assert (H3 : - qn == (- qn / D) * D) by (field; exact HD).
    assert (Hr : - (1) * qn / D == - qn / D) by (field; exact HD).
    set (b1 := n1 / D) in *. set (b2 := n2 / D) in *. set (t := - qn / D) in *.
    clearbody b1 b2 t.
    destruct (Qle_bool 0 (1 * n1)) eqn:C1; [apply Qle_bool_iff in C1 | apply Qle_bool_gt in C1].
    + destruct (Qle_bool 0 (1 * n2)) eqn:C2; [apply Qle_bool_iff in C2 | apply Qle_bool_gt in C2].
      * destruct (Qle_bool (1 * n1 + 1 * n2) D) eqn:C3;
          [apply Qle_bool_iff in C3 | apply Qle_bool_gt in C3].
        -- destruct (Qle_bool 0 (- (1) * qn)) eqn:C4;
             [apply Qle_bool_iff in C4 | apply Qle_bool_gt in C4].
           ++ right; right. rewrite Habs.
              repeat split; try exact Hr; try lra; nra.
           ++ right; left. rewrite Habs. repeat split; try lra.
              right; right; right. nra.
        -- right; left. rewrite Habs. repeat split; try lra.
           right; right; left. nra.
      * right; left. rewrite Habs. repeat split; try lra. right; left. nra.
    + right; left. rewrite Habs. repeat split; try lra. left. nra.
  - destruct (Qltb D (- eps)) eqn:Eneg; [apply Qltb_lt in Eneg | apply Qltb_ge in Eneg].
    + (* sign = -1 *)
      assert (HD : ~ D == 0) by lra.
      assert (Habs : Qabs D == - D) by (apply Qabs_neg; lra).
      assert (H1 : n1 == (n1 / D) * D) by (field; exact HD).
      assert (H2 : n2 == (n2 / D) * D) by (field; exact HD).
      assert (H3 : - qn == (- qn / D) * D) by (field; exact HD).
      assert (Hr : - - (1) * qn / - D == - qn / D) by (field; exact HD).
      set (b1 := n1 / D) in *. set (b2 := n2 / D) in *. set (t := - qn / D) in *.
      clearbody b1 b2 t.
      destruct (Qle_bool 0 (- (1) * n1)) eqn:C1; [apply Qle_bool_iff in C1 | apply Qle_bool_gt in C1].
      * destruct (Qle_bool 0 (- (1) * n2)) eqn:C2; [apply Qle_bool_iff in C2 | apply Qle_bool_gt in C2].
        -- destruct (Qle_bool (- (1) * n1 + - (1) * n2) (- D)) eqn:C3;
             [apply Qle_bool_iff in C3 | apply Qle_bool_gt in C3].
           ++ destruct (Qle_bool 0 (- - (1) * qn)) eqn:C4;
                [apply Qle_bool_iff in C4 | apply Qle_bool_gt in C4].
              ** right; right. rewrite Habs.
                 repeat split; try exact Hr; try lra; nra.
              ** right; left. rewrite Habs. repeat split; try lra.
                 right; right; right. nra.
           ++ right; left. rewrite Habs. repeat split; try lra.
              right; right; left. nra.
        -- right; left. rewrite Habs. repeat split; try lra. right; left. nra.
      * right; left. rewrite Habs. repeat split; try lra. left. nra.
    + left. split; [ | reflexivity].
      apply Qabs_Qle_condition. lra.
Qed.

(** The Moller-Trumbore identity: at time [t] the ray is at the point of
    the triangle's plane with barycentric coordinates [b1], [b2]. *)
Lemma ray_hit_point (ray : Ray3) (v0 edge01 edge02 : Vec3 Q) :
  ~ ray_DdN ray edge01 edge02 == 0 ->
  veq (vadd (getOrigin ray) (vscale (getDirection ray) (ray_t ray v0 edge01 edge02)))
      (vadd v0 (vadd (vscale edge01 (ray_b1 ray v0 edge01 edge02))
                     (vscale edge02 (ray_b2 ray v0 edge01 edge02)))).
Proof.
  destruct ray as [[ox oy oz] [dx dy dz]], v0 as [px py pz],
           edge01 as [ax ay az], edge02 as [bx b_y bz].
  unfold veq, ray_t, ray_b1, ray_b2, ray_DdN, vadd, vscale, vdot, vcross, vsub.
  cbn [e0 e1 e2 getOrigin getDirection]. exact_ops.
  intros HD. repeat split; field; exact HD.
Qed.

Lemma veq_scale_wd (a d : Vec3 Q) (r t : Q) (b : Vec3 Q) :
  r == t -> veq (vadd a (vscale d t)) b -> veq (vadd a (vscale d r)) b.
Proof.
  unfold veq, vadd, vscale. cbn [e0 e1 e2]. exact_ops.
  intros Hr (H0 & H1 & H2). rewrite Hr. auto.
Qed.


(** In exact arithmetic the value [rayTriangleIntersectionTime] returns is
    -1 or a non-negative number. *)
Lemma ray_range_exact (ray : Ray3) (v0 edge01 edge02 : Vec3 Q) :
  let r := rayTriangleIntersectionTime ray v0 edge01 edge02 in
  r = - (1) \/ 0 <= r.
Proof.
  intros r.
  pose proof (ray_decision ray v0 edge01 edge02) as H. cbv zeta in H. fold r in H.
  destruct H as [[_ H] | [(_ & _ & H) | (_ & _ & _ & _ & Ht & H)]].
  - left; exact H.
  - left; exact H.
  - right. rewrite H. exact Ht.
Qed.

(** ** Containment in a degenerate triangle *)

Lemma veqb_veq (a b : Vec3 Q) : veqb a b = true <-> veq a b.
Proof.
  unfold veqb, veq. exact_ops. rewrite !andb_true_iff, !Qeq_bool_iff. tauto.
Qed.

Lemma projected_area2_point (primary_axis : Z) (P : Vec3 Q) :
  projected_area2 primary_axis P P P == 0.
Proof.
  unfold projected_area2. destruct (projection_coordinates primary_axis) as [i j].
  unfold THEA_TRIANGLE_AREA2. exact_ops. ring.
Qed.

(** C6. When the projected area is zero, [isPointInsideTriangle] answers
    true exactly when the query point equals the vertex [v0]; in particular
    a triangle whose three vertices are one point [P] contains [P] and no
    other point. *)
Theorem isPointInsideTriangle_degenerate (v0 v1 v2 : Vec3 Q) (primary_axis : Z)
    (p P : Vec3 Q) :
  (projected_area2 primary_axis v0 v1 v2 == 0 ->
   (isPointInsideTriangle v0 v1 v2 primary_axis p = true <-> veq v0 p)) /\
  (isPointInsideTriangle P P P primary_axis p = true <-> veq P p).
Proof.
  assert (G : forall a b c : Vec3 Q,
             projected_area2 primary_axis a b c == 0 ->
             (isPointInsideTriangle a b c primary_axis p = true <-> veq a p)).
  { intros a b c H. apply Qeq_bool_iff in H.
    rewrite (isPointInsideTriangle_zero_area a b c primary_axis p) by exact H.
    apply veqb_veq. }
  split.
  - apply G.
  - apply G. apply projected_area2_point.
Qed.

Lemma isPointInsideTriangle_degenerate_witness :
  projected_area2 0 (qv 0 0 0) (qv 1 1 1) (qv 2 2 2) == 0 /\
  (isPointInsideTriangle (qv 0 0 0) (qv 1 1 1) (qv 2 2 2) 0 (qv 1 1 1) = true
   <-> veq (qv 0 0 0) (qv 1 1 1)).
Proof.
  split; [reflexivity | ].
  apply (proj1 (isPointInsideTriangle_degenerate (qv 0 0 0) (qv 1 1 1) (qv 2 2 2) 0
                  (qv 1 1 1) (qv 0 0 0))).
  reflexivity.
Defined.

Lemma isPointInsideTriangle_default_axis_witness :
  ((3 <> 1)%Z /\ (3 <> 2)%Z /\
   projection_coordinates 3 = (1, 2)%Z /\
   isPointInsideTriangle (qv 0 0 0) (qv 0 1 0) (qv 0 0 1) 3 (qv 0 (1 # 4) (1 # 4))
   = isPointInsideTriangle (qv 0 0 0) (qv 0 1 0) (qv 0 0 1) 0 (qv 0 (1 # 4) (1 # 4))) /\
  ((-1 <> 1)%Z /\ (-1 <> 2)%Z /\
   projection_coordinates (-1) = (1, 2)%Z /\
   isPointInsideTriangle (qv 0 0 0) (qv 0 1 0) (qv 0 0 1) (-1) (qv 0 (1 # 4) (1 # 4))
   = isPointInsideTriangle (qv 0 0 0) (qv 0 1 0) (qv 0 0 1) 0 (qv 0 (1 # 4) (1 # 4))).
Proof.
  split; (split; [lia | ]); (split; [lia | ]);
    apply isPointInsideTriangle_default_axis; lia.
Defined.

(** ** Closest point on a segment *)

(** C7. For arguments that describe a segment, [closestPointOnLineSegment]
    returns [v0] when the projection [t] of [point - v0] on the direction is
    at most 0, [v1] when [t] is at least the length, and [v0 + direction * t]
    in between; on the segment from (0,0,0) to (1,0,0) it returns (1,0,0)
    for (2,0,0), (0,0,0) for (-1,0,0) and (1/2,0,0) for (1/2,1,0). *)
Theorem closestPointOnLineSegment_clamps :
  (forall (v0 v1 edgeDirection : Vec3 Q) (edgeLength : Q) (point : Vec3 Q),
     is_segment v0 v1 edgeDirection edgeLength ->
     let t := vdot edgeDirection (vsub point v0) in
     let r := closestPointOnLineSegment v0 v1 edgeDirection edgeLength point in
     (t <= 0 -> r = v0) /\
     (edgeLength <= t -> veq r v1) /\
     (0 < t < edgeLength -> r = vadd v0 (vscale edgeDirection t))) /\
  veq (closestPointOnLineSegment (qv 0 0 0) (qv 1 0 0) (qv 1 0 0) 1 (qv 2 0 0))
      (qv 1 0 0) /\
  veq (closestPointOnLineSegment (qv 0 0 0) (qv 1 0 0) (qv 1 0 0) 1 (qv (-1) 0 0))
      (qv 0 0 0) /\
  veq (closestPointOnLineSegment (qv 0 0 0) (qv 1 0 0) (qv 1 0 0) 1 (qv (1 # 2) 1 0))
      (qv (1 # 2) 0 0).
Proof.
  split; [ | repeat split; reflexivity].
  intros v0 v1 edgeDirection edgeLength point [Hlen Hv1] t r.
  unfold closestPointOnLineSegment in r. cbv zeta in r. fold t in r.
  revert r. exact_ops.
  destruct (Qle_bool t 0) eqn:E0; [apply Qle_bool_iff in E0 | apply Qle_bool_gt in E0];
    [ | destruct (Qle_bool edgeLength t) eqn:E1;
        [apply Qle_bool_iff in E1 | apply Qle_bool_gt in E1] ];
    intros r; subst r.
  - split; [reflexivity | split].
    + intros Hge.
      assert (Hz : edgeLength == 0) by lra.
      destruct Hv1 as (H0 & H1 & H2). revert H0 H1 H2.
      unfold veq, vadd, vscale. cbn [e0 e1 e2]. exact_ops.
      rewrite Hz. intros H0 H1 H2. rewrite H0, H1, H2. repeat split; ring.
    + intros [Hpos _]. exfalso; lra.
  - split; [intros Hle; exfalso; lra | split].
    + intros _. destruct Hv1 as (H0 & H1 & H2). repeat split; reflexivity.
    + intros [_ Hlt]. exfalso; lra.
  - split; [intros Hle; exfalso; lra | split].
    + intros Hge. exfalso; lra.
    + reflexivity.
Qed.

Lemma closestPointOnLineSegment_clamps_witness :
  is_segment (qv 0 0 0) (qv 1 0 0) (qv 1 0 0) 1 /\
  (1 <= vdot (qv 1 0 0) (vsub (qv 2 0 0) (qv 0 0 0)) ->
   veq (closestPointOnLineSegment (qv 0 0 0) (qv 1 0 0) (qv 1 0 0) 1 (qv 2 0 0))
       (qv 1 0 0)).
Proof.
  assert (H : is_segment (qv 0 0 0) (qv 1 0 0) (qv 1 0 0) 1).
  { split; [discriminate | repeat split; reflexivity]. }
  split; [exact H | ].
  exact (proj1 (proj2 (proj1 closestPointOnLineSegment_clamps
                         (qv 0 0 0) (qv 1 0 0) (qv 1 0 0) 1 (qv 2 0 0) H))).
Defined.

(** * The claims on concrete triangles *)

(** Against C2 as stated: a unit triangle in the plane z = 0 and a triangle
    of size 2^-24 in the plane x = 5.  All six snapped distances are zero, so
    either order of the arguments ends in the coplanar test, but with the
    projection chosen from the normal of the first argument: seen along z
    the triangles are 4 apart, seen along x they touch.  The values are the
    same in exact and in binary64 arithmetic. *)
Lemma tri_tri_intersect_order_matters :
  (tri_tri_intersect (qv 0 0 0) (qv 1 0 0) (qv 0 1 0)
                     (qv 5 0 0) (qv 5 (1 # 16777216) 0) (qv 5 0 (1 # 16777216)) = false /\
   tri_tri_intersect (qv 5 0 0) (qv 5 (1 # 16777216) 0) (qv 5 0 (1 # 16777216))
                     (qv 0 0 0) (qv 1 0 0) (qv 0 1 0) = true) /\
  (tri_tri_intersect (fv 0 0 0) (fv 1 0 0) (fv 0 1 0)
                     (fv 5 0 0) (fv 5 0x1p-24 0) (fv 5 0 0x1p-24) = false /\
   tri_tri_intersect (fv 5 0 0) (fv 5 0x1p-24 0) (fv 5 0 0x1p-24)
                     (fv 0 0 0) (fv 1 0 0) (fv 0 1 0) = true).
Proof.
  repeat split; vm_compute; reflexivity.
Qed.

(** The same happens with a degenerate second triangle (a segment): its
    normal is zero, and the projections chosen from the two normals differ. *)
Lemma tri_tri_intersect_order_matters_degenerate :
  tri_tri_intersect (qv 0 0 0) (qv 2 0 0) (qv 0 2 0)
                    (qv 1 10 (-1)) (qv 1 10 1) (qv 1 10 (-1)) = false /\
  tri_tri_intersect (qv 1 10 (-1)) (qv 1 10 1) (qv 1 10 (-1))
                    (qv 0 0 0) (qv 2 0 0) (qv 0 2 0) = true.
Proof.
  split; vm_compute; reflexivity.
Qed.

Lemma tri_tri_intersect_sym_witness :
  (all_zero (plane_distance (plane_normal (qv 0 0 0) (qv 2 0 0) (qv 0 2 0)) (qv 0 0 0) (qv 1 (-1) (-1)))
            (plane_distance (plane_normal (qv 0 0 0) (qv 2 0 0) (qv 0 2 0)) (qv 0 0 0) (qv 1 (-1) 1))
            (plane_distance (plane_normal (qv 0 0 0) (qv 2 0 0) (qv 0 2 0)) (qv 0 0 0) (qv 1 3 0))
   = false /\
   all_zero (plane_distance (plane_normal (qv 1 (-1) (-1)) (qv 1 (-1) 1) (qv 1 3 0)) (qv 1 (-1) (-1)) (qv 0 0 0))
            (plane_distance (plane_normal (qv 1 (-1) (-1)) (qv 1 (-1) 1) (qv 1 3 0)) (qv 1 (-1) (-1)) (qv 2 0 0))
            (plane_distance (plane_normal (qv 1 (-1) (-1)) (qv 1 (-1) 1) (qv 1 3 0)) (qv 1 (-1) (-1)) (qv 0 2 0))
   = false) /\
  tri_tri_intersect (qv 0 0 0) (qv 2 0 0) (qv 0 2 0) (qv 1 (-1) (-1)) (qv 1 (-1) 1) (qv 1 3 0)
  = tri_tri_intersect (qv 1 (-1) (-1)) (qv 1 (-1) 1) (qv 1 3 0) (qv 0 0 0) (qv 2 0 0) (qv 0 2 0).
Proof.
  refine ((fun Hz => conj Hz (tri_tri_intersect_sym _ _ _ _ _ _ (or_intror Hz))) _).
  split; vm_compute; reflexivity.
Defined.

(** C3 fails on the code.  When it is the second triangle whose three
    snapped distances are zero, the second call of
    [compute_intervals_isectline] returns 1 (coplanar) and the function
    drops that result: it sets [coplanar] to 0 and goes on to compare the
    interval of the first triangle with the values [{0}] its local arrays
    were initialised with.  The sibling [tri_tri_intersect] goes to
    [coplanar_tri_tri] on the same condition.

    First pair: the triangle U = (0,1,0),(1,1,0),(0,2,0) in the plane z = 0
    and a thin triangle V in the plane x = 1, from z = -1 to z = 1 and
    2^-23 wide.  The three distances of U to the plane of V are -2^-22, 0
    and -2^-22 and snap to zero, those of V to the plane of U are -1, 1, 1.
    The call returns 0 with [coplanar] = 0 and leaves the two points as
    they were, where the coplanar test, and [tri_tri_intersect], answer 1.

    Second pair: the same triangles moved by (0, -1, 0).  The call returns
    1 with [coplanar] = 0 and reports the segment from (0,0,0) to (0,0,0),
    the initial value of the local arrays; (0,0,0) is not a point of V.

    All coordinates are binary32 numbers, and the results are the same in
    exact, binary32 and binary64 arithmetic. *)
Theorem isectline_second_coplanar_result_dropped :
  (let V0 := qv 1 1 (-1) in
   let V1 := qv 1 (8388609 # 8388608) 1 in
   let V2 := qv 1 1 1 in
   let U0 := qv 0 1 0 in let U1 := qv 1 1 0 in let U2 := qv 0 2 0 in
   let N1 := plane_normal V0 V1 V2 in
   all_zero (plane_distance N1 V0 U0) (plane_distance N1 V0 U1) (plane_distance N1 V0 U2)
   = true /\
   tri_tri_intersect_with_isectline V0 V1 V2 U0 U1 U2 (mkIsectOut true (qv 7 7 7) (qv 9 9 9))
   = (false, mkIsectOut false (qv 7 7 7) (qv 9 9 9)) /\
   coplanar_tri_tri N1 V0 V1 V2 U0 U1 U2 = true /\
   tri_tri_intersect V0 V1 V2 U0 U1 U2 = true) /\
  (let V0 := zv 1 1 (-1) in
   let V1 := sv (b32 1 0) (b32 8388609 (-23)) (b32 1 0) in
   let V2 := zv 1 1 1 in
   let U0 := zv 0 1 0 in let U1 := zv 1 1 0 in let U2 := zv 0 2 0 in
   let N1 := plane_normal V0 V1 V2 in
   all_zero (plane_distance N1 V0 U0) (plane_distance N1 V0 U1) (plane_distance N1 V0 U2)
   = true /\
   tri_tri_intersect_with_isectline V0 V1 V2 U0 U1 U2 (mkIsectOut true (zv 7 7 7) (zv 9 9 9))
   = (false, mkIsectOut false (zv 7 7 7) (zv 9 9 9)) /\
   coplanar_tri_tri N1 V0 V1 V2 U0 U1 U2 = true /\
   tri_tri_intersect V0 V1 V2 U0 U1 U2 = true) /\
  (let V0 := fv 1 1 (-1) in
   let V1 := fv 1 0x1.000002p+0 1 in
   let V2 := fv 1 1 1 in
   let U0 := fv 0 1 0 in let U1 := fv 1 1 0 in let U2 := fv 0 2 0 in
   let N1 := plane_normal V0 V1 V2 in
   all_zero (plane_distance N1 V0 U0) (plane_distance N1 V0 U1) (plane_distance N1 V0 U2)
   = true /\
   tri_tri_intersect_with_isectline V0 V1 V2 U0 U1 U2 (mkIsectOut true (fv 7 7 7) (fv 9 9 9))
   = (false, mkIsectOut false (fv 7 7 7) (fv 9 9 9)) /\
   coplanar_tri_tri N1 V0 V1 V2 U0 U1 U2 = true /\
   tri_tri_intersect V0 V1 V2 U0 U1 U2 = true) /\
  (let V0 := qv 1 0 (-1) in
   let V1 := qv 1 (1 # 8388608) 1 in
   let V2 := qv 1 0 1 in
   let U0 := qv 0 0 0 in let U1 := qv 1 0 0 in let U2 := qv 0 1 0 in
   let N1 := plane_normal V0 V1 V2 in
   all_zero (plane_distance N1 V0 U0) (plane_distance N1 V0 U1) (plane_distance N1 V0 U2)
   = true /\
   tri_tri_intersect_with_isectline V0 V1 V2 U0 U1 U2 (mkIsectOut true (qv 7 7 7) (qv 9 9 9))
   = (true, mkIsectOut false (qv 0 0 0) (qv 0 0 0)) /\
   coplanar_tri_tri N1 V0 V1 V2 U0 U1 U2 = true) /\
  (let V0 := zv 1 0 (-1) in
   let V1 := sv (b32 1 0) (b32 1 (-23)) (b32 1 0) in
   let V2 := zv 1 0 1 in
   let U0 := zv 0 0 0 in let U1 := zv 1 0 0 in let U2 := zv 0 1 0 in
   let N1 := plane_normal V0 V1 V2 in
   all_zero (plane_distance N1 V0 U0) (plane_distance N1 V0 U1) (plane_distance N1 V0 U2)
   = true /\
   tri_tri_intersect_with_isectline V0 V1 V2 U0 U1 U2 (mkIsectOut true (zv 7 7 7) (zv 9 9 9))
   = (true, mkIsectOut false (zv 0 0 0) (zv 0 0 0)) /\
   coplanar_tri_tri N1 V0 V1 V2 U0 U1 U2 = true) /\
  (let V0 := fv 1 0 (-1) in
   let V1 := fv 1 0x1p-23 1 in
   let V2 := fv 1 0 1 in
   let U0 := fv 0 0 0 in let U1 := fv 1 0 0 in let U2 := fv 0 1 0 in
   let N1 := plane_normal V0 V1 V2 in
   all_zero (plane_distance N1 V0 U0) (plane_distance N1 V0 U1) (plane_distance N1 V0 U2)
   = true /\
   tri_tri_intersect_with_isectline V0 V1 V2 U0 U1 U2 (mkIsectOut true (fv 7 7 7) (fv 9 9 9))
   = (true, mkIsectOut false (fv 0 0 0) (fv 0 0 0)) /\
   coplanar_tri_tri N1 V0 V1 V2 U0 U1 U2 = true).
Proof.
  repeat split; vm_compute; reflexivity.
Qed.

(** The epsilon test is strict, and [EPSILON] is the single-precision
    literal: a distance that equals [0.000001f] is kept.  Here the distances
    of the first triangle are -h, h, h with h = 0x1.0c6f7ap-20; they are not
    snapped, the first interval computation does not report coplanarity,
    and the call ends as above, while [tri_tri_intersect] answers 1.  The
    third part is the first pair of the theorem above with z = -h, h, h, in
    binary32, where 10 + 2^-27 is not a number. *)
Lemma isectline_distance_at_EPSILON :
  (let h := @EPSILON Q ExactQ in
   let V0 := qv 5 10 (- h) in
   let V1 := qv 5 (1342177281 # 134217728) h in
   let V2 := qv 5 10 h in
   let U0 := qv 0 10 0 in let U1 := qv 1 10 0 in let U2 := qv 0 11 0 in
   let N2 := plane_normal U0 U1 U2 in
   all_zero (plane_distance N2 U0 V0) (plane_distance N2 U0 V1) (plane_distance N2 U0 V2)
   = false /\
   fst (tri_tri_intersect_with_isectline V0 V1 V2 U0 U1 U2 (mkIsectOut true zero3 zero3))
   = false /\
   tri_tri_intersect V0 V1 V2 U0 U1 U2 = true) /\
  (let h := @EPSILON float Binary64 in
   let V0 := fv 5 10 (- h) in
   let V1 := fv 5 0x1.40000004p+3 h in
   let V2 := fv 5 10 h in
   let U0 := fv 0 10 0 in let U1 := fv 1 10 0 in let U2 := fv 0 11 0 in
   let N2 := plane_normal U0 U1 U2 in
   all_zero (plane_distance N2 U0 V0) (plane_distance N2 U0 V1) (plane_distance N2 U0 V2)
   = false /\
   fst (tri_tri_intersect_with_isectline V0 V1 V2 U0 U1 U2 (mkIsectOut true zero3 zero3))
   = false /\
   tri_tri_intersect V0 V1 V2 U0 U1 U2 = true) /\
  (let h := @EPSILON spec_float Binary32 in
   let V0 := sv (b32 1 0) (b32 1 0) (SFopp h) in
   let V1 := sv (b32 1 0) (b32 8388609 (-23)) h in
   let V2 := sv (b32 1 0) (b32 1 0) h in
   let U0 := zv 0 1 0 in let U1 := zv 1 1 0 in let U2 := zv 0 2 0 in
   let N2 := plane_normal U0 U1 U2 in
   all_zero (plane_distance N2 U0 V0) (plane_distance N2 U0 V1) (plane_distance N2 U0 V2)
   = false /\
   fst (tri_tri_intersect_with_isectline V0 V1 V2 U0 U1 U2 (mkIsectOut true zero3 zero3))
   = false /\
   tri_tri_intersect V0 V1 V2 U0 U1 U2 = true).
Proof.
  repeat split; vm_compute; reflexivity.
Qed.

(** The two tolerances of the exact model are the numbers the binary32 and
    binary64 constants denote: multiplied by a power of two (an exact
    operation) all give the same integer. *)
Lemma tolerance_values :
  (@EPSILON Q ExactQ * 8796093022208 == 8796093 /\
   SFeqb (SFmul 24 128 (@EPSILON spec_float Binary32) (b32 1 43)) (b32 8796093 0) = true /\
   (@EPSILON float Binary64 * 0x1p43 =? 8796093)%float = true) /\
  (@EPS Q ExactQ * 332306998946228968225951765070086144 == 332307 /\
   SFeqb (SFmul 24 128 (@EPS spec_float Binary32) (b32 1 118)) (b32 332307 0) = true /\
   (@EPS float Binary64 * 0x1p118 =? 332307)%float = true).
Proof.
  repeat split; vm_compute; reflexivity.
Qed.

(** The coplanar exit, on a triangle inside another one of the same
    plane. *)
Lemma isectline_coplanar_exit_witness :
  same_side
    (plane_distance (plane_normal (qv 0 0 0) (qv 4 0 0) (qv 0 4 0)) (qv 0 0 0) (qv 1 1 0))
    (plane_distance (plane_normal (qv 0 0 0) (qv 4 0 0) (qv 0 4 0)) (qv 0 0 0) (qv 2 1 0))
    (plane_distance (plane_normal (qv 0 0 0) (qv 4 0 0) (qv 0 4 0)) (qv 0 0 0) (qv 1 2 0))
  = false /\
  all_zero
    (plane_distance (plane_normal (qv 1 1 0) (qv 2 1 0) (qv 1 2 0)) (qv 1 1 0) (qv 0 0 0))
    (plane_distance (plane_normal (qv 1 1 0) (qv 2 1 0) (qv 1 2 0)) (qv 1 1 0) (qv 4 0 0))
    (plane_distance (plane_normal (qv 1 1 0) (qv 2 1 0) (qv 1 2 0)) (qv 1 1 0) (qv 0 4 0))
  = true /\
  tri_tri_intersect_with_isectline
    (qv 0 0 0) (qv 4 0 0) (qv 0 4 0) (qv 1 1 0) (qv 2 1 0) (qv 1 2 0)
    (mkIsectOut false (qv 7 7 7) (qv 9 9 9))
  = (coplanar_tri_tri (plane_normal (qv 0 0 0) (qv 4 0 0) (qv 0 4 0))
       (qv 0 0 0) (qv 4 0 0) (qv 0 4 0) (qv 1 1 0) (qv 2 1 0) (qv 1 2 0),
     mkIsectOut true (qv 7 7 7) (qv 9 9 9)).
Proof.
  assert (Hs : same_side
    (plane_distance (plane_normal (qv 0 0 0) (qv 4 0 0) (qv 0 4 0)) (qv 0 0 0) (qv 1 1 0))
    (plane_distance (plane_normal (qv 0 0 0) (qv 4 0 0) (qv 0 4 0)) (qv 0 0 0) (qv 2 1 0))
    (plane_distance (plane_normal (qv 0 0 0) (qv 4 0 0) (qv 0 4 0)) (qv 0 0 0) (qv 1 2 0))
    = false) by (vm_compute; reflexivity).
  assert (Hz : all_zero
    (plane_distance (plane_normal (qv 1 1 0) (qv 2 1 0) (qv 1 2 0)) (qv 1 1 0) (qv 0 0 0))
    (plane_distance (plane_normal (qv 1 1 0) (qv 2 1 0) (qv 1 2 0)) (qv 1 1 0) (qv 4 0 0))
    (plane_distance (plane_normal (qv 1 1 0) (qv 2 1 0) (qv 1 2 0)) (qv 1 1 0) (qv 0 4 0))
    = true) by (vm_compute; reflexivity).
  split; [exact Hs | split; [exact Hz | ] ].
  exact (isectline_coplanar_exit (qv 0 0 0) (qv 4 0 0) (qv 0 4 0) (qv 1 1 0) (qv 2 1 0)
           (qv 1 2 0) (mkIsectOut false (qv 7 7 7) (qv 9 9 9)) Hs Hz).
Defined.

(** Against C4 as stated: the triangle (0,0,0),(4,0,0),(0,3,0) and its
    incentre (1,1,0), at squared distance 1 from each of the three edges.
    The tie goes to edge 2, not to edge 0: the function returns (0,1,0) on
    edge 2, while the closest point of edge 0 is (1,0,0). *)
Lemma perimeter_tie_goes_to_last_edge :
  edge_dist2 (qv 0 0 0, qv 4 0 0, qv 0 3 0) (qv 1 0 0, qv (-4 # 5) (3 # 5) 0, qv 0 (-1) 0)
             (4, 5, 3) (qv 1 1 0) 0
  == edge_dist2 (qv 0 0 0, qv 4 0 0, qv 0 3 0) (qv 1 0 0, qv (-4 # 5) (3 # 5) 0, qv 0 (-1) 0)
                (4, 5, 3) (qv 1 1 0) 2 /\
  snd (closestPointOnTrianglePerimeter
         (qv 0 0 0, qv 4 0 0, qv 0 3 0) (qv 1 0 0, qv (-4 # 5) (3 # 5) 0, qv 0 (-1) 0)
         (4, 5, 3) (qv 1 1 0)) = 2%Z /\
  veq (fst (closestPointOnTrianglePerimeter
              (qv 0 0 0, qv 4 0 0, qv 0 3 0) (qv 1 0 0, qv (-4 # 5) (3 # 5) 0, qv 0 (-1) 0)
              (4, 5, 3) (qv 1 1 0)))
      (qv 0 1 0) /\
  veq (edge_point (qv 0 0 0, qv 4 0 0, qv 0 3 0) (qv 1 0 0, qv (-4 # 5) (3 # 5) 0, qv 0 (-1) 0)
                  (4, 5, 3) (qv 1 1 0) 0)
      (qv 1 0 0).
Proof.
  repeat split; vm_compute; reflexivity.
Qed.


(** The tolerance is the single-precision literal [1e-30f], a little more
    than 10^-30, and the comparison with it is strict.  A ray straight down
    on a triangle whose normal has length [EPS] meets it at time 1, inside;
    [Dot(D, N)] equals [EPS], so the call returns -1.  With an edge twice as
    long it returns the time, 1.  The values are the same in exact, binary32
    and binary64 arithmetic. *)
Lemma ray_tolerance_boundary :
  (let e := @EPS Q ExactQ in
   (1 # 1000000000000000000000000000000 < e /\
    rayTriangleIntersectionTime (mkRay3 (qv (e / 4) (- (1 # 4)) 1) (qv 0 0 (-1)))
                                (qv 0 0 0) (qv e 0 0) (qv 0 (-1) 0) == - (1)) /\
   rayTriangleIntersectionTime (mkRay3 (qv (e / 4) (- (1 # 4)) 1) (qv 0 0 (-1)))
                               (qv 0 0 0) (qv (2 * e) 0 0) (qv 0 (-1) 0) == 1) /\
  (let e := @EPS spec_float Binary32 in
   rayTriangleIntersectionTime
     (mkRay3 (sv (SFdiv 24 128 e (b32 4 0)) (b32 (-1) (-2)) (b32 1 0)) (zv 0 0 (-1)))
     (zv 0 0 0) (sv e (b32 0 0) (b32 0 0)) (zv 0 (-1) 0) = b32 (-1) 0 /\
   rayTriangleIntersectionTime
     (mkRay3 (sv (SFdiv 24 128 e (b32 4 0)) (b32 (-1) (-2)) (b32 1 0)) (zv 0 0 (-1)))
     (zv 0 0 0) (sv (SFmul 24 128 (b32 2 0) e) (b32 0 0) (b32 0 0)) (zv 0 (-1) 0) = b32 1 0) /\
  (let e := @EPS float Binary64 in
   rayTriangleIntersectionTime (mkRay3 (fv (e / 4) (-0.25) 1) (fv 0 0 (-1)))
                               (fv 0 0 0) (fv e 0 0) (fv 0 (-1) 0) = (-1)%float /\
   rayTriangleIntersectionTime (mkRay3 (fv (e / 4) (-0.25) 1) (fv 0 0 (-1)))
                               (fv 0 0 0) (fv (2 * e) 0 0) (fv 0 (-1) 0) = 1%float).
Proof.
  repeat split; vm_compute; reflexivity.
Qed.

(** ** A word on IEEE 754 arithmetic

    The agreement of [NoDivTriTriIsect] with [tri_tri_intersect] (C1) is a
    fact of the arithmetic of numbers.  In floating point the two compare
    differently rounded end points, and they can differ where the two
    intervals touch, whether [Real] is [float] or [double]. *)

(** Against C1 as stated: the triangle (1,0,0),(5,4,0),(0,0,0) in the plane
    z = 0 and the triangle (1,0,4),(1,1,-1),(1,2,0) in the plane x = 1.
    The planes are perpendicular, and neither triangle is degenerate.  On
    the line x = 1, z = 0 the first triangle covers y in [0, 4/5] and the
    second y in [4/5, 2]: they touch at (1, 4/5, 0), and in exact arithmetic
    both variants answer 1.  In floating point the division-based variant
    obtains the end point 4/5 once as [4 + (-4) * 24 / 30] and once as
    [0 + 1 * 16 / 20]; 16 / 20 is rounded up, in binary32 and in binary64,
    and 96 / 30 to four times that number, so the first interval ends below
    the start of the second and the answer is 0.  The division-free variant
    compares products of integers and answers 1. *)
Lemma NoDivTriTriIsect_rounding_disagrees :
  (tri_tri_intersect (zv 1 0 0) (zv 5 4 0) (zv 0 0 0)
                     (zv 1 0 4) (zv 1 1 (-1)) (zv 1 2 0) = false /\
   NoDivTriTriIsect (zv 1 0 0) (zv 5 4 0) (zv 0 0 0)
                    (zv 1 0 4) (zv 1 1 (-1)) (zv 1 2 0) = true) /\
  (tri_tri_intersect (fv 1 0 0) (fv 5 4 0) (fv 0 0 0)
                     (fv 1 0 4) (fv 1 1 (-1)) (fv 1 2 0) = false /\
   NoDivTriTriIsect (fv 1 0 0) (fv 5 4 0) (fv 0 0 0)
                    (fv 1 0 4) (fv 1 1 (-1)) (fv 1 2 0) = true) /\
  (tri_tri_intersect (qv 1 0 0) (qv 5 4 0) (qv 0 0 0)
                     (qv 1 0 4) (qv 1 1 (-1)) (qv 1 2 0) = true /\
   NoDivTriTriIsect (qv 1 0 0) (qv 5 4 0) (qv 0 0 0)
                    (qv 1 0 4) (qv 1 1 (-1)) (qv 1 2 0) = true) /\
  (veq (plane_normal (qv 1 0 0) (qv 5 4 0) (qv 0 0 0)) (qv 0 0 4) /\
   veq (plane_normal (qv 1 0 4) (qv 1 1 (-1)) (qv 1 2 0)) (qv 6 0 0)).
Proof.
  repeat split; vm_compute; reflexivity.
Qed.

(** The second part of C1 as amended, on binary64 numbers: a triangle inside
    another one of the same plane.  Both variants leave through the
    coplanar test. *)
Lemma NoDivTriTriIsect_agrees_witness :
  let V0 := fv 0 0 0 in let V1 := fv 4 0 0 in let V2 := fv 0 4 0 in
  let U0 := fv 1 1 0 in let U1 := fv 2 1 0 in let U2 := fv 1 2 0 in
  let N1 := plane_normal V0 V1 V2 in
  let N2 := plane_normal U0 U1 U2 in
  let dv0 := plane_distance N2 U0 V0 in
  let dv1 := plane_distance N2 U0 V1 in
  let dv2 := plane_distance N2 U0 V2 in
  let index := largest_component (CROSS N1 N2) in
  COMPUTE_INTERVALS (vget V0 index) (vget V1 index) (vget V2 index)
                    dv0 dv1 dv2 (dv0 * dv1)%real (dv0 * dv2)%real = None /\
  NoDivTriTriIsect V0 V1 V2 U0 U1 U2 = tri_tri_intersect V0 V1 V2 U0 U1 U2.
Proof.
  refine ((fun H => conj H (proj2 NoDivTriTriIsect_agrees float Binary64 _ _ _ _ _ _
                              (or_intror (or_intror (or_introl H))))) _).
  vm_compute. reflexivity.
Defined.

(** Out of range the two differ as well: the division-free variant forms
    the product [x0 * x1 * y0 * y1] of four differences of plane distances,
    each of the order of the cube of the coordinates.  On binary64 numbers
    of magnitude 2^100 that product is infinite, every comparison of the
    end points is false, and the variant answers 1 for two triangles whose
    intervals are far apart. *)
Lemma NoDivTriTriIsect_binary64_out_of_range :
  tri_tri_intersect
    (fv 0 0 0) (fv 0x1.4p103 0 0) (fv 0 0x1p100 0)
    (fv 0x1.4p102 0x1.8p101 (-0x1p100)) (fv 0x1.4p102 0x1.8p101 0x1p100)
    (fv 0x1.4p102 0x1p102 0x1p100) = false /\
  NoDivTriTriIsect
    (fv 0 0 0) (fv 0x1.4p103 0 0) (fv 0 0x1p100 0)
    (fv 0x1.4p102 0x1.8p101 (-0x1p100)) (fv 0x1.4p102 0x1.8p101 0x1p100)
    (fv 0x1.4p102 0x1p102 0x1p100) = true.
Proof.
  split; vm_compute; reflexivity.
Qed.

(** ** The worked examples of the specification *)

(** A triangle and its translate by (100, 100, 100) do not intersect. *)
Lemma example_disjoint_rejection :
  tri_tri_intersect (qv 0 0 0) (qv 1 0 0) (qv 0 1 0)
                    (qv 100 100 100) (qv 101 100 100) (qv 100 101 100) = false /\
  tri_tri_intersect (fv 0 0 0) (fv 1 0 0) (fv 0 1 0)
                    (fv 100 100 100) (fv 101 100 100) (fv 100 101 100) = false.
Proof.
  split; vm_compute; reflexivity.
Qed.

(** A triangle inside another one of the same plane: the answer is that of
    the coplanar test, true. *)
Lemma example_coplanar_containment :
  tri_tri_intersect (qv 0 0 0) (qv 4 0 0) (qv 0 4 0) (qv 1 1 0) (qv 2 1 0) (qv 1 2 0) = true /\
  coplanar_tri_tri (plane_normal (qv 0 0 0) (qv 4 0 0) (qv 0 4 0))
                   (qv 0 0 0) (qv 4 0 0) (qv 0 4 0) (qv 1 1 0) (qv 2 1 0) (qv 1 2 0) = true /\
  tri_tri_intersect (fv 0 0 0) (fv 4 0 0) (fv 0 4 0) (fv 1 1 0) (fv 2 1 0) (fv 1 2 0) = true.
Proof.
  repeat split; vm_compute; reflexivity.
Qed.

(** The crossing pair: the triangle in z = 0 and the triangle in x = 1 meet
    in the segment from (1, 0, 0) to (1, 1, 0). *)
Lemma example_segment_reconstruction :
  (fst (tri_tri_intersect_with_isectline
          (qv 0 0 0) (qv 2 0 0) (qv 0 2 0) (qv 1 (-1) (-1)) (qv 1 (-1) 1) (qv 1 3 0)
          (mkIsectOut true (qv 7 7 7) (qv 9 9 9))) = true /\
   coplanar (snd (tri_tri_intersect_with_isectline
          (qv 0 0 0) (qv 2 0 0) (qv 0 2 0) (qv 1 (-1) (-1)) (qv 1 (-1) 1) (qv 1 3 0)
          (mkIsectOut true (qv 7 7 7) (qv 9 9 9)))) = false /\
   veq (isectpt1 (snd (tri_tri_intersect_with_isectline
          (qv 0 0 0) (qv 2 0 0) (qv 0 2 0) (qv 1 (-1) (-1)) (qv 1 (-1) 1) (qv 1 3 0)
          (mkIsectOut true (qv 7 7 7) (qv 9 9 9))))) (qv 1 0 0) /\
   veq (isectpt2 (snd (tri_tri_intersect_with_isectline
          (qv 0 0 0) (qv 2 0 0) (qv 0 2 0) (qv 1 (-1) (-1)) (qv 1 (-1) 1) (qv 1 3 0)
          (mkIsectOut true (qv 7 7 7) (qv 9 9 9))))) (qv 1 1 0)) /\
  tri_tri_intersect_with_isectline
    (fv 0 0 0) (fv 2 0 0) (fv 0 2 0) (fv 1 (-1) (-1)) (fv 1 (-1) 1) (fv 1 3 0)
    (mkIsectOut true (fv 7 7 7) (fv 9 9 9))
  = (true, mkIsectOut false (fv 1 0 0) (fv 1 1 0)).
Proof.
  repeat split; vm_compute; reflexivity.
Qed.

(** The point (1/5, 1/5, 0), where the ray from (1/5, 1/5, 5) in direction
    (0, 0, -1) meets the triangle (0,0,0),(1,0,0),(0,1,0), is inside it. *)
Lemma example_ray_hit_is_inside :
  isPointInsideTriangle (qv 0 0 0) (qv 1 0 0) (qv 0 1 0) 2 (qv (1 # 5) (1 # 5) 0) = true.
Proof.
  vm_compute; reflexivity.
Qed.

(** * The overlap tests against the geometry *)

Section SegmentBranches.

Context {Real : Type} {RA : RealArith Real}.

Local Open Scope real_scope.

(** [tri_tri_intersect_with_isectline] when both interval computations
    return 0. *)
Lemma isectline_segment_branch (V0 V1 V2 U0 U1 U2 : Vec3 Real) (out : IsectOut)
    (s0 s1 t0 t1 : Real) (A1 A2 B1 B2 : Vec3 Real) :
  let N1 := plane_normal V0 V1 V2 in
  let N2 := plane_normal U0 U1 U2 in
  let du0 := plane_distance N1 V0 U0 in
  let du1 := plane_distance N1 V0 U1 in
  let du2 := plane_distance N1 V0 U2 in
  let dv0 := plane_distance N2 U0 V0 in
  let dv1 := plane_distance N2 U0 V1 in
  let dv2 := plane_distance N2 U0 V2 in
  let index := largest_component (CROSS N1 N2) in
  same_side du0 du1 du2 = false ->
  same_side dv0 dv1 dv2 = false ->
  compute_intervals_isectline V0 V1 V2 (vget V0 index) (vget V1 index) (vget V2 index)
    dv0 dv1 dv2 (dv0 * dv1) (dv0 * dv2) = Some (s0, s1, A1, A2) ->
  compute_intervals_isectline U0 U1 U2 (vget U0 index) (vget U1 index) (vget U2 index)
    du0 du1 du2 (du0 * du1) (du0 * du2) = Some (t0, t1, B1, B2) ->
  tri_tri_intersect_with_isectline V0 V1 V2 U0 U1 U2 out
  = isectline_segment s0 s1 A1 A2 t0 t1 B1 B2 out.
Proof.
  unfold tri_tri_intersect_with_isectline, plane_normal, plane_distance, same_side.
  cbv zeta. intros HU HV HC1 HC2. rewrite HU, HV, HC1, HC2. reflexivity.
Qed.

(** The rejection exits of [tri_tri_intersect_with_isectline]. *)
Lemma isectline_rejection_branch (V0 V1 V2 U0 U1 U2 : Vec3 Real) (out : IsectOut) :
  let N1 := plane_normal V0 V1 V2 in
  let N2 := plane_normal U0 U1 U2 in
  let du0 := plane_distance N1 V0 U0 in
  let du1 := plane_distance N1 V0 U1 in
  let du2 := plane_distance N1 V0 U2 in
  let dv0 := plane_distance N2 U0 V0 in
  let dv1 := plane_distance N2 U0 V1 in
  let dv2 := plane_distance N2 U0 V2 in
  same_side du0 du1 du2 = true \/ same_side dv0 dv1 dv2 = true ->
  tri_tri_intersect_with_isectline V0 V1 V2 U0 U1 U2 out = (false, out).
Proof.
  unfold tri_tri_intersect_with_isectline, plane_normal, plane_distance, same_side.
  cbv zeta. intros [H | H].
  - rewrite H. reflexivity.
  - rewrite H. match goal with |- (if ?c then _ else _) = _ => destruct c end; reflexivity.
Qed.

(** The rejection exits of [tri_tri_intersect] and [NoDivTriTriIsect]. *)
Lemma overlap_rejection_branch (V0 V1 V2 U0 U1 U2 : Vec3 Real) :
  let N1 := plane_normal V0 V1 V2 in
  let N2 := plane_normal U0 U1 U2 in
  let du0 := plane_distance N1 V0 U0 in
  let du1 := plane_distance N1 V0 U1 in
  let du2 := plane_distance N1 V0 U2 in
  let dv0 := plane_distance N2 U0 V0 in
  let dv1 := plane_distance N2 U0 V1 in
  let dv2 := plane_distance N2 U0 V2 in
  same_side du0 du1 du2 = true \/ same_side dv0 dv1 dv2 = true ->
  tri_tri_intersect V0 V1 V2 U0 U1 U2 = false /\
  NoDivTriTriIsect V0 V1 V2 U0 U1 U2 = false.
Proof.
  unfold tri_tri_intersect, NoDivTriTriIsect, plane_normal, plane_distance, same_side.
  cbv zeta. intros [H | H].
  - rewrite H. split; reflexivity.
  - rewrite H.
    split; match goal with |- (if ?c then _ else _) = _ => destruct c end; reflexivity.
Qed.

End SegmentBranches.

Lemma snap_cases (d : Q) : snap d = 0 \/ (snap d = d /\ EPSILON <= Qabs d).
Proof.
  unfold snap. exact_ops.
  destruct (Qltb (Qabs d) EPSILON) eqn:E; [left; reflexivity | right].
  apply Qltb_ge in E. split; [reflexivity | exact E].
Qed.

Lemma plane_distance_raw (N P0 X : Vec3 Q) :
  plane_distance N P0 X = snap (raw_distance N P0 X).
Proof. reflexivity. Qed.

(** A snapped distance that is not zero is the distance itself. *)
Lemma snap_nonzero (d : Q) : ~ snap d == 0 -> snap d = d.
Proof.
  intros H. destruct (snap_cases d) as [E | [E _]]; [ | exact E].
  exfalso. apply H. rewrite E. reflexivity.
Qed.

Lemma same_side_raw (d0 d1 d2 : Q) :
  same_side (snap d0) (snap d1) (snap d2) = true -> 0 < d0 * d1 /\ 0 < d0 * d2.
Proof.
  unfold same_side. exact_ops. rewrite andb_true_iff, !Qltb_lt. intros [H1 H2].
  assert (N0 : ~ snap d0 == 0) by (intro E; rewrite E in H1; lra).
  assert (N1 : ~ snap d1 == 0) by (intro E; rewrite E in H1; lra).
  assert (N2 : ~ snap d2 == 0) by (intro E; rewrite E in H2; lra).
  rewrite (snap_nonzero _ N0), (snap_nonzero _ N1) in H1.
  rewrite (snap_nonzero _ N0), (snap_nonzero _ N2) in H2.
  split; assumption.
Qed.

Lemma raw_distance_combination (N P0 A B C : Vec3 Q) (a b c : Q) (X : Vec3 Q) :
  a + b + c == 1 -> veq X (combination a b c A B C) ->
  raw_distance N P0 X
  == a * raw_distance N P0 A + b * raw_distance N P0 B + c * raw_distance N P0 C.
Proof.
  intros Hs (H0 & H1 & H2). unfold raw_distance, DOT. exact_ops.
  rewrite H0, H1, H2. unfold combination. cbn [e0 e1 e2].
  assert (Hc : c == 1 - a - b) by lra.
  rewrite Hc. ring.
Qed.

Lemma Qmult_pos_r (x y : Q) : 0 < x -> 0 < x * y -> 0 < y.
Proof.
  intros Hx Hxy. destruct (Qlt_le_dec 0 y) as [H | H]; [exact H | exfalso].
  assert (0 <= x * - y) by (apply Qmult_le_0_compat; lra). lra.
Qed.

Lemma Qmult_neg_r (x y : Q) : x < 0 -> 0 < x * y -> y < 0.
Proof.
  intros Hx Hxy. destruct (Qlt_le_dec y 0) as [H | H]; [exact H | exfalso].
  assert (0 <= - x * y) by (apply Qmult_le_0_compat; lra). lra.
Qed.

(** A combination with weights that sum to 1 of three positive numbers is
    positive. *)
Lemma positive_combination (d0 d1 d2 a b c : Q) :
  0 < d0 -> 0 < d1 -> 0 < d2 -> 0 <= a -> 0 <= b -> 0 <= c -> a + b + c == 1 ->
  0 < a * d0 + b * d1 + c * d2.
Proof.
  intros H0 H1 H2 Ha Hb Hc Hs.
  assert (A : 0 <= a * d0) by (apply Qmult_le_0_compat; lra).
  assert (B : 0 <= b * d1) by (apply Qmult_le_0_compat; lra).
  assert (C : 0 <= c * d2) by (apply Qmult_le_0_compat; lra).
  destruct (Qlt_le_dec 0 a) as [Pa | Na].
  - assert (0 < a * d0) by (apply Qmult_lt_0_compat; assumption). lra.
  - destruct (Qlt_le_dec 0 b) as [Pb | Nb].
    + assert (0 < b * d1) by (apply Qmult_lt_0_compat; assumption). lra.
    + assert (Pc : 0 < c) by lra.
      assert (0 < c * d2) by (apply Qmult_lt_0_compat; assumption). lra.
Qed.

(** Three weights that sum to 1 cannot cancel three distances of one sign. *)
Lemma same_sign_combination (d0 d1 d2 a b c : Q) :
  0 < d0 * d1 -> 0 < d0 * d2 -> 0 <= a -> 0 <= b -> 0 <= c -> a + b + c == 1 ->
  ~ a * d0 + b * d1 + c * d2 == 0.
Proof.
  intros H1 H2 Ha Hb Hc Hs E.
  destruct (Qlt_le_dec 0 d0) as [P | P].
  - pose proof (Qmult_pos_r _ _ P H1). pose proof (Qmult_pos_r _ _ P H2).
    pose proof (positive_combination d0 d1 d2 a b c). lra.
  - assert (N : d0 < 0).
    { destruct (Qlt_le_dec d0 0) as [L | L]; [exact L | ].
      assert (Z : d0 == 0) by lra. rewrite Z in H1. lra. }
    pose proof (Qmult_neg_r _ _ N H1). pose proof (Qmult_neg_r _ _ N H2).
    pose proof (positive_combination (- d0) (- d1) (- d2) a b c). lra.
Qed.

(** The points of a triangle lie in its plane. *)
Lemma in_triangle_on_plane (P0 P1 P2 X : Vec3 Q) :
  in_triangle P0 P1 P2 X -> raw_distance (plane_normal P0 P1 P2) P0 X == 0.
Proof.
  intros (a & b & c & _ & _ & _ & Hs & HX).
  rewrite (raw_distance_combination _ _ _ _ _ _ _ _ _ Hs HX).
  assert (E0 : raw_distance (plane_normal P0 P1 P2) P0 P0 == 0)
    by (unfold raw_distance, plane_normal, DOT, CROSS, SUB; cbn [e0 e1 e2]; exact_ops; ring).
  assert (E1 : raw_distance (plane_normal P0 P1 P2) P0 P1 == 0)
    by (unfold raw_distance, plane_normal, DOT, CROSS, SUB; cbn [e0 e1 e2]; exact_ops; ring).
  assert (E2 : raw_distance (plane_normal P0 P1 P2) P0 P2 == 0)
    by (unfold raw_distance, plane_normal, DOT, CROSS, SUB; cbn [e0 e1 e2]; exact_ops; ring).
  rewrite E0, E1, E2. ring.
Qed.

Lemma rejected_side_disjoint (N P0 A B C : Vec3 Q) :
  same_side (plane_distance N P0 A) (plane_distance N P0 B) (plane_distance N P0 C) = true ->
  forall X, in_triangle A B C X -> ~ raw_distance N P0 X == 0.
Proof.
  rewrite !plane_distance_raw. intros H X (a & b & c & Ha & Hb & Hc & Hs & HX).
  apply same_side_raw in H. destruct H as [H1 H2].
  rewrite (raw_distance_combination _ _ _ _ _ _ _ _ _ Hs HX).
  apply same_sign_combination; assumption.
Qed.

(** X1. When one of the two rejection tests succeeds, the three overlap
    functions return 0, [tri_tri_intersect_with_isectline] leaves the
    memory of its out-parameters as it was, and the answer is right: the two
    triangles have no point in common. *)
Theorem rejection_is_sound (V0 V1 V2 U0 U1 U2 : Vec3 Q) (out : IsectOut) :
  let N1 := plane_normal V0 V1 V2 in
  let N2 := plane_normal U0 U1 U2 in
  let du i := plane_distance N1 V0 i in
  let dv i := plane_distance N2 U0 i in
  same_side (du U0) (du U1) (du U2) = true \/ same_side (dv V0) (dv V1) (dv V2) = true ->
  tri_tri_intersect V0 V1 V2 U0 U1 U2 = false /\
  NoDivTriTriIsect V0 V1 V2 U0 U1 U2 = false /\
  tri_tri_intersect_with_isectline V0 V1 V2 U0 U1 U2 out = (false, out) /\
  forall X, in_triangle V0 V1 V2 X -> in_triangle U0 U1 U2 X -> False.
Proof.
  intros N1 N2 du dv H.
  destruct (overlap_rejection_branch V0 V1 V2 U0 U1 U2 H) as [R1 R2].
  split; [exact R1 | split; [exact R2 | split]].
  - exact (isectline_rejection_branch V0 V1 V2 U0 U1 U2 out H).
  - intros X HV HU. destruct H as [H | H].
    + exact (rejected_side_disjoint _ _ _ _ _ H X HU (in_triangle_on_plane _ _ _ _ HV)).
    + exact (rejected_side_disjoint _ _ _ _ _ H X HV (in_triangle_on_plane _ _ _ _ HU)).
Qed.

(** *** The interval test *)

Lemma Qdiv_nonneg (n d : Q) : 0 <= n * d -> ~ d == 0 -> 0 <= n / d.
Proof.
  intros H Hd.
  assert (E : n / d == (n * d) / (d * d)) by (field; exact Hd).
  rewrite E. apply Qle_shift_div_l; [nra | lra].
Qed.

Lemma between_convex (x i0 i1 m n : Q) :
  0 <= m -> 0 <= n -> m + n == 1 -> x == m * i0 + n * i1 -> between x i0 i1.
Proof.
  intros Hm Hn Hs Hx. unfold between.
  destruct (Qlt_le_dec i1 i0) as [L | L].
  - right.
    assert (A : 0 <= m * (i0 - i1)) by (apply Qmult_le_0_compat; lra).
    assert (B : 0 <= n * (i0 - i1)) by (apply Qmult_le_0_compat; lra).
    assert (E1 : x - i1 == m * (i0 - i1) + (m + n - 1) * i1) by (rewrite Hx; ring).
    assert (E2 : i0 - x == n * (i0 - i1) + (1 - m - n) * i0) by (rewrite Hx; ring).
    rewrite Hs in E1. assert (Hs' : 1 - m - n == 0) by lra. rewrite Hs' in E2.
    split; lra.
  - left.
    assert (A : 0 <= m * (i1 - i0)) by (apply Qmult_le_0_compat; lra).
    assert (B : 0 <= n * (i1 - i0)) by (apply Qmult_le_0_compat; lra).
    assert (E1 : x - i0 == n * (i1 - i0) + (m + n - 1) * i0) by (rewrite Hx; ring).
    assert (E2 : i1 - x == m * (i1 - i0) + (1 - m - n) * i1) by (rewrite Hx; ring).
    rewrite Hs in E1. assert (Hs' : 1 - m - n == 0) by lra. rewrite Hs' in E2.
    split; lra.
Qed.

(** The vertex with distance [Dp] is alone on its side of the plane: every
    point of the triangle that lies on the plane projects between the two
    crossings [ISECT] computes. *)
Lemma pivot_interval (vp vq vr Dp Dq Dr a b c : Q) :
  ~ Dp == 0 -> Dp * Dq <= 0 -> Dp * Dr <= 0 ->
  0 <= a -> 0 <= b -> 0 <= c -> a + b + c == 1 ->
  a * Dp + b * Dq + c * Dr == 0 ->
  between (a * vp + b * vq + c * vr)
          (vp + (vq - vp) * Dp / (Dp - Dq)) (vp + (vr - vp) * Dp / (Dp - Dr)).
Proof.
  intros Hp Hq Hr Ha Hb Hc Hs Hplane.
  pose proof (differ_of_opposite Dp Dq Hp Hq) as Nq.
  pose proof (differ_of_opposite Dp Dr Hp Hr) as Nr.
  apply (between_convex _ _ _ (b * ((Dp - Dq) / Dp)) (c * ((Dp - Dr) / Dp))).
  - apply Qmult_le_0_compat; [exact Hb | ]. apply Qdiv_nonneg; [nra | exact Hp].
  - apply Qmult_le_0_compat; [exact Hc | ]. apply Qdiv_nonneg; [nra | exact Hp].
  - assert (E : b * ((Dp - Dq) / Dp) + c * ((Dp - Dr) / Dp)
                == 1 - (a * Dp + b * Dq + c * Dr) / Dp + (a + b + c - 1))
      by (field; exact Hp).
    rewrite E, Hplane, Hs. field. exact Hp.
  - assert (E : b * ((Dp - Dq) / Dp) * (vp + (vq - vp) * Dp / (Dp - Dq))
                + c * ((Dp - Dr) / Dp) * (vp + (vr - vp) * Dp / (Dp - Dr))
                == a * vp + b * vq + c * vr
                   - vp * ((a * Dp + b * Dq + c * Dr) / Dp))
      by (field; repeat split; assumption).
    rewrite E, Hplane. field. exact Hp.
Qed.

Lemma zero_combination (d0 d1 a b : Q) :
  0 < d0 * d1 -> 0 <= a -> 0 <= b -> a * d0 + b * d1 == 0 -> a == 0 /\ b == 0.
Proof.
  intros H Ha Hb E.
  destruct (Qlt_le_dec 0 d0) as [P | P].
  - pose proof (Qmult_pos_r _ _ P H) as P1.
    assert (A : 0 <= a * d0) by (apply Qmult_le_0_compat; lra).
    assert (B : 0 <= b * d1) by (apply Qmult_le_0_compat; lra).
    assert (A0 : a * d0 == 0) by lra. assert (B0 : b * d1 == 0) by lra.
    apply Qmult_integral in A0, B0. split; [destruct A0 | destruct B0]; lra.
  - assert (N : d0 < 0).
    { destruct (Qlt_le_dec d0 0) as [L | L]; [exact L | ].
      assert (Z : d0 == 0) by lra. rewrite Z in H. lra. }
    pose proof (Qmult_neg_r _ _ N H) as N1.
    assert (A : 0 <= a * - d0) by (apply Qmult_le_0_compat; lra).
    assert (B : 0 <= b * - d1) by (apply Qmult_le_0_compat; lra).
    assert (A0 : a * d0 == 0) by lra. assert (B0 : b * d1 == 0) by lra.
    apply Qmult_integral in A0, B0. split; [destruct A0 | destruct B0]; lra.
Qed.

(** The same when the vertex that is alone lies on the plane. *)
Lemma pivot_on_plane (vp vq vr Dp Dq Dr a b c : Q) :
  Dp == 0 -> 0 < Dq * Dr ->
  0 <= a -> 0 <= b -> 0 <= c -> a + b + c == 1 ->
  a * Dp + b * Dq + c * Dr == 0 ->
  between (a * vp + b * vq + c * vr)
          (vp + (vq - vp) * Dp / (Dp - Dq)) (vp + (vr - vp) * Dp / (Dp - Dr)).
Proof.
  intros Hp Hqr Ha Hb Hc Hs Hplane.
  assert (Nq : ~ Dq == 0) by (eapply Qmult_pos_nonzero_l; eassumption).
  assert (Nr : ~ Dr == 0) by (eapply Qmult_pos_nonzero_r; eassumption).
  assert (E : b * Dq + c * Dr == 0) by (rewrite Hp in Hplane; lra).
  destruct (zero_combination Dq Dr b c Hqr Hb Hc E) as [Zb Zc].
  assert (Za : a == 1) by lra.
  assert (E0 : vp + (vq - vp) * Dp / (Dp - Dq) == vp)
    by (rewrite Hp; field; intro; apply Nq; lra).
  assert (E1 : vp + (vr - vp) * Dp / (Dp - Dr) == vp)
    by (rewrite Hp; field; intro; apply Nr; lra).
  assert (Ex : a * vp + b * vq + c * vr == vp) by (rewrite Za, Zb, Zc; ring).
  unfold between. rewrite E0, E1, Ex. left; split; lra.
Qed.

Lemma between_wd (x x' i0 i1 : Q) : x == x' -> between x i0 i1 -> between x' i0 i1.
Proof. unfold between. intros E. rewrite E. tauto. Qed.

(** Every point of the triangle that lies on the plane projects into the
    interval [COMPUTE_INTERVALS] computes. *)
Lemma COMPUTE_INTERVALS_contains (VV0 VV1 VV2 D0 D1 D2 a b c i0 i1 : Q) :
  same_side D0 D1 D2 = false ->
  COMPUTE_INTERVALS VV0 VV1 VV2 D0 D1 D2 (D0 * D1)%real (D0 * D2)%real = Some (i0, i1) ->
  0 <= a -> 0 <= b -> 0 <= c -> a + b + c == 1 ->
  a * D0 + b * D1 + c * D2 == 0 ->
  between (a * VV0 + b * VV1 + c * VV2) i0 i1.
Proof.
  unfold same_side, COMPUTE_INTERVALS, ISECT. exact_ops.
  intros G HC Ha Hb Hc Hs Hplane.
  destruct (Qltb 0 (D0 * D1)) eqn:E01; [apply Qltb_lt in E01 | apply Qltb_ge in E01];
  (destruct (Qltb 0 (D0 * D2)) eqn:E02; [apply Qltb_lt in E02 | apply Qltb_ge in E02]);
  try discriminate G; cbn [orb negb] in HC.
  - (* V2 alone *)
    injection HC as <- <-.
    apply (between_wd (c * VV2 + a * VV0 + b * VV1)); [ring | ].
    destruct (Qeq_dec D2 0) as [Z | NZ].
    + apply pivot_on_plane; try assumption; lra.
    + apply pivot_interval; try assumption; try lra.
      rewrite Qmult_comm. eapply third_opposite; eassumption.
  - (* V1 alone *)
    injection HC as <- <-.
    apply (between_wd (b * VV1 + a * VV0 + c * VV2)); [ring | ].
    destruct (Qeq_dec D1 0) as [Z | NZ].
    + apply pivot_on_plane; try assumption; lra.
    + apply pivot_interval; try assumption; try lra.
      rewrite Qmult_comm. eapply third_opposite; eassumption.
  - destruct (Qltb 0 (D1 * D2)) eqn:E12; [apply Qltb_lt in E12 | apply Qltb_ge in E12];
    cbn [orb] in HC.
    + (* V0 alone *)
      injection HC as <- <-.
      destruct (Qeq_dec D0 0) as [Z | NZ].
      * apply pivot_on_plane; assumption.
      * apply pivot_interval; assumption.
    + destruct (Qeq_bool D0 0) eqn:Z0; [apply Qeq_bool_iff in Z0 | apply Qeq_bool_false in Z0];
      cbn [negb] in HC.
      * destruct (Qeq_bool D1 0) eqn:Z1; [apply Qeq_bool_iff in Z1 | apply Qeq_bool_false in Z1];
        cbn [negb] in HC.
        -- destruct (Qeq_bool D2 0) eqn:Z2; [discriminate HC | apply Qeq_bool_false in Z2].
           cbn [negb] in HC. injection HC as <- <-.
           apply (between_wd (c * VV2 + a * VV0 + b * VV1)); [ring | ].
           apply pivot_interval; try assumption; try lra;
             try (rewrite Z0; lra); try (rewrite Z1; lra).
        -- injection HC as <- <-.
           apply (between_wd (b * VV1 + a * VV0 + c * VV2)); [ring | ].
           apply pivot_interval; try assumption; try lra;
             try (rewrite Z0; lra).
      * injection HC as <- <-. apply pivot_interval; assumption.
Qed.

Lemma intervals_overlap_common (x i0 i1 j0 j1 : Q) :
  between x i0 i1 -> between x j0 j1 -> intervals_overlap (i0, i1) (j0, j1) = true.
Proof.
  unfold between, intervals_overlap, SORT. exact_ops. cbn [fst snd].
  intros Hi Hj.
  destruct (Qltb i1 i0) eqn:Ei, (Qltb j1 j0) eqn:Ej;
    rewrite ?Qltb_lt, ?Qltb_ge in *;
    qcases; try reflexivity; exfalso; lra.
Qed.

Lemma vget_combination (X A B C : Vec3 Q) (a b c : Q) (i : Z) :
  veq X (combination a b c A B C) ->
  vget X i == a * vget A i + b * vget B i + c * vget C i.
Proof.
  intros (H0 & H1 & H2). unfold vget.
  destruct (i =? 0)%Z; [exact H0 | ]. destruct (i =? 1)%Z; [exact H1 | exact H2].
Qed.

Lemma triangle_interval (N P0 A B C X : Vec3 Q) (index : Z) (i0 i1 : Q) :
  let dA := plane_distance N P0 A in
  let dB := plane_distance N P0 B in
  let dC := plane_distance N P0 C in
  unsnapped N P0 A B C ->
  same_side dA dB dC = false ->
  COMPUTE_INTERVALS (vget A index) (vget B index) (vget C index) dA dB dC
                    (dA * dB)%real (dA * dC)%real = Some (i0, i1) ->
  in_triangle A B C X -> raw_distance N P0 X == 0 ->
  between (vget X index) i0 i1.
Proof.
  intros dA dB dC (EA & EB & EC) G HC (a & b & c & Ha & Hb & Hc & Hs & HX) Hplane.
  apply (between_wd (a * vget A index + b * vget B index + c * vget C index)).
  - symmetry. apply vget_combination. exact HX.
  - apply (COMPUTE_INTERVALS_contains _ _ _ dA dB dC); try assumption.
    subst dA dB dC. rewrite EA, EB, EC.
    rewrite <- (raw_distance_combination _ _ _ _ _ _ _ _ _ Hs HX). exact Hplane.
Qed.

(** X2. Outside the coplanar branch, and when the epsilon test has changed
    no distance, the answer 0 of [tri_tri_intersect] is right: the two
    triangles have no point in common. *)
Theorem tri_tri_intersect_zero_is_sound (V0 V1 V2 U0 U1 U2 : Vec3 Q) :
  let N1 := plane_normal V0 V1 V2 in
  let N2 := plane_normal U0 U1 U2 in
  let du i := plane_distance N1 V0 i in
  let dv i := plane_distance N2 U0 i in
  unsnapped N1 V0 U0 U1 U2 -> unsnapped N2 U0 V0 V1 V2 ->
  all_zero (du U0) (du U1) (du U2) = false ->
  all_zero (dv V0) (dv V1) (dv V2) = false ->
  tri_tri_intersect V0 V1 V2 U0 U1 U2 = false ->
  forall X, in_triangle V0 V1 V2 X -> in_triangle U0 U1 U2 X -> False.
Proof.
  intros N1 N2 du dv SU SV ZU ZV R X HV HU. subst du dv. cbv beta in *.
  pose proof (in_triangle_on_plane _ _ _ _ HV) as PV. fold N1 in PV.
  pose proof (in_triangle_on_plane _ _ _ _ HU) as PU. fold N2 in PU.
  rewrite tri_tri_intersect_eq in R. cbv zeta in R. fold N1 N2 in R.
  destruct (same_side (plane_distance N1 V0 U0) (plane_distance N1 V0 U1)
                      (plane_distance N1 V0 U2)) eqn:GU.
  { exact (rejected_side_disjoint _ _ _ _ _ GU X HU PV). }
  destruct (same_side (plane_distance N2 U0 V0) (plane_distance N2 U0 V1)
                      (plane_distance N2 U0 V2)) eqn:GV.
  { exact (rejected_side_disjoint _ _ _ _ _ GV X HV PU). }
  set (index := largest_component (CROSS N1 N2)) in R.
  destruct (COMPUTE_INTERVALS (vget V0 index) (vget V1 index) (vget V2 index)
              (plane_distance N2 U0 V0) (plane_distance N2 U0 V1) (plane_distance N2 U0 V2)
              _ _) as [[i0 i1] | ] eqn:CV.
  2: { apply COMPUTE_INTERVALS_None in CV. congruence. }
  destruct (COMPUTE_INTERVALS (vget U0 index) (vget U1 index) (vget U2 index)
              (plane_distance N1 V0 U0) (plane_distance N1 V0 U1) (plane_distance N1 V0 U2)
              _ _) as [[j0 j1] | ] eqn:CU.
  2: { apply COMPUTE_INTERVALS_None in CU. congruence. }
  pose proof (triangle_interval N2 U0 V0 V1 V2 X index i0 i1 SV GV CV HV PU) as BV.
  pose proof (triangle_interval N1 V0 U0 U1 U2 X index j0 j1 SU GU CU HU PV) as BU.
  rewrite (intervals_overlap_common _ _ _ _ _ BV BU) in R. discriminate R.
Qed.

(** *** The crossing points *)

Lemma crossing_of_opposite (Dp Dq Dr : Q) :
  ~ Dp == 0 -> Dp * Dq <= 0 -> Dp * Dr <= 0 -> crossing Dp Dq Dr.
Proof.
  intros Hp Hq Hr. repeat split; try assumption; apply differ_of_opposite; assumption.
Qed.

Lemma crossing_of_pair (Dp Dq Dr : Q) :
  0 < Dq * Dr -> Dq * Dp <= 0 -> crossing Dp Dq Dr.
Proof.
  intros Hqr Hqp.
  pose proof (Qmult_pos_nonzero_l _ _ Hqr) as Nq.
  pose proof (Qmult_pos_nonzero_r _ _ Hqr) as Nr.
  assert (Hrp : Dr * Dp <= 0) by (eapply third_opposite; eassumption).
  repeat split.
  - rewrite Qmult_comm; exact Hqp.
  - rewrite Qmult_comm; exact Hrp.
  - apply differ_of_opposite'; [exact Nq | rewrite Qmult_comm; exact Hqp].
  - apply differ_of_opposite'; [exact Nr | rewrite Qmult_comm; exact Hrp].
Qed.

(** The three interval functions take the same branch; which one, and what
    holds of the distances there. *)
Lemma interval_branch (VERT0 VERT1 VERT2 : Vec3 Q) (VV0 VV1 VV2 D0 D1 D2 : Q) :
  same_side D0 D1 D2 = false -> all_zero D0 D1 D2 = false ->
  (crossing D2 D0 D1 /\
   COMPUTE_INTERVALS VV0 VV1 VV2 D0 D1 D2 (D0 * D1)%real (D0 * D2)%real
   = Some (ISECT VV2 VV0 VV1 D2 D0 D1) /\
   compute_intervals_isectline VERT0 VERT1 VERT2 VV0 VV1 VV2 D0 D1 D2
     (D0 * D1)%real (D0 * D2)%real
   = Some (isect2 VERT2 VERT0 VERT1 VV2 VV0 VV1 D2 D0 D1)) \/
  (crossing D1 D0 D2 /\
   COMPUTE_INTERVALS VV0 VV1 VV2 D0 D1 D2 (D0 * D1)%real (D0 * D2)%real
   = Some (ISECT VV1 VV0 VV2 D1 D0 D2) /\
   compute_intervals_isectline VERT0 VERT1 VERT2 VV0 VV1 VV2 D0 D1 D2
     (D0 * D1)%real (D0 * D2)%real
   = Some (isect2 VERT1 VERT0 VERT2 VV1 VV0 VV2 D1 D0 D2)) \/
  (crossing D0 D1 D2 /\
   COMPUTE_INTERVALS VV0 VV1 VV2 D0 D1 D2 (D0 * D1)%real (D0 * D2)%real
   = Some (ISECT VV0 VV1 VV2 D0 D1 D2) /\
   compute_intervals_isectline VERT0 VERT1 VERT2 VV0 VV1 VV2 D0 D1 D2
     (D0 * D1)%real (D0 * D2)%real
   = Some (isect2 VERT0 VERT1 VERT2 VV0 VV1 VV2 D0 D1 D2)).
Proof.
  unfold same_side, all_zero, COMPUTE_INTERVALS, compute_intervals_isectline. exact_ops.
  intros G Z.
  destruct (Qltb 0 (D0 * D1)) eqn:E01; [apply Qltb_lt in E01 | apply Qltb_ge in E01];
  (destruct (Qltb 0 (D0 * D2)) eqn:E02; [apply Qltb_lt in E02 | apply Qltb_ge in E02]);
  try discriminate G; cbn [orb negb].
  - left. split; [ | split; reflexivity]. apply crossing_of_pair; assumption.
  - right; left. split; [ | split; reflexivity]. apply crossing_of_pair; assumption.
  - destruct (Qltb 0 (D1 * D2)) eqn:E12; [apply Qltb_lt in E12 | apply Qltb_ge in E12];
    cbn [orb].
    + right; right. split; [ | split; reflexivity].
      apply crossing_of_pair; [exact E12 | rewrite Qmult_comm; exact E01].
    + destruct (Qeq_bool D0 0) eqn:Z0; [apply Qeq_bool_iff in Z0 | apply Qeq_bool_false in Z0];
      cbn [negb andb] in *.
      * destruct (Qeq_bool D1 0) eqn:Z1; [apply Qeq_bool_iff in Z1 | apply Qeq_bool_false in Z1];
        cbn [negb andb] in *.
        -- destruct (Qeq_bool D2 0) eqn:Z2; [discriminate Z | apply Qeq_bool_false in Z2].
           cbn [negb]. left. split; [ | split; reflexivity].
           apply crossing_of_opposite; [exact Z2 | rewrite Z0; lra | rewrite Z1; lra].
        -- right; left. split; [ | split; reflexivity].
           apply crossing_of_opposite; [exact Z1 | rewrite Z0; lra | exact E12].
      * right; right. split; [ | split; reflexivity].
        apply crossing_of_opposite; assumption.
Qed.

(** The point [P + t * (Q - P)] of the edge from [P] to [Q], as [isect2]
    computes it. *)
Lemma edge_point_in_triangle (A B C : Vec3 Q) (t : Q) :
  0 <= t -> t <= 1 ->
  in_triangle A B C (ADD (MULT (SUB B A) t) A) /\
  in_triangle A B C (ADD A (MULT (SUB B A) t)).
Proof.
  intros H0 H1.
  split; exists (1 - t), t, 0; (repeat split; try lra);
    unfold ADD, MULT, SUB, combination; cbn [e0 e1 e2]; exact_ops; ring.
Qed.

Lemma in_triangle_swap (A B C X : Vec3 Q) : in_triangle A B C X -> in_triangle A C B X.
Proof.
  intros (a & b & c & Ha & Hb & Hc & Hs & H0 & H1 & H2).
  exists a, c, b. repeat split; try assumption; try lra;
    unfold combination in *; cbn [e0 e1 e2] in *;
    [rewrite H0 | rewrite H1 | rewrite H2]; ring.
Qed.

Lemma in_triangle_rotate (A B C X : Vec3 Q) : in_triangle A B C X -> in_triangle B C A X.
Proof.
  intros (a & b & c & Ha & Hb & Hc & Hs & H0 & H1 & H2).
  exists b, c, a. repeat split; try assumption; try lra;
    unfold combination in *; cbn [e0 e1 e2] in *;
    [rewrite H0 | rewrite H1 | rewrite H2]; ring.
Qed.

Lemma crossing_parameter (Dp Dq : Q) :
  Dp * Dq <= 0 -> ~ Dp - Dq == 0 -> 0 <= Dp / (Dp - Dq) /\ Dp / (Dp - Dq) <= 1.
Proof.
  intros H N. split.
  - apply Qdiv_nonneg; [nra | exact N].
  - assert (E : 1 - Dp / (Dp - Dq) == (- Dq) / (Dp - Dq)) by (field; exact N).
    assert (0 <= (- Dq) / (Dp - Dq)) by (apply Qdiv_nonneg; [nra | exact N]).
    lra.
Qed.

Lemma vget_edge_point (A B : Vec3 Q) (t : Q) (i : Z) :
  vget (ADD (MULT (SUB B A) t) A) i == vget A i + (vget B i - vget A i) * t /\
  vget (ADD A (MULT (SUB B A) t)) i == vget A i + (vget B i - vget A i) * t.
Proof.
  unfold vget, ADD, MULT, SUB. exact_ops.
  destruct (i =? 0)%Z; [ | destruct (i =? 1)%Z]; cbn [e0 e1 e2]; split; ring.
Qed.

Lemma raw_distance_edge_point (N P0 A B : Vec3 Q) (t : Q) :
  raw_distance N P0 (ADD (MULT (SUB B A) t) A)
  == raw_distance N P0 A + t * (raw_distance N P0 B - raw_distance N P0 A) /\
  raw_distance N P0 (ADD A (MULT (SUB B A) t))
  == raw_distance N P0 A + t * (raw_distance N P0 B - raw_distance N P0 A).
Proof.
  unfold raw_distance, DOT, ADD, MULT, SUB. exact_ops. cbn [e0 e1 e2]. split; ring.
Qed.

(** What [isect2] writes: two points of the triangle, on the other plane,
    and their coordinates along the line, which are the interval of
    [ISECT]. *)
Lemma isect2_points (N P0 P A B : Vec3 Q) (index : Z) (Dp Dq Dr s0 s1 : Q)
    (pt0 pt1 : Vec3 Q) :
  crossing Dp Dq Dr ->
  Dp == raw_distance N P0 P -> Dq == raw_distance N P0 A -> Dr == raw_distance N P0 B ->
  isect2 P A B (vget P index) (vget A index) (vget B index) Dp Dq Dr = (s0, s1, pt0, pt1) ->
  (in_triangle P A B pt0 /\ raw_distance N P0 pt0 == 0 /\ vget pt0 index == s0) /\
  (in_triangle P A B pt1 /\ raw_distance N P0 pt1 == 0 /\ vget pt1 index == s1) /\
  s0 == fst (ISECT (vget P index) (vget A index) (vget B index) Dp Dq Dr) /\
  s1 == snd (ISECT (vget P index) (vget A index) (vget B index) Dp Dq Dr).
Proof.
  intros (Hq & Hr & Nq & Nr) Ep Eq Er H.
  unfold isect2 in H. cbv zeta in H. revert H. exact_ops. intros H.
  injection H as <- <- <- <-.
  destruct (crossing_parameter _ _ Hq Nq) as [Tq0 Tq1].
  destruct (crossing_parameter _ _ Hr Nr) as [Tr0 Tr1].
  split; [ | split; [ | split]].
  - split; [ | split].
    + apply (edge_point_in_triangle P A B _ Tq0 Tq1).
    + rewrite (proj1 (raw_distance_edge_point N P0 P A _)).
      rewrite <- Ep, <- Eq. field. exact Nq.
    + apply (proj1 (vget_edge_point P A _ index)).
  - split; [ | split].
    + apply in_triangle_swap. apply (edge_point_in_triangle P B A _ Tr0 Tr1).
    + rewrite (proj2 (raw_distance_edge_point N P0 P B _)).
      rewrite <- Ep, <- Er. field. exact Nr.
    + apply (proj2 (vget_edge_point P B _ index)).
  - unfold ISECT. exact_ops. cbn [fst]. field. exact Nq.
  - unfold ISECT. exact_ops. cbn [snd]. field. exact Nr.
Qed.

(** *** The line in which the two planes meet *)

(** Two points that lie on the same level of both plane equations and agree
    in a coordinate in which the direction of the line is not zero are one
    point. *)
Lemma line_point_unique (N1 N2 X Y : Vec3 Q) (index : Z) :
  DOT N1 X == DOT N1 Y -> DOT N2 X == DOT N2 Y ->
  vget X index == vget Y index ->
  ~ vget (CROSS N1 N2) index == 0 ->
  veq X Y.
Proof.
  unfold DOT, CROSS, vget, veq. exact_ops.
  destruct X as [x0 x1 x2], Y as [y0 y1 y2], N1 as [a0 a1 a2], N2 as [b0 b1 b2].
  cbn [e0 e1 e2].
  intros H1 H2 HI ND.
  destruct (index =? 0)%Z; [ | destruct (index =? 1)%Z].
  - assert (E1 : (a1 * b2 - a2 * b1) * (x1 - y1) == 0) by nsatz.
    assert (E2 : (a1 * b2 - a2 * b1) * (x2 - y2) == 0) by nsatz.
    apply Qmult_integral in E1, E2.
    destruct E1 as [E1 | E1]; [contradiction | ].
    destruct E2 as [E2 | E2]; [contradiction | ].
    repeat split; lra.
  - assert (E1 : (a2 * b0 - a0 * b2) * (x0 - y0) == 0) by nsatz.
    assert (E2 : (a2 * b0 - a0 * b2) * (x2 - y2) == 0) by nsatz.
    apply Qmult_integral in E1, E2.
    destruct E1 as [E1 | E1]; [contradiction | ].
    destruct E2 as [E2 | E2]; [contradiction | ].
    repeat split; lra.
  - assert (E1 : (a0 * b1 - a1 * b0) * (x0 - y0) == 0) by nsatz.
    assert (E2 : (a0 * b1 - a1 * b0) * (x1 - y1) == 0) by nsatz.
    apply Qmult_integral in E1, E2.
    destruct E1 as [E1 | E1]; [contradiction | ].
    destruct E2 as [E2 | E2]; [contradiction | ].
    repeat split; lra.
Qed.

(** The component [largest_component] selects is zero only if all are. *)
Lemma largest_component_zero (D : Vec3 Q) :
  vget D (largest_component D) == 0 -> veq D (mkVec3 0 0 0).
Proof.
  unfold largest_component, vget, veq. exact_ops. destruct D as [d0 d1 d2]. cbn [e0 e1 e2].
  pose proof (Qabs_nonneg d0). pose proof (Qabs_nonneg d1). pose proof (Qabs_nonneg d2).
  assert (Z : forall x, Qabs x <= 0 -> x == 0).
  { intros x Hx. apply Qabs_Qle_condition in Hx. lra. }
  assert (A : forall x, x == 0 -> Qabs x == 0).
  { intros x Hx. rewrite Hx. reflexivity. }
  destruct (Qltb (Qabs d0) (Qabs d1)) eqn:E1; [apply Qltb_lt in E1 | apply Qltb_ge in E1];
  cbv beta iota.
  - destruct (Qltb (Qabs d1) (Qabs d2)) eqn:E2; [apply Qltb_lt in E2 | apply Qltb_ge in E2];
    cbn; intros H3; apply A in H3; repeat split; apply Z; lra.
  - destruct (Qltb (Qabs d0) (Qabs d2)) eqn:E2; [apply Qltb_lt in E2 | apply Qltb_ge in E2];
    cbn; intros H3; apply A in H3; repeat split; apply Z; lra.
Qed.

Lemma raw_distance_zero_normal (N P0 X : Vec3 Q) :
  veq N (mkVec3 0 0 0) -> raw_distance N P0 X == 0.
Proof.
  intros (H0 & H1 & H2). cbn [e0 e1 e2] in *. unfold raw_distance, DOT. exact_ops.
  rewrite H0, H1, H2. ring.
Qed.

Lemma snap_zero (d : Q) : d == 0 -> snap d = 0.
Proof.
  intros H. unfold snap. exact_ops.
  assert (E : Qltb (Qabs d) EPSILON = true).
  { apply Qltb_lt. rewrite H. reflexivity. }
  rewrite E. reflexivity.
Qed.

(** Parallel planes: the three vertices of one triangle are at one distance
    from the plane of the other, unless the triangle has no normal. *)
Lemma parallel_planes (V0 V1 V2 U0 U1 U2 : Vec3 Q) :
  let N1 := plane_normal V0 V1 V2 in
  let N2 := plane_normal U0 U1 U2 in
  veq (CROSS N1 N2) (mkVec3 0 0 0) ->
  veq N2 (mkVec3 0 0 0) \/
  (raw_distance N1 V0 U1 == raw_distance N1 V0 U0 /\
   raw_distance N1 V0 U2 == raw_distance N1 V0 U0).
Proof.
  intros N1 N2. generalize N1. clear N1. intros N1.
  subst N2. unfold plane_normal, raw_distance, DOT, CROSS, SUB, veq. exact_ops.
  destruct N1 as [n0 n1 n2], U0 as [p0 p1 p2], U1 as [q0 q1 q2], U2 as [r0 r1 r2],
           V0 as [v0 v1 v2].
  cbn [e0 e1 e2].
  set (a0 := q0 - p0). set (a1 := q1 - p1). set (a2 := q2 - p2).
  set (b0 := r0 - p0). set (b1 := r1 - p1). set (b2 := r2 - p2).
  intros (D0 & D1 & D2).
  set (m0 := a1 * b2 - a2 * b1) in *.
  set (m1 := a2 * b0 - a0 * b2) in *.
  set (m2 := a0 * b1 - a1 * b0) in *.
  set (sa := n0 * a0 + n1 * a1 + n2 * a2).
  set (sb := n0 * b0 + n1 * b1 + n2 * b2).
  assert (A0 : m0 * sa == 0) by (subst m0 m1 m2 sa; nsatz).
  assert (A1 : m1 * sa == 0) by (subst m0 m1 m2 sa; nsatz).
  assert (A2 : m2 * sa == 0) by (subst m0 m1 m2 sa; nsatz).
  assert (B0 : m0 * sb == 0) by (subst m0 m1 m2 sb; nsatz).
  assert (B1 : m1 * sb == 0) by (subst m0 m1 m2 sb; nsatz).
  assert (B2 : m2 * sb == 0) by (subst m0 m1 m2 sb; nsatz).
  destruct (Qeq_dec sa 0) as [Sa | Sa].
  - destruct (Qeq_dec sb 0) as [Sb | Sb].
    + right. subst sa sb a0 a1 a2 b0 b1 b2. split; lra.
    + left. apply Qmult_integral in B0, B1, B2. tauto.
  - left. apply Qmult_integral in A0, A1, A2. tauto.
Qed.

(** Past the rejection tests and outside the coplanar branch, with no
    distance changed by the epsilon test, the planes are not parallel: the
    coordinate the kernel projects on is one in which the direction of their
    common line is not zero. *)
Lemma projection_axis_nonzero (V0 V1 V2 U0 U1 U2 : Vec3 Q) :
  let N1 := plane_normal V0 V1 V2 in
  let N2 := plane_normal U0 U1 U2 in
  let du i := plane_distance N1 V0 i in
  let dv i := plane_distance N2 U0 i in
  unsnapped N1 V0 U0 U1 U2 ->
  same_side (du U0) (du U1) (du U2) = false ->
  all_zero (du U0) (du U1) (du U2) = false ->
  all_zero (dv V0) (dv V1) (dv V2) = false ->
  ~ vget (CROSS N1 N2) (largest_component (CROSS N1 N2)) == 0.
Proof.
  intros N1 N2 du dv (S0 & S1 & S2) G ZU ZV H. subst du dv. cbv beta in *.
  apply largest_component_zero in H.
  pose proof (parallel_planes V0 V1 V2 U0 U1 U2) as PP. cbv zeta in PP. fold N1 N2 in PP.
  destruct (PP H) as [HN | [E1 E2]]. clear PP.
  - assert (T : all_zero (plane_distance N2 U0 V0) (plane_distance N2 U0 V1)
                         (plane_distance N2 U0 V2) = true).
    { rewrite !plane_distance_raw.
      rewrite !(snap_zero _ (raw_distance_zero_normal N2 U0 _ HN)). reflexivity. }
    congruence.
  - rewrite <- S1 in E1. rewrite <- S2 in E2. rewrite <- S0 in E1, E2.
    revert G ZU E1 E2.
    generalize (plane_distance N1 V0 U0), (plane_distance N1 V0 U1), (plane_distance N1 V0 U2).
    intros d0 d1 d2. unfold same_side, all_zero. exact_ops. intros G ZU E1 E2.
    destruct (Qeq_bool d0 0) eqn:Z0; [apply Qeq_bool_iff in Z0 | apply Qeq_bool_false in Z0].
    + assert (T1 : Qeq_bool d1 0 = true) by (apply Qeq_bool_iff; lra).
      assert (T2 : Qeq_bool d2 0 = true) by (apply Qeq_bool_iff; lra).
      rewrite T1, T2 in ZU. discriminate ZU.
    + assert (P : 0 < d0 * d0) by nra.
      assert (T1 : Qltb 0 (d0 * d1) = true) by (apply Qltb_lt; rewrite E1; exact P).
      assert (T2 : Qltb 0 (d0 * d2) = true) by (apply Qltb_lt; rewrite E2; exact P).
      rewrite T1, T2 in G. discriminate G.
Qed.

Lemma in_triangle_veq (A B C X Y : Vec3 Q) : veq X Y -> in_triangle A B C Y -> in_triangle A B C X.
Proof.
  intros (E0 & E1 & E2) (a & b & c & Ha & Hb & Hc & Hs & H0 & H1 & H2).
  exists a, b, c.
  split; [exact Ha | split; [exact Hb | split; [exact Hc | split; [exact Hs | ]]]].
  split; [rewrite E0; exact H0 | split; [rewrite E1; exact H1 | rewrite E2; exact H2]].
Qed.

(** The segment between two points of a triangle stays in the triangle. *)
Lemma in_triangle_segment (A B C X Y : Vec3 Q) (m n : Q) :
  in_triangle A B C X -> in_triangle A B C Y -> 0 <= m -> 0 <= n -> m + n == 1 ->
  in_triangle A B C (combination m n 0 X Y X).
Proof.
  intros (a & b & c & Ha & Hb & Hc & Hs & H0 & H1 & H2)
         (a' & b' & c' & Ha' & Hb' & Hc' & Hs' & H0' & H1' & H2') Hm Hn Hmn.
  exists (m * a + n * a'), (m * b + n * b'), (m * c + n * c').
  assert (forall x y, 0 <= x -> 0 <= y -> 0 <= m * x + n * y).
  { intros x y Hx Hy.
    pose proof (Qmult_le_0_compat _ _ Hm Hx). pose proof (Qmult_le_0_compat _ _ Hn Hy). lra. }
  split; [auto | split; [auto | split; [auto | split]]].
  - assert (E : m * a + n * a' + (m * b + n * b') + (m * c + n * c')
                == m * (a + b + c) + n * (a' + b' + c')) by ring.
    rewrite E, Hs, Hs'. lra.
  - unfold veq, combination in *. cbn [e0 e1 e2] in *.
    split; [rewrite H0, H0'; ring | split; [rewrite H1, H1'; ring | rewrite H2, H2'; ring]].
Qed.

Lemma between_inv (x i0 i1 : Q) :
  between x i0 i1 -> exists m n, 0 <= m /\ 0 <= n /\ m + n == 1 /\ x == m * i0 + n * i1.
Proof.
  intros B. destruct (Qeq_dec i1 i0) as [E | NE].
  - exists 1, 0. unfold between in B. repeat split; lra.
  - assert (NE' : ~ i1 - i0 == 0) by lra.
    exists (1 - (x - i0) / (i1 - i0)), ((x - i0) / (i1 - i0)).
    assert (H0 : 0 <= (x - i0) / (i1 - i0)).
    { apply Qdiv_nonneg; [ | exact NE']. unfold between in B. nra. }
    assert (H1 : 0 <= (i1 - x) / (i1 - i0)).
    { apply Qdiv_nonneg; [ | exact NE']. unfold between in B. nra. }
    assert (E : 1 - (x - i0) / (i1 - i0) == (i1 - x) / (i1 - i0)) by (field; exact NE').
    split; [rewrite E; exact H1 | split; [exact H0 | split; [ring | field; exact NE']]].
Qed.

(** Past the rejection test and outside the coplanar branch
    [compute_intervals_isectline] returns 0, with the crossing points of the
    triangle and the interval of [COMPUTE_INTERVALS]. *)
Lemma crossing_points (N P0 A B C : Vec3 Q) (index : Z) :
  let dA := plane_distance N P0 A in
  let dB := plane_distance N P0 B in
  let dC := plane_distance N P0 C in
  unsnapped N P0 A B C ->
  same_side dA dB dC = false -> all_zero dA dB dC = false ->
  exists s0 s1 pt0 pt1 i0 i1,
    compute_intervals_isectline A B C (vget A index) (vget B index) (vget C index)
      dA dB dC (dA * dB)%real (dA * dC)%real = Some (s0, s1, pt0, pt1) /\
    COMPUTE_INTERVALS (vget A index) (vget B index) (vget C index)
      dA dB dC (dA * dB)%real (dA * dC)%real = Some (i0, i1) /\
    s0 == i0 /\ s1 == i1 /\
    crossing_segment N P0 A B C index s0 s1 pt0 pt1.
Proof.
  intros dA dB dC (EA & EB & EC) G Z. fold dA dB dC in EA, EB, EC.
  destruct (interval_branch A B C (vget A index) (vget B index) (vget C index)
              dA dB dC G Z) as [(K & HC & HI) | [(K & HC & HI) | (K & HC & HI)]].
  - destruct (isect2 C A B (vget C index) (vget A index) (vget B index) dC dA dB)
      as [[[s0 s1] pt0] pt1] eqn:E.
    destruct (isect2_points N P0 C A B index dC dA dB s0 s1 pt0 pt1 K EC EA EB E)
      as ((T0 & R0 & X0) & (T1 & R1 & X1) & S0 & S1).
    exists s0, s1, pt0, pt1, (fst (ISECT (vget C index) (vget A index) (vget B index) dC dA dB)),
      (snd (ISECT (vget C index) (vget A index) (vget B index) dC dA dB)).
    split; [exact HI | split; [rewrite HC; reflexivity | split; [exact S0 | split; [exact S1 | ]]]].
    split; (split; [apply in_triangle_rotate; assumption | split; assumption]).
  - destruct (isect2 B A C (vget B index) (vget A index) (vget C index) dB dA dC)
      as [[[s0 s1] pt0] pt1] eqn:E.
    destruct (isect2_points N P0 B A C index dB dA dC s0 s1 pt0 pt1 K EB EA EC E)
      as ((T0 & R0 & X0) & (T1 & R1 & X1) & S0 & S1).
    exists s0, s1, pt0, pt1, (fst (ISECT (vget B index) (vget A index) (vget C index) dB dA dC)),
      (snd (ISECT (vget B index) (vget A index) (vget C index) dB dA dC)).
    split; [exact HI | split; [rewrite HC; reflexivity | split; [exact S0 | split; [exact S1 | ]]]].
    split; (split; [ | split; assumption]);
      apply in_triangle_rotate, in_triangle_rotate, in_triangle_swap; assumption.
  - destruct (isect2 A B C (vget A index) (vget B index) (vget C index) dA dB dC)
      as [[[s0 s1] pt0] pt1] eqn:E.
    destruct (isect2_points N P0 A B C index dA dB dC s0 s1 pt0 pt1 K EA EB EC E)
      as ((T0 & R0 & X0) & (T1 & R1 & X1) & S0 & S1).
    exists s0, s1, pt0, pt1, (fst (ISECT (vget A index) (vget B index) (vget C index) dA dB dC)),
      (snd (ISECT (vget A index) (vget B index) (vget C index) dA dB dC)).
    split; [exact HI | split; [rewrite HC; reflexivity | split; [exact S0 | split; [exact S1 | ]]]].
    split; (split; [assumption | split; assumption]).
Qed.

(** A point on both planes whose coordinate lies between those of the
    crossing points of a triangle is a point of that triangle. *)
Lemma on_line_in_triangle (N1 N2 V0 U0 A B C P pt0 pt1 : Vec3 Q) (index : Z) (s0 s1 : Q) :
  ~ vget (CROSS N1 N2) index == 0 ->
  (forall X, in_triangle A B C X -> raw_distance N2 U0 X == 0) ->
  crossing_segment N1 V0 A B C index s0 s1 pt0 pt1 ->
  raw_distance N1 V0 P == 0 -> raw_distance N2 U0 P == 0 ->
  between (vget P index) s0 s1 ->
  in_triangle A B C P.
Proof.
  intros ND Hplane ((T0 & R0 & X0) & (T1 & R1 & X1)) P1 P2 Bt.
  destruct (between_inv _ _ _ Bt) as (m & n & Hm & Hn & Hmn & Hx).
  set (Y := combination m n 0 pt0 pt1 pt0).
  assert (TY : in_triangle A B C Y) by (apply in_triangle_segment; assumption).
  assert (VY : veq Y (combination m n 0 pt0 pt1 pt0)) by (repeat split; reflexivity).
  assert (S : m + n + 0 == 1) by lra.
  apply (in_triangle_veq _ _ _ _ Y); [ | exact TY].
  apply (line_point_unique N1 N2 P Y index).
  - pose proof (raw_distance_combination N1 V0 _ _ _ _ _ _ _ S VY) as E.
    rewrite R0, R1 in E. revert P1 E. unfold raw_distance. exact_ops. intros; lra.
  - pose proof (Hplane Y TY) as E. revert P2 E. unfold raw_distance. exact_ops. intros; lra.
  - rewrite (vget_combination Y _ _ _ _ _ _ index VY), X0, X1, Hx. ring.
  - exact ND.
Qed.

(** Overlapping intervals: an end of one lies in the other. *)
Lemma intervals_overlap_end (i0 i1 j0 j1 : Q) :
  intervals_overlap (i0, i1) (j0, j1) = true ->
  between i0 j0 j1 \/ between i1 j0 j1 \/ between j0 i0 i1 \/ between j1 i0 i1.
Proof.
  unfold between, intervals_overlap, SORT. exact_ops. cbn [fst snd].
  destruct (Qltb i1 i0) eqn:Ei; [apply Qltb_lt in Ei | apply Qltb_ge in Ei];
  (destruct (Qltb j1 j0) eqn:Ej; [apply Qltb_lt in Ej | apply Qltb_ge in Ej]);
  match goal with |- context [Qltb ?a ?b || _] =>
    destruct (Qltb a b) eqn:E1; [apply Qltb_lt in E1 | apply Qltb_ge in E1] end;
  cbn [orb]; try discriminate;
  match goal with |- context [Qltb ?a ?b] =>
    destruct (Qltb a b) eqn:E2; [apply Qltb_lt in E2 | apply Qltb_ge in E2] end;
  try discriminate; intros _;
  first [ destruct (Qlt_le_dec i0 j0); lra
        | destruct (Qlt_le_dec i0 j1); lra
        | destruct (Qlt_le_dec i1 j0); lra
        | destruct (Qlt_le_dec i1 j1); lra ].
Qed.

(** An end of one crossing segment that projects into the other crossing
    segment is a point of both triangles. *)
Lemma crossing_end_common (V0 V1 V2 U0 U1 U2 : Vec3 Q) (index : Z) (s0 s1 t0 t1 : Q)
    (A1 A2 B1 B2 : Vec3 Q) :
  let N1 := plane_normal V0 V1 V2 in
  let N2 := plane_normal U0 U1 U2 in
  ~ vget (CROSS N1 N2) index == 0 ->
  crossing_segment N2 U0 V0 V1 V2 index s0 s1 A1 A2 ->
  crossing_segment N1 V0 U0 U1 U2 index t0 t1 B1 B2 ->
  (between s0 t0 t1 -> common_point V0 V1 V2 U0 U1 U2 A1) /\
  (between s1 t0 t1 -> common_point V0 V1 V2 U0 U1 U2 A2) /\
  (between t0 s0 s1 -> common_point V0 V1 V2 U0 U1 U2 B1) /\
  (between t1 s0 s1 -> common_point V0 V1 V2 U0 U1 U2 B2).
Proof.
  intros N1 N2 ND CV CU.
  assert (ND' : ~ vget (CROSS N2 N1) index == 0).
  { intro H. apply ND. revert H. unfold CROSS, vget. exact_ops.
    destruct (index =? 0)%Z; [ | destruct (index =? 1)%Z]; cbn [e0 e1 e2]; intros H; lra. }
  pose proof CV as ((TA1 & RA1 & XA1) & (TA2 & RA2 & XA2)).
  pose proof CU as ((TB1 & RB1 & XB1) & (TB2 & RB2 & XB2)).
  unfold common_point.
  split; [ | split; [ | split]]; intros Bt.
  - split; [exact TA1 | ].
    apply (on_line_in_triangle N1 N2 V0 U0 U0 U1 U2 A1 B1 B2 index t0 t1 ND
             (in_triangle_on_plane U0 U1 U2) CU
             (in_triangle_on_plane V0 V1 V2 A1 TA1) RA1).
    apply (between_wd s0); [symmetry; exact XA1 | exact Bt].
  - split; [exact TA2 | ].
    apply (on_line_in_triangle N1 N2 V0 U0 U0 U1 U2 A2 B1 B2 index t0 t1 ND
             (in_triangle_on_plane U0 U1 U2) CU
             (in_triangle_on_plane V0 V1 V2 A2 TA2) RA2).
    apply (between_wd s1); [symmetry; exact XA2 | exact Bt].
  - split; [ | exact TB1].
    apply (on_line_in_triangle N2 N1 U0 V0 V0 V1 V2 B1 A1 A2 index s0 s1 ND'
             (in_triangle_on_plane V0 V1 V2) CV
             (in_triangle_on_plane U0 U1 U2 B1 TB1) RB1).
    apply (between_wd t0); [symmetry; exact XB1 | exact Bt].
  - split; [ | exact TB2].
    apply (on_line_in_triangle N2 N1 U0 V0 V0 V1 V2 B2 A1 A2 index s0 s1 ND'
             (in_triangle_on_plane V0 V1 V2) CV
             (in_triangle_on_plane U0 U1 U2 B2 TB2) RB2).
    apply (between_wd t1); [symmetry; exact XB2 | exact Bt].
Qed.

Lemma between_ext (x i0 i1 j0 j1 : Q) :
  i0 == j0 -> i1 == j1 -> between x i0 i1 -> between x j0 j1.
Proof. unfold between. intros E0 E1. rewrite E0, E1. tauto. Qed.

(** X3. Outside the coplanar branch, and when the epsilon test has changed
    no distance, the answer 1 of [tri_tri_intersect] is right: the two
    triangles have a point in common. *)
Theorem tri_tri_intersect_one_is_sound (V0 V1 V2 U0 U1 U2 : Vec3 Q) :
  let N1 := plane_normal V0 V1 V2 in
  let N2 := plane_normal U0 U1 U2 in
  let du i := plane_distance N1 V0 i in
  let dv i := plane_distance N2 U0 i in
  unsnapped N1 V0 U0 U1 U2 -> unsnapped N2 U0 V0 V1 V2 ->
  all_zero (du U0) (du U1) (du U2) = false ->
  all_zero (dv V0) (dv V1) (dv V2) = false ->
  tri_tri_intersect V0 V1 V2 U0 U1 U2 = true ->
  exists X, in_triangle V0 V1 V2 X /\ in_triangle U0 U1 U2 X.
Proof.
  intros N1 N2 du dv SU SV ZU ZV R. subst du dv. cbv beta in *.
  rewrite tri_tri_intersect_eq in R. cbv zeta in R. fold N1 N2 in R.
  destruct (same_side (plane_distance N1 V0 U0) (plane_distance N1 V0 U1)
                      (plane_distance N1 V0 U2)) eqn:GU; [discriminate R | ].
  destruct (same_side (plane_distance N2 U0 V0) (plane_distance N2 U0 V1)
                      (plane_distance N2 U0 V2)) eqn:GV; [discriminate R | ].
  pose proof (projection_axis_nonzero V0 V1 V2 U0 U1 U2 SU GU ZU ZV) as ND.
  cbv zeta in ND. fold N1 N2 in ND.
  set (index := largest_component (CROSS N1 N2)) in *.
  destruct (crossing_points N2 U0 V0 V1 V2 index SV GV ZV)
    as (s0 & s1 & A1 & A2 & i0 & i1 & _ & CV & Es0 & Es1 & KV).
  destruct (crossing_points N1 V0 U0 U1 U2 index SU GU ZU)
    as (t0 & t1 & B1 & B2 & j0 & j1 & _ & CU & Et0 & Et1 & KU).
  rewrite CV, CU in R.
  destruct (crossing_end_common V0 V1 V2 U0 U1 U2 index s0 s1 t0 t1 A1 A2 B1 B2 ND KV KU)
    as (HA1 & HA2 & HB1 & HB2).
  assert (Es0' : i0 == s0) by (symmetry; exact Es0).
  assert (Es1' : i1 == s1) by (symmetry; exact Es1).
  assert (Et0' : j0 == t0) by (symmetry; exact Et0).
  assert (Et1' : j1 == t1) by (symmetry; exact Et1).
  destruct (intervals_overlap_end _ _ _ _ R) as [B | [B | [B | B]]].
  - exists A1. apply HA1.
    apply (between_wd i0); [exact Es0' | ]. exact (between_ext _ _ _ _ _ Et0' Et1' B).
  - exists A2. apply HA2.
    apply (between_wd i1); [exact Es1' | ]. exact (between_ext _ _ _ _ _ Et0' Et1' B).
  - exists B1. apply HB1.
    apply (between_wd j0); [exact Et0' | ]. exact (between_ext _ _ _ _ _ Es0' Es1' B).
  - exists B2. apply HB2.
    apply (between_wd j1); [exact Et1' | ]. exact (between_ext _ _ _ _ _ Es0' Es1' B).
Qed.

(** The end points [isectline_segment] chooses are points of both
    triangles. *)
Lemma isectline_segment_common (V0 V1 V2 U0 U1 U2 : Vec3 Q) (index : Z) (s0 s1 t0 t1 : Q)
    (A1 A2 B1 B2 : Vec3 Q) (out out' : IsectOut) :
  let N1 := plane_normal V0 V1 V2 in
  let N2 := plane_normal U0 U1 U2 in
  ~ vget (CROSS N1 N2) index == 0 ->
  crossing_segment N2 U0 V0 V1 V2 index s0 s1 A1 A2 ->
  crossing_segment N1 V0 U0 U1 U2 index t0 t1 B1 B2 ->
  isectline_segment s0 s1 A1 A2 t0 t1 B1 B2 out = (true, out') ->
  coplanar out' = false /\
  common_point V0 V1 V2 U0 U1 U2 (isectpt1 out') /\
  common_point V0 V1 V2 U0 U1 U2 (isectpt2 out').
Proof.
  intros N1 N2 ND KV KU.
  destruct (crossing_end_common V0 V1 V2 U0 U1 U2 index s0 s1 t0 t1 A1 A2 B1 B2 ND KV KU)
    as (HA1 & HA2 & HB1 & HB2).
  revert HA1 HA2 HB1 HB2.
  generalize (common_point V0 V1 V2 U0 U1 U2). intros common HA1 HA2 HB1 HB2.
  unfold isectline_segment, SORT2. exact_ops. unfold between in *.
  destruct (Qltb s1 s0) eqn:Es; [apply Qltb_lt in Es | apply Qltb_ge in Es];
  (destruct (Qltb t1 t0) eqn:Et; [apply Qltb_lt in Et | apply Qltb_ge in Et]);
  cbv beta iota;
  match goal with |- context [Qltb ?a ?b || _] =>
    destruct (Qltb a b) eqn:E1; [apply Qltb_lt in E1 | apply Qltb_ge in E1] end;
  cbn [orb]; try discriminate;
  match goal with |- context [if Qltb ?a ?b then (false, _) else _] =>
    destruct (Qltb a b) eqn:E2; [apply Qltb_lt in E2 | apply Qltb_ge in E2] end;
  try discriminate;
  match goal with |- context [if Qltb ?a ?b then (_, _) else _] =>
    destruct (Qltb a b) eqn:E3; [apply Qltb_lt in E3 | apply Qltb_ge in E3] end;
  match goal with |- context [if Qltb ?a ?b then _ else _] =>
    destruct (Qltb a b) eqn:E4; [apply Qltb_lt in E4 | apply Qltb_ge in E4] end;
  cbn [Z.eqb]; intros H; injection H as <-; cbn [coplanar isectpt1 isectpt2];
  (split; [reflexivity | split]);
  first [ apply HA1; lra | apply HA2; lra | apply HB1; lra | apply HB2; lra ].
Qed.

(** X4. Outside the coplanar branch, and when the epsilon test has changed
    no distance, the segment [tri_tri_intersect_with_isectline] reports with
    the answer 1 is made of points the two triangles share: both end points
    are points of both triangles, and [*coplanar] is 0. *)
Theorem isectline_segment_is_shared (V0 V1 V2 U0 U1 U2 : Vec3 Q) (out out' : IsectOut) :
  let N1 := plane_normal V0 V1 V2 in
  let N2 := plane_normal U0 U1 U2 in
  let du i := plane_distance N1 V0 i in
  let dv i := plane_distance N2 U0 i in
  unsnapped N1 V0 U0 U1 U2 -> unsnapped N2 U0 V0 V1 V2 ->
  all_zero (du U0) (du U1) (du U2) = false ->
  all_zero (dv V0) (dv V1) (dv V2) = false ->
  tri_tri_intersect_with_isectline V0 V1 V2 U0 U1 U2 out = (true, out') ->
  coplanar out' = false /\
  (in_triangle V0 V1 V2 (isectpt1 out') /\ in_triangle U0 U1 U2 (isectpt1 out')) /\
  (in_triangle V0 V1 V2 (isectpt2 out') /\ in_triangle U0 U1 U2 (isectpt2 out')).
Proof.
  intros N1 N2 du dv SU SV ZU ZV R. subst du dv. cbv beta in *.
  destruct (same_side (plane_distance N1 V0 U0) (plane_distance N1 V0 U1)
                      (plane_distance N1 V0 U2)) eqn:GU.
  { rewrite (isectline_rejection_branch V0 V1 V2 U0 U1 U2 out (or_introl GU)) in R.
    discriminate R. }
  destruct (same_side (plane_distance N2 U0 V0) (plane_distance N2 U0 V1)
                      (plane_distance N2 U0 V2)) eqn:GV.
  { rewrite (isectline_rejection_branch V0 V1 V2 U0 U1 U2 out (or_intror GV)) in R.
    discriminate R. }
  pose proof (projection_axis_nonzero V0 V1 V2 U0 U1 U2 SU GU ZU ZV) as ND.
  cbv zeta in ND. fold N1 N2 in ND.
  set (index := largest_component (CROSS N1 N2)) in *.
  destruct (crossing_points N2 U0 V0 V1 V2 index SV GV ZV)
    as (s0 & s1 & A1 & A2 & i0 & i1 & CV & _ & _ & _ & KV).
  destruct (crossing_points N1 V0 U0 U1 U2 index SU GU ZU)
    as (t0 & t1 & B1 & B2 & j0 & j1 & CU & _ & _ & _ & KU).
  rewrite (isectline_segment_branch V0 V1 V2 U0 U1 U2 out s0 s1 t0 t1 A1 A2 B1 B2
             GU GV CV CU) in R.
  exact (isectline_segment_common V0 V1 V2 U0 U1 U2 index s0 s1 t0 t1 A1 A2 B1 B2 out out'
           ND KV KU R).
Qed.

Lemma isectline_segment_overlap (s0 s1 t0 t1 i0 i1 j0 j1 : Q) (A1 A2 B1 B2 : Vec3 Q)
    (out : IsectOut) :
  s0 == i0 -> s1 == i1 -> t0 == j0 -> t1 == j1 ->
  fst (isectline_segment s0 s1 A1 A2 t0 t1 B1 B2 out) = intervals_overlap (i0, i1) (j0, j1).
Proof.
  intros E0 E1 F0 F1.
  unfold isectline_segment, intervals_overlap, SORT2, SORT. exact_ops. cbn [fst snd].
  assert (X1 : Qltb i1 i0 = Qltb s1 s0) by (qbool_eq; lra).
  assert (X2 : Qltb j1 j0 = Qltb t1 t0) by (qbool_eq; lra).
  rewrite X1, X2.
  destruct (Qltb s1 s0), (Qltb t1 t0); cbv beta iota.
  - assert (Y1 : Qltb i0 j1 = Qltb s0 t1) by (qbool_eq; lra).
    assert (Y2 : Qltb j0 i1 = Qltb t0 s1) by (qbool_eq; lra).
    rewrite Y1, Y2. destruct (Qltb s0 t1 || Qltb t0 s1); [reflexivity | ].
    destruct (Qltb t1 s1); reflexivity.
  - assert (Y1 : Qltb i0 j0 = Qltb s0 t0) by (qbool_eq; lra).
    assert (Y2 : Qltb j1 i1 = Qltb t1 s1) by (qbool_eq; lra).
    rewrite Y1, Y2. destruct (Qltb s0 t0 || Qltb t1 s1); [reflexivity | ].
    destruct (Qltb t0 s1); reflexivity.
  - assert (Y1 : Qltb i1 j1 = Qltb s1 t1) by (qbool_eq; lra).
    assert (Y2 : Qltb j0 i0 = Qltb t0 s0) by (qbool_eq; lra).
    rewrite Y1, Y2. destruct (Qltb s1 t1 || Qltb t0 s0); [reflexivity | ].
    destruct (Qltb t1 s0); reflexivity.
  - assert (Y1 : Qltb i1 j0 = Qltb s1 t0) by (qbool_eq; lra).
    assert (Y2 : Qltb j1 i0 = Qltb t1 s0) by (qbool_eq; lra).
    rewrite Y1, Y2. destruct (Qltb s1 t0 || Qltb t1 s0); [reflexivity | ].
    destruct (Qltb t0 s0); reflexivity.
Qed.

Lemma COMPUTE_INTERVALS_all_zero (VV0 VV1 VV2 D0 D1 D2 : Q) :
  all_zero D0 D1 D2 = true ->
  COMPUTE_INTERVALS VV0 VV1 VV2 D0 D1 D2 (D0 * D1)%real (D0 * D2)%real = None.
Proof.
  intros H. pose proof (all_zero_Qeq _ _ _ H) as (H0 & H1 & H2).
  unfold COMPUTE_INTERVALS. exact_ops.
  assert (E01 : Qltb 0 (D0 * D1) = false) by (apply Qltb_ge; nra).
  assert (E02 : Qltb 0 (D0 * D2) = false) by (apply Qltb_ge; nra).
  assert (E12 : Qltb 0 (D1 * D2) = false) by (apply Qltb_ge; nra).
  rewrite E01, E02, E12.
  apply Qeq_bool_iff in H0, H1, H2. rewrite H0, H1, H2. reflexivity.
Qed.

(** [isect2] computes the interval of [ISECT]. *)
Lemma isect2_interval (P A B : Vec3 Q) (VVp VVq VVr Dp Dq Dr : Q) :
  crossing Dp Dq Dr ->
  fst (fst (fst (isect2 P A B VVp VVq VVr Dp Dq Dr))) == fst (ISECT VVp VVq VVr Dp Dq Dr) /\
  snd (fst (fst (isect2 P A B VVp VVq VVr Dp Dq Dr))) == snd (ISECT VVp VVq VVr Dp Dq Dr).
Proof.
  intros (_ & _ & Nq & Nr). unfold isect2, ISECT. cbv zeta. exact_ops. cbn [fst snd].
  split; field; assumption.
Qed.

(** Where the interval macro yields an interval, the segment variant yields
    the same one. *)
Lemma isectline_interval (VERT0 VERT1 VERT2 : Vec3 Q) (VV0 VV1 VV2 D0 D1 D2 : Q) :
  same_side D0 D1 D2 = false -> all_zero D0 D1 D2 = false ->
  exists s0 s1 pt0 pt1 i0 i1,
    compute_intervals_isectline VERT0 VERT1 VERT2 VV0 VV1 VV2 D0 D1 D2
      (D0 * D1)%real (D0 * D2)%real = Some (s0, s1, pt0, pt1) /\
    COMPUTE_INTERVALS VV0 VV1 VV2 D0 D1 D2 (D0 * D1)%real (D0 * D2)%real = Some (i0, i1) /\
    s0 == i0 /\ s1 == i1.
Proof.
  intros G Z.
  destruct (interval_branch VERT0 VERT1 VERT2 VV0 VV1 VV2 D0 D1 D2 G Z)
    as [(K & HC & HI) | [(K & HC & HI) | (K & HC & HI)]];
  rewrite HC, HI;
  match goal with |- context [Some (isect2 ?P ?A ?B ?a ?b ?c ?d ?e ?f)] =>
    pose proof (isect2_interval P A B a b c d e f K) as [E0 E1];
    destruct (isect2 P A B a b c d e f) as [[[s0 s1] pt0] pt1];
    destruct (ISECT a b c d e f) as [i0 i1];
    exists s0, s1, pt0, pt1, i0, i1
  end; cbn [fst snd] in *; (split; [reflexivity | split; [reflexivity | split; assumption]]).
Qed.

(** X5. [tri_tri_intersect_with_isectline] returns what [tri_tri_intersect]
    returns, unless the second triangle alone has its three distances
    zero. *)
Theorem isectline_answer_agrees (V0 V1 V2 U0 U1 U2 : Vec3 Q) (out : IsectOut) :
  let N1 := plane_normal V0 V1 V2 in
  let N2 := plane_normal U0 U1 U2 in
  let du i := plane_distance N1 V0 i in
  let dv i := plane_distance N2 U0 i in
  all_zero (du U0) (du U1) (du U2) = false \/ all_zero (dv V0) (dv V1) (dv V2) = true ->
  fst (tri_tri_intersect_with_isectline V0 V1 V2 U0 U1 U2 out)
  = tri_tri_intersect V0 V1 V2 U0 U1 U2.
Proof.
  intros N1 N2 du dv H. subst du dv. cbv beta in *.
  rewrite tri_tri_intersect_eq. cbv zeta. fold N1 N2.
  destruct (same_side (plane_distance N1 V0 U0) (plane_distance N1 V0 U1)
                      (plane_distance N1 V0 U2)) eqn:GU.
  { rewrite (isectline_rejection_branch V0 V1 V2 U0 U1 U2 out (or_introl GU)). reflexivity. }
  destruct (same_side (plane_distance N2 U0 V0) (plane_distance N2 U0 V1)
                      (plane_distance N2 U0 V2)) eqn:GV.
  { rewrite (isectline_rejection_branch V0 V1 V2 U0 U1 U2 out (or_intror GV)). reflexivity. }
  set (index := largest_component (CROSS N1 N2)).
  destruct (all_zero (plane_distance N2 U0 V0) (plane_distance N2 U0 V1)
                     (plane_distance N2 U0 V2)) eqn:ZV.
  - rewrite (isectline_coplanar_branch V0 V1 V2 U0 U1 U2 out GU GV
               (compute_intervals_isectline_None V0 V1 V2 _ _ _ _ _ _ ZV)).
    rewrite (COMPUTE_INTERVALS_all_zero _ _ _ _ _ _ ZV). reflexivity.
  - destruct H as [ZU | H]; [ | discriminate H].
    destruct (isectline_interval V0 V1 V2 (vget V0 index) (vget V1 index) (vget V2 index)
                _ _ _ GV ZV) as (s0 & s1 & A1 & A2 & i0 & i1 & CV & IV & Es0 & Es1).
    destruct (isectline_interval U0 U1 U2 (vget U0 index) (vget U1 index) (vget U2 index)
                _ _ _ GU ZU) as (t0 & t1 & B1 & B2 & j0 & j1 & CU & IU & Et0 & Et1).
    rewrite (isectline_segment_branch V0 V1 V2 U0 U1 U2 out s0 s1 t0 t1 A1 A2 B1 B2
               GU GV CV CU).
    fold index. rewrite IV, IU.
    apply isectline_segment_overlap; assumption.
Qed.

Lemma rejection_is_sound_witness :
  let V0 := qv 0 0 0 in let V1 := qv 1 0 0 in let V2 := qv 0 1 0 in
  let U0 := qv 0 0 1 in let U1 := qv 1 0 2 in let U2 := qv 0 1 3 in
  let N1 := plane_normal V0 V1 V2 in
  let out := mkIsectOut true zero3 zero3 in
  same_side (plane_distance N1 V0 U0) (plane_distance N1 V0 U1) (plane_distance N1 V0 U2)
  = true /\
  tri_tri_intersect V0 V1 V2 U0 U1 U2 = false /\
  NoDivTriTriIsect V0 V1 V2 U0 U1 U2 = false /\
  tri_tri_intersect_with_isectline V0 V1 V2 U0 U1 U2 out = (false, out) /\
  (forall X, in_triangle V0 V1 V2 X -> in_triangle U0 U1 U2 X -> False).
Proof.
  refine ((fun H => conj H (rejection_is_sound _ _ _ _ _ _ _ (or_introl H))) _).
  vm_compute. reflexivity.
Defined.

Lemma tri_tri_intersect_zero_is_sound_witness :
  let V0 := qv 0 0 0 in let V1 := qv 10 0 0 in let V2 := qv 0 1 0 in
  let U0 := qv 5 3 (-1) in let U1 := qv 5 3 1 in let U2 := qv 5 4 1 in
  let N1 := plane_normal V0 V1 V2 in
  let N2 := plane_normal U0 U1 U2 in
  (unsnapped N1 V0 U0 U1 U2 /\ unsnapped N2 U0 V0 V1 V2 /\
   all_zero (plane_distance N1 V0 U0) (plane_distance N1 V0 U1) (plane_distance N1 V0 U2)
   = false /\
   all_zero (plane_distance N2 U0 V0) (plane_distance N2 U0 V1) (plane_distance N2 U0 V2)
   = false /\
   same_side (plane_distance N1 V0 U0) (plane_distance N1 V0 U1) (plane_distance N1 V0 U2)
   = false /\
   same_side (plane_distance N2 U0 V0) (plane_distance N2 U0 V1) (plane_distance N2 U0 V2)
   = false /\
   tri_tri_intersect V0 V1 V2 U0 U1 U2 = false) /\
  (forall X, in_triangle V0 V1 V2 X -> in_triangle U0 U1 U2 X -> False).
Proof.
  refine ((fun H => conj H
             (tri_tri_intersect_zero_is_sound _ _ _ _ _ _
                (proj1 H) (proj1 (proj2 H)) (proj1 (proj2 (proj2 H)))
                (proj1 (proj2 (proj2 (proj2 H))))
                (proj2 (proj2 (proj2 (proj2 (proj2 (proj2 H)))))))) _).
  repeat split; vm_compute; reflexivity.
Defined.

Lemma tri_tri_intersect_one_is_sound_witness :
  let V0 := qv 0 0 0 in let V1 := qv 10 0 0 in let V2 := qv 0 10 0 in
  let U0 := qv 2 2 (-1) in let U1 := qv 2 2 1 in let U2 := qv 2 3 1 in
  let N1 := plane_normal V0 V1 V2 in
  let N2 := plane_normal U0 U1 U2 in
  (unsnapped N1 V0 U0 U1 U2 /\ unsnapped N2 U0 V0 V1 V2 /\
   all_zero (plane_distance N1 V0 U0) (plane_distance N1 V0 U1) (plane_distance N1 V0 U2)
   = false /\
   all_zero (plane_distance N2 U0 V0) (plane_distance N2 U0 V1) (plane_distance N2 U0 V2)
   = false /\
   tri_tri_intersect V0 V1 V2 U0 U1 U2 = true) /\
  (exists X, in_triangle V0 V1 V2 X /\ in_triangle U0 U1 U2 X).
Proof.
  refine ((fun H => conj H
             (tri_tri_intersect_one_is_sound _ _ _ _ _ _
                (proj1 H) (proj1 (proj2 H)) (proj1 (proj2 (proj2 H)))
                (proj1 (proj2 (proj2 (proj2 H))))
                (proj2 (proj2 (proj2 (proj2 H)))))) _).
  repeat split; vm_compute; reflexivity.
Defined.

Lemma isectline_segment_is_shared_witness :
  let V0 := qv 0 0 0 in let V1 := qv 10 0 0 in let V2 := qv 0 10 0 in
  let U0 := qv 2 2 (-1) in let U1 := qv 2 2 1 in let U2 := qv 2 3 1 in
  let N1 := plane_normal V0 V1 V2 in
  let N2 := plane_normal U0 U1 U2 in
  let out := mkIsectOut true zero3 zero3 in
  let out' := snd (tri_tri_intersect_with_isectline V0 V1 V2 U0 U1 U2 out) in
  (unsnapped N1 V0 U0 U1 U2 /\ unsnapped N2 U0 V0 V1 V2 /\
   all_zero (plane_distance N1 V0 U0) (plane_distance N1 V0 U1) (plane_distance N1 V0 U2)
   = false /\
   all_zero (plane_distance N2 U0 V0) (plane_distance N2 U0 V1) (plane_distance N2 U0 V2)
   = false /\
   tri_tri_intersect_with_isectline V0 V1 V2 U0 U1 U2 out = (true, out')) /\
  coplanar out' = false /\
  (in_triangle V0 V1 V2 (isectpt1 out') /\ in_triangle U0 U1 U2 (isectpt1 out')) /\
  (in_triangle V0 V1 V2 (isectpt2 out') /\ in_triangle U0 U1 U2 (isectpt2 out')).
Proof.
  refine ((fun H => conj H
             (isectline_segment_is_shared _ _ _ _ _ _ _ _
                (proj1 H) (proj1 (proj2 H)) (proj1 (proj2 (proj2 H)))
                (proj1 (proj2 (proj2 (proj2 H))))
                (proj2 (proj2 (proj2 (proj2 H)))))) _).
  repeat split; vm_compute; reflexivity.
Defined.

Lemma isectline_answer_agrees_witness :
  let V0 := qv 0 0 0 in let V1 := qv 10 0 0 in let V2 := qv 0 10 0 in
  let U0 := qv 2 2 (-1) in let U1 := qv 2 2 1 in let U2 := qv 2 3 1 in
  let N1 := plane_normal V0 V1 V2 in
  let out := mkIsectOut true zero3 zero3 in
  all_zero (plane_distance N1 V0 U0) (plane_distance N1 V0 U1) (plane_distance N1 V0 U2)
  = false /\
  fst (tri_tri_intersect_with_isectline V0 V1 V2 U0 U1 U2 out)
  = tri_tri_intersect V0 V1 V2 U0 U1 U2.
Proof.
  refine ((fun H => conj H (isectline_answer_agrees _ _ _ _ _ _ _ (or_introl H))) _).
  vm_compute. reflexivity.
Defined.

(** * Closest points, containment and the coplanar test *)

Lemma Qsquare_nonneg (x : Q) : 0 <= x * x.
Proof.
  destruct (Qlt_le_dec x 0) as [H | H].
  - assert (P : 0 <= (- x) * (- x)) by (apply Qmult_le_0_compat; lra).
    assert (E : (- x) * (- x) == x * x) by ring. lra.
  - apply Qmult_le_0_compat; exact H.
Qed.

Lemma dist2_wd (a b p : Vec3 Q) : veq a b -> dist2 a p == dist2 b p.
Proof.
  intros (H0 & H1 & H2). unfold dist2, squaredNorm, vdot, vsub. cbn [e0 e1 e2]. exact_ops.
  rewrite H0, H1, H2. reflexivity.
Qed.

(** Along a line with a unit direction the squared distance to [p] is a
    parabola in the parameter, with its apex at the projection [t]. *)
Lemma dist2_segment_point (v0 dir p : Vec3 Q) (s : Q) :
  squaredNorm dir == 1 ->
  dist2 (segment_point v0 dir s) p
  == (s - vdot dir (vsub p v0)) * (s - vdot dir (vsub p v0))
     + (dist2 p v0 - vdot dir (vsub p v0) * vdot dir (vsub p v0)).
Proof.
  destruct v0 as [a0 a1 a2], dir as [d0 d1 d2], p as [p0 p1 p2].
  unfold dist2, segment_point, squaredNorm, vdot, vsub, vadd, vscale. cbn [e0 e1 e2]. exact_ops.
  intros H. nsatz.
Qed.

Lemma closestPointOnLineSegment_on_line (v0 v1 dir : Vec3 Q) (len : Q) (p : Vec3 Q) :
  is_segment v0 v1 dir len ->
  let t := vdot dir (vsub p v0) in
  let s := if Qle_bool t 0 then 0 else if Qle_bool len t then len else t in
  0 <= s <= len /\
  veq (closestPointOnLineSegment v0 v1 dir len p) (segment_point v0 dir s).
Proof.
  intros [Hlen Hv1] t s. subst s.
  unfold closestPointOnLineSegment. cbv zeta. exact_ops. fold t.
  destruct (Qle_bool t 0) eqn:E0; [apply Qle_bool_iff in E0 | apply Qle_bool_gt in E0];
    [ | destruct (Qle_bool len t) eqn:E1;
        [apply Qle_bool_iff in E1 | apply Qle_bool_gt in E1] ].
  - split; [lra | ]. unfold veq, segment_point, vadd, vscale. cbn [e0 e1 e2]. exact_ops.
    split; [ring | split; ring].
  - split; [lra | ]. exact Hv1.
  - split; [lra | ]. unfold veq, segment_point. split; [reflexivity | split; reflexivity].
Qed.

Lemma closestPointOnLineSegment_least (v0 v1 edgeDirection : Vec3 Q) (edgeLength : Q)
    (point : Vec3 Q) :
  is_segment v0 v1 edgeDirection edgeLength ->
  squaredNorm edgeDirection == 1 ->
  let r := closestPointOnLineSegment v0 v1 edgeDirection edgeLength point in
  (exists s, 0 <= s <= edgeLength /\ veq r (segment_point v0 edgeDirection s)) /\
  (forall s, 0 <= s <= edgeLength ->
     dist2 r point <= dist2 (segment_point v0 edgeDirection s) point).
Proof.
  intros Hseg Hunit r.
  pose proof (closestPointOnLineSegment_on_line v0 v1 edgeDirection edgeLength point Hseg) as H.
  cbv zeta in H. fold r in H. destruct H as [Hs Hr].
  split.
  - eexists. split; [exact Hs | exact Hr].
  - intros s' Hs'. rewrite (dist2_wd _ _ _ Hr).
    rewrite !(dist2_segment_point _ _ _ _ Hunit).
    revert Hs. set (t := vdot edgeDirection (vsub point v0)).
    generalize (dist2 point v0 - t * t). intros k.
    destruct (Qle_bool t 0) eqn:E0; [apply Qle_bool_iff in E0 | apply Qle_bool_gt in E0];
      [ | destruct (Qle_bool edgeLength t) eqn:E1;
          [apply Qle_bool_iff in E1 | apply Qle_bool_gt in E1] ]; intros Hs.
    + assert (P : 0 <= s' * (s' - 2 * t)) by (apply Qmult_le_0_compat; lra).
      assert (E : (s' - t) * (s' - t) + k - ((0 - t) * (0 - t) + k) == s' * (s' - 2 * t))
        by ring.
      lra.
    + assert (P : 0 <= (edgeLength - s') * (2 * t - edgeLength - s'))
        by (apply Qmult_le_0_compat; lra).
      assert (E : (s' - t) * (s' - t) + k - ((edgeLength - t) * (edgeLength - t) + k)
                  == (edgeLength - s') * (2 * t - edgeLength - s')) by ring.
      lra.
    + pose proof (Qsquare_nonneg (s' - t)) as P.
      assert (E : (t - t) * (t - t) == 0) by ring.
      lra.
Qed.

(** X6. For a segment given with a unit direction,
    [closestPointOnLineSegment] returns a point of the segment, and no point
    of the segment is nearer to the query point. *)
Theorem closestPointOnLineSegment_nearest (v0 v1 edgeDirection : Vec3 Q) (edgeLength : Q)
    (point : Vec3 Q) :
  is_segment v0 v1 edgeDirection edgeLength ->
  squaredNorm edgeDirection == 1 ->
  let r := closestPointOnLineSegment v0 v1 edgeDirection edgeLength point in
  (exists s, 0 <= s <= edgeLength /\ veq r (segment_point v0 edgeDirection s)) /\
  (forall s, 0 <= s <= edgeLength ->
     dist2 r point <= dist2 (segment_point v0 edgeDirection s) point).
Proof. exact (closestPointOnLineSegment_least v0 v1 edgeDirection edgeLength point). Qed.

Lemma closestPointOnLineSegment_nearest_witness :
  (is_segment (qv 1 1 0) (qv 1 4 0) (qv 0 1 0) 3 /\ squaredNorm (qv 0 1 0) == 1) /\
  (exists s, 0 <= s <= 3 /\
     veq (closestPointOnLineSegment (qv 1 1 0) (qv 1 4 0) (qv 0 1 0) 3 (qv 5 2 7))
         (segment_point (qv 1 1 0) (qv 0 1 0) s)) /\
  (forall s, 0 <= s <= 3 ->
     dist2 (closestPointOnLineSegment (qv 1 1 0) (qv 1 4 0) (qv 0 1 0) 3 (qv 5 2 7)) (qv 5 2 7)
     <= dist2 (segment_point (qv 1 1 0) (qv 0 1 0) s) (qv 5 2 7)).
Proof.
  refine ((fun H => conj H (closestPointOnLineSegment_nearest _ _ _ _ _ (proj1 H) (proj2 H))) _).
  split; [split; [vm_compute; intro; discriminate | repeat split; reflexivity] | reflexivity].
Defined.

Lemma perimeter_choice_least (d : Z -> Q) :
  let k := if Qltb (d 0%Z) (d 1%Z)
           then if Qltb (d 0%Z) (d 2%Z) then 0%Z else 2%Z
           else if Qltb (d 1%Z) (d 2%Z) then 1%Z else 2%Z in
  (0 <= k <= 2)%Z /\ forall j, (0 <= j <= 2)%Z -> d k <= d j.
Proof.
  assert (J : forall j, (0 <= j <= 2)%Z -> j = 0%Z \/ j = 1%Z \/ j = 2%Z) by (intros; lia).
  cbv zeta.
  destruct (Qltb (d 0%Z) (d 1%Z)) eqn:E01; [apply Qltb_lt in E01 | apply Qltb_ge in E01];
  [ destruct (Qltb (d 0%Z) (d 2%Z)) eqn:E02; [apply Qltb_lt in E02 | apply Qltb_ge in E02]
  | destruct (Qltb (d 1%Z) (d 2%Z)) eqn:E12; [apply Qltb_lt in E12 | apply Qltb_ge in E12] ];
  (split; [lia | intros j Hj; destruct (J j Hj) as [-> | [-> | ->]]; lra]).
Qed.

Lemma closestPointOnTrianglePerimeter_least
    (v edgeDirection : Arr3 (Vec3 Q)) (edgeLength : Arr3 Q) (point : Vec3 Q) :
  is_perimeter v edgeDirection edgeLength ->
  let res := closestPointOnTrianglePerimeter v edgeDirection edgeLength point in
  let k := snd res in
  (0 <= k <= 2)%Z /\
  (exists s, 0 <= s <= aget edgeLength k /\
     veq (fst res) (segment_point (aget v k) (aget edgeDirection k) s)) /\
  (forall i s, (0 <= i <= 2)%Z -> 0 <= s <= aget edgeLength i ->
     dist2 (fst res) point <= dist2 (segment_point (aget v i) (aget edgeDirection i) s) point).
Proof.
  intros HP. rewrite closestPointOnTrianglePerimeter_eq. cbv zeta. cbn [fst snd].
  pose proof (perimeter_choice_least (edge_dist2 v edgeDirection edgeLength point)) as L.
  cbv zeta in L.
  set (k := if Qltb _ _ then _ else _) in *. destruct L as [Hk Hleast].
  split; [exact Hk | split].
  - destruct (HP k Hk) as [Hseg Hunit].
    exact (proj1 (closestPointOnLineSegment_least _ _ _ _ point Hseg Hunit)).
  - intros i s Hi Hs. destruct (HP i Hi) as [Hseg Hunit].
    pose proof (proj2 (closestPointOnLineSegment_least _ _ _ _ point Hseg Hunit) s Hs) as Hi'.
    pose proof (Hleast i Hi) as Hki.
    unfold edge_dist2, edge_point in Hki. unfold edge_point.
    unfold dist2 in *. cbv zeta in Hi'. lra.
Qed.

(** X7. For a triangle given with unit edge directions and edge lengths,
    [closestPointOnTrianglePerimeter] returns a point of the edge whose
    index it reports, and no point of any of the three edges is nearer to
    the query point. *)
Theorem closestPointOnTrianglePerimeter_is_nearest
    (v edgeDirection : Arr3 (Vec3 Q)) (edgeLength : Arr3 Q) (point : Vec3 Q) :
  is_perimeter v edgeDirection edgeLength ->
  let res := closestPointOnTrianglePerimeter v edgeDirection edgeLength point in
  let k := snd res in
  (0 <= k <= 2)%Z /\
  (exists s, 0 <= s <= aget edgeLength k /\
     veq (fst res) (segment_point (aget v k) (aget edgeDirection k) s)) /\
  (forall i s, (0 <= i <= 2)%Z -> 0 <= s <= aget edgeLength i ->
     dist2 (fst res) point <= dist2 (segment_point (aget v i) (aget edgeDirection i) s) point).
Proof. exact (closestPointOnTrianglePerimeter_least v edgeDirection edgeLength point). Qed.

Lemma closestPointOnTrianglePerimeter_is_nearest_witness :
  let v := (qv 0 0 0, qv 3 0 0, qv 3 4 0) in
  let dir := (qv 1 0 0, qv 0 1 0, qv (- (3 # 5)) (- (4 # 5)) 0) in
  let len := (3, 4, 5) in
  let p := qv 4 2 1 in
  let res := closestPointOnTrianglePerimeter v dir len p in
  is_perimeter v dir len /\
  (0 <= snd res <= 2)%Z /\
  (exists s, 0 <= s <= aget len (snd res) /\
     veq (fst res) (segment_point (aget v (snd res)) (aget dir (snd res)) s)) /\
  (forall i s, (0 <= i <= 2)%Z -> 0 <= s <= aget len i ->
     dist2 (fst res) p <= dist2 (segment_point (aget v i) (aget dir i) s) p).
Proof.
  refine ((fun H => conj H (closestPointOnTrianglePerimeter_is_nearest _ _ _ _ H)) _).
  intros i Hi. assert (J : i = 0%Z \/ i = 1%Z \/ i = 2%Z) by lia.
  destruct J as [-> | [-> | ->]];
    (split; [split; [vm_compute; intro; discriminate | repeat split; reflexivity] | reflexivity]).
Defined.

(** *** Containment *)

(** Cramer's rule for the barycentric coordinates of a point of the plane. *)
Lemma barycentric_coordinates (x0 y0 x1 y1 x2 y2 px py : Q) :
  let A := (x1 - x0) * (y2 - y0) - (x2 - x0) * (y1 - y0) in
  let b0 := ((x1 - px) * (y2 - py) - (x2 - px) * (y1 - py)) * (1 / A) in
  let b1 := ((px - x0) * (y2 - y0) - (x2 - x0) * (py - y0)) * (1 / A) in
  ~ A == 0 ->
  (px == b0 * x0 + b1 * x1 + (1 - b0 - b1) * x2 /\
   py == b0 * y0 + b1 * y1 + (1 - b0 - b1) * y2) /\
  (forall a0 a1 a2, a0 + a1 + a2 == 1 ->
     px == a0 * x0 + a1 * x1 + a2 * x2 -> py == a0 * y0 + a1 * y1 + a2 * y2 ->
     b0 == a0 /\ b1 == a1).
Proof.
  intros A b0 b1 HA. split.
  - subst b0 b1 A. split; field; exact HA.
  - intros a0 a1 a2 Hs Hx Hy. subst b0 b1.
    assert (E2 : a2 == 1 - a0 - a1) by lra.
    rewrite Hx, Hy, E2. subst A. split; field; exact HA.
Qed.

Lemma isPointInsideTriangle_nonzero_area (v0 v1 v2 : Vec3 Q) (primary_axis : Z) (p : Vec3 Q) :
  let i := fst (projection_coordinates primary_axis) in
  let j := snd (projection_coordinates primary_axis) in
  ~ projected_area2 primary_axis v0 v1 v2 == 0 ->
  (isPointInsideTriangle v0 v1 v2 primary_axis p = true <->
   in_projected_triangle i j v0 v1 v2 p).
Proof.
  unfold projected_area2, isPointInsideTriangle, in_projected_triangle.
  destruct (projection_coordinates primary_axis) as [i j]. cbn [fst snd]. cbv zeta.
  unfold THEA_TRIANGLE_AREA2. exact_ops.
  generalize (vget v0 i), (vget v0 j), (vget v1 i), (vget v1 j), (vget v2 i), (vget v2 j),
             (vget p i), (vget p j).
  intros x0 y0 x1 y1 x2 y2 px py HA.
  destruct (barycentric_coordinates x0 y0 x1 y1 x2 y2 px py HA) as [[Ex Ey] Huniq].
  cbv zeta in Ex, Ey, Huniq.
  set (A := (x1 - x0) * (y2 - y0) - (x2 - x0) * (y1 - y0)) in *.
  set (b0 := ((x1 - px) * (y2 - py) - (x2 - px) * (y1 - py)) * (1 / A)) in *.
  set (b1 := ((px - x0) * (y2 - y0) - (x2 - x0) * (py - y0)) * (1 / A)) in *.
  assert (EA : Qeq_bool A 0 = false) by (apply Qeq_bool_false; exact HA).
  rewrite EA.
  split.
  - intros H. exists b0, b1, (1 - b0 - b1).
    destruct (Qltb b0 0) eqn:E1; [discriminate H | apply Qltb_ge in E1].
    destruct (Qltb 1 b0) eqn:E2; [discriminate H | apply Qltb_ge in E2].
    cbn [orb] in H.
    destruct (Qltb b1 0) eqn:E3; [discriminate H | apply Qltb_ge in E3].
    destruct (Qltb 1 b1) eqn:E4; [discriminate H | apply Qltb_ge in E4].
    cbn [orb] in H. apply andb_true_iff in H. destruct H as [H5 H6].
    apply Qle_bool_iff in H5, H6.
    split; [exact E1 | split; [exact E3 | split; [exact H5 | split; [ring | ]]]].
    split; [exact Ex | exact Ey].
  - intros (a0 & a1 & a2 & H0 & H1 & H2 & Hs & Hx & Hy).
    destruct (Huniq a0 a1 a2 Hs Hx Hy) as [E0 E1].
    assert (X1 : Qltb b0 0 = false) by (apply Qltb_ge; lra).
    assert (X2 : Qltb 1 b0 = false) by (apply Qltb_ge; lra).
    assert (X3 : Qltb b1 0 = false) by (apply Qltb_ge; lra).
    assert (X4 : Qltb 1 b1 = false) by (apply Qltb_ge; lra).
    rewrite X1, X2, X3, X4. cbn [orb].
    apply andb_true_iff. split; apply Qle_bool_iff; lra.
Qed.

(** X9. When the projected area is not zero, [isPointInsideTriangle]
    answers true exactly when, in the two coordinates left by the
    projection, the query point is a convex combination of the three
    vertices. *)
Theorem isPointInsideTriangle_barycentric (v0 v1 v2 : Vec3 Q) (primary_axis : Z)
    (p : Vec3 Q) :
  let i := fst (projection_coordinates primary_axis) in
  let j := snd (projection_coordinates primary_axis) in
  ~ projected_area2 primary_axis v0 v1 v2 == 0 ->
  (isPointInsideTriangle v0 v1 v2 primary_axis p = true <->
   in_projected_triangle i j v0 v1 v2 p).
Proof. exact (isPointInsideTriangle_nonzero_area v0 v1 v2 primary_axis p). Qed.

Lemma isPointInsideTriangle_barycentric_witness :
  ~ projected_area2 2 (qv 0 0 0) (qv 4 0 0) (qv 0 4 0) == 0 /\
  (isPointInsideTriangle (qv 0 0 0) (qv 4 0 0) (qv 0 4 0) 2 (qv 1 1 9) = true <->
   in_projected_triangle 0 1 (qv 0 0 0) (qv 4 0 0) (qv 0 4 0) (qv 1 1 9)).
Proof.
  refine ((fun H => conj H (isPointInsideTriangle_barycentric _ _ _ 2%Z _ H)) _).
  vm_compute. intro; discriminate.
Defined.

(** *** Ray and containment together *)

Lemma vget_veq (a b : Vec3 Q) (i : Z) : veq a b -> vget a i == vget b i.
Proof.
  intros (H0 & H1 & H2). unfold vget.
  destruct (i =? 0)%Z; [exact H0 | ]. destruct (i =? 1)%Z; [exact H1 | exact H2].
Qed.

Lemma vget_corner_combination (v0 edge01 edge02 : Vec3 Q) (b1 b2 : Q) (i : Z) :
  vget (vadd v0 (vadd (vscale edge01 b1) (vscale edge02 b2))) i
  == (1 - b1 - b2) * vget v0 i + b1 * vget (vadd v0 edge01) i + b2 * vget (vadd v0 edge02) i.
Proof.
  unfold vget, vadd, vscale. exact_ops.
  destruct (i =? 0)%Z; [ | destruct (i =? 1)%Z]; cbn [e0 e1 e2]; ring.
Qed.

(** X10. A time [rayTriangleIntersectionTime] returns that is not negative
    is the time of a point that [isPointInsideTriangle] accepts, for the
    triangle with the corners [v0], [v0 + edge01], [v0 + edge02] and every
    projection that does not flatten it. *)
Theorem ray_hit_is_inside (ray : Ray3) (v0 edge01 edge02 : Vec3 Q) (primary_axis : Z) :
  let r := rayTriangleIntersectionTime ray v0 edge01 edge02 in
  0 <= r ->
  ~ projected_area2 primary_axis v0 (vadd v0 edge01) (vadd v0 edge02) == 0 ->
  isPointInsideTriangle v0 (vadd v0 edge01) (vadd v0 edge02) primary_axis
    (vadd (getOrigin ray) (vscale (getDirection ray) r)) = true.
Proof.
  intros r Hr HA.
  apply (isPointInsideTriangle_nonzero_area _ _ _ _ _ HA).
  pose proof (ray_decision ray v0 edge01 edge02) as H. cbv zeta in H. fold r in H.
  pose proof EPS_pos as Heps.
  destruct H as [[_ H] | [(_ & _ & H) | (HD & B1 & B2 & B3 & Ht & H)]];
    [exfalso; rewrite H in Hr; apply (Qle_not_lt _ _ Hr); reflexivity
    | exfalso; rewrite H in Hr; apply (Qle_not_lt _ _ Hr); reflexivity | ].
  assert (ND : ~ ray_DdN ray edge01 edge02 == 0).
  { intro E. rewrite E in HD. cbn in HD. lra. }
  pose proof (veq_scale_wd _ _ _ _ _ H (ray_hit_point ray v0 edge01 edge02 ND)) as HP.
  set (b1 := ray_b1 ray v0 edge01 edge02) in *.
  set (b2 := ray_b2 ray v0 edge01 edge02) in *.
  exists (1 - b1 - b2), b1, b2.
  split; [lra | split; [exact B1 | split; [exact B2 | split; [ring | ]]]].
  split; rewrite (vget_veq _ _ _ HP); apply vget_corner_combination.
Qed.

Lemma ray_hit_is_inside_witness :
  let ray := mkRay3 (qv 1 1 5) (qv 0 0 (-1)) in
  let v0 := qv 0 0 0 in let edge01 := qv 4 0 0 in let edge02 := qv 0 4 0 in
  (0 <= rayTriangleIntersectionTime ray v0 edge01 edge02 /\
   ~ projected_area2 2 v0 (vadd v0 edge01) (vadd v0 edge02) == 0) /\
  isPointInsideTriangle v0 (vadd v0 edge01) (vadd v0 edge02) 2
    (vadd (getOrigin ray)
          (vscale (getDirection ray) (rayTriangleIntersectionTime ray v0 edge01 edge02)))
  = true.
Proof.
  refine ((fun H => conj H (ray_hit_is_inside _ _ _ _ 2%Z (proj1 H) (proj2 H))) _).
  split; vm_compute; intro; discriminate.
Defined.

(** *** The winding of the triangle *)

Lemma ray_swap_edges (ray : Ray3) (v0 edge01 edge02 : Vec3 Q) :
  ~ ray_DdN ray edge01 edge02 == 0 ->
  ray_DdN ray edge02 edge01 == - ray_DdN ray edge01 edge02 /\
  ray_b1 ray v0 edge02 edge01 == ray_b2 ray v0 edge01 edge02 /\
  ray_b2 ray v0 edge02 edge01 == ray_b1 ray v0 edge01 edge02 /\
  ray_t ray v0 edge02 edge01 == ray_t ray v0 edge01 edge02.
Proof.
  destruct ray as [[ox oy oz] [dx dy dz]], v0 as [px py pz],
           edge01 as [ax ay az], edge02 as [bx b_y bz].
  unfold ray_t, ray_b1, ray_b2, ray_DdN, vadd, vscale, vdot, vcross, vsub.
  cbn [e0 e1 e2 getOrigin getDirection]. exact_ops.
  intros HD.
  split; [ring | split; [ | split]]; field; repeat split; intro E; apply HD; lra.
Qed.

Lemma ray_DdN_swap (ray : Ray3) (edge01 edge02 : Vec3 Q) :
  ray_DdN ray edge02 edge01 == - ray_DdN ray edge01 edge02.
Proof.
  unfold ray_DdN, vdot, vcross. cbn [e0 e1 e2]. exact_ops. ring.
Qed.

(** X11. [rayTriangleIntersectionTime] does not depend on the winding of
    the triangle: exchanging the two edge vectors leaves the returned time
    as it is. *)
Theorem rayTriangleIntersectionTime_two_sided (ray : Ray3) (v0 edge01 edge02 : Vec3 Q) :
  rayTriangleIntersectionTime ray v0 edge02 edge01
  == rayTriangleIntersectionTime ray v0 edge01 edge02.
Proof.
  pose proof (ray_decision ray v0 edge01 edge02) as H. cbv zeta in H.
  pose proof (ray_decision ray v0 edge02 edge01) as H'. cbv zeta in H'.
  pose proof (ray_DdN_swap ray edge01 edge02) as ED.
  pose proof EPS_pos as Heps.
  assert (EA : Qabs (ray_DdN ray edge02 edge01) == Qabs (ray_DdN ray edge01 edge02)).
  { rewrite ED. apply Qabs_opp. }
  rewrite EA in H'.
  destruct (Qlt_le_dec EPS (Qabs (ray_DdN ray edge01 edge02))) as [Hbig | Hsmall].
  - assert (ND : ~ ray_DdN ray edge01 edge02 == 0).
    { intro E. rewrite E in Hbig. cbn in Hbig. lra. }
    destruct (ray_swap_edges ray v0 edge01 edge02 ND) as (_ & E1 & E2 & E3).
    rewrite E1, E2, E3 in H'.
    destruct H as [[Hn _] | [(_ & Hout & Hr) | (_ & B1 & B2 & B3 & B4 & Hr)]]; [lra | | ];
    (destruct H' as [[Hn' _] | [(_ & Hout' & Hr') | (_ & B1' & B2' & B3' & B4' & Hr')]];
      [lra | | ]).
    + rewrite Hr, Hr'. reflexivity.
    + exfalso. destruct Hout as [Ho | [Ho | [Ho | Ho]]]; lra.
    + exfalso. destruct Hout' as [Ho | [Ho | [Ho | Ho]]]; lra.
    + rewrite Hr, Hr'. reflexivity.
  - destruct H as [[_ Hr] | [(Hn & _) | (Hn & _)]]; [ | lra | lra].
    destruct H' as [[_ Hr'] | [(Hn' & _) | (Hn' & _)]]; [ | lra | lra].
    rewrite Hr, Hr'. reflexivity.
Qed.

(** *** The projection axes *)

(** X12. [largest_component] returns an index at which the absolute value
    of the vector is largest. *)
Theorem largest_component_is_largest (D : Vec3 Q) (k : Z) :
  Qabs (vget D k) <= Qabs (vget D (largest_component D)).
Proof.
  unfold largest_component, vget. exact_ops. destruct D as [d0 d1 d2]. cbn [e0 e1 e2].
  destruct (Qltb (Qabs d0) (Qabs d1)) eqn:E1; [apply Qltb_lt in E1 | apply Qltb_ge in E1];
  cbv beta iota;
  match goal with |- context [Qltb ?a ?b] =>
    destruct (Qltb a b) eqn:E2; [apply Qltb_lt in E2 | apply Qltb_ge in E2] end;
  cbn [Z.eqb Pos.eqb];
  (destruct (k =? 0)%Z; [lra | destruct (k =? 1)%Z; lra]).
Qed.

(** X13. [coplanar_tri_tri] projects along an axis on which the normal is
    largest in absolute value: the two coordinates it keeps are different,
    and the one it drops is one where [|N|] is largest. *)
Theorem projection_axes_drop_largest (N : Vec3 Q) (k : Z) :
  let i0 := fst (projection_axes N) in
  let i1 := snd (projection_axes N) in
  (0 <= i0 < i1)%Z /\ (i1 <= 2)%Z /\
  Qabs (vget N k) <= Qabs (vget N (3 - i0 - i1)).
Proof.
  unfold projection_axes, vget. exact_ops. destruct N as [n0 n1 n2]. cbn [e0 e1 e2].
  destruct (Qltb (Qabs n1) (Qabs n0)) eqn:E1; [apply Qltb_lt in E1 | apply Qltb_ge in E1];
  match goal with |- context [Qltb ?a ?b] =>
    destruct (Qltb a b) eqn:E2; [apply Qltb_lt in E2 | apply Qltb_ge in E2] end;
  cbn [fst snd Z.sub Z.add Z.opp Z.pos_sub Z.eqb Pos.eqb Z.succ_double Z.pred_double Z.double
       Pos.pred_double];
  (split; [lia | split; [lia | ]]);
  (destruct (k =? 0)%Z; [lra | destruct (k =? 1)%Z; lra]).
Qed.

(** *** The coplanar test *)

Lemma Qdiv_le_one (n d : Q) : 0 <= (d - n) * d -> ~ d == 0 -> n / d <= 1.
Proof.
  intros H N.
  assert (E : 1 - n / d == (d - n) / d) by (field; exact N).
  pose proof (Qdiv_nonneg _ _ H N). lra.
Qed.

(** The decision of [EDGE_EDGE_TEST] on [f], [d] and [e]. *)
Lemma EDGE_EDGE_TEST_decision (i0 i1 : Z) (Ax Ay : Q) (V0 U0 U1 : Vec3 Q) :
  let Bx := vget U0 i0 - vget U1 i0 in
  let By := vget U0 i1 - vget U1 i1 in
  let Cx := vget V0 i0 - vget U0 i0 in
  let Cy := vget V0 i1 - vget U0 i1 in
  let f := Ay * Bx - Ax * By in
  let d := By * Cx - Bx * Cy in
  let e := Ax * Cy - Ay * Cx in
  EDGE_EDGE_TEST i0 i1 Ax Ay V0 U0 U1 = true <->
  (~ f == 0 /\ 0 <= d / f <= 1 /\ 0 <= e / f <= 1).
Proof.
  unfold EDGE_EDGE_TEST. cbv zeta. exact_ops.
  set (f := Ay * (vget U0 i0 - vget U1 i0) - Ax * (vget U0 i1 - vget U1 i1)).
  set (d := (vget U0 i1 - vget U1 i1) * (vget V0 i0 - vget U0 i0)
            - (vget U0 i0 - vget U1 i0) * (vget V0 i1 - vget U0 i1)).
  set (e := Ax * (vget V0 i1 - vget U0 i1) - Ay * (vget V0 i0 - vget U0 i0)).
  clearbody f d e.
  assert (POS : 0 < f -> forall n, (0 <= n / f <= 1 <-> 0 <= n /\ n <= f)).
  { intros Hf n. assert (Nf : ~ f == 0) by lra.
    assert (E : n == (n / f) * f) by (field; exact Nf).
    split.
    - intros [H0 H1].
      pose proof (Qmult_le_0_compat _ _ H0 (Qlt_le_weak _ _ Hf)) as P0.
      assert (P1 : 0 <= (1 - n / f) * f) by (apply Qmult_le_0_compat; lra).
      assert (E1 : (1 - n / f) * f == f - n) by (field; exact Nf).
      split; lra.
    - intros [H0 H1]. split.
      + apply Qdiv_nonneg; [ | exact Nf]. apply Qmult_le_0_compat; lra.
      + apply Qdiv_le_one; [ | exact Nf]. apply Qmult_le_0_compat; lra. }
  assert (NEG : f < 0 -> forall n, (0 <= n / f <= 1 <-> n <= 0 /\ f <= n)).
  { intros Hf n. assert (Nf : ~ f == 0) by lra.
    split.
    - intros [H0 H1].
      assert (P0 : 0 <= (n / f) * (- f)) by (apply Qmult_le_0_compat; lra).
      assert (E0 : (n / f) * (- f) == - n) by (field; exact Nf).
      assert (P1 : 0 <= (1 - n / f) * (- f)) by (apply Qmult_le_0_compat; lra).
      assert (E1 : (1 - n / f) * (- f) == n - f) by (field; exact Nf).
      split; lra.
    - intros [H0 H1]. split.
      + apply Qdiv_nonneg; [ | exact Nf].
        assert (P : 0 <= (- n) * (- f)) by (apply Qmult_le_0_compat; lra).
        assert (E : (- n) * (- f) == n * f) by ring. lra.
      + apply Qdiv_le_one; [ | exact Nf].
        assert (P : 0 <= (n - f) * (- f)) by (apply Qmult_le_0_compat; lra).
        assert (E : (n - f) * (- f) == (f - n) * f) by ring. lra. }
  destruct (Qltb 0 f) eqn:Epos; [apply Qltb_lt in Epos | apply Qltb_ge in Epos];
  (destruct (Qltb f 0) eqn:Eneg; [apply Qltb_lt in Eneg | apply Qltb_ge in Eneg]);
  cbn [andb orb].
  - exfalso; lra.
  - rewrite orb_false_r.
    rewrite (POS Epos d), (POS Epos e).
    destruct (Qle_bool 0 d) eqn:D0; [apply Qle_bool_iff in D0 | apply Qle_bool_gt in D0];
    (destruct (Qle_bool d f) eqn:D1; [apply Qle_bool_iff in D1 | apply Qle_bool_gt in D1]);
    cbn [andb];
    try (split; [discriminate | intros (_ & [? ?] & _); exfalso; lra]).
    rewrite andb_true_iff, !Qle_bool_iff.
    split; [intros [? ?]; repeat split; lra | intros (_ & _ & ? & ?); split; assumption].
  - rewrite (NEG Eneg d), (NEG Eneg e).
    destruct (Qle_bool d 0) eqn:D0; [apply Qle_bool_iff in D0 | apply Qle_bool_gt in D0];
    (destruct (Qle_bool f d) eqn:D1; [apply Qle_bool_iff in D1 | apply Qle_bool_gt in D1]);
    cbn [andb];
    try (split; [discriminate | intros (_ & [? ?] & _); exfalso; lra]).
    rewrite andb_true_iff, !Qle_bool_iff.
    split; [intros [? ?]; repeat split; lra | intros (_ & _ & ? & ?); split; assumption].
  - split; [discriminate | intros (Nf & _); exfalso; apply Nf; lra].
Qed.

Lemma EDGE_EDGE_TEST_meet (i0 i1 : Z) (V0 V1 U0 U1 : Vec3 Q) :
  EDGE_EDGE_TEST i0 i1 (vget V1 i0 - vget V0 i0) (vget V1 i1 - vget V0 i1) V0 U0 U1 = true <->
  (~ edge_cross i0 i1 V0 V1 U0 U1 == 0 /\
   exists x y, on_projected_segment i0 i1 V0 V1 x y /\ on_projected_segment i0 i1 U0 U1 x y).
Proof.
  rewrite EDGE_EDGE_TEST_decision. cbv zeta.
  unfold edge_cross, on_projected_segment.
  generalize (vget V0 i0) (vget V0 i1) (vget V1 i0) (vget V1 i1)
             (vget U0 i0) (vget U0 i1) (vget U1 i0) (vget U1 i1).
  intros vax vay vbx vby uax uay ubx uby.
  set (f := (vby - vay) * (uax - ubx) - (vbx - vax) * (uay - uby)).
  set (d := (uay - uby) * (vax - uax) - (uax - ubx) * (vay - uay)).
  set (e := (vbx - vax) * (vay - uay) - (vby - vay) * (vax - uax)).
  split.
  - intros (Nf & Hd & He). split; [exact Nf | ].
    exists (vax + d / f * (vbx - vax)), (vay + d / f * (vby - vay)).
    split.
    + exists (d / f). split; [exact Hd | split; reflexivity].
    + exists (e / f). split; [exact He | ].
      subst d e f. split; field; exact Nf.
  - intros (Nf & x & y & (s & Hs & Hx & Hy) & (s' & Hs' & Hx' & Hy')).
    split; [exact Nf | ].
    assert (Ed : d / f == s).
    { assert (E : d == s * f) by (subst d f; nsatz).
      rewrite E. field. exact Nf. }
    assert (Ee : e / f == s').
    { assert (E : e == s' * f) by (subst e f; nsatz).
      rewrite E. field. exact Nf. }
    rewrite Ed, Ee. split; assumption.
Qed.

(** [POINT_IN_TRI] succeeds only for a point inside the projected
    triangle. *)
Lemma POINT_IN_TRI_inside (i0 i1 : Z) (V0 U0 U1 U2 : Vec3 Q) :
  POINT_IN_TRI i0 i1 V0 U0 U1 U2 = true -> in_projected_triangle i0 i1 U0 U1 U2 V0.
Proof.
  unfold POINT_IN_TRI, in_projected_triangle. cbv zeta. exact_ops.
  generalize (vget V0 i0) (vget V0 i1) (vget U0 i0) (vget U0 i1)
             (vget U1 i0) (vget U1 i1) (vget U2 i0) (vget U2 i1).
  intros x y ax ay bx b_y cx cy.
  set (d0 := (b_y - ay) * x + - (bx - ax) * y + (- (b_y - ay) * ax - - (bx - ax) * ay)).
  set (d1 := (cy - b_y) * x + - (cx - bx) * y + (- (cy - b_y) * bx - - (cx - bx) * b_y)).
  set (d2 := (ay - cy) * x + - (ax - cx) * y + (- (ay - cy) * cx - - (ax - cx) * cy)).
  destruct (Qltb 0 (d0 * d1)) eqn:E1; [apply Qltb_lt in E1 | discriminate].
  rewrite Qltb_lt. intros E2.
  assert (N0 : ~ d0 == 0) by (eapply Qmult_pos_nonzero_l; exact E1).
  assert (S : 0 < d0 * (d0 + d1 + d2)).
  { pose proof (Qsquare_nonneg d0).
    assert (E : d0 * (d0 + d1 + d2) == d0 * d0 + d0 * d1 + d0 * d2) by ring. lra. }
  assert (NS : ~ d0 + d1 + d2 == 0) by (eapply Qmult_pos_nonzero_r; exact S).
  assert (W : forall n, 0 < d0 * n -> 0 <= n / (d0 + d1 + d2)).
  { intros n Hn. apply Qdiv_nonneg; [ | exact NS].
    destruct (Qlt_le_dec 0 d0) as [H | H].
    - pose proof (Qmult_pos_r _ _ H Hn). pose proof (Qmult_pos_r _ _ H S).
      apply Qmult_le_0_compat; lra.
    - assert (H' : d0 < 0) by lra.
      pose proof (Qmult_neg_r _ _ H' Hn). pose proof (Qmult_neg_r _ _ H' S).
      assert (0 <= (- n) * (- (d0 + d1 + d2))) by (apply Qmult_le_0_compat; lra).
      assert ((- n) * (- (d0 + d1 + d2)) == n * (d0 + d1 + d2)) by ring. lra. }
  exists (d1 / (d0 + d1 + d2)), (d2 / (d0 + d1 + d2)), (d0 / (d0 + d1 + d2)).
  split; [apply W; exact E1 | split; [apply W; exact E2 | split]].
  - apply W. pose proof (Qsquare_nonneg d0). destruct (Qeq_dec (d0 * d0) 0) as [Z | Z].
    + exfalso. apply N0. apply sq_nonpos. lra.
    + lra.
  - split; [field; exact NS | ].
    subst d0 d1 d2. split; field; exact NS.
Qed.

(** X14. [EDGE_EDGE_TEST] succeeds exactly when the two projected edges
    are not parallel and have a point in common. *)
Theorem EDGE_EDGE_TEST_crossing (i0 i1 : Z) (V0 V1 U0 U1 : Vec3 Q) :
  EDGE_EDGE_TEST i0 i1 (vget V1 i0 - vget V0 i0) (vget V1 i1 - vget V0 i1) V0 U0 U1 = true <->
  (~ edge_cross i0 i1 V0 V1 U0 U1 == 0 /\
   exists x y, on_projected_segment i0 i1 V0 V1 x y /\ on_projected_segment i0 i1 U0 U1 x y).
Proof. exact (EDGE_EDGE_TEST_meet i0 i1 V0 V1 U0 U1). Qed.

(** A point of the projection of an edge is a point of the projected
    triangle. *)
Lemma projected_edge_in_triangle (i j : Z) (A B C p : Vec3 Q) :
  (on_projected_segment i j A B (vget p i) (vget p j) ->
   in_projected_triangle i j A B C p) /\
  (on_projected_segment i j B C (vget p i) (vget p j) ->
   in_projected_triangle i j A B C p) /\
  (on_projected_segment i j C A (vget p i) (vget p j) ->
   in_projected_triangle i j A B C p).
Proof.
  unfold on_projected_segment, in_projected_triangle.
  split; [ | split]; intros (s & Hs & Hx & Hy).
  - exists (1 - s), s, 0. split; [lra | split; [lra | split; [lra | split; [ring | ]]]].
    split; [rewrite Hx | rewrite Hy]; ring.
  - exists 0, (1 - s), s. split; [lra | split; [lra | split; [lra | split; [ring | ]]]].
    split; [rewrite Hx | rewrite Hy]; ring.
  - exists s, 0, (1 - s). split; [lra | split; [lra | split; [lra | split; [ring | ]]]].
    split; [rewrite Hx | rewrite Hy]; ring.
Qed.

Lemma vertex_in_projected_triangle (i j : Z) (A B C : Vec3 Q) :
  in_projected_triangle i j A B C A.
Proof.
  exists 1, 0, 0. split; [lra | split; [lra | split; [lra | split; [ring | ]]]].
  split; ring.
Qed.

(** The two coordinates [projection_axes] keeps are two different ones, so
    every pair [(x, y)] is the projection of a point. *)
Lemma projection_axes_point (N : Vec3 Q) (x y : Q) :
  exists p, vget p (fst (projection_axes N)) == x /\ vget p (snd (projection_axes N)) == y.
Proof.
  unfold projection_axes. cbv zeta.
  destruct (rltb _ _); destruct (rltb _ _); cbn [fst snd].
  - exists (mkVec3 0 x y). split; reflexivity.
  - exists (mkVec3 x y 0). split; reflexivity.
  - exists (mkVec3 x y 0). split; reflexivity.
  - exists (mkVec3 x 0 y). split; reflexivity.
Qed.

(** Two projected edges that [EDGE_EDGE_TEST] accepts give a point of both
    projected triangles. *)
Lemma coplanar_tests_shared (N V0 V1 V2 U0 U1 U2 : Vec3 Q) :
  let i0 := fst (projection_axes N) in
  let i1 := snd (projection_axes N) in
  coplanar_tests i0 i1 V0 V1 V2 U0 U1 U2 = true ->
  exists p, in_projected_triangle i0 i1 V0 V1 V2 p /\ in_projected_triangle i0 i1 U0 U1 U2 p.
Proof.
  intros i0 i1.
  assert (EDGE : forall Va Vb Ua Ub,
            EDGE_EDGE_TEST i0 i1 (vget Vb i0 - vget Va i0) (vget Vb i1 - vget Va i1) Va Ua Ub
            = true ->
            exists p, on_projected_segment i0 i1 Va Vb (vget p i0) (vget p i1) /\
                      on_projected_segment i0 i1 Ua Ub (vget p i0) (vget p i1)).
  { intros Va Vb Ua Ub H.
    apply EDGE_EDGE_TEST_meet in H. destruct H as (_ & x & y & (s & Hs & Hx & Hy) & (s' & Hs' & Hx' & Hy')).
    destruct (projection_axes_point N x y) as (p & P0 & P1). fold i0 i1 in P0, P1.
    exists p. split; [exists s | exists s'];
      (split; [assumption | split; [rewrite P0 | rewrite P1]; assumption]). }
  unfold coplanar_tests. rewrite !EDGE_AGAINST_TRI_EDGES_spec. cbv zeta.
  rewrite !if_true_orb, !orb_true_iff.
  pose proof (fun p => projected_edge_in_triangle i0 i1 V0 V1 V2 p) as PV.
  pose proof (fun p => projected_edge_in_triangle i0 i1 U0 U1 U2 p) as PU.
  intros H.
  repeat match goal with H : _ \/ _ |- _ => destruct H as [H | H] end;
  try discriminate H;
  try (destruct (EDGE _ _ _ _ H) as (p & SV & SU); exists p;
       destruct (PV p) as (PV1 & PV2 & PV3); destruct (PU p) as (PU1 & PU2 & PU3);
       split; auto; fail).
  - exists V0. split; [apply vertex_in_projected_triangle | apply POINT_IN_TRI_inside; exact H].
  - exists U0. split; [apply POINT_IN_TRI_inside; exact H | apply vertex_in_projected_triangle].
Qed.

(** X15. [coplanar_tri_tri] answers 1 only for triangles whose projections
    on the plane of the two coordinates it keeps have a point in common. *)
Theorem coplanar_tri_tri_sound (N V0 V1 V2 U0 U1 U2 : Vec3 Q) :
  let i0 := fst (projection_axes N) in
  let i1 := snd (projection_axes N) in
  coplanar_tri_tri N V0 V1 V2 U0 U1 U2 = true ->
  exists p, in_projected_triangle i0 i1 V0 V1 V2 p /\ in_projected_triangle i0 i1 U0 U1 U2 p.
Proof.
  intros i0 i1 H. apply (coplanar_tests_shared N). fold i0 i1.
  revert H. unfold coplanar_tri_tri. subst i0 i1.
  destruct (projection_axes N) as [i0 i1]. cbn [fst snd]. exact (fun H => H).
Qed.

Lemma coplanar_tri_tri_sound_witness :
  let N := qv 0 0 4 in
  let V0 := qv 0 0 0 in let V1 := qv 2 0 0 in let V2 := qv 0 2 0 in
  let U0 := qv 1 (-1) 0 in let U1 := qv 3 1 0 in let U2 := qv 1 3 0 in
  coplanar_tri_tri N V0 V1 V2 U0 U1 U2 = true /\
  exists p, in_projected_triangle (fst (projection_axes N)) (snd (projection_axes N)) V0 V1 V2 p /\
            in_projected_triangle (fst (projection_axes N)) (snd (projection_axes N)) U0 U1 U2 p.
Proof.
  refine ((fun H => conj H (coplanar_tri_tri_sound _ _ _ _ _ _ _ H)) _).
  reflexivity.
Defined.

(** * Properties of [SortedArray] *)

Section SortedArrayFacts.

Import SortedArray.

Context {T : Type} (compare : T -> T -> bool).

(** The comparator is a strict weak ordering: asymmetric, and an element
    less than another one is less than, or has less than it, every third
    one. *)
Hypothesis compare_asym : forall a b, compare a b = true -> compare b a = false.
Hypothesis compare_cotrans :
  forall a b c, compare a c = true -> compare a b = true \/ compare b c = true.

Lemma get_nth_error (values : list T) (i : Z) (x : T) :
  get values i = Some x <-> (0 <= i)%Z /\ nth_error values (Z.to_nat i) = Some x.
Proof.
  unfold get, size. split.
  - destruct (0 <=? i)%Z eqn:E0; [ | discriminate]. apply Z.leb_le in E0.
    destruct (i <? _)%Z; [ | discriminate]. cbn [andb]. intros H. split; assumption.
  - intros [H0 H]. assert (L : (Z.to_nat i < length values)%nat).
    { apply nth_error_Some. rewrite H. discriminate. }
    assert (E0 : (0 <=? i)%Z = true) by (apply Z.leb_le; lia).
    assert (E1 : (i <? Z.of_nat (length values))%Z = true) by (apply Z.ltb_lt; lia).
    rewrite E0, E1. exact H.
Qed.

Lemma get_app (l1 l2 : list T) (i : Z) :
  (0 <= i < size (l1 ++ l2))%Z ->
  (i < size l1 /\ exists x, get (l1 ++ l2) i = Some x /\ In x l1)%Z \/
  (size l1 <= i /\ exists x, get (l1 ++ l2) i = Some x /\ In x l2)%Z.
Proof.
  unfold size. rewrite length_app. intros Hi.
  destruct (Z_lt_le_dec i (Z.of_nat (length l1))) as [H | H].
  - left. split; [exact H | ].
    destruct (nth_error l1 (Z.to_nat i)) as [x | ] eqn:E.
    + exists x. split; [ | eapply nth_error_In; exact E].
      apply get_nth_error. split; [lia | ]. rewrite nth_error_app1 by lia. exact E.
    + apply nth_error_None in E. lia.
  - right. split; [exact H | ].
    destruct (nth_error l2 (Z.to_nat i - length l1)) as [x | ] eqn:E.
    + exists x. split; [ | eapply nth_error_In; exact E].
      apply get_nth_error. split; [lia | ]. rewrite nth_error_app2 by lia. exact E.
    + apply nth_error_None in E. lia.
Qed.

Lemma shiftr_half (count : Z) : (0 < count)%Z ->
  (0 <= Z.shiftr count 1 < count)%Z.
Proof.
  intros H. rewrite Z.shiftr_div_pow2 by lia. change (2 ^ 1)%Z with 2%Z.
  split; [apply Z.div_pos; lia | apply Z.div_lt_upper_bound; lia].
Qed.

(** The binary search of [lowerBound] on an array whose elements less than
    [t] all come first stops at the first of the others. *)
Lemma lowerBound_loop_partition (values l1 l2 : list T) (t : T) :
  values = l1 ++ l2 ->
  Forall (fun x => compare x t = true) l1 ->
  Forall (fun x => compare x t = false) l2 ->
  forall fuel first count,
    (0 <= first <= size l1)%Z -> (size l1 <= first + count <= size values)%Z ->
    (Z.to_nat count < fuel)%nat ->
    lowerBound_loop compare fuel values t first count = Some (size l1).
Proof.
  intros -> H1 H2. rewrite Forall_forall in H1, H2.
  induction fuel as [ | fuel IH]; intros first count Hf Hc Hfuel; [lia | ].
  cbn [lowerBound_loop].
  destruct (count >? 0)%Z eqn:E; [apply Z.gtb_lt in E | ].
  - pose proof (shiftr_half count E) as Hs. cbv zeta.
    set (step := Z.shiftr count 1) in *.
    destruct (get_app l1 l2 (first + step)) as [[Hm (x & Hx & Hin)] | [Hm (x & Hx & Hin)]];
      [lia | | ]; rewrite Hx.
    + rewrite (H1 x Hin). apply IH; lia.
    + rewrite (H2 x Hin). apply IH; lia.
  - assert (count <= 0)%Z by (destruct (Z.gtb_spec count 0); [discriminate | lia]).
    f_equal. lia.
Qed.

Lemma upperBound_loop_partition (values l1 l2 : list T) (t : T) :
  values = l1 ++ l2 ->
  Forall (fun x => negb (compare t x) = true) l1 ->
  Forall (fun x => negb (compare t x) = false) l2 ->
  forall fuel first count,
    (0 <= first <= size l1)%Z -> (size l1 <= first + count <= size values)%Z ->
    (Z.to_nat count < fuel)%nat ->
    upperBound_loop compare fuel values t first count = Some (size l1).
Proof.
  intros -> H1 H2. rewrite Forall_forall in H1, H2.
  induction fuel as [ | fuel IH]; intros first count Hf Hc Hfuel; [lia | ].
  cbn [upperBound_loop].
  destruct (count >? 0)%Z eqn:E; [apply Z.gtb_lt in E | ].
  - pose proof (shiftr_half count E) as Hs. cbv zeta.
    set (step := Z.shiftr count 1) in *.
    destruct (get_app l1 l2 (first + step)) as [[Hm (x & Hx & Hin)] | [Hm (x & Hx & Hin)]];
      [lia | | ]; rewrite Hx.
    + rewrite (H1 x Hin). apply IH; lia.
    + rewrite (H2 x Hin). apply IH; lia.
  - assert (count <= 0)%Z by (destruct (Z.gtb_spec count 0); [discriminate | lia]).
    f_equal. lia.
Qed.

(** In an ascending array the elements that satisfy a test which passes
    from every element to the ones before it come first. *)
Lemma ascending_partition (p : T -> bool) (values : list T) :
  (forall x y, compare y x = false -> p y = true -> p x = true) ->
  ascending compare values ->
  values = filter p values ++ filter (fun x => negb (p x)) values.
Proof.
  intros Hp. unfold ascending. induction 1 as [ | x l Hs IH Hx]; [reflexivity | ].
  cbn [filter]. destruct (p x) eqn:E; cbn [negb app].
  - f_equal. exact IH.
  - assert (A : Forall (fun y => p y = false) l).
    { rewrite Forall_forall in *. intros y Hy.
      destruct (p y) eqn:Ey; [ | reflexivity].
      rewrite (Hp x y (Hx y Hy) Ey) in E. discriminate E. }
    assert (F1 : filter p l = []).
    { clear -A. induction l as [ | y l IHl]; [reflexivity | ].
      inversion A as [ | ? ? Hy Hl]; subst. cbn [filter]. rewrite Hy. apply IHl. exact Hl. }
    assert (F2 : filter (fun y => negb (p y)) l = l).
    { clear -A. induction l as [ | y l IHl]; [reflexivity | ].
      inversion A as [ | ? ? Hy Hl]; subst. cbn [filter]. rewrite Hy. cbn [negb].
      f_equal. apply IHl. exact Hl. }
    rewrite F1, F2. reflexivity.
Qed.

Lemma filter_true (p : T -> bool) (values : list T) :
  Forall (fun x => p x = true) (filter p values).
Proof. rewrite Forall_forall. intros x Hx. apply filter_In in Hx. tauto. Qed.

Lemma filter_false (p : T -> bool) (values : list T) :
  Forall (fun x => p x = false) (filter (fun x => negb (p x)) values).
Proof.
  rewrite Forall_forall. intros x Hx. apply filter_In in Hx.
  destruct (p x); [destruct Hx; discriminate | reflexivity].
Qed.

Lemma less_passes_down (t x y : T) :
  compare y x = false -> compare y t = true -> compare x t = true.
Proof.
  intros Hyx Hyt. destruct (compare_cotrans y x t Hyt) as [H | H]; [congruence | exact H].
Qed.

Lemma not_greater_passes_down (t x y : T) :
  compare y x = false -> negb (compare t y) = true -> negb (compare t x) = true.
Proof.
  intros Hyx Hty. destruct (compare t x) eqn:E; [ | reflexivity].
  destruct (compare_cotrans t y x E) as [H | H]; [ | congruence].
  rewrite H in Hty. discriminate Hty.
Qed.

Lemma lowerBound_count (values : list T) (t : T) :
  ascending compare values ->
  lowerBound compare values t = Some (count_if (fun x => compare x t) values).
Proof.
  intros Hs. unfold lowerBound, count_if.
  apply (lowerBound_loop_partition values _ (filter (fun x => negb (compare x t)) values)).
  - apply (ascending_partition (fun x => compare x t)); [ | exact Hs].
    intros x y. apply less_passes_down.
  - apply (filter_true (fun x => compare x t)).
  - apply (filter_false (fun x => compare x t)).
  - unfold size. lia.
  - unfold size. pose proof (filter_length_le (fun x => compare x t) values). lia.
  - unfold size. lia.
Qed.

Lemma upperBound_count (values : list T) (t : T) :
  ascending compare values ->
  upperBound compare values t = Some (count_if (fun x => negb (compare t x)) values).
Proof.
  intros Hs. unfold upperBound, count_if.
  apply (upperBound_loop_partition values _
           (filter (fun x => negb (negb (compare t x))) values)).
  - apply (ascending_partition (fun x => negb (compare t x))); [ | exact Hs].
    intros x y. apply not_greater_passes_down.
  - apply (filter_true (fun x => negb (compare t x))).
  - apply (filter_false (fun x => negb (compare t x))).
  - unfold size. lia.
  - unfold size. pose proof (filter_length_le (fun x => negb (compare t x)) values). lia.
  - unfold size. lia.
Qed.


Lemma get_range (values : list T) (i : Z) (x : T) :
  get values i = Some x -> (0 <= i < size values)%Z.
Proof.
  intros H. apply get_nth_error in H. destruct H as [H0 H].
  assert (L : (Z.to_nat i < length values)%nat) by (apply nth_error_Some; rewrite H; discriminate).
  unfold size. lia.
Qed.

Lemma get_In (values : list T) (i : Z) (x : T) : get values i = Some x -> In x values.
Proof. intros H. apply get_nth_error in H. eapply nth_error_In. exact (proj2 H). Qed.

Lemma get_Some (values : list T) (i : Z) :
  (0 <= i < size values)%Z -> exists x, get values i = Some x.
Proof.
  intros Hi. destruct (nth_error values (Z.to_nat i)) as [x | ] eqn:E.
  - exists x. apply get_nth_error. split; [lia | exact E].
  - apply nth_error_None in E. unfold size in Hi. lia.
Qed.

(** In an ascending array the elements that satisfy such a test are the
    ones at the indices below their number. *)
Lemma partition_index (p : T -> bool) (values : list T) :
  (forall x y, compare y x = false -> p y = true -> p x = true) ->
  ascending compare values ->
  (0 <= count_if p values <= size values)%Z /\
  forall i x, get values i = Some x -> (p x = true <-> (i < count_if p values)%Z).
Proof.
  intros Hp Hs. pose proof (ascending_partition p values Hp Hs) as E.
  pose proof (filter_true p values) as H1. pose proof (filter_false p values) as H2.
  unfold count_if.
  pose proof (filter_length_le p values) as HL.
  revert E H1 H2 HL.
  generalize (filter p values) (filter (fun x => negb (p x)) values). intros l1 l2 E H1 H2 HL.
  rewrite Forall_forall in H1, H2.
  split; [unfold size; lia | ].
  intros i x Hx. pose proof (get_range _ _ _ Hx) as Hi. rewrite E in Hx, Hi.
  destruct (get_app l1 l2 i Hi) as [[Hm (y & Hy & Hin)] | [Hm (y & Hy & Hin)]];
    rewrite Hy in Hx; injection Hx as <-; unfold size in Hm.
  - split; [intros _; exact Hm | intros _; apply H1; exact Hin].
  - split; [intros Hc; rewrite (H2 y Hin) in Hc; discriminate Hc | lia].
Qed.

(** X16. On an ascending array [lowerBound] returns the index of the first
    element that is not less than [t], or the size when every element is
    less: the search ends, reads inside the array only, and the elements
    less than [t] are exactly the ones below the index returned. *)
Theorem lowerBound_first_not_less (values : list T) (t : T) :
  ascending compare values ->
  exists lb,
    lowerBound compare values t = Some lb /\ (0 <= lb <= size values)%Z /\
    forall i x, get values i = Some x -> (compare x t = true <-> (i < lb)%Z).
Proof.
  intros Hs. exists (count_if (fun x => compare x t) values).
  split; [apply lowerBound_count; exact Hs | ].
  apply (partition_index (fun x => compare x t)); [ | exact Hs].
  intros x y. apply less_passes_down.
Qed.

(** X17. On an ascending array [upperBound] returns the index of the first
    element greater than [t], or the size when there is none. *)
Theorem upperBound_first_greater (values : list T) (t : T) :
  ascending compare values ->
  exists ub,
    upperBound compare values t = Some ub /\ (0 <= ub <= size values)%Z /\
    forall i x, get values i = Some x -> (compare t x = true <-> (ub <= i)%Z).
Proof.
  intros Hs. exists (count_if (fun x => negb (compare t x)) values).
  split; [apply upperBound_count; exact Hs | ].
  destruct (partition_index (fun x => negb (compare t x)) values) as [Hr Hi];
    [intros x y; apply not_greater_passes_down | exact Hs | ].
  split; [exact Hr | ].
  intros i x Hx. specialize (Hi i x Hx). cbv beta in Hi.
  destruct (compare t x); cbn [negb] in Hi.
  - split; [intros _ | reflexivity].
    destruct (Z_lt_le_dec i (count_if (fun x => negb (compare t x)) values)) as [L | L];
      [apply Hi in L; discriminate L | exact L].
  - split; [discriminate | ]. intros L.
    assert (i < count_if (fun x => negb (compare t x)) values)%Z by (apply Hi; reflexivity).
    lia.
Qed.

Lemma In_get (values : list T) (x : T) : In x values -> exists i, get values i = Some x.
Proof.
  intros H. apply In_nth_error in H. destruct H as [n Hn].
  exists (Z.of_nat n). apply get_nth_error. split; [lia | ]. rewrite Nat2Z.id. exact Hn.
Qed.

Lemma compare_irrefl (a : T) : compare a a = false.
Proof.
  destruct (compare a a) eqn:E; [ | reflexivity]. rewrite (compare_asym a a E) in E.
  discriminate E.
Qed.

(** What [find] returns on an ascending array. *)
Lemma find_cases (values : list T) (t : T) :
  ascending compare values ->
  (find compare values t = Some (-1)%Z /\
   forall x, In x values -> ~ equivalent compare x t) \/
  (exists r x,
     find compare values t = Some r /\ (0 <= r < size values)%Z /\
     get values r = Some x /\ equivalent compare x t /\
     forall i y, get values i = Some y -> equivalent compare y t -> (r <= i)%Z).
Proof.
  intros Hs.
  destruct (partition_index (fun x => compare x t) values) as [Hr Hlb];
    [intros x y; apply less_passes_down | exact Hs | ].
  destruct (partition_index (fun x => negb (compare t x)) values) as [Hr' Hub];
    [intros x y; apply not_greater_passes_down | exact Hs | ].
  unfold find. rewrite (lowerBound_count values t Hs).
  set (lb := count_if (fun x => compare x t) values) in *.
  set (ub := count_if (fun x => negb (compare t x)) values) in *.
  cbv beta in Hlb, Hub.
  destruct (lb <? size values)%Z eqn:E; [apply Z.ltb_lt in E | apply Z.ltb_ge in E].
  - destruct (get_Some values lb) as [x Hx]; [lia | ]. rewrite Hx.
    assert (Hxt : compare x t = false).
    { destruct (compare x t) eqn:C; [ | reflexivity].
      assert (lb < lb)%Z by (apply (Hlb lb x Hx); exact C). lia. }
    destruct (compare t x) eqn:Htx; cbn [negb].
    + left. split; [reflexivity | ].
      intros y Hy [Hyt Hty]. destruct (In_get values y Hy) as [i Hi].
      assert (L : (lb <= i)%Z).
      { destruct (Z_lt_le_dec i lb) as [L | L]; [ | exact L].
        apply (Hlb i y Hi) in L. congruence. }
      assert (U : (ub <= lb)%Z).
      { destruct (Z_lt_le_dec lb ub) as [U | U]; [ | exact U].
        apply (Hub lb x Hx) in U. rewrite Htx in U. discriminate U. }
      assert (I : (i < ub)%Z) by (apply (Hub i y Hi); rewrite Hty; reflexivity).
      lia.
    + right. exists lb, x. split; [reflexivity | split; [lia | split; [exact Hx | ]]].
      split; [split; assumption | ].
      intros i y Hi [Hyt _].
      destruct (Z_lt_le_dec i lb) as [L | L]; [ | exact L].
      apply (Hlb i y Hi) in L. congruence.
  - left. split; [reflexivity | ].
    intros y Hy [Hyt _]. destruct (In_get values y Hy) as [i Hi].
    pose proof (get_range _ _ _ Hi).
    assert (C : compare y t = true) by (apply (Hlb i y Hi); lia). congruence.
Qed.

(** X18. On an ascending array [find] returns -1 exactly when no element
    is equal to [t] for the ordering, and otherwise the index of the first
    such element. *)
Theorem find_first_equivalent (values : list T) (t : T) :
  ascending compare values ->
  exists r,
    find compare values t = Some r /\
    ((r = (-1)%Z /\ forall x, In x values -> ~ equivalent compare x t) \/
     ((0 <= r < size values)%Z /\
      exists x, get values r = Some x /\ equivalent compare x t /\
        forall i y, get values i = Some y -> equivalent compare y t -> (r <= i)%Z)).
Proof.
  intros Hs. destruct (find_cases values t Hs) as [[H N] | (r & x & H & Hr & Hx & He & Hf)].
  - exists (-1)%Z. split; [exact H | left; split; [reflexivity | exact N]].
  - exists r. split; [exact H | right; split; [exact Hr | ]].
    exists x. split; [exact Hx | split; [exact He | exact Hf]].
Qed.

(** ** Insertion *)

Lemma StronglySorted_insert (R : T -> T -> Prop) (l1 l2 : list T) (t : T) :
  StronglySorted R (l1 ++ l2) ->
  Forall (fun x => R x t) l1 -> Forall (R t) l2 ->
  StronglySorted R (l1 ++ t :: l2).
Proof.
  induction l1 as [ | x l1 IH]; cbn [app]; intros Hs H1 H2.
  - constructor; assumption.
  - inversion Hs as [ | ? ? Hs' Hx]; subst. inversion H1 as [ | ? ? Hxt H1']; subst.
    constructor; [apply IH; assumption | ].
    apply Forall_app in Hx. destruct Hx as [Hx1 Hx2].
    apply Forall_app. split; [exact Hx1 | constructor; assumption].
Qed.

Lemma StronglySorted_remove (R : T -> T -> Prop) (l1 l2 : list T) (t : T) :
  StronglySorted R (l1 ++ t :: l2) -> StronglySorted R (l1 ++ l2).
Proof.
  induction l1 as [ | x l1 IH]; cbn [app]; intros Hs.
  - inversion Hs; assumption.
  - inversion Hs as [ | ? ? Hs' Hx]; subst.
    constructor; [apply IH; assumption | ].
    apply Forall_app in Hx. destruct Hx as [Hx1 Hx2]. inversion Hx2; subst.
    apply Forall_app. split; assumption.
Qed.

Lemma firstn_skipn_partition (l1 l2 : list T) :
  firstn (Z.to_nat (size l1)) (l1 ++ l2) = l1 /\ skipn (Z.to_nat (size l1)) (l1 ++ l2) = l2.
Proof.
  unfold size. rewrite Nat2Z.id. split.
  - rewrite firstn_app, Nat.sub_diag, firstn_all. cbn [firstn]. apply app_nil_r.
  - rewrite skipn_app, Nat.sub_diag, skipn_all. reflexivity.
Qed.

(** What [insert] does on an ascending array. *)
Lemma insert_result (values : list T) (t : T) :
  ascending compare values ->
  let i := count_if (fun x => negb (compare t x)) values in
  let values' := firstn (Z.to_nat i) values ++ t :: skipn (Z.to_nat i) values in
  insert compare values t = Some (values', i) /\
  ascending compare values' /\
  get values' i = Some t /\
  size values' = (size values + 1)%Z.
Proof.
  intros Hs i values'.
  pose proof (ascending_partition (fun x => negb (compare t x)) values
                (fun x y => not_greater_passes_down t x y) Hs) as E.
  pose proof (filter_true (fun x => negb (compare t x)) values) as H1.
  pose proof (filter_false (fun x => negb (compare t x)) values) as H2.
  pose proof (upperBound_count values t Hs) as HU. fold i in HU.
  cbv beta in E, H2. unfold count_if in i.
  revert E H1 H2 i values' HU.
  generalize (filter (fun x => negb (compare t x)) values)
             (filter (fun x => negb (negb (compare t x))) values).
  intros l1 l2 E H1 H2 i values' HU.
  change (Z.of_nat (length l1)) with (size l1) in i.
  destruct (firstn_skipn_partition l1 l2) as [F S]. rewrite <- E in F, S.
  assert (V : values' = l1 ++ t :: l2) by (subst values' i; rewrite F, S; reflexivity).
  split; [ | split; [ | split]].
  - unfold insert. destruct values as [ | v values0] eqn:Ev.
    + cbn [isEmpty app]. destruct l1; [ | discriminate E]. destruct l2; [ | discriminate E].
      reflexivity.
    + cbn [isEmpty]. rewrite HU. unfold array_insert.
      assert (R : (0 <=? i)%Z && (i <=? size (v :: values0))%Z = true).
      { apply andb_true_iff. split; [apply Z.leb_le | apply Z.leb_le].
        - subst i. unfold size. lia.
        - subst i. rewrite E. unfold size. rewrite length_app. lia. }
      rewrite R. reflexivity.
  - rewrite V. unfold ascending in *. apply StronglySorted_insert.
    + rewrite <- E. exact Hs.
    + rewrite Forall_forall in *. intros x Hx. specialize (H1 x Hx).
      destruct (compare t x); [discriminate H1 | reflexivity].
    + rewrite Forall_forall in *. intros x Hx. specialize (H2 x Hx).
      apply compare_asym. destruct (compare t x); [reflexivity | discriminate H2].
  - rewrite V. apply get_nth_error. subst i. unfold size. split; [lia | ].
    rewrite Nat2Z.id, nth_error_app2 by lia. rewrite Nat.sub_diag. reflexivity.
  - rewrite V. unfold size. rewrite E. rewrite !length_app. cbn [length]. lia.
Qed.

(** X19. [insert] on an ascending array places [t] behind the elements
    that are not greater than it, so behind its equals: it returns the
    number of those elements, the array it leaves has [t] at that index and
    the old elements around it in their order, is ascending, and is one
    element longer. *)
Theorem insert_keeps_ascending (values : list T) (t : T) :
  ascending compare values ->
  let i := count_if (fun x => negb (compare t x)) values in
  let values' := firstn (Z.to_nat i) values ++ t :: skipn (Z.to_nat i) values in
  insert compare values t = Some (values', i) /\
  ascending compare values' /\
  get values' i = Some t /\
  size values' = (size values + 1)%Z.
Proof. exact (insert_result values t). Qed.

(** X20. After [insert] of [t] into an ascending array, [contains]
    answers true for [t], and [find] returns an index at which an element
    equal to [t] for the ordering stands, not behind the index [insert]
    returned. *)
Theorem insert_then_find (values values' : list T) (t : T) (i : Z) :
  ascending compare values ->
  insert compare values t = Some (values', i) ->
  contains compare values' t = Some true /\
  exists r x, find compare values' t = Some r /\ (0 <= r <= i)%Z /\
              get values' r = Some x /\ equivalent compare x t.
Proof.
  intros Hs Hi. destruct (insert_result values t Hs) as (E & Hs' & Hg & _).
  rewrite E in Hi. injection Hi as <- <-.
  set (i := count_if (fun x => negb (compare t x)) values) in *.
  set (values' := firstn (Z.to_nat i) values ++ t :: skipn (Z.to_nat i) values) in *.
  assert (Et : equivalent compare t t) by (split; apply compare_irrefl).
  destruct (find_cases values' t Hs') as [[_ N] | (r & x & H & Hr & Hx & He & Hf)].
  - exfalso. exact (N t (get_In _ _ _ Hg) Et).
  - split.
    + unfold contains. rewrite H. f_equal. apply Z.geb_le. lia.
    + exists r, x. split; [exact H | split; [ | split; assumption]].
      pose proof (Hf i t Hg Et). lia.
Qed.

(** X21. [insertUnique] on an ascending array: when an element equal to
    [t] for the ordering is present it returns -1 and leaves the array as
    it is; otherwise it does what [insert] does. *)
Theorem insertUnique_cases (values : list T) (t : T) :
  ascending compare values ->
  ((exists x, In x values /\ equivalent compare x t) ->
   insertUnique compare values t = Some (values, (-1)%Z)) /\
  ((forall x, In x values -> ~ equivalent compare x t) ->
   insertUnique compare values t = insert compare values t).
Proof.
  intros Hs. unfold insertUnique, contains.
  destruct (find_cases values t Hs) as [[H N] | (r & x & H & Hr & Hx & He & Hf)]; rewrite H.
  - split; [intros (x & Hx & He); exfalso; exact (N x Hx He) | reflexivity].
  - assert (G : (r >=? 0)%Z = true) by (apply Z.geb_le; lia). rewrite G.
    split; [reflexivity | ].
    intros N. exfalso. exact (N x (get_In _ _ _ Hx) He).
Qed.

(** ** Removal *)

Lemma get_split (values : list T) (r : Z) (x : T) :
  get values r = Some x ->
  values = firstn (Z.to_nat r) values ++ x :: skipn (S (Z.to_nat r)) values.
Proof.
  intros H. apply get_nth_error in H. destruct H as [_ H].
  revert H. generalize (Z.to_nat r). clear r. intros n. revert values.
  induction n as [ | n IH]; intros [ | v values]; cbn; try discriminate.
  - intros [= ->]. reflexivity.
  - intros H. f_equal. apply IH. exact H.
Qed.

(** X22. [erase(t)] on an ascending array: when an element equal to [t]
    for the ordering is present, the first such element is removed and the
    array stays ascending; when none is present, [find] returns -1 and the
    call erases at the index -1, a position outside the array. *)
Theorem erase_value_cases (values : list T) (t : T) :
  ascending compare values ->
  ((forall x, In x values -> ~ equivalent compare x t) ->
   find compare values t = Some (-1)%Z /\ erase_value compare values t = None) /\
  ((exists x, In x values /\ equivalent compare x t) ->
   exists r x,
     find compare values t = Some r /\ get values r = Some x /\ equivalent compare x t /\
     erase_value compare values t
     = Some (firstn (Z.to_nat r) values ++ skipn (S (Z.to_nat r)) values) /\
     ascending compare (firstn (Z.to_nat r) values ++ skipn (S (Z.to_nat r)) values) /\
     size (firstn (Z.to_nat r) values ++ skipn (S (Z.to_nat r)) values) = (size values - 1)%Z).
Proof.
  intros Hs. unfold erase_value.
  destruct (find_cases values t Hs) as [[H N] | (r & x & H & Hr & Hx & He & Hf)]; rewrite H.
  - split; [intros _; split; reflexivity | ].
    intros (x & Hx & He). exfalso. exact (N x Hx He).
  - split; [intros N; exfalso; exact (N x (get_In _ _ _ Hx) He) | ].
    intros _. exists r, x.
    split; [reflexivity | split; [exact Hx | split; [exact He | ]]].
    pose proof (get_split values r x Hx) as E.
    split; [ | split].
    + unfold erase.
      assert (R : (0 <=? r)%Z && (r <? size values)%Z = true).
      { apply andb_true_iff. split; [apply Z.leb_le | apply Z.ltb_lt]; lia. }
      rewrite R. reflexivity.
    + unfold ascending in *. apply (StronglySorted_remove _ _ _ x). rewrite <- E. exact Hs.
    + unfold size in *. rewrite E at 3. rewrite !length_app. cbn [length]. lia.
Qed.

(** ** The two ends *)

Lemma ascending_pairs (values : list T) (i j : Z) (x y : T) :
  ascending compare values -> (i <= j)%Z ->
  get values i = Some x -> get values j = Some y -> compare y x = false.
Proof.
  intros Hs Hij Hx Hy.
  destruct (Z.eq_dec i j) as [-> | Hne].
  - rewrite Hx in Hy. injection Hy as <-. apply compare_irrefl.
  - apply get_nth_error in Hx, Hy. destruct Hx as [Hi Hx], Hy as [Hj Hy].
    assert (L : (Z.to_nat i < Z.to_nat j)%nat) by lia.
    revert L Hx Hy. generalize (Z.to_nat i) (Z.to_nat j). clear i j Hij Hne Hi Hj.
    unfold ascending in Hs. induction Hs as [ | v l Hs IH Hv]; intros n m L Hx Hy.
    + destruct n; discriminate Hx.
    + destruct m as [ | m]; [lia | ]. cbn [nth_error] in Hy.
      destruct n as [ | n].
      * cbn [nth_error] in Hx. injection Hx as <-.
        rewrite Forall_forall in Hv. apply Hv. eapply nth_error_In. exact Hy.
      * cbn [nth_error] in Hx. apply (IH n m); [lia | assumption | assumption].
Qed.

(** X23. In an ascending array that is not empty, [first] and [last]
    return elements, no element is less than the one [first] returns, and
    the one [last] returns is less than none. *)
Theorem first_last_extreme (values : list T) :
  ascending compare values -> isEmpty values = false ->
  exists a b, first values = Some a /\ last values = Some b /\
    forall y, In y values -> compare y a = false /\ compare b y = false.
Proof.
  intros Hs Hne.
  assert (Hsize : (0 < size values)%Z) by (destruct values; [discriminate Hne | unfold size; cbn [length]; lia]).
  destruct (get_Some values 0) as [a Ha]; [lia | ].
  destruct (get_Some values (size values - 1)) as [b Hb]; [lia | ].
  exists a, b. split; [exact Ha | split; [exact Hb | ]].
  intros y Hy. destruct (In_get values y Hy) as [i Hi]. pose proof (get_range _ _ _ Hi).
  split.
  - apply (ascending_pairs values 0 i a y Hs); [lia | assumption | assumption].
  - apply (ascending_pairs values i (size values - 1) y b Hs); [lia | assumption | assumption].
Qed.

End SortedArrayFacts.

(** ** The integers with [<] as an instance *)

Lemma Zltb_asym (a b : Z) : (a <? b)%Z = true -> (b <? a)%Z = false.
Proof. rewrite Z.ltb_lt, Z.ltb_ge. lia. Qed.

Lemma Zltb_cotrans (a b c : Z) :
  (a <? c)%Z = true -> (a <? b)%Z = true \/ (b <? c)%Z = true.
Proof. rewrite !Z.ltb_lt. lia. Qed.

Lemma lowerBound_first_not_less_witness :
  SortedArray.ascending Z.ltb [1; 3; 3; 7]%Z /\
  exists lb,
    SortedArray.lowerBound Z.ltb [1; 3; 3; 7]%Z 3%Z = Some lb /\
    (0 <= lb <= SortedArray.size [1; 3; 3; 7]%Z)%Z /\
    forall i x, SortedArray.get [1; 3; 3; 7]%Z i = Some x ->
                ((x <? 3)%Z = true <-> (i < lb)%Z).
Proof.
  refine ((fun H => conj H (lowerBound_first_not_less Z.ltb Zltb_cotrans _ 3%Z H)) _).
  repeat constructor.
Defined.

Lemma upperBound_first_greater_witness :
  SortedArray.ascending Z.ltb [1; 3; 3; 7]%Z /\
  exists ub,
    SortedArray.upperBound Z.ltb [1; 3; 3; 7]%Z 3%Z = Some ub /\
    (0 <= ub <= SortedArray.size [1; 3; 3; 7]%Z)%Z /\
    forall i x, SortedArray.get [1; 3; 3; 7]%Z i = Some x ->
                ((3 <? x)%Z = true <-> (ub <= i)%Z).
Proof.
  refine ((fun H => conj H (upperBound_first_greater Z.ltb Zltb_cotrans _ 3%Z H)) _).
  repeat constructor.
Defined.

Lemma find_first_equivalent_witness :
  SortedArray.ascending Z.ltb [1; 3; 3; 7]%Z /\
  exists r,
    SortedArray.find Z.ltb [1; 3; 3; 7]%Z 3%Z = Some r /\
    ((r = (-1)%Z /\
      forall x, In x [1; 3; 3; 7]%Z -> ~ SortedArray.equivalent Z.ltb x 3%Z) \/
     ((0 <= r < SortedArray.size [1; 3; 3; 7]%Z)%Z /\
      exists x, SortedArray.get [1; 3; 3; 7]%Z r = Some x /\
        SortedArray.equivalent Z.ltb x 3%Z /\
        forall i y, SortedArray.get [1; 3; 3; 7]%Z i = Some y ->
                    SortedArray.equivalent Z.ltb y 3%Z -> (r <= i)%Z)).
Proof.
  refine ((fun H => conj H (find_first_equivalent Z.ltb Zltb_cotrans _ 3%Z H)) _).
  repeat constructor.
Defined.

Lemma insert_keeps_ascending_witness :
  SortedArray.ascending Z.ltb [1; 3; 3; 7]%Z /\
  SortedArray.insert Z.ltb [1; 3; 3; 7]%Z 3%Z
  = Some (firstn (Z.to_nat (SortedArray.count_if (fun x => negb (3 <? x)%Z) [1; 3; 3; 7]%Z))
            [1; 3; 3; 7]%Z
          ++ 3%Z :: skipn (Z.to_nat (SortedArray.count_if (fun x => negb (3 <? x)%Z)
                                       [1; 3; 3; 7]%Z)) [1; 3; 3; 7]%Z,
          SortedArray.count_if (fun x => negb (3 <? x)%Z) [1; 3; 3; 7]%Z) /\
  SortedArray.ascending Z.ltb
    (firstn (Z.to_nat (SortedArray.count_if (fun x => negb (3 <? x)%Z) [1; 3; 3; 7]%Z))
       [1; 3; 3; 7]%Z
     ++ 3%Z :: skipn (Z.to_nat (SortedArray.count_if (fun x => negb (3 <? x)%Z)
                                  [1; 3; 3; 7]%Z)) [1; 3; 3; 7]%Z) /\
  SortedArray.get
    (firstn (Z.to_nat (SortedArray.count_if (fun x => negb (3 <? x)%Z) [1; 3; 3; 7]%Z))
       [1; 3; 3; 7]%Z
     ++ 3%Z :: skipn (Z.to_nat (SortedArray.count_if (fun x => negb (3 <? x)%Z)
                                  [1; 3; 3; 7]%Z)) [1; 3; 3; 7]%Z)
    (SortedArray.count_if (fun x => negb (3 <? x)%Z) [1; 3; 3; 7]%Z) = Some 3%Z /\
  SortedArray.size
    (firstn (Z.to_nat (SortedArray.count_if (fun x => negb (3 <? x)%Z) [1; 3; 3; 7]%Z))
       [1; 3; 3; 7]%Z
     ++ 3%Z :: skipn (Z.to_nat (SortedArray.count_if (fun x => negb (3 <? x)%Z)
                                  [1; 3; 3; 7]%Z)) [1; 3; 3; 7]%Z)
  = (SortedArray.size [1; 3; 3; 7]%Z + 1)%Z.
Proof.
  refine ((fun H => conj H (insert_keeps_ascending Z.ltb Zltb_asym Zltb_cotrans _ 3%Z H)) _).
  repeat constructor.
Defined.

Lemma insert_then_find_witness :
  (SortedArray.ascending Z.ltb [1; 3; 3; 7]%Z /\
   SortedArray.insert Z.ltb [1; 3; 3; 7]%Z 3%Z = Some ([1; 3; 3; 3; 7]%Z, 3%Z)) /\
  SortedArray.contains Z.ltb [1; 3; 3; 3; 7]%Z 3%Z = Some true /\
  exists r x, SortedArray.find Z.ltb [1; 3; 3; 3; 7]%Z 3%Z = Some r /\ (0 <= r <= 3)%Z /\
              SortedArray.get [1; 3; 3; 3; 7]%Z r = Some x /\
              SortedArray.equivalent Z.ltb x 3%Z.
Proof.
  refine ((fun H => conj H (insert_then_find Z.ltb Zltb_asym Zltb_cotrans _ _ 3%Z _
                              (proj1 H) (proj2 H))) _).
  split; [repeat constructor | reflexivity].
Defined.

Lemma insertUnique_cases_witness :
  SortedArray.ascending Z.ltb [1; 3; 3; 7]%Z /\
  ((exists x, In x [1; 3; 3; 7]%Z /\ SortedArray.equivalent Z.ltb x 3%Z) ->
   SortedArray.insertUnique Z.ltb [1; 3; 3; 7]%Z 3%Z = Some ([1; 3; 3; 7]%Z, (-1)%Z)) /\
  ((forall x, In x [1; 3; 3; 7]%Z -> ~ SortedArray.equivalent Z.ltb x 3%Z) ->
   SortedArray.insertUnique Z.ltb [1; 3; 3; 7]%Z 3%Z
   = SortedArray.insert Z.ltb [1; 3; 3; 7]%Z 3%Z).
Proof.
  refine ((fun H => conj H (insertUnique_cases Z.ltb Zltb_cotrans _ 3%Z H)) _).
  repeat constructor.
Defined.

Lemma erase_value_cases_witness :
  SortedArray.ascending Z.ltb [1; 3; 3; 7]%Z /\
  ((forall x, In x [1; 3; 3; 7]%Z -> ~ SortedArray.equivalent Z.ltb x 5%Z) ->
   SortedArray.find Z.ltb [1; 3; 3; 7]%Z 5%Z = Some (-1)%Z /\
   SortedArray.erase_value Z.ltb [1; 3; 3; 7]%Z 5%Z = None) /\
  ((exists x, In x [1; 3; 3; 7]%Z /\ SortedArray.equivalent Z.ltb x 5%Z) ->
   exists r x,
     SortedArray.find Z.ltb [1; 3; 3; 7]%Z 5%Z = Some r /\
     SortedArray.get [1; 3; 3; 7]%Z r = Some x /\ SortedArray.equivalent Z.ltb x 5%Z /\
     SortedArray.erase_value Z.ltb [1; 3; 3; 7]%Z 5%Z
     = Some (firstn (Z.to_nat r) [1; 3; 3; 7]%Z ++ skipn (S (Z.to_nat r)) [1; 3; 3; 7]%Z) /\
     SortedArray.ascending Z.ltb
       (firstn (Z.to_nat r) [1; 3; 3; 7]%Z ++ skipn (S (Z.to_nat r)) [1; 3; 3; 7]%Z) /\
     SortedArray.size (firstn (Z.to_nat r) [1; 3; 3; 7]%Z ++ skipn (S (Z.to_nat r)) [1; 3; 3; 7]%Z)
     = (SortedArray.size [1; 3; 3; 7]%Z - 1)%Z).
Proof.
  refine ((fun H => conj H (erase_value_cases Z.ltb Zltb_cotrans _ 5%Z H)) _).
  repeat constructor.
Defined.

Lemma first_last_extreme_witness :
  (SortedArray.ascending Z.ltb [1; 3; 3; 7]%Z /\
   SortedArray.isEmpty [1; 3; 3; 7]%Z = false) /\
  exists a b, SortedArray.first [1; 3; 3; 7]%Z = Some a /\
              SortedArray.last [1; 3; 3; 7]%Z = Some b /\
    forall y, In y [1; 3; 3; 7]%Z -> (y <? a)%Z = false /\ (b <? y)%Z = false.
Proof.
  refine ((fun H => conj H (first_last_extreme Z.ltb Zltb_asym _ (proj1 H) (proj2 H))) _).
  split; [repeat constructor | reflexivity].
Defined.

(** * Properties of [LineSegmentN] *)

Section LineSegmentFacts.

Import LineSegment3.

Variable fuzzyEq : Q -> Q -> bool.

Lemma squaredNorm_nonneg (v : Vec3 Q) : 0 <= squaredNorm v.
Proof.
  unfold squaredNorm, vdot. exact_ops.
  pose proof (Qsquare_nonneg (e0 v)). pose proof (Qsquare_nonneg (e1 v)).
  pose proof (Qsquare_nonneg (e2 v)). lra.
Qed.

(** Along the segment the squared distance to [p] is a parabola in the
    parameter. *)
Lemma dist2_getPoint (seg : LineSegment) (p : Vec3 Q) (s : Q) :
  dist2 (getPoint seg s) p
  == s * s * squaredNorm (direction seg)
     - 2 * s * vdot (direction seg) (vsub p (point seg))
     + squaredNorm (vsub p (point seg)).
Proof.
  destruct seg as [[a0 a1 a2] [d0 d1 d2]], p as [p0 p1 p2].
  unfold dist2, getPoint, scale, squaredNorm, vdot, vsub, vadd.
  cbn [e0 e1 e2 point direction]. exact_ops. ring.
Qed.

Lemma closestPoint_parameter (seg : LineSegment) (p : Vec3 Q) :
  fuzzyEq (squaredNorm (direction seg)) 0 = false ->
  ~ squaredNorm (direction seg) == 0 ->
  0 <= closest_parameter seg p <= 1 /\
  veq (closestPoint fuzzyEq seg p) (getPoint seg (closest_parameter seg p)).
Proof.
  intros HF HN. unfold closestPoint, closest_parameter. cbv zeta. exact_ops. rewrite HF.
  pose proof (squaredNorm_nonneg (direction seg)) as Hd.
  assert (Hd2 : 0 < squaredNorm (direction seg)) by lra.
  set (t := vdot (direction seg) (vsub p (point seg))).
  assert (E01 : squaredNorm (vsub (vsub p (point seg)) (direction seg))
                == squaredNorm (vsub p (point seg)) - 2 * t + squaredNorm (direction seg)).
  { subst t. destruct seg as [[a0 a1 a2] [d0 d1 d2]], p as [p0 p1 p2].
    unfold squaredNorm, vdot, vsub. cbn [e0 e1 e2 point direction]. exact_ops. ring. }
  revert E01. generalize (squaredNorm (vsub (vsub p (point seg)) (direction seg))).
  generalize (squaredNorm (vsub p (point seg))). intros n0 n1 E01.
  destruct (Qle_bool 0 t) eqn:E0; [apply Qle_bool_iff in E0 | apply Qle_bool_gt in E0];
    cbn [andb];
    [destruct (Qle_bool t (squaredNorm (direction seg))) eqn:E1;
       [apply Qle_bool_iff in E1 | apply Qle_bool_gt in E1] | ].
  - split.
    + split; [apply Qdiv_nonneg; [ | exact HN]; apply Qmult_le_0_compat; lra | ].
      apply Qdiv_le_one; [ | exact HN]. apply Qmult_le_0_compat; lra.
    + unfold veq. split; [reflexivity | split; reflexivity].
  - assert (X : Qltb t 0 = false) by (apply Qltb_ge; exact E0). rewrite X.
    assert (Y : Qltb n0 n1 = false) by (apply Qltb_ge; lra). rewrite Y.
    split; [lra | ].
    unfold veq, getPoint, scale, vadd. cbn [e0 e1 e2]. exact_ops.
    split; [ring | split; ring].
  - assert (X : Qltb t 0 = true) by (apply Qltb_lt; exact E0). rewrite X.
    assert (Y : Qltb n0 n1 = true) by (apply Qltb_lt; lra). rewrite Y.
    split; [lra | ].
    unfold veq, getPoint, scale, vadd. cbn [e0 e1 e2]. exact_ops.
    split; [ring | split; ring].
Qed.

Lemma closest_parameter_least (seg : LineSegment) (p : Vec3 Q) (s : Q) :
  ~ squaredNorm (direction seg) == 0 ->
  0 <= s <= 1 ->
  dist2 (getPoint seg (closest_parameter seg p)) p <= dist2 (getPoint seg s) p.
Proof.
  intros HN Hs. rewrite !dist2_getPoint. unfold closest_parameter. cbv zeta.
  pose proof (squaredNorm_nonneg (direction seg)) as Hd.
  assert (Hd2 : 0 < squaredNorm (direction seg)) by lra.
  revert HN Hd Hd2. generalize (squaredNorm (direction seg)).
  generalize (vdot (direction seg) (vsub p (point seg))).
  generalize (squaredNorm (vsub p (point seg))). intros n t d HN Hd Hd2.
  destruct (Qle_bool 0 t) eqn:E0; [apply Qle_bool_iff in E0 | apply Qle_bool_gt in E0];
    cbn [andb];
    [destruct (Qle_bool t d) eqn:E1;
       [apply Qle_bool_iff in E1 | apply Qle_bool_gt in E1] | ].
  - (* the projection falls within the segment *)
    assert (E : s * s * d - 2 * s * t + n - (t / d * (t / d) * d - 2 * (t / d) * t + n)
                == d * ((s - t / d) * (s - t / d))) by (field; exact HN).
    pose proof (Qsquare_nonneg (s - t / d)) as P.
    pose proof (Qmult_le_0_compat _ _ Hd P). lra.
  - (* beyond the second end *)
    assert (X : Qltb t 0 = false) by (apply Qltb_ge; exact E0). rewrite X.
    assert (E : s * s * d - 2 * s * t + n - (1 * 1 * d - 2 * 1 * t + n)
                == (1 - s) * (2 * t - d * (1 + s))) by ring.
    assert (P1 : 0 <= d * (1 - s)) by (apply Qmult_le_0_compat; lra).
    assert (P : 0 <= (1 - s) * (2 * t - d * (1 + s))).
    { apply Qmult_le_0_compat; [lra | ].
      assert (d * (1 + s) == 2 * d - d * (1 - s)) by ring. lra. }
    lra.
  - (* before the first end *)
    assert (X : Qltb t 0 = true) by (apply Qltb_lt; exact E0). rewrite X.
    assert (E : s * s * d - 2 * s * t + n - (0 * 0 * d - 2 * 0 * t + n)
                == s * (s * d - 2 * t)) by ring.
    assert (P0 : 0 <= s * d) by (apply Qmult_le_0_compat; lra).
    assert (P : 0 <= s * (s * d - 2 * t)) by (apply Qmult_le_0_compat; lra).
    lra.
Qed.

(** X24. [LineSegmentN::closestPoint], for a segment the tolerance test
    does not take for a point: the point returned is a point of the
    segment, no point of the segment is nearer to [p], and
    [squaredDistance(p)] is the squared distance to it. *)
Theorem closestPoint_nearest (seg : LineSegment) (p : Vec3 Q) :
  fuzzyEq (squaredNorm (direction seg)) 0 = false ->
  ~ squaredNorm (direction seg) == 0 ->
  (exists s, 0 <= s <= 1 /\ veq (closestPoint fuzzyEq seg p) (getPoint seg s)) /\
  (forall s, 0 <= s <= 1 ->
     dist2 (closestPoint fuzzyEq seg p) p <= dist2 (getPoint seg s) p) /\
  (forall s, 0 <= s <= 1 ->
     squaredDistance fuzzyEq seg p <= dist2 (getPoint seg s) p).
Proof.
  intros HF HN. destruct (closestPoint_parameter seg p HF HN) as [Hr Hv].
  assert (L : forall s, 0 <= s <= 1 ->
                dist2 (closestPoint fuzzyEq seg p) p <= dist2 (getPoint seg s) p).
  { intros s Hs. rewrite (dist2_wd _ _ _ Hv). apply closest_parameter_least; assumption. }
  split; [exists (closest_parameter seg p); split; assumption | split; [exact L | ]].
  intros s Hs. specialize (L s Hs).
  assert (E : squaredDistance fuzzyEq seg p == dist2 (closestPoint fuzzyEq seg p) p).
  { unfold squaredDistance, dist2, squaredNorm, vdot, vsub. cbn [e0 e1 e2]. exact_ops. ring. }
  rewrite E. exact L.
Qed.

(** ** The closest pair of points of two segments *)

Lemma Qmult_nonneg_nonpos (x y : Q) : 0 <= x -> y <= 0 -> x * y <= 0.
Proof.
  intros Hx Hy. assert (P : 0 <= x * (- y)) by (apply Qmult_le_0_compat; lra).
  assert (E : x * (- y) == - (x * y)) by ring. lra.
Qed.

Lemma Qmult_nonpos_nonpos (x y : Q) : x <= 0 -> y <= 0 -> 0 <= x * y.
Proof.
  intros Hx Hy. assert (P : 0 <= (- x) * (- y)) by (apply Qmult_le_0_compat; lra).
  assert (E : (- x) * (- y) == x * y) by ring. lra.
Qed.

(** A positive semidefinite form is not negative. *)
Lemma form_nonneg (a b e x y : Q) :
  0 <= a -> 0 <= e -> 0 <= a * e - b * b -> 0 <= a * (x * x) - 2 * b * (x * y) + e * (y * y).
Proof.
  intros Ha He HD.
  destruct (Qeq_dec a 0) as [Za | Na].
  - assert (Zb : b == 0).
    { apply sq_nonpos. rewrite Za in HD. lra. }
    rewrite Za, Zb. pose proof (Qmult_le_0_compat _ _ He (Qsquare_nonneg y)). lra.
  - assert (Pa : 0 < a) by lra.
    assert (E : a * (a * (x * x) - 2 * b * (x * y) + e * (y * y))
                == (a * x - b * y) * (a * x - b * y) + (a * e - b * b) * (y * y)) by ring.
    pose proof (Qsquare_nonneg (a * x - b * y)) as P1.
    pose proof (Qmult_le_0_compat _ _ HD (Qsquare_nonneg y)) as P2.
    set (q := a * (x * x) - 2 * b * (x * y) + e * (y * y)) in *.
    destruct (Qlt_le_dec q 0) as [L | L]; [ | exact L].
    exfalso. assert (a * q < 0).
    { assert (0 < a * (- q)) by (apply Qmult_lt_0_compat; lra).
      assert (a * (- q) == - (a * q)) by ring. lra. }
    lra.
Qed.

Lemma square_minimum_least (a b c e f s t s' t' : Q) :
  0 <= a -> 0 <= e -> 0 <= a * e - b * b ->
  square_minimum a b c e f s t ->
  0 <= s' <= 1 -> 0 <= t' <= 1 ->
  a * (s * s) - 2 * b * (s * t) + e * (t * t) + 2 * c * s - 2 * f * t
  <= a * (s' * s') - 2 * b * (s' * t') + e * (t' * t') + 2 * c * s' - 2 * f * t'.
Proof.
  intros Ha He HD (Hs & Ht & S0 & S1 & T0 & T1) Hs' Ht'.
  pose proof (form_nonneg a b e (s' - s) (t' - t) Ha He HD) as PQ.
  assert (PS : 0 <= (a * s - b * t + c) * (s' - s)).
  { destruct (Qlt_le_dec s s') as [L | L].
    - apply Qmult_le_0_compat; [apply S0 | ]; lra.
    - destruct (Qeq_dec s s') as [E | N].
      + assert (Z : s' - s == 0) by lra. rewrite Z. lra.
      + apply Qmult_nonpos_nonpos; [apply S1 | ]; lra. }
  assert (PT : 0 <= (e * t - b * s - f) * (t' - t)).
  { destruct (Qlt_le_dec t t') as [L | L].
    - apply Qmult_le_0_compat; [apply T0 | ]; lra.
    - destruct (Qeq_dec t t') as [E | N].
      + assert (Z : t' - t == 0) by lra. rewrite Z. lra.
      + apply Qmult_nonpos_nonpos; [apply T1 | ]; lra. }
  assert (E : a * (s' * s') - 2 * b * (s' * t') + e * (t' * t') + 2 * c * s' - 2 * f * t'
              - (a * (s * s) - 2 * b * (s * t) + e * (t * t) + 2 * c * s - 2 * f * t)
              == 2 * ((a * s - b * t + c) * (s' - s)) + 2 * ((e * t - b * s - f) * (t' - t))
                 + (a * ((s' - s) * (s' - s)) - 2 * b * ((s' - s) * (t' - t))
                    + e * ((t' - t) * (t' - t)))) by ring.
  lra.
Qed.

(** [clamp(n / m, 0, 1)] minimises [m s^2 - 2 n s] over the unit
    interval. *)
Lemma clamp_minimum (n m : Q) :
  0 < m ->
  let s := LineSegment3.clamp (n / m) 0 1 in
  0 <= s <= 1 /\ (s < 1 -> 0 <= m * s - n) /\ (0 < s -> m * s - n <= 0).
Proof.
  intros Hm. unfold LineSegment3.clamp. exact_ops.
  assert (Nm : ~ m == 0) by lra.
  assert (E : m * (n / m) == n) by (field; exact Nm).
  destruct (Qltb (n / m) 0) eqn:E0; [apply Qltb_lt in E0 | apply Qltb_ge in E0].
  - split; [lra | split; [intros _ | intros H; lra]].
    pose proof (Qmult_nonneg_nonpos m (n / m) (Qlt_le_weak _ _ Hm) (Qlt_le_weak _ _ E0)). lra.
  - destruct (Qltb 1 (n / m)) eqn:E1; [apply Qltb_lt in E1 | apply Qltb_ge in E1].
    + split; [lra | split; [intros H; lra | intros _]].
      assert (P : 0 <= m * (n / m - 1)) by (apply Qmult_le_0_compat; lra).
      assert (m * (n / m - 1) == n - m) by (rewrite <- E at 2; ring). lra.
    + split; [lra | split; intros _; lra].
Qed.

(** The parameters computed in the general case of
    [closestPtSegmentSegment] for two segments. *)
Lemma general_case_minimum (a b c e f : Q) :
  0 < a -> 0 < e -> 0 <= a * e - b * b ->
  (a * e - b * b == 0 -> b * f - c * e == 0) ->
  let denom := a * e - b * b in
  let s1 := if negb (Qeq_bool denom 0)
            then LineSegment3.clamp ((b * f - c * e) / denom) 0 1 else 0 in
  let t1 := (b * s1 + f) / e in
  let st := if Qltb t1 0 then (LineSegment3.clamp (- c / a) 0 1, 0)
            else if Qltb 1 t1 then (LineSegment3.clamp ((b - c) / a) 0 1, 1)
            else (s1, t1) in
  square_minimum a b c e f (fst st) (snd st).
Proof.
  intros Ha He HD Hpar denom s1 t1 st.
  assert (Ne : ~ e == 0) by lra.
  assert (Hden : 0 <= denom) by exact HD.
  (* [s1] minimises the distance to the line of the second segment *)
  assert (K1 : 0 <= s1 <= 1 /\ (s1 < 1 -> 0 <= denom * s1 - (b * f - c * e)) /\
               (0 < s1 -> denom * s1 - (b * f - c * e) <= 0)).
  { subst s1. destruct (Qeq_bool denom 0) eqn:Z;
      [apply Qeq_bool_iff in Z | apply Qeq_bool_false in Z]; cbn [negb].
    - pose proof (Hpar Z) as Hk. rewrite Z, Hk.
      split; [lra | split; intros _; lra].
    - apply clamp_minimum. subst denom. lra. }
  destruct K1 as (R1 & G0 & G1).
  assert (Et1 : e * t1 == b * s1 + f) by (subst t1; field; exact Ne).
  clearbody s1 t1. subst st.
  assert (Sg : forall x, 0 < e * x -> 0 < x).
  { intros x Hx. destruct (Qlt_le_dec 0 x) as [L | L]; [exact L | ].
    pose proof (Qmult_nonneg_nonpos e x (Qlt_le_weak _ _ He) L). lra. }
  destruct (Qltb t1 0) eqn:E0; [apply Qltb_lt in E0 | apply Qltb_ge in E0]; cbn [fst snd].
  - (* t < 0: t = 0 and s is recomputed *)
    destruct (clamp_minimum (- c) a Ha) as (R & H0 & H1). cbv zeta in R, H0, H1.
    revert R H0 H1. generalize (LineSegment3.clamp (- c / a) 0 1). intros s R H0 H1.
    assert (F1 : b * s1 + f < 0).
    { pose proof (Qmult_nonneg_nonpos e t1 (Qlt_le_weak _ _ He) (Qlt_le_weak _ _ E0)).
      destruct (Qeq_dec (e * t1) 0) as [Z | Z]; [ | lra].
      exfalso. apply Qmult_integral in Z. destruct Z; lra. }
    assert (F : b * s + f <= 0).
    { destruct (Qlt_le_dec 0 (b * s + f)) as [L | L]; [exfalso | exact L].
      assert (Hb : 0 < b * (s - s1)) by (assert (b * (s - s1) == b * s + f - (b * s1 + f)) by ring; lra).
      assert (Eg : forall x, e * (a * x + c) == denom * x - (b * f - c * e) + b * (b * x + f))
        by (intros x; unfold denom; ring).
      assert (Mg : denom * s - (b * f - c * e) == denom * s1 - (b * f - c * e) + denom * (s - s1))
        by ring.
      destruct (Qlt_le_dec 0 b) as [Pb | Nb].
      - assert (Ls : s1 < s).
        { destruct (Qlt_le_dec s1 s) as [X | X]; [exact X | ].
          pose proof (Qmult_nonneg_nonpos b (s - s1) (Qlt_le_weak _ _ Pb)). lra. }
        assert (A1 : 0 <= denom * s1 - (b * f - c * e)) by (apply G0; lra).
        assert (A2 : a * s + c <= 0) by (assert (a * s - - c <= 0) by (apply H1; lra); lra).
        assert (A3 : 0 <= denom * (s - s1)) by (apply Qmult_le_0_compat; lra).
        assert (A4 : 0 < b * (b * s + f)) by (apply Qmult_lt_0_compat; assumption).
        pose proof (Qmult_nonneg_nonpos e (a * s + c) (Qlt_le_weak _ _ He) A2) as A5.
        rewrite (Eg s) in A5. lra.
      - assert (Nb' : b < 0).
        { destruct (Qeq_dec b 0) as [Z | Z]; [rewrite Z in Hb; lra | lra]. }
        assert (Ls : s < s1).
        { destruct (Qlt_le_dec s s1) as [X | X]; [exact X | ].
          pose proof (Qmult_nonneg_nonpos (s - s1) b). 
          assert (b * (s - s1) == (s - s1) * b) by ring. lra. }
        assert (A1 : denom * s1 - (b * f - c * e) <= 0) by (apply G1; lra).
        assert (A2 : 0 <= a * s + c) by (assert (0 <= a * s - - c) by (apply H0; lra); lra).
        assert (A3 : denom * (s - s1) <= 0) by (apply Qmult_nonneg_nonpos; lra).
        assert (A4 : b * (b * s + f) < 0).
        { assert (0 < (- b) * (b * s + f)) by (apply Qmult_lt_0_compat; lra).
          assert ((- b) * (b * s + f) == - (b * (b * s + f))) by ring. lra. }
        pose proof (Qmult_le_0_compat e (a * s + c) (Qlt_le_weak _ _ He) A2) as A5.
        rewrite (Eg s) in A5. lra. }
    unfold square_minimum.
    split; [exact R | split; [lra | split; [ | split; [ | split; [ | intros X; lra]]]]].
    + intros X. specialize (H0 X). lra.
    + intros X. specialize (H1 X). lra.
    + intros _. lra.
  - destruct (Qltb 1 t1) eqn:E1; [apply Qltb_lt in E1 | apply Qltb_ge in E1]; cbn [fst snd].
    + (* t > 1: t = 1 and s is recomputed *)
      destruct (clamp_minimum (b - c) a Ha) as (R & H0 & H1). cbv zeta in R, H0, H1.
      revert R H0 H1. generalize (LineSegment3.clamp ((b - c) / a) 0 1). intros s R H0 H1.
      assert (F1 : e < b * s1 + f).
      { assert (P : 0 < e * (t1 - 1)) by (apply Qmult_lt_0_compat; lra).
        assert (e * (t1 - 1) == e * t1 - e) by ring. lra. }
      assert (F : e <= b * s + f).
      { destruct (Qlt_le_dec (b * s + f) e) as [L | L]; [exfalso | exact L].
        assert (Hb : 0 < b * (s1 - s))
          by (assert (b * (s1 - s) == b * s1 + f - (b * s + f)) by ring; lra).
        assert (Eg : forall x, e * (a * x - b + c)
                               == denom * x - (b * f - c * e) + b * (b * x + f - e))
          by (intros x; unfold denom; ring).
        assert (Mg : denom * s - (b * f - c * e)
                     == denom * s1 - (b * f - c * e) + denom * (s - s1)) by ring.
        destruct (Qlt_le_dec 0 b) as [Pb | Nb].
        - assert (Ls : s < s1).
          { destruct (Qlt_le_dec s s1) as [X | X]; [exact X | ].
            pose proof (Qmult_nonneg_nonpos b (s1 - s) (Qlt_le_weak _ _ Pb)). lra. }
          assert (A1 : denom * s1 - (b * f - c * e) <= 0) by (apply G1; lra).
          assert (A2 : 0 <= a * s - b + c) by (assert (0 <= a * s - (b - c)) by (apply H0; lra); lra).
          assert (A3 : denom * (s - s1) <= 0) by (apply Qmult_nonneg_nonpos; lra).
          assert (A4 : b * (b * s + f - e) < 0).
          { assert (0 < b * (e - (b * s + f))) by (apply Qmult_lt_0_compat; lra).
            assert (b * (e - (b * s + f)) == - (b * (b * s + f - e))) by ring. lra. }
          pose proof (Qmult_le_0_compat e (a * s - b + c) (Qlt_le_weak _ _ He) A2) as A5.
          rewrite (Eg s) in A5. lra.
        - assert (Nb' : b < 0).
          { destruct (Qeq_dec b 0) as [Z | Z]; [rewrite Z in Hb; lra | lra]. }
          assert (Ls : s1 < s).
          { destruct (Qlt_le_dec s1 s) as [X | X]; [exact X | ].
            pose proof (Qmult_nonneg_nonpos (s1 - s) b).
            assert (b * (s1 - s) == (s1 - s) * b) by ring. lra. }
          assert (A1 : 0 <= denom * s1 - (b * f - c * e)) by (apply G0; lra).
          assert (A2 : a * s - b + c <= 0) by (assert (a * s - (b - c) <= 0) by (apply H1; lra); lra).
          assert (A3 : 0 <= denom * (s - s1)) by (apply Qmult_le_0_compat; lra).
          assert (A4 : 0 < b * (b * s + f - e)).
          { assert (0 < (- b) * (e - (b * s + f))) by (apply Qmult_lt_0_compat; lra).
            assert ((- b) * (e - (b * s + f)) == b * (b * s + f - e)) by ring. lra. }
          pose proof (Qmult_nonneg_nonpos e (a * s - b + c) (Qlt_le_weak _ _ He) A2) as A5.
          rewrite (Eg s) in A5. lra. }
      unfold square_minimum.
      split; [exact R | split; [lra | split; [ | split; [ | split; [intros X; lra | ]]]]].
      * intros X. specialize (H0 X). lra.
      * intros X. specialize (H1 X). lra.
      * intros _. lra.
    + (* t in [0, 1] *)
      assert (Eg : e * (a * s1 - b * t1 + c) == denom * s1 - (b * f - c * e)).
      { assert (X : e * (a * s1 - b * t1 + c) == e * (a * s1 + c) - b * (e * t1)) by ring.
        rewrite X, Et1. unfold denom. ring. }
      unfold square_minimum.
      split; [exact R1 | split; [lra | split; [ | split; [ | split; intros _; lra]]]].
      * intros X. specialize (G0 X). rewrite <- Eg in G0.
        destruct (Qlt_le_dec (a * s1 - b * t1 + c) 0) as [L | L]; [exfalso | exact L].
        assert (0 < e * (- (a * s1 - b * t1 + c))) by (apply Qmult_lt_0_compat; lra).
        assert (e * (- (a * s1 - b * t1 + c)) == - (e * (a * s1 - b * t1 + c))) by ring. lra.
      * intros X. specialize (G1 X). rewrite <- Eg in G1.
        destruct (Qlt_le_dec 0 (a * s1 - b * t1 + c)) as [L | L]; [exfalso | exact L].
        assert (0 < e * (a * s1 - b * t1 + c)) by (apply Qmult_lt_0_compat; lra). lra.
Qed.

(** The squared distance between two points of the two lines, in the
    coefficients [closestPtSegmentSegment] computes. *)
Lemma pair_dist2 (p1 q1 p2 q2 : Vec3 Q) (s t : Q) :
  let d1 := vsub q1 p1 in
  let d2 := vsub q2 p2 in
  let r := vsub p1 p2 in
  dist2 (vadd p1 (scale s d1)) (vadd p2 (scale t d2))
  == squaredNorm d1 * (s * s) - 2 * vdot d1 d2 * (s * t) + squaredNorm d2 * (t * t)
     + 2 * vdot d1 r * s - 2 * vdot d2 r * t + squaredNorm r.
Proof.
  destruct p1 as [a0 a1 a2], q1 as [b0 b1 b2], p2 as [c0 c1 c2], q2 as [g0 g1 g2].
  unfold dist2, scale, squaredNorm, vdot, vsub, vadd. cbn [e0 e1 e2]. exact_ops. ring.
Qed.

Lemma sum_squares_zero (x y z : Q) : x * x + y * y + z * z == 0 -> x == 0 /\ y == 0 /\ z == 0.
Proof.
  intros H. pose proof (Qsquare_nonneg x). pose proof (Qsquare_nonneg y).
  pose proof (Qsquare_nonneg z).
  split; [ | split]; apply sq_nonpos; lra.
Qed.

(** Lagrange's identity, and what it gives for parallel directions. *)
Lemma directions_form (d1 d2 r : Vec3 Q) :
  0 <= squaredNorm d1 * squaredNorm d2 - vdot d1 d2 * vdot d1 d2 /\
  (squaredNorm d1 * squaredNorm d2 - vdot d1 d2 * vdot d1 d2 == 0 ->
   vdot d1 d2 * vdot d2 r - vdot d1 r * squaredNorm d2 == 0).
Proof.
  destruct d1 as [a0 a1 a2], d2 as [b0 b1 b2], r as [r0 r1 r2].
  unfold squaredNorm, vdot. cbn [e0 e1 e2]. exact_ops.
  set (x := a1 * b2 - a2 * b1). set (y := a2 * b0 - a0 * b2). set (z := a0 * b1 - a1 * b0).
  assert (E : (a0 * a0 + a1 * a1 + a2 * a2) * (b0 * b0 + b1 * b1 + b2 * b2)
              - (a0 * b0 + a1 * b1 + a2 * b2) * (a0 * b0 + a1 * b1 + a2 * b2)
              == x * x + y * y + z * z) by (subst x y z; ring).
  rewrite E. split.
  - pose proof (Qsquare_nonneg x). pose proof (Qsquare_nonneg y).
    pose proof (Qsquare_nonneg z). lra.
  - intros H. apply sum_squares_zero in H. destruct H as (Hx & Hy & Hz).
    assert (F : (a0 * b0 + a1 * b1 + a2 * b2) * (b0 * r0 + b1 * r1 + b2 * r2)
                - (a0 * r0 + a1 * r1 + a2 * r2) * (b0 * b0 + b1 * b1 + b2 * b2)
                == - (x * (r1 * b2 - r2 * b1) + y * (r2 * b0 - r0 * b2) + z * (r0 * b1 - r1 * b0)))
      by (subst x y z; ring).
    rewrite F, Hx, Hy, Hz. ring.
Qed.

Lemma squaredNorm_zero (v w : Vec3 Q) :
  squaredNorm v == 0 -> squaredNorm v == 0 /\ vdot v w == 0 /\ vdot w v == 0.
Proof.
  intros H. split; [exact H | ]. revert H. unfold squaredNorm, vdot. exact_ops.
  intros H. apply sum_squares_zero in H. destruct H as (H0 & H1 & H2).
  rewrite H0, H1, H2. split; ring.
Qed.

(** The values [closestPtSegmentSegment] leaves, from the parameters. *)
Lemma finish_minimum (p1 q1 p2 q2 : Vec3 Q) (s t : Q) :
  let d1 := vsub q1 p1 in
  let d2 := vsub q2 p2 in
  let r := vsub p1 p2 in
  square_minimum (squaredNorm d1) (vdot d1 d2) (vdot d1 r) (squaredNorm d2) (vdot d2 r) s t ->
  forall s' t', 0 <= s' <= 1 -> 0 <= t' <= 1 ->
    dist2 (vadd p1 (scale s d1)) (vadd p2 (scale t d2))
    <= dist2 (vadd p1 (scale s' d1)) (vadd p2 (scale t' d2)).
Proof.
  intros d1 d2 r M s' t' Hs' Ht'.
  pose proof (pair_dist2 p1 q1 p2 q2 s t) as E. pose proof (pair_dist2 p1 q1 p2 q2 s' t') as E'.
  cbv zeta in E, E'. fold d1 d2 r in E, E'. rewrite E, E'.
  pose proof (square_minimum_least _ _ _ _ _ s t s' t'
                (squaredNorm_nonneg d1) (squaredNorm_nonneg d2)
                (proj1 (directions_form d1 d2 r)) M Hs' Ht') as L.
  lra.
Qed.

(** [closestPtSegmentSegment] for two segments, read on its parameters. *)
Lemma closestPtSegmentSegment_parameters (p1 q1 p2 q2 : Vec3 Q) :
  let d1 := vsub q1 p1 in
  let d2 := vsub q2 p2 in
  let r := vsub p1 p2 in
  (fuzzyEq (squaredNorm d1) 0 = true <-> squaredNorm d1 == 0) ->
  (fuzzyEq (squaredNorm d2) 0 = true <-> squaredNorm d2 == 0) ->
  exists s t,
    square_minimum (squaredNorm d1) (vdot d1 d2) (vdot d1 r) (squaredNorm d2) (vdot d2 r) s t /\
    closestPtSegmentSegment fuzzyEq p1 q1 false p2 q2 false
    = (vdot (vsub (vadd p1 (scale s d1)) (vadd p2 (scale t d2)))
            (vsub (vadd p1 (scale s d1)) (vadd p2 (scale t d2))),
       s, t, vadd p1 (scale s d1), vadd p2 (scale t d2)) \/
    (s = 0 /\ t = 0 /\ squaredNorm d1 == 0 /\ squaredNorm d2 == 0 /\
     closestPtSegmentSegment fuzzyEq p1 q1 false p2 q2 false
     = (vdot (vsub p1 p2) (vsub p1 p2), 0, 0, p1, p2)).
Proof.
  intros d1 d2 r Ha He.
  unfold closestPtSegmentSegment. cbv zeta. exact_ops. fold d1 d2 r.
  cbn [negb].
  pose proof (squaredNorm_nonneg d1) as Pa. pose proof (squaredNorm_nonneg d2) as Pe.
  destruct (directions_form d1 d2 r) as [HD Hpar].
  destruct (fuzzyEq (squaredNorm d1) 0) eqn:Fa.
  - assert (Za : squaredNorm d1 == 0) by (apply Ha; reflexivity).
    destruct (squaredNorm_zero d1 d2 Za) as (_ & Zb & _).
    destruct (squaredNorm_zero d1 r Za) as (_ & Zc & _).
    destruct (fuzzyEq (squaredNorm d2) 0) eqn:Fe.
    + assert (Ze : squaredNorm d2 == 0) by (apply He; reflexivity).
      exists 0, 0. right. repeat split; assumption || reflexivity.
    + assert (Ne : ~ squaredNorm d2 == 0).
      { intro Z. apply He in Z. congruence. }
      exists 0, (clamp (vdot d2 r / squaredNorm d2) 0 1). left.
      split; [ | reflexivity].
      destruct (clamp_minimum (vdot d2 r) (squaredNorm d2)) as (R & H0 & H1); [lra | ].
      cbv zeta in R, H0, H1. revert R H0 H1.
      generalize (clamp (vdot d2 r / squaredNorm d2) 0 1). intros t R H0 H1.
      unfold square_minimum. rewrite Za, Zb, Zc.
      split; [lra | split; [exact R | split; [intros _; lra | split; [intros X; lra | ]]]].
      split; intros X; [specialize (H0 X) | specialize (H1 X)]; lra.
  - assert (Na : ~ squaredNorm d1 == 0).
    { intro Z. apply Ha in Z. congruence. }
    destruct (fuzzyEq (squaredNorm d2) 0) eqn:Fe.
    + assert (Ze : squaredNorm d2 == 0) by (apply He; reflexivity).
      destruct (squaredNorm_zero d2 d1 Ze) as (_ & _ & Zb).
      destruct (squaredNorm_zero d2 r Ze) as (_ & Zf & _).
      exists (clamp (- vdot d1 r / squaredNorm d1) 0 1), 0. left.
      split; [ | reflexivity].
      destruct (clamp_minimum (- vdot d1 r) (squaredNorm d1)) as (R & H0 & H1); [lra | ].
      cbv zeta in R, H0, H1. revert R H0 H1.
      generalize (clamp (- vdot d1 r / squaredNorm d1) 0 1). intros s R H0 H1.
      unfold square_minimum. rewrite Ze, Zb, Zf.
      split; [exact R | split; [lra | split; [ | split; [ | split; intros _; lra]]]];
        intros X; [specialize (H0 X) | specialize (H1 X)]; lra.
    + assert (Ne : ~ squaredNorm d2 == 0).
      { intro Z. apply He in Z. congruence. }
      pose proof (general_case_minimum (squaredNorm d1) (vdot d1 d2) (vdot d1 r)
                    (squaredNorm d2) (vdot d2 r)) as G.
      cbv zeta in G.
      match type of G with
      | _ -> _ -> _ -> _ -> square_minimum _ _ _ _ _ (fst ?st) (snd ?st) =>
          exists (fst st), (snd st)
      end.
      left. split; [apply G; [lra | lra | exact HD | exact Hpar] | ].
      match goal with |- (let '(s, t) := ?x in _) = _ => destruct x as [s t] end.
      reflexivity.
Qed.

(** X25. [closestPtSegmentSegment] for two segments, when the tolerance
    test is right about which of them are points: the parameters it leaves
    are in [0, 1], the two points are the points of the segments at those
    parameters, the value returned is the squared distance between them, and
    no two points of the two segments are nearer to each other. *)
Theorem closestPtSegmentSegment_nearest (p1 q1 p2 q2 : Vec3 Q) :
  let d1 := vsub q1 p1 in
  let d2 := vsub q2 p2 in
  (fuzzyEq (squaredNorm d1) 0 = true <-> squaredNorm d1 == 0) ->
  (fuzzyEq (squaredNorm d2) 0 = true <-> squaredNorm d2 == 0) ->
  let res := closestPtSegmentSegment fuzzyEq p1 q1 false p2 q2 false in
  let d := fst (fst (fst (fst res))) in
  let s := snd (fst (fst (fst res))) in
  let t := snd (fst (fst res)) in
  let c1 := snd (fst res) in
  let c2 := snd res in
  0 <= s <= 1 /\ 0 <= t <= 1 /\
  veq c1 (vadd p1 (scale s d1)) /\ veq c2 (vadd p2 (scale t d2)) /\
  d == dist2 c1 c2 /\
  forall s' t', 0 <= s' <= 1 -> 0 <= t' <= 1 ->
    d <= dist2 (vadd p1 (scale s' d1)) (vadd p2 (scale t' d2)).
Proof.
  intros d1 d2 Ha He.
  pose proof (closestPtSegmentSegment_parameters p1 q1 p2 q2) as P.
  cbv zeta in P. fold d1 d2 in P.
  destruct (P Ha He) as (s & t & [[M E] | (-> & -> & Za & Ze & E)]); clear P;
    rewrite E; cbv zeta; cbn [fst snd].
  - pose proof M as (Hs & Ht & _).
    split; [exact Hs | split; [exact Ht | ]].
    split; [split; [reflexivity | split; reflexivity] | ].
    split; [split; [reflexivity | split; reflexivity] | ].
    split; [reflexivity | ].
    exact (finish_minimum p1 q1 p2 q2 s t M).
  - assert (V1 : forall x, veq p1 (vadd p1 (scale x d1))).
    { intros x. revert Za. unfold squaredNorm, vdot, veq, vadd, scale. cbn [e0 e1 e2]. exact_ops.
      intros Z. apply sum_squares_zero in Z. destruct Z as (Z0 & Z1 & Z2).
      rewrite Z0, Z1, Z2. split; [ring | split; ring]. }
    assert (V2 : forall x, veq p2 (vadd p2 (scale x d2))).
    { intros x. revert Ze. unfold squaredNorm, vdot, veq, vadd, scale. cbn [e0 e1 e2]. exact_ops.
      intros Z. apply sum_squares_zero in Z. destruct Z as (Z0 & Z1 & Z2).
      rewrite Z0, Z1, Z2. split; [ring | split; ring]. }
    split; [lra | split; [lra | split; [apply V1 | split; [apply V2 | split; [reflexivity | ]]]]].
    intros s' t' _ _.
    assert (E1 : dist2 (vadd p1 (scale s' d1)) (vadd p2 (scale t' d2)) == dist2 p1 p2).
    { destruct (V1 s') as (A0 & A1 & A2), (V2 t') as (B0 & B1 & B2).
      unfold dist2, squaredNorm, vdot, vsub. cbn [e0 e1 e2]. exact_ops.
      rewrite <- A0, <- A1, <- A2, <- B0, <- B1, <- B2. reflexivity. }
    rewrite E1. unfold dist2, squaredNorm. apply Qle_refl.
Qed.

End LineSegmentFacts.

Lemma closestPoint_nearest_witness :
  let seg := LineSegment3.fromEndpoints (qv 1 1 0) (qv 1 4 0) in
  let p := qv 5 2 7 in
  (fuzzyEq_example (squaredNorm (LineSegment3.direction seg)) 0 = false /\
   ~ squaredNorm (LineSegment3.direction seg) == 0) /\
  (exists s, 0 <= s <= 1 /\
     veq (LineSegment3.closestPoint fuzzyEq_example seg p) (LineSegment3.getPoint seg s)) /\
  (forall s, 0 <= s <= 1 ->
     dist2 (LineSegment3.closestPoint fuzzyEq_example seg p) p
     <= dist2 (LineSegment3.getPoint seg s) p) /\
  (forall s, 0 <= s <= 1 ->
     LineSegment3.squaredDistance fuzzyEq_example seg p
     <= dist2 (LineSegment3.getPoint seg s) p).
Proof.
  refine ((fun H => conj H (closestPoint_nearest fuzzyEq_example _ _ (proj1 H) (proj2 H))) _).
  split; [reflexivity | vm_compute; intro; discriminate].
Defined.

Lemma closestPtSegmentSegment_nearest_witness :
  let p1 := qv 0 0 0 in let q1 := qv 2 0 0 in
  let p2 := qv 1 1 1 in let q2 := qv 1 3 1 in
  let res := LineSegment3.closestPtSegmentSegment fuzzyEq_example p1 q1 false p2 q2 false in
  ((fuzzyEq_example (squaredNorm (vsub q1 p1)) 0 = true <-> squaredNorm (vsub q1 p1) == 0) /\
   (fuzzyEq_example (squaredNorm (vsub q2 p2)) 0 = true <-> squaredNorm (vsub q2 p2) == 0)) /\
  0 <= snd (fst (fst (fst res))) <= 1 /\ 0 <= snd (fst (fst res)) <= 1 /\
  veq (snd (fst res)) (vadd p1 (LineSegment3.scale (snd (fst (fst (fst res)))) (vsub q1 p1))) /\
  veq (snd res) (vadd p2 (LineSegment3.scale (snd (fst (fst res))) (vsub q2 p2))) /\
  fst (fst (fst (fst res))) == dist2 (snd (fst res)) (snd res) /\
  forall s' t', 0 <= s' <= 1 -> 0 <= t' <= 1 ->
    fst (fst (fst (fst res)))
    <= dist2 (vadd p1 (LineSegment3.scale s' (vsub q1 p1)))
             (vadd p2 (LineSegment3.scale t' (vsub q2 p2))).
Proof.
  refine ((fun H => conj H (closestPtSegmentSegment_nearest fuzzyEq_example _ _ _ _
                              (proj1 H) (proj2 H))) _).
  split; (split; [vm_compute; intro; discriminate | vm_compute; intro; discriminate]).
Defined.

(** * The reported segment, the distance of two segments, and membership *)

(** The two end points [isectline_segment] chooses have the coordinates of
    the ends of the common part of the two intervals. *)
Lemma isectline_segment_ends (index : Z) (s0 s1 t0 t1 : Q) (A1 A2 B1 B2 : Vec3 Q)
    (out out' : IsectOut) :
  vget A1 index == s0 -> vget A2 index == s1 ->
  vget B1 index == t0 -> vget B2 index == t1 ->
  isectline_segment s0 s1 A1 A2 t0 t1 B1 B2 out = (true, out') ->
  forall x, between x s0 s1 -> between x t0 t1 ->
            between x (vget (isectpt1 out') index) (vget (isectpt2 out') index).
Proof.
  intros XA1 XA2 XB1 XB2.
  unfold isectline_segment, SORT2. exact_ops. unfold between.
  destruct (Qltb s1 s0) eqn:Es; [apply Qltb_lt in Es | apply Qltb_ge in Es];
  (destruct (Qltb t1 t0) eqn:Et; [apply Qltb_lt in Et | apply Qltb_ge in Et]);
  cbv beta iota;
  match goal with |- context [Qltb ?a ?b || _] =>
    destruct (Qltb a b) eqn:E1; [apply Qltb_lt in E1 | apply Qltb_ge in E1] end;
  cbn [orb]; try discriminate;
  match goal with |- context [if Qltb ?a ?b then (false, _) else _] =>
    destruct (Qltb a b) eqn:E2; [apply Qltb_lt in E2 | apply Qltb_ge in E2] end;
  try discriminate;
  match goal with |- context [if Qltb ?a ?b then (_, _) else _] =>
    destruct (Qltb a b) eqn:E3; [apply Qltb_lt in E3 | apply Qltb_ge in E3] end;
  match goal with |- context [if Qltb ?a ?b then _ else _] =>
    destruct (Qltb a b) eqn:E4; [apply Qltb_lt in E4 | apply Qltb_ge in E4] end;
  cbn [Z.eqb]; intros H; injection H as <-; cbn [coplanar isectpt1 isectpt2];
  intros x Hs Ht; lra.
Qed.

Lemma raw_distance_DOT (N P0 X Y : Vec3 Q) :
  raw_distance N P0 X == 0 -> raw_distance N P0 Y == 0 -> DOT N X == DOT N Y.
Proof. unfold raw_distance. exact_ops. intros; lra. Qed.

(** The reported segment against the two triangles. *)
Lemma isectline_segment_exact (V0 V1 V2 U0 U1 U2 : Vec3 Q) (out out' : IsectOut) :
  let N1 := plane_normal V0 V1 V2 in
  let N2 := plane_normal U0 U1 U2 in
  let du i := plane_distance N1 V0 i in
  let dv i := plane_distance N2 U0 i in
  unsnapped N1 V0 U0 U1 U2 -> unsnapped N2 U0 V0 V1 V2 ->
  all_zero (du U0) (du U1) (du U2) = false ->
  all_zero (dv V0) (dv V1) (dv V2) = false ->
  tri_tri_intersect_with_isectline V0 V1 V2 U0 U1 U2 out = (true, out') ->
  forall X, in_triangle V0 V1 V2 X /\ in_triangle U0 U1 U2 X <->
            on_segment (isectpt1 out') (isectpt2 out') X.
Proof.
  intros N1 N2 du dv SU SV ZU ZV R. subst du dv. cbv beta in *.
  destruct (same_side (plane_distance N1 V0 U0) (plane_distance N1 V0 U1)
                      (plane_distance N1 V0 U2)) eqn:GU.
  { rewrite (isectline_rejection_branch V0 V1 V2 U0 U1 U2 out (or_introl GU)) in R.
    discriminate R. }
  destruct (same_side (plane_distance N2 U0 V0) (plane_distance N2 U0 V1)
                      (plane_distance N2 U0 V2)) eqn:GV.
  { rewrite (isectline_rejection_branch V0 V1 V2 U0 U1 U2 out (or_intror GV)) in R.
    discriminate R. }
  pose proof (projection_axis_nonzero V0 V1 V2 U0 U1 U2 SU GU ZU ZV) as ND.
  cbv zeta in ND. fold N1 N2 in ND.
  set (index := largest_component (CROSS N1 N2)) in *.
  destruct (crossing_points N2 U0 V0 V1 V2 index SV GV ZV)
    as (s0 & s1 & A1 & A2 & i0 & i1 & CV & IV & Es0 & Es1 & KV).
  destruct (crossing_points N1 V0 U0 U1 U2 index SU GU ZU)
    as (t0 & t1 & B1 & B2 & j0 & j1 & CU & IU & Et0 & Et1 & KU).
  rewrite (isectline_segment_branch V0 V1 V2 U0 U1 U2 out s0 s1 t0 t1 A1 A2 B1 B2
             GU GV CV CU) in R.
  destruct (isectline_segment_common V0 V1 V2 U0 U1 U2 index s0 s1 t0 t1 A1 A2 B1 B2 out out'
              ND KV KU R) as (_ & [P1V P1U] & [P2V P2U]).
  pose proof KV as ((_ & _ & XA1) & (_ & _ & XA2)).
  pose proof KU as ((_ & _ & XB1) & (_ & _ & XB2)).
  pose proof (isectline_segment_ends index s0 s1 t0 t1 A1 A2 B1 B2 out out'
                XA1 XA2 XB1 XB2 R) as Hends.
  set (pt1 := isectpt1 out') in *. set (pt2 := isectpt2 out') in *.
  intros X. split.
  - intros [HV HU].
    pose proof (in_triangle_on_plane _ _ _ _ HV) as PV. fold N1 in PV.
    pose proof (in_triangle_on_plane _ _ _ _ HU) as PU. fold N2 in PU.
    pose proof (triangle_interval N2 U0 V0 V1 V2 X index i0 i1 SV GV IV HV PU) as BV.
    pose proof (triangle_interval N1 V0 U0 U1 U2 X index j0 j1 SU GU IU HU PV) as BU.
    assert (BV' : between (vget X index) s0 s1).
    { apply (between_ext _ i0 i1); [symmetry; exact Es0 | symmetry; exact Es1 | exact BV]. }
    assert (BU' : between (vget X index) t0 t1).
    { apply (between_ext _ j0 j1); [symmetry; exact Et0 | symmetry; exact Et1 | exact BU]. }
    destruct (between_inv _ _ _ (Hends _ BV' BU')) as (m & n & Hm & Hn & Hmn & Hx).
    exists m, n. split; [exact Hm | split; [exact Hn | split; [exact Hmn | ]]].
    set (Y := combination m n 0 pt1 pt2 pt1).
    assert (VY : veq Y (combination m n 0 pt1 pt2 pt1))
      by (split; [reflexivity | split; reflexivity]).
    assert (S : m + n + 0 == 1) by lra.
    apply (line_point_unique N1 N2 X Y index).
    + apply (raw_distance_DOT N1 V0); [exact PV | ].
      rewrite (raw_distance_combination N1 V0 _ _ _ _ _ _ _ S VY).
      pose proof (in_triangle_on_plane _ _ _ _ P1V) as Q1. fold N1 in Q1.
      pose proof (in_triangle_on_plane _ _ _ _ P2V) as Q2. fold N1 in Q2.
      rewrite Q1, Q2. ring.
    + apply (raw_distance_DOT N2 U0); [exact PU | ].
      rewrite (raw_distance_combination N2 U0 _ _ _ _ _ _ _ S VY).
      pose proof (in_triangle_on_plane _ _ _ _ P1U) as Q1. fold N2 in Q1.
      pose proof (in_triangle_on_plane _ _ _ _ P2U) as Q2. fold N2 in Q2.
      rewrite Q1, Q2. ring.
    + rewrite (vget_combination Y _ _ _ _ _ _ index VY), Hx. ring.
    + exact ND.
  - intros (m & n & Hm & Hn & Hmn & HX). split.
    + apply (in_triangle_veq _ _ _ _ _ HX). apply in_triangle_segment; assumption.
    + apply (in_triangle_veq _ _ _ _ _ HX). apply in_triangle_segment; assumption.
Qed.

(** X26. Outside the coplanar branch, and when the epsilon test has changed
    no distance: when [tri_tri_intersect_with_isectline] returns 1, the
    segment between the two points it reports is the set of the points the
    two triangles share. *)
Theorem isectline_segment_is_exact (V0 V1 V2 U0 U1 U2 : Vec3 Q) (out out' : IsectOut) :
  let N1 := plane_normal V0 V1 V2 in
  let N2 := plane_normal U0 U1 U2 in
  let du i := plane_distance N1 V0 i in
  let dv i := plane_distance N2 U0 i in
  unsnapped N1 V0 U0 U1 U2 -> unsnapped N2 U0 V0 V1 V2 ->
  all_zero (du U0) (du U1) (du U2) = false ->
  all_zero (dv V0) (dv V1) (dv V2) = false ->
  tri_tri_intersect_with_isectline V0 V1 V2 U0 U1 U2 out = (true, out') ->
  forall X, in_triangle V0 V1 V2 X /\ in_triangle U0 U1 U2 X <->
            on_segment (isectpt1 out') (isectpt2 out') X.
Proof. exact (isectline_segment_exact V0 V1 V2 U0 U1 U2 out out'). Qed.

Lemma isectline_segment_is_exact_witness :
  let V0 := qv 0 0 0 in let V1 := qv 10 0 0 in let V2 := qv 0 10 0 in
  let U0 := qv 2 2 (-1) in let U1 := qv 2 2 1 in let U2 := qv 2 3 1 in
  let N1 := plane_normal V0 V1 V2 in
  let N2 := plane_normal U0 U1 U2 in
  let out := mkIsectOut true zero3 zero3 in
  let out' := snd (tri_tri_intersect_with_isectline V0 V1 V2 U0 U1 U2 out) in
  (unsnapped N1 V0 U0 U1 U2 /\ unsnapped N2 U0 V0 V1 V2 /\
   all_zero (plane_distance N1 V0 U0) (plane_distance N1 V0 U1) (plane_distance N1 V0 U2)
   = false /\
   all_zero (plane_distance N2 U0 V0) (plane_distance N2 U0 V1) (plane_distance N2 U0 V2)
   = false /\
   tri_tri_intersect_with_isectline V0 V1 V2 U0 U1 U2 out = (true, out')) /\
  (forall X, in_triangle V0 V1 V2 X /\ in_triangle U0 U1 U2 X <->
             on_segment (isectpt1 out') (isectpt2 out') X).
Proof.
  refine ((fun H => conj H
             (isectline_segment_is_exact _ _ _ _ _ _ _ _
                (proj1 H) (proj1 (proj2 H)) (proj1 (proj2 (proj2 H)))
                (proj1 (proj2 (proj2 (proj2 H))))
                (proj2 (proj2 (proj2 (proj2 H)))))) _).
  repeat split; vm_compute; reflexivity.
Defined.

(** ** The distance between two segments *)

Section SegmentDistance.

Import LineSegment3.

Variable fuzzyEq : Q -> Q -> bool.

Lemma dist2_wd_both (a a' b b' : Vec3 Q) : veq a a' -> veq b b' -> dist2 a b == dist2 a' b'.
Proof.
  intros (A0 & A1 & A2) (B0 & B1 & B2).
  unfold dist2, squaredNorm, vdot, vsub. cbn [e0 e1 e2]. exact_ops.
  rewrite A0, A1, A2, B0, B1, B2. reflexivity.
Qed.

(** The points of a segment, from its two end points. *)
Lemma getPoint_endpoints (seg : LineSegment) (s : Q) :
  veq (vadd (point seg) (scale s (vsub (getEndpoint seg 1) (point seg)))) (getPoint seg s).
Proof.
  unfold getPoint, getEndpoint, scale, vadd, vsub, veq. cbn [Z.eqb e0 e1 e2]. exact_ops.
  split; [ring | split; ring].
Qed.

Lemma squaredDistance_segment_minimum (seg other : LineSegment) :
  let d1 := vsub (getEndpoint seg 1) (point seg) in
  let d2 := vsub (getEndpoint other 1) (point other) in
  (fuzzyEq (squaredNorm d1) 0 = true <-> squaredNorm d1 == 0) ->
  (fuzzyEq (squaredNorm d2) 0 = true <-> squaredNorm d2 == 0) ->
  let res := squaredDistance_segment fuzzyEq seg other in
  (exists s, 0 <= s <= 1 /\ veq (snd (fst res)) (getPoint seg s)) /\
  (exists t, 0 <= t <= 1 /\ veq (snd res) (getPoint other t)) /\
  fst (fst res) == dist2 (snd (fst res)) (snd res) /\
  forall s' t', 0 <= s' <= 1 -> 0 <= t' <= 1 ->
    fst (fst res) <= dist2 (getPoint seg s') (getPoint other t').
Proof.
  intros d1 d2 Ha He res.
  assert (TR : forall a b c : Vec3 Q, veq a b -> veq b c -> veq a c).
  { intros a b c (A0 & A1 & A2) (B0 & B1 & B2).
    split; [rewrite A0; exact B0 | split; [rewrite A1; exact B1 | rewrite A2; exact B2]]. }
  pose proof (closestPtSegmentSegment_parameters fuzzyEq (point seg) (getEndpoint seg 1)
                (point other) (getEndpoint other 1)) as P.
  cbv zeta in P. fold d1 d2 in P.
  subst res. unfold squaredDistance_segment.
  change (vadd (point seg) (direction seg)) with (getEndpoint seg 1).
  change (vadd (point other) (direction other)) with (getEndpoint other 1).
  destruct (P Ha He) as (s & t & [[M E] | (-> & -> & Za & Ze & E)]); clear P;
    rewrite E; cbn [fst snd].
  - pose proof M as (Hs & Ht & _).
    split; [exists s; split; [exact Hs | apply getPoint_endpoints] | ].
    split; [exists t; split; [exact Ht | apply getPoint_endpoints] | ].
    split; [reflexivity | ].
    intros s' t' Hs' Ht'.
    pose proof (finish_minimum (point seg) (getEndpoint seg 1) (point other)
                  (getEndpoint other 1) s t M s' t' Hs' Ht') as L.
    cbv zeta in L. fold d1 d2 in L.
    rewrite <- (dist2_wd_both _ _ _ _ (getPoint_endpoints seg s') (getPoint_endpoints other t')).
    exact L.
  - assert (V1 : forall x, veq (point seg) (getPoint seg x)).
    { intros x. apply (TR _ (vadd (point seg) (scale x d1))); [ | apply getPoint_endpoints].
      revert Za. unfold squaredNorm, vdot, veq, vadd, scale. cbn [e0 e1 e2]. exact_ops.
      intros Z. apply sum_squares_zero in Z. destruct Z as (Z0 & Z1 & Z2).
      rewrite Z0, Z1, Z2. split; [ring | split; ring]. }
    assert (V2 : forall x, veq (point other) (getPoint other x)).
    { intros x. apply (TR _ (vadd (point other) (scale x d2))); [ | apply getPoint_endpoints].
      revert Ze. unfold squaredNorm, vdot, veq, vadd, scale. cbn [e0 e1 e2]. exact_ops.
      intros Z. apply sum_squares_zero in Z. destruct Z as (Z0 & Z1 & Z2).
      rewrite Z0, Z1, Z2. split; [ring | split; ring]. }
    split; [exists 0; split; [lra | apply V1] | ].
    split; [exists 0; split; [lra | apply V2] | ].
    split; [reflexivity | ].
    intros s' t' _ _.
    rewrite <- (dist2_wd_both _ _ _ _ (V1 s') (V2 t')). apply Qle_refl.
Qed.

(** X27. [LineSegmentN::squaredDistance] to another segment (at N = 3),
    when the tolerance test is right about which of the two segments are
    points: the two points it gives are points of the two segments, the
    value returned is the squared distance between them, and no two points
    of the two segments are nearer to each other. *)
Theorem squaredDistance_segment_least (seg other : LineSegment) :
  let d1 := vsub (getEndpoint seg 1) (point seg) in
  let d2 := vsub (getEndpoint other 1) (point other) in
  (fuzzyEq (squaredNorm d1) 0 = true <-> squaredNorm d1 == 0) ->
  (fuzzyEq (squaredNorm d2) 0 = true <-> squaredNorm d2 == 0) ->
  let res := squaredDistance_segment fuzzyEq seg other in
  (exists s, 0 <= s <= 1 /\ veq (snd (fst res)) (getPoint seg s)) /\
  (exists t, 0 <= t <= 1 /\ veq (snd res) (getPoint other t)) /\
  fst (fst res) == dist2 (snd (fst res)) (snd res) /\
  forall s' t', 0 <= s' <= 1 -> 0 <= t' <= 1 ->
    fst (fst res) <= dist2 (getPoint seg s') (getPoint other t').
Proof. exact (squaredDistance_segment_minimum seg other). Qed.

End SegmentDistance.

Lemma squaredDistance_segment_least_witness :
  let seg := LineSegment3.fromEndpoints (qv 0 0 0) (qv 2 0 0) in
  let other := LineSegment3.fromEndpoints (qv 1 1 1) (qv 1 3 1) in
  let res := LineSegment3.squaredDistance_segment fuzzyEq_example seg other in
  ((fuzzyEq_example
      (squaredNorm (vsub (LineSegment3.getEndpoint seg 1) (LineSegment3.point seg))) 0 = true
    <-> squaredNorm (vsub (LineSegment3.getEndpoint seg 1) (LineSegment3.point seg)) == 0) /\
   (fuzzyEq_example
      (squaredNorm (vsub (LineSegment3.getEndpoint other 1) (LineSegment3.point other))) 0 = true
    <-> squaredNorm (vsub (LineSegment3.getEndpoint other 1) (LineSegment3.point other)) == 0)) /\
  (exists s, 0 <= s <= 1 /\ veq (snd (fst res)) (LineSegment3.getPoint seg s)) /\
  (exists t, 0 <= t <= 1 /\ veq (snd res) (LineSegment3.getPoint other t)) /\
  fst (fst res) == dist2 (snd (fst res)) (snd res) /\
  forall s' t', 0 <= s' <= 1 -> 0 <= t' <= 1 ->
    fst (fst res) <= dist2 (LineSegment3.getPoint seg s') (LineSegment3.getPoint other t').
Proof.
  refine ((fun H => conj H (squaredDistance_segment_least fuzzyEq_example _ _
                              (proj1 H) (proj2 H))) _).
  split; (split; [vm_compute; intro; discriminate | vm_compute; intro; discriminate]).
Defined.

(** ** Membership by binary search and by linear search *)

Section SortedArrayMembership.

Import SortedArray.

Context {T : Type} (compare : T -> T -> bool).

Hypothesis compare_cotrans :
  forall a b c, compare a c = true -> compare a b = true \/ compare b c = true.

Lemma contains_with_In (comp : T -> T -> bool) (values : list T) (t : T) :
  contains_with comp values t = true <-> exists x, In x values /\ comp x t = true.
Proof.
  induction values as [ | v values IH]; cbn [contains_with].
  - split; [discriminate | intros (x & [] & _)].
  - destruct (comp v t) eqn:E.
    + split; [intros _; exists v; split; [left; reflexivity | exact E] | reflexivity].
    + rewrite IH. split.
      * intros (x & Hx & Hc). exists x. split; [right; exact Hx | exact Hc].
      * intros (x & [-> | Hx] & Hc); [congruence | exists x; split; assumption].
Qed.

Lemma contains_linear (values : list T) (t : T) :
  ascending compare values ->
  contains compare values t
  = Some (contains_with (fun x y => negb (compare x y) && negb (compare y x)) values t).
Proof.
  intros Hs. unfold contains.
  assert (EQ : forall x, negb (compare x t) && negb (compare t x) = true
                         <-> equivalent compare x t).
  { intros x. unfold equivalent. rewrite andb_true_iff, !negb_true_iff. tauto. }
  destruct (find_cases compare compare_cotrans values t Hs)
    as [[H N] | (r & x & H & Hr & Hx & He & Hf)]; rewrite H; f_equal.
  - symmetry. destruct (contains_with _ values t) eqn:C; [ | reflexivity].
    apply contains_with_In in C. destruct C as (x & Hx & Hc).
    exfalso. apply (N x Hx). apply EQ. exact Hc.
  - transitivity true; [apply Z.geb_le; lia | symmetry].
    apply contains_with_In. exists x. split; [eapply get_In; exact Hx | apply EQ; exact He].
Qed.

(** X28. On an ascending array [contains(t)], which searches by bisection,
    gives the answer of the linear search [contains(t, comp)] for the
    equality of the ordering (neither element less than the other). *)
Theorem contains_is_linear_search (values : list T) (t : T) :
  ascending compare values ->
  contains compare values t
  = Some (contains_with (fun x y => negb (compare x y) && negb (compare y x)) values t).
Proof. exact (contains_linear values t). Qed.

End SortedArrayMembership.

Lemma contains_is_linear_search_witness :
  SortedArray.ascending Z.ltb [1; 3; 3; 7]%Z /\
  SortedArray.contains Z.ltb [1; 3; 3; 7]%Z 3%Z
  = Some (SortedArray.contains_with (fun x y => negb (x <? y)%Z && negb (y <? x)%Z)
            [1; 3; 3; 7]%Z 3%Z).
Proof.
  refine ((fun H => conj H (contains_is_linear_search Z.ltb Zltb_cotrans _ 3%Z H)) _).
  repeat constructor.
Defined.

(** * Triangles that share an edge

    C8 in exact arithmetic: the vertices of the shared edge are at distance
    zero from both planes, both intervals are the projection of that edge,
    and in the coplanar branch an edge of the first triangle meets the
    shared edge at a vertex. *)

Lemma veq_sym (a b : Vec3 Q) : veq a b -> veq b a.
Proof. intros (H0 & H1 & H2). split; [ | split]; symmetry; assumption. Qed.

Lemma index_cases (i : Z) : (0 <= i <= 2)%Z -> i = 0%Z \/ i = 1%Z \/ i = 2%Z.
Proof. lia. Qed.

Lemma aget_map {A B : Type} (f : A -> B) (a0 a1 a2 : A) (i : Z) :
  aget (f a0, f a1, f a2) i = f (aget (a0, a1, a2) i).
Proof. unfold aget. destruct (i =? 0)%Z; [ | destruct (i =? 1)%Z]; reflexivity. Qed.

(** A vertex of a triangle is at distance zero from its plane, whatever
    the epsilon. *)
Lemma raw_distance_vertex (P0 P1 P2 X : Vec3 Q) (i : Z) :
  veq X (aget (P0, P1, P2) i) -> raw_distance (plane_normal P0 P1 P2) P0 X == 0.
Proof.
  destruct P0 as [a0 a1 a2], P1 as [b0 b1 b2], P2 as [c0 c1 c2], X as [x0 x1 x2].
  unfold aget, veq, raw_distance, plane_normal, DOT, CROSS, SUB. exact_ops.
  destruct (i =? 0)%Z; [ | destruct (i =? 1)%Z]; cbn [e0 e1 e2];
    intros (H0 & H1 & H2); rewrite H0, H1, H2; ring.
Qed.

Lemma plane_distance_vertex (P0 P1 P2 X : Vec3 Q) (i : Z) :
  veq X (aget (P0, P1, P2) i) -> plane_distance (plane_normal P0 P1 P2) P0 X = 0.
Proof.
  intros H. rewrite plane_distance_raw. apply snap_zero.
  exact (raw_distance_vertex P0 P1 P2 X i H).
Qed.

(** With two distances equal to zero, the rejection test does not fire. *)
Lemma same_side_two_zeros (d0 d1 d2 : Q) (i j : Z) :
  (0 <= i <= 2)%Z -> (0 <= j <= 2)%Z -> i <> j ->
  aget (d0, d1, d2) i = 0 -> aget (d0, d1, d2) j = 0 ->
  same_side d0 d1 d2 = false.
Proof.
  intros Hi Hj Hij.
  destruct (index_cases i Hi) as [-> | [-> | ->]];
  destruct (index_cases j Hj) as [-> | [-> | ->]];
  try (exfalso; apply Hij; reflexivity);
  cbn [aget Z.eqb Pos.eqb]; intros -> ->; unfold same_side; exact_ops;
  qcases; try reflexivity; exfalso; lra.
Qed.

(** ... and the interval macro either reports coplanarity or returns the
    two vertices at distance zero as the ends of the interval. *)
Lemma COMPUTE_INTERVALS_two_zeros (VV0 VV1 VV2 D0 D1 D2 : Q) (i j : Z) :
  (0 <= i <= 2)%Z -> (0 <= j <= 2)%Z -> i <> j ->
  aget (D0, D1, D2) i = 0 -> aget (D0, D1, D2) j = 0 ->
  COMPUTE_INTERVALS VV0 VV1 VV2 D0 D1 D2 (D0 * D1)%real (D0 * D2)%real = None \/
  exists x y,
    COMPUTE_INTERVALS VV0 VV1 VV2 D0 D1 D2 (D0 * D1)%real (D0 * D2)%real = Some (x, y) /\
    ((x == aget (VV0, VV1, VV2) i /\ y == aget (VV0, VV1, VV2) j) \/
     (x == aget (VV0, VV1, VV2) j /\ y == aget (VV0, VV1, VV2) i)).
Proof.
  intros Hi Hj Hij.
  destruct (index_cases i Hi) as [-> | [-> | ->]];
  destruct (index_cases j Hj) as [-> | [-> | ->]];
  try (exfalso; apply Hij; reflexivity);
  cbn [aget Z.eqb Pos.eqb]; intros -> ->; unfold COMPUTE_INTERVALS, ISECT; exact_ops.
  all: qcases; cbn [orb negb];
       try (exfalso; nra);
       try (exfalso; match goal with H : ~ 0 == 0 |- _ => apply H; reflexivity end);
       try (left; reflexivity).
  all: right; eexists; eexists; split; [reflexivity | ].
  all: first [ left; split; field; lra | right; split; field; lra ].
Qed.

(** Two intervals with the same ends overlap. *)
Lemma intervals_overlap_same (a b c d p q : Q) :
  (a == p /\ b == q) \/ (a == q /\ b == p) ->
  (c == p /\ d == q) \/ (c == q /\ d == p) ->
  intervals_overlap (a, b) (c, d) = true.
Proof.
  intros H1 H2. unfold intervals_overlap, SORT. exact_ops. cbn [fst snd].
  destruct (Qltb b a) eqn:E1; [apply Qltb_lt in E1 | apply Qltb_ge in E1];
  (destruct (Qltb d c) eqn:E2; [apply Qltb_lt in E2 | apply Qltb_ge in E2]);
  qcases; try reflexivity; exfalso;
  destruct H1 as [[? ?] | [? ?]], H2 as [[? ?] | [? ?]]; lra.
Qed.

(** *** The coplanar test on a shared edge *)

(** The projection [coplanar_tri_tri] chooses from the normal of a triangle
    does not flatten that triangle, unless it has no area at all. *)
Lemma projection_keeps_area (V0 V1 V2 : Vec3 Q) :
  let N := plane_normal V0 V1 V2 in
  ~ veq N zero3 ->
  ~ THEA_TRIANGLE_AREA2 (fst (projection_axes N)) (snd (projection_axes N)) V0 V1 V2 == 0.
Proof.
  intros N HN E. apply HN. clear HN. revert E. subst N.
  destruct V0 as [a0 a1 a2], V1 as [b0 b1 b2], V2 as [c0 c1 c2].
  unfold projection_axes, plane_normal, CROSS, SUB, veq, zero3. cbv zeta.
  cbn [e0 e1 e2]. exact_ops.
  set (n0 := (b1 - a1) * (c2 - a2) - (b2 - a2) * (c1 - a1)).
  set (n1 := (b2 - a2) * (c0 - a0) - (b0 - a0) * (c2 - a2)).
  set (n2 := (b0 - a0) * (c1 - a1) - (b1 - a1) * (c0 - a0)).
  pose proof (Qabs_nonneg n0). pose proof (Qabs_nonneg n1). pose proof (Qabs_nonneg n2).
  assert (Z : forall x, Qabs x <= 0 -> x == 0).
  { intros x Hx. apply Qabs_Qle_condition in Hx. lra. }
  assert (A : forall x, x == 0 -> Qabs x == 0).
  { intros x Hx. rewrite Hx. reflexivity. }
  destruct (Qltb (Qabs n1) (Qabs n0)) eqn:E1; [apply Qltb_lt in E1 | apply Qltb_ge in E1];
  match goal with |- context [Qltb ?a ?b] =>
    destruct (Qltb a b) eqn:E2; [apply Qltb_lt in E2 | apply Qltb_ge in E2] end;
  cbn [fst snd]; unfold THEA_TRIANGLE_AREA2, vget; cbn [e0 e1 e2 Z.eqb Pos.eqb]; exact_ops;
  intros E.
  - assert (K : n0 == 0) by (subst n0; lra). apply A in K. repeat split; apply Z; lra.
  - assert (K : n2 == 0) by (subst n2; lra). apply A in K. repeat split; apply Z; lra.
  - assert (K : n2 == 0) by (subst n2; lra). apply A in K. repeat split; apply Z; lra.
  - assert (K : n1 == 0) by (subst n1; lra). apply A in K. repeat split; apply Z; lra.
Qed.

(** Two projected edges that are not parallel and have an end in common
    pass [EDGE_EDGE_TEST]. *)
Lemma EDGE_EDGE_TEST_touch (i0 i1 : Z) (A B C D : Vec3 Q) :
  ~ edge_cross i0 i1 A B C D == 0 ->
  (vget A i0 == vget C i0 /\ vget A i1 == vget C i1) \/
  (vget A i0 == vget D i0 /\ vget A i1 == vget D i1) \/
  (vget B i0 == vget C i0 /\ vget B i1 == vget C i1) \/
  (vget B i0 == vget D i0 /\ vget B i1 == vget D i1) ->
  EDGE_EDGE_TEST i0 i1 (vget B i0 - vget A i0) (vget B i1 - vget A i1) A C D = true.
Proof.
  intros HC HT. apply EDGE_EDGE_TEST_meet. split; [exact HC | ].
  unfold on_projected_segment.
  destruct HT as [[Hx Hy] | [[Hx Hy] | [[Hx Hy] | [Hx Hy]]]].
  - exists (vget A i0), (vget A i1). split; [exists 0 | exists 0];
      (split; [lra | ]); rewrite ?Hx, ?Hy; split; ring.
  - exists (vget A i0), (vget A i1). split; [exists 0 | exists 1];
      (split; [lra | ]); rewrite ?Hx, ?Hy; split; ring.
  - exists (vget B i0), (vget B i1). split; [exists 1 | exists 0];
      (split; [lra | ]); rewrite ?Hx, ?Hy; split; ring.
  - exists (vget B i0), (vget B i1). split; [exists 1 | exists 1];
      (split; [lra | ]); rewrite ?Hx, ?Hy; split; ring.
Qed.

(** One of the alternatives of a disjunction, found by [tac]. *)
Ltac find_alternative tac :=
  match goal with
  | |- _ \/ _ => first [ left; find_alternative tac | right; find_alternative tac ]
  | |- _ => solve [tac]
  end.

(** In a projection that keeps the area of the first triangle, the coplanar
    test accepts two triangles that share an edge: an edge of the first
    triangle that is not the shared one meets the shared edge at a vertex,
    and is not parallel to it. *)
Lemma coplanar_tests_shared_edge (i0 i1 : Z) (V0 V1 V2 U0 U1 U2 : Vec3 Q) (i j k l : Z) :
  (0 <= i <= 2)%Z -> (0 <= j <= 2)%Z -> i <> j ->
  (0 <= k <= 2)%Z -> (0 <= l <= 2)%Z -> k <> l ->
  veq (aget (V0, V1, V2) i) (aget (U0, U1, U2) k) ->
  veq (aget (V0, V1, V2) j) (aget (U0, U1, U2) l) ->
  ~ THEA_TRIANGLE_AREA2 i0 i1 V0 V1 V2 == 0 ->
  coplanar_tests i0 i1 V0 V1 V2 U0 U1 U2 = true.
Proof.
  intros Hi Hj Hij Hk Hl Hkl.
  unfold coplanar_tests. rewrite !EDGE_AGAINST_TRI_EDGES_spec. cbv zeta.
  rewrite !if_true_orb, !orb_true_iff.
  unfold THEA_TRIANGLE_AREA2. exact_ops.
  destruct (index_cases i Hi) as [-> | [-> | ->]];
  destruct (index_cases j Hj) as [-> | [-> | ->]];
  try (exfalso; apply Hij; reflexivity);
  destruct (index_cases k Hk) as [-> | [-> | ->]];
  destruct (index_cases l Hl) as [-> | [-> | ->]];
  try (exfalso; apply Hkl; reflexivity);
  cbn [aget Z.eqb Pos.eqb]; intros H1 H2 HA;
  pose proof (vget_veq _ _ i0 H1) as X1; pose proof (vget_veq _ _ i1 H1) as Y1;
  pose proof (vget_veq _ _ i0 H2) as X2; pose proof (vget_veq _ _ i1 H2) as Y2.
  all: find_alternative ltac:(
    apply EDGE_EDGE_TEST_touch;
    [ unfold edge_cross; intros E;
      rewrite <- ?X1, <- ?Y1, <- ?X2, <- ?Y2 in E;
      apply HA;
      match type of E with
      | ?L == 0 =>
          match goal with
          | |- ?G == 0 =>
              first [ assert (T : G == L) by ring | assert (T : G == - L) by ring ];
              rewrite T, E; reflexivity
          end
      end
    | find_alternative ltac:(split; assumption) ]).
Qed.

(** In exact arithmetic [tri_tri_intersect] reports two triangles that
    share an edge as intersecting, when the first of them has a normal
    (that is, an area). *)
Lemma shared_edge_exact (V0 V1 V2 U0 U1 U2 : Vec3 Q) :
  shares_edge V0 V1 V2 U0 U1 U2 ->
  ~ veq (plane_normal V0 V1 V2) zero3 ->
  tri_tri_intersect V0 V1 V2 U0 U1 U2 = true.
Proof.
  intros (i & j & k & l & Hi & Hj & Hij & Hk & Hl & Hkl & H1 & H2) HN.
  assert (COP : coplanar_tri_tri (plane_normal V0 V1 V2) V0 V1 V2 U0 U1 U2 = true).
  { unfold coplanar_tri_tri.
    pose proof (projection_keeps_area V0 V1 V2 HN) as HA. cbv zeta in HA.
    destruct (projection_axes (plane_normal V0 V1 V2)) as [i0 i1]. cbn [fst snd] in HA.
    exact (coplanar_tests_shared_edge i0 i1 V0 V1 V2 U0 U1 U2 i j k l
             Hi Hj Hij Hk Hl Hkl H1 H2 HA). }
  rewrite tri_tri_intersect_eq. cbv zeta.
  set (N1 := plane_normal V0 V1 V2) in *.
  set (N2 := plane_normal U0 U1 U2).
  set (index := largest_component (CROSS N1 N2)).
  assert (ZU : forall m, veq (aget (U0, U1, U2) m) (aget (V0, V1, V2) i) \/
                         veq (aget (U0, U1, U2) m) (aget (V0, V1, V2) j) ->
            aget (plane_distance N1 V0 U0, plane_distance N1 V0 U1, plane_distance N1 V0 U2) m
            = 0).
  { intros m H. rewrite (aget_map (plane_distance N1 V0)).
    destruct H as [H | H]; [exact (plane_distance_vertex V0 V1 V2 _ i H)
                           | exact (plane_distance_vertex V0 V1 V2 _ j H)]. }
  assert (ZV : forall m, veq (aget (V0, V1, V2) m) (aget (U0, U1, U2) k) \/
                         veq (aget (V0, V1, V2) m) (aget (U0, U1, U2) l) ->
            aget (plane_distance N2 U0 V0, plane_distance N2 U0 V1, plane_distance N2 U0 V2) m
            = 0).
  { intros m H. rewrite (aget_map (plane_distance N2 U0)).
    destruct H as [H | H]; [exact (plane_distance_vertex U0 U1 U2 _ k H)
                           | exact (plane_distance_vertex U0 U1 U2 _ l H)]. }
  pose proof (ZU k (or_introl (veq_sym _ _ H1))) as ZUk.
  pose proof (ZU l (or_intror (veq_sym _ _ H2))) as ZUl.
  pose proof (ZV i (or_introl H1)) as ZVi.
  pose proof (ZV j (or_intror H2)) as ZVj.
  clear ZU ZV.
  set (du0 := plane_distance N1 V0 U0) in *. set (du1 := plane_distance N1 V0 U1) in *.
  set (du2 := plane_distance N1 V0 U2) in *.
  set (dv0 := plane_distance N2 U0 V0) in *. set (dv1 := plane_distance N2 U0 V1) in *.
  set (dv2 := plane_distance N2 U0 V2) in *.
  rewrite (same_side_two_zeros du0 du1 du2 k l Hk Hl Hkl ZUk ZUl).
  rewrite (same_side_two_zeros dv0 dv1 dv2 i j Hi Hj Hij ZVi ZVj).
  destruct (COMPUTE_INTERVALS_two_zeros (vget V0 index) (vget V1 index) (vget V2 index)
              dv0 dv1 dv2 i j Hi Hj Hij ZVi ZVj) as [-> | (x & y & -> & HV)]; [exact COP | ].
  destruct (COMPUTE_INTERVALS_two_zeros (vget U0 index) (vget U1 index) (vget U2 index)
              du0 du1 du2 k l Hk Hl Hkl ZUk ZUl) as [-> | (x' & y' & -> & HU)]; [exact COP | ].
  apply (intervals_overlap_same x y x' y' _ _ HV).
  assert (EV : forall m, aget (vget V0 index, vget V1 index, vget V2 index) m
                         = vget (aget (V0, V1, V2) m) index)
    by (intros m; exact (aget_map (fun X => vget X index) V0 V1 V2 m)).
  assert (EU : forall m, aget (vget U0 index, vget U1 index, vget U2 index) m
                         = vget (aget (U0, U1, U2) m) index)
    by (intros m; exact (aget_map (fun X => vget X index) U0 U1 U2 m)).
  rewrite !EU in HU. rewrite !EV.
  rewrite (vget_veq _ _ index H1), (vget_veq _ _ index H2). exact HU.
Qed.

(** C8, amended. In exact arithmetic [tri_tri_intersect] reports every pair
    of triangles that share an edge as intersecting, provided the first
    triangle is not degenerate; and it reports the pair
    (0,0,0),(1,0,0),(0,1,0) and (1,0,0),(0,0,0),(0,0,1) as intersecting in
    exact, binary32 and binary64 arithmetic alike.  In floating-point
    arithmetic the general statement fails, as the lemma after the next
    shows. *)
Theorem shared_edge_intersects :
  (forall V0 V1 V2 U0 U1 U2 : Vec3 Q,
     shares_edge V0 V1 V2 U0 U1 U2 ->
     ~ veq (plane_normal V0 V1 V2) zero3 ->
     tri_tri_intersect V0 V1 V2 U0 U1 U2 = true) /\
  tri_tri_intersect (qv 0 0 0) (qv 1 0 0) (qv 0 1 0) (qv 1 0 0) (qv 0 0 0) (qv 0 0 1) = true /\
  tri_tri_intersect (zv 0 0 0) (zv 1 0 0) (zv 0 1 0) (zv 1 0 0) (zv 0 0 0) (zv 0 0 1) = true /\
  tri_tri_intersect (fv 0 0 0) (fv 1 0 0) (fv 0 1 0) (fv 1 0 0) (fv 0 0 0) (fv 0 0 1) = true.
Proof.
  split; [exact shared_edge_exact | repeat split; vm_compute; reflexivity].
Qed.

(** The first part on a pair in general position: the edge from (3,0,0) to
    (0,3,0) is the second edge of one triangle and the third edge of the
    other, in the opposite direction. *)
Lemma shared_edge_intersects_witness :
  let V0 := qv 0 0 0 in let V1 := qv 3 0 0 in let V2 := qv 0 3 0 in
  let U0 := qv 0 3 0 in let U1 := qv 5 5 5 in let U2 := qv 3 0 0 in
  (shares_edge V0 V1 V2 U0 U1 U2 /\ ~ veq (plane_normal V0 V1 V2) zero3) /\
  tri_tri_intersect V0 V1 V2 U0 U1 U2 = true.
Proof.
  refine ((fun H => conj H (proj1 shared_edge_intersects _ _ _ _ _ _ (proj1 H) (proj2 H))) _).
  split.
  - exists 1%Z, 2%Z, 2%Z, 0%Z.
    repeat split; try lia; try discriminate; reflexivity.
  - intros (_ & _ & H). vm_compute in H. discriminate H.
Defined.

(** Against C8 as stated: two triangles with the common edge P Q, with
    coordinates between 1000 and 4000 that are multiples of 2^-10, numbers
    of binary32 and of binary64.  In exact arithmetic the distances of P and
    Q to the plane of the first triangle are zero and the answer is 1.  In
    floating point both distances come out above [EPSILON] and of the sign
    of the distance of the third vertex (2^11 and 2^10 in binary32, 2^-17
    and 2^-18 in binary64), so the first rejection test fires and the
    answer is 0. *)
Lemma shared_edge_rounding_rejected :
  let A32 := sv (b32 1112372 (-10)) (b32 3990506 (-10)) (b32 3906658 (-10)) in
  let P32 := sv (b32 3432010 (-10)) (b32 2403014 (-10)) (b32 3957215 (-10)) in
  let Q32 := sv (b32 2092587 (-10)) (b32 1133226 (-10)) (b32 1118697 (-10)) in
  let D32 := sv (b32 3841350 (-10)) (b32 3370932 (-10)) (b32 2525019 (-10)) in
  let A := fv 1086.30078125 3896.978515625 3815.095703125 in
  let P := fv 3351.572265625 2346.693359375 3864.4677734375 in
  let Q := fv 2043.5419921875 1106.666015625 1092.4775390625 in
  let D := fv 3751.318359375 3291.92578125 2465.8388671875 in
  let A' := qv (1112372 # 1024) (3990506 # 1024) (3906658 # 1024) in
  let P' := qv (3432010 # 1024) (2403014 # 1024) (3957215 # 1024) in
  let Q' := qv (2092587 # 1024) (1133226 # 1024) (1118697 # 1024) in
  let D' := qv (3841350 # 1024) (3370932 # 1024) (2525019 # 1024) in
  (tri_tri_intersect A32 P32 Q32 P32 Q32 D32 = false /\
   plane_distance (plane_normal A32 P32 Q32) A32 P32 = b32 1 11 /\
   plane_distance (plane_normal A32 P32 Q32) A32 Q32 = b32 1 10 /\
   SFltb (b32 0 0) (plane_distance (plane_normal A32 P32 Q32) A32 D32) = true) /\
  (tri_tri_intersect A P Q P Q D = false /\
   plane_distance (plane_normal A P Q) A P = 0x1p-17%float /\
   plane_distance (plane_normal A P Q) A Q = 0x1p-18%float /\
   (0 <? plane_distance (plane_normal A P Q) A D)%float = true) /\
  (tri_tri_intersect A' P' Q' P' Q' D' = true /\
   shares_edge A' P' Q' P' Q' D' /\
   (e0 A * 1024 =? 1112372)%float = true /\
   (e1 A * 1024 =? 3990506)%float = true /\
   (e2 A * 1024 =? 3906658)%float = true /\
   (e0 P * 1024 =? 3432010)%float = true /\
   (e1 P * 1024 =? 2403014)%float = true /\
   (e2 P * 1024 =? 3957215)%float = true /\
   (e0 Q * 1024 =? 2092587)%float = true /\
   (e1 Q * 1024 =? 1133226)%float = true /\
   (e2 Q * 1024 =? 1118697)%float = true /\
   (e0 D * 1024 =? 3841350)%float = true /\
   (e1 D * 1024 =? 3370932)%float = true /\
   (e2 D * 1024 =? 2525019)%float = true).
Proof.
  cbv zeta. split; [repeat split; vm_compute; reflexivity | ].
  split; [repeat split; vm_compute; reflexivity | ].
  split; [vm_compute; reflexivity | split; [ | repeat split; vm_compute; reflexivity]].
  exists 1%Z, 2%Z, 0%Z, 1%Z.
  repeat split; try lia; try discriminate; reflexivity.
Qed.

(** The condition on the first triangle is needed, also in exact
    arithmetic: for a first triangle that is a segment on the y axis the
    coplanar test projects along y, where nothing is left of it. *)
Lemma shared_edge_degenerate_first :
  tri_tri_intersect (qv 0 0 0) (qv 0 1 0) (qv 0 2 0) (qv 0 0 0) (qv 0 1 0) (qv 1 0 0) = false /\
  tri_tri_intersect (zv 0 0 0) (zv 0 1 0) (zv 0 2 0) (zv 0 0 0) (zv 0 1 0) (zv 1 0 0) = false /\
  tri_tri_intersect (fv 0 0 0) (fv 0 1 0) (fv 0 2 0) (fv 0 0 0) (fv 0 1 0) (fv 1 0 0) = false.
Proof.
  repeat split; vm_compute; reflexivity.
Qed.

(** * The ray time in floating-point arithmetic

    C9 in the arithmetic of the program: the quotient the function returns
    has a numerator that passed [QdN >= 0] and a denominator above [EPS].
    The specification of the floating-point operations gives the sign of
    such a quotient, in binary32 and in binary64. *)

(** What the comparison [0 <= x] says of a floating-point number. *)
Lemma SFleb_zero (x : spec_float) :
  SFleb (S754_zero false) x = true <->
  (exists s, x = S754_zero s) \/ (exists m e, x = S754_finite false m e) \/ x = S754_infinity false.
Proof.
  destruct x as [s | s | | s m e]; cbn.
  - split; [intros _; left; exists s; reflexivity | reflexivity].
  - destruct s; cbn; split; try discriminate.
    + intros [[s E] | [(m & e & E) | E]]; discriminate E.
    + intros _. right; right; reflexivity.
    + reflexivity.
  - split; [discriminate | ].
    intros [[s E] | [(m & e & E) | E]]; discriminate E.
  - destruct s; cbn; split; try discriminate.
    + intros [[s E] | [(m' & e' & E) | E]]; discriminate E.
    + intros _. right; left; exists m, e; reflexivity.
    + reflexivity.
Qed.

(** What [0 < x] says. *)
Lemma SFltb_zero (x : spec_float) :
  SFltb (S754_zero false) x = true ->
  (exists m e, x = S754_finite false m e) \/ x = S754_infinity false.
Proof.
  destruct x as [s | s | | s m e]; cbn; try discriminate.
  - destruct s; cbn; [discriminate | ]. intros _. right; reflexivity.
  - destruct s; cbn; [discriminate | ]. intros _. left; exists m, e; reflexivity.
Qed.

Lemma binary_round_aux_sign (p em : Z) (s : bool) (mx ex : Z) (lx : location) :
  let r := binary_round_aux p em s mx ex lx in
  r = S754_zero s \/ (exists m e, r = S754_finite s m e) \/ r = S754_infinity s \/ r = S754_nan.
Proof.
  unfold binary_round_aux.
  destruct (shr_fexp p em mx ex lx) as [mrs' e'].
  destruct (shr_fexp p em _ e' loc_Exact) as [mrs'' e''].
  destruct (shr_m mrs'') as [ | m | m].
  - left; reflexivity.
  - destruct (Z.leb e'' (em - p)).
    + right; left; exists m, e''; reflexivity.
    + right; right; left; reflexivity.
  - right; right; right; reflexivity.
Qed.

(** A quotient of a number that is not negative by a positive one is not
    negative, or is not a number (infinity over infinity). *)
Lemma SFdiv_sign (p em : Z) (x y : spec_float) :
  SFleb (S754_zero false) x = true ->
  SFltb (S754_zero false) y = true ->
  SFleb (S754_zero false) (SFdiv p em x y) = true \/ SFdiv p em x y = S754_nan.
Proof.
  intros Hx Hy.
  apply SFleb_zero in Hx. apply SFltb_zero in Hy.
  destruct Hy as [(my & ey & ->) | ->];
    destruct Hx as [[s ->] | [(mx & e_x & ->) | ->]].
  - left. destruct s; reflexivity.
  - unfold SFdiv.
    destruct (SFdiv_core_binary p em (Z.pos mx) e_x (Z.pos my) ey) as [[mz ez] lz].
    pose proof (binary_round_aux_sign p em (xorb false false) mz ez lz) as H. cbv zeta in H.
    destruct H as [E | [(m & e & E) | [E | E]]]; rewrite E; cbn; auto.
  - left; reflexivity.
  - left. destruct s; reflexivity.
  - left; reflexivity.
  - right; reflexivity.
Qed.

Lemma float_quotient_sign (q d : float) :
  (0 <=? q)%float = true -> (0 <? d)%float = true ->
  (0 <=? q / d)%float = true \/ PrimFloat.is_nan (q / d) = true.
Proof.
  rewrite !leb_spec, ltb_spec. unfold PrimFloat.is_nan. rewrite eqb_spec, div_spec.
  change (Prim2SF 0) with (S754_zero false).
  intros Hq Hd.
  destruct (SFdiv_sign prec emax _ _ Hq Hd) as [H | H];
    [left; exact H | right; unfold SF64div; rewrite H; reflexivity].
Qed.

(** Above [EPS] means above zero. *)
Lemma float_above_EPS (d : float) :
  (@EPS float Binary64 <? d)%float = true -> (0 <? d)%float = true.
Proof.
  rewrite !ltb_spec.
  change (Prim2SF 0) with (S754_zero false).
  set (eps := Prim2SF (@EPS float Binary64)). vm_compute in eps. subst eps.
  destruct (Prim2SF d) as [[ | ] | [ | ] | | [ | ] m e]; intros H;
    try reflexivity; compute in H; discriminate H.
Qed.

Lemma float_below_minus_EPS (d : float) :
  (d <? - @EPS float Binary64)%float = true -> (0 <? - d)%float = true.
Proof.
  rewrite !ltb_spec, (opp_spec d).
  change (Prim2SF 0) with (S754_zero false).
  set (eps := Prim2SF (- @EPS float Binary64)). vm_compute in eps. subst eps.
  destruct (Prim2SF d) as [[ | ] | [ | ] | | [ | ] m e]; intros H;
    try reflexivity; compute in H; discriminate H.
Qed.

Lemma single_above_EPS (d : spec_float) :
  SFltb (@EPS spec_float Binary32) d = true -> SFltb (S754_zero false) d = true.
Proof.
  set (eps := @EPS spec_float Binary32). vm_compute in eps. subst eps.
  destruct d as [[ | ] | [ | ] | | [ | ] m e]; intros H;
    try reflexivity; compute in H; discriminate H.
Qed.

Lemma single_below_minus_EPS (d : spec_float) :
  SFltb d (SFopp (@EPS spec_float Binary32)) = true -> SFltb (S754_zero false) (SFopp d) = true.
Proof.
  set (eps := SFopp (@EPS spec_float Binary32)). vm_compute in eps. subst eps.
  destruct d as [[ | ] | [ | ] | | [ | ] m e]; intros H;
    try reflexivity; compute in H; discriminate H.
Qed.

(** In binary64 arithmetic [rayTriangleIntersectionTime] returns -1, a
    number that is not negative, or no number at all. *)
Lemma ray_range_binary64 (ray : Ray3) (v0 edge01 edge02 : Vec3 float) :
  let r := rayTriangleIntersectionTime ray v0 edge01 edge02 in
  r = (-1)%float \/ (0 <=? r)%float = true \/ PrimFloat.is_nan r = true.
Proof.
  unfold rayTriangleIntersectionTime. cbv zeta.
  change (@rzero float Binary64) with 0%float.
  change (@rone float Binary64) with 1%float.
  change (@rltb float Binary64) with PrimFloat.ltb.
  change (@rleb float Binary64) with PrimFloat.leb.
  change (@rdiv float Binary64) with PrimFloat.div.
  change (@ropp float Binary64) with PrimFloat.opp.
  set (DdN := vdot (getDirection ray) (vcross edge01 edge02)).
  destruct (PrimFloat.ltb EPS DdN) eqn:Epos.
  - destruct (PrimFloat.leb 0 _); [ | left; reflexivity].
    destruct (PrimFloat.leb 0 _); [ | left; reflexivity].
    destruct (PrimFloat.leb _ DdN); [ | left; reflexivity].
    destruct (PrimFloat.leb 0 _) eqn:Eq; [ | left; reflexivity].
    right. apply float_quotient_sign; [exact Eq | apply float_above_EPS; exact Epos].
  - destruct (PrimFloat.ltb DdN (- EPS)) eqn:Eneg; [ | left; reflexivity].
    destruct (PrimFloat.leb 0 _); [ | left; reflexivity].
    destruct (PrimFloat.leb 0 _); [ | left; reflexivity].
    destruct (PrimFloat.leb _ (- DdN)); [ | left; reflexivity].
    destruct (PrimFloat.leb 0 _) eqn:Eq; [ | left; reflexivity].
    right. apply float_quotient_sign; [exact Eq | apply float_below_minus_EPS; exact Eneg].
Qed.

(** The same in binary32 arithmetic. *)
Lemma ray_range_binary32 (ray : Ray3) (v0 edge01 edge02 : Vec3 spec_float) :
  let r := rayTriangleIntersectionTime ray v0 edge01 edge02 in
  r = b32 (-1) 0 \/ SFleb (S754_zero false) r = true \/ r = S754_nan.
Proof.
  unfold rayTriangleIntersectionTime. cbv zeta.
  change (@ropp spec_float Binary32 (@rone spec_float Binary32)) with (b32 (-1) 0).
  change (@rzero spec_float Binary32) with (S754_zero false).
  change (@rltb spec_float Binary32) with SFltb.
  change (@rleb spec_float Binary32) with SFleb.
  change (@rdiv spec_float Binary32) with (SFdiv 24 128).
  change (@ropp spec_float Binary32) with SFopp.
  set (DdN := vdot (getDirection ray) (vcross edge01 edge02)).
  destruct (SFltb EPS DdN) eqn:Epos.
  - destruct (SFleb (S754_zero false) _); [ | left; reflexivity].
    destruct (SFleb (S754_zero false) _); [ | left; reflexivity].
    destruct (SFleb _ DdN); [ | left; reflexivity].
    destruct (SFleb (S754_zero false) _) eqn:Eq; [ | left; reflexivity].
    right. apply SFdiv_sign; [exact Eq | apply single_above_EPS; exact Epos].
  - destruct (SFltb DdN (SFopp EPS)) eqn:Eneg; [ | left; reflexivity].
    destruct (SFleb (S754_zero false) _); [ | left; reflexivity].
    destruct (SFleb (S754_zero false) _); [ | left; reflexivity].
    destruct (SFleb _ (SFopp DdN)); [ | left; reflexivity].
    destruct (SFleb (S754_zero false) _) eqn:Eq; [ | left; reflexivity].
    right. apply SFdiv_sign; [exact Eq | apply single_below_minus_EPS; exact Eneg].
Qed.

(** C9, amended. The value [rayTriangleIntersectionTime] returns is -1 or a
    non-negative number in exact arithmetic; in binary32 and in binary64
    arithmetic it is -1, a non-negative number (infinity included), or not a
    number.  No negative value other than -1 is returned in any of the
    three. *)
Theorem rayTriangleIntersectionTime_range :
  (forall (ray : Ray3) (v0 edge01 edge02 : Vec3 Q),
     let r := rayTriangleIntersectionTime ray v0 edge01 edge02 in
     r = - (1) \/ 0 <= r) /\
  (forall (ray : Ray3) (v0 edge01 edge02 : Vec3 spec_float),
     let r := rayTriangleIntersectionTime ray v0 edge01 edge02 in
     r = b32 (-1) 0 \/ SFleb (S754_zero false) r = true \/ r = S754_nan) /\
  (forall (ray : Ray3) (v0 edge01 edge02 : Vec3 float),
     let r := rayTriangleIntersectionTime ray v0 edge01 edge02 in
     r = (-1)%float \/ (0 <=? r)%float = true \/ PrimFloat.is_nan r = true).
Proof.
  split; [exact ray_range_exact | split; [exact ray_range_binary32 | exact ray_range_binary64]].
Qed.

(** Against C9 as stated: the ray from (0,0,1) in direction (0,0,-1) and the
    triangle at the origin with the edges (s, 0, 0) and (0, -s, 0), where s
    is 2^100 in binary32 and 2^600 in binary64: finite numbers.  The normal
    is (0, 0, -s^2), which overflows to minus infinity; [DdN] and [QdN] are
    both plus infinity, all four tests pass, and the call returns
    infinity / infinity: not a number, neither -1 nor non-negative. *)
Lemma rayTriangleIntersectionTime_not_a_number :
  (let r := rayTriangleIntersectionTime (mkRay3 (zv 0 0 1) (zv 0 0 (-1)))
              (zv 0 0 0) (sv (b32 1 100) (b32 0 0) (b32 0 0))
              (sv (b32 0 0) (b32 (-1) 100) (b32 0 0)) in
   r = S754_nan /\
   SFeqb r (b32 (-1) 0) = false /\ SFleb (b32 0 0) r = false /\ SFltb r (b32 0 0) = false) /\
  (let r := rayTriangleIntersectionTime (mkRay3 (fv 0 0 1) (fv 0 0 (-1)))
              (fv 0 0 0) (fv 0x1p600 0 0) (fv 0 (-0x1p600) 0) in
   PrimFloat.is_nan r = true /\
   (r =? -1)%float = false /\ (0 <=? r)%float = false /\ (r <? 0)%float = false).
Proof.
  repeat split; vm_compute; reflexivity.
Qed.

(** * The perimeter of a triangle given by its vertices

    The overload of [closestPointOnTrianglePerimeter] that computes the edge
    directions and lengths itself, over the real numbers. *)

Section PerimeterOfVertices.

Local Open Scope R_scope.

(** Unfold the operations of [ExactR] to those of [R]. *)
Ltac real_ops :=
  change (@rzero R ExactR) with 0;
  change (@rone R ExactR) with 1;
  change (@radd R ExactR) with Rplus;
  change (@rsub R ExactR) with Rminus;
  change (@rmul R ExactR) with Rmult;
  change (@rdiv R ExactR) with Rdiv;
  change (@ropp R ExactR) with Ropp;
  change (@rabs R ExactR) with Rabs;
  change (@rltb R ExactR) with Rltb;
  change (@rleb R ExactR) with Rleb;
  change (@reqb R ExactR) with Reqb.

Lemma Rltb_lt (a b : R) : Rltb a b = true <-> a < b.
Proof.
  unfold Rltb. destruct (Rlt_dec a b); split; intros;
    try assumption; try reflexivity; try discriminate; contradiction.
Qed.

Lemma Rltb_ge (a b : R) : Rltb a b = false <-> b <= a.
Proof.
  unfold Rltb. destruct (Rlt_dec a b) as [H | H]; split; intros H'; try reflexivity;
    try discriminate; Lra.lra.
Qed.

Lemma Rleb_le (a b : R) : Rleb a b = true <-> a <= b.
Proof.
  unfold Rleb. destruct (Rle_dec a b); split; intros;
    try assumption; try reflexivity; try discriminate; contradiction.
Qed.

Lemma Rleb_gt (a b : R) : Rleb a b = false <-> b < a.
Proof.
  unfold Rleb. destruct (Rle_dec a b) as [H | H]; split; intros H'; try reflexivity;
    try discriminate; Lra.lra.
Qed.

Lemma vec3_eq (a b : Vec3 R) : e0 a = e0 b -> e1 a = e1 b -> e2 a = e2 b -> a = b.
Proof. destruct a, b. cbn. intros -> -> ->. reflexivity. Qed.

(** Along a line with a unit direction the squared distance to [p] is a
    parabola in the parameter, with its apex at the projection of [p]. *)
Lemma dist2R_on_line (v0 dir p : Vec3 R) (s : R) :
  squaredNorm dir = 1 ->
  dist2R (vadd v0 (vscale dir s)) p
  = (s - vdot dir (vsub p v0)) * (s - vdot dir (vsub p v0))
    + (dist2R p v0 - vdot dir (vsub p v0) * vdot dir (vsub p v0)).
Proof.
  destruct v0 as [a0 a1 a2], dir as [d0 d1 d2], p as [p0 p1 p2].
  unfold dist2R, squaredNorm, vdot, vsub, vadd, vscale. cbn [e0 e1 e2]. real_ops.
  intros H.
  replace ((a0 + d0 * s - p0) * (a0 + d0 * s - p0) + (a1 + d1 * s - p1) * (a1 + d1 * s - p1)
           + (a2 + d2 * s - p2) * (a2 + d2 * s - p2))
    with (s * s * (d0 * d0 + d1 * d1 + d2 * d2)
          - 2 * s * (d0 * (p0 - a0) + d1 * (p1 - a1) + d2 * (p2 - a2))
          + ((p0 - a0) * (p0 - a0) + (p1 - a1) * (p1 - a1) + (p2 - a2) * (p2 - a2))) by ring.
  rewrite H. ring.
Qed.

(** [closestPointOnLineSegment] over the reals: the point of the segment
    nearest to the query point. *)
Lemma closestPointOnLineSegment_leastR (v0 v1 dir : Vec3 R) (len : R) (p : Vec3 R) :
  0 <= len -> v1 = vadd v0 (vscale dir len) -> squaredNorm dir = 1 ->
  let r := closestPointOnLineSegment v0 v1 dir len p in
  (exists s, 0 <= s <= len /\ r = vadd v0 (vscale dir s)) /\
  (forall s, 0 <= s <= len -> dist2R r p <= dist2R (vadd v0 (vscale dir s)) p).
Proof.
  intros Hlen Hv1 Hunit r.
  assert (Hr : exists s, 0 <= s <= len /\ r = vadd v0 (vscale dir s) /\
                 forall s', 0 <= s' <= len ->
                   (s - vdot dir (vsub p v0)) * (s - vdot dir (vsub p v0))
                   <= (s' - vdot dir (vsub p v0)) * (s' - vdot dir (vsub p v0))).
  { subst r. unfold closestPointOnLineSegment. cbv zeta. real_ops.
    set (t := vdot dir (vsub p v0)).
    destruct (Rleb t 0) eqn:E0; [apply Rleb_le in E0 | apply Rleb_gt in E0];
      [ | destruct (Rleb len t) eqn:E1; [apply Rleb_le in E1 | apply Rleb_gt in E1] ].
    - exists 0. split; [Lra.lra | split].
      + apply vec3_eq; unfold vadd, vscale; cbn [e0 e1 e2]; real_ops; ring.
      + intros s' Hs'.
        assert (P : 0 <= s' * (s' - 2 * t)) by (apply Rmult_le_pos; Lra.lra).
        replace ((s' - t) * (s' - t)) with ((0 - t) * (0 - t) + s' * (s' - 2 * t)) by ring.
        Lra.lra.
    - exists len. split; [Lra.lra | split; [exact Hv1 | ]].
      intros s' Hs'.
      assert (P : 0 <= (len - s') * (2 * t - len - s')) by (apply Rmult_le_pos; Lra.lra).
      replace ((s' - t) * (s' - t))
        with ((len - t) * (len - t) + (len - s') * (2 * t - len - s')) by ring.
      Lra.lra.
    - exists t. split; [Lra.lra | split; [reflexivity | ]].
      intros s' Hs'. pose proof (Rle_0_sqr (s' - t)) as P. unfold Rsqr in P.
      replace ((t - t) * (t - t)) with 0 by ring. exact P. }
  destruct Hr as (s & Hs & Er & Hmin).
  split; [exists s; split; assumption | ].
  intros s' Hs'. rewrite Er, !(dist2R_on_line _ _ _ _ Hunit).
  pose proof (Hmin s' Hs'). Lra.lra.
Qed.

(** The direction [w / |w|] and the length [|w|] of an edge that is not a
    point. *)
Lemma normalized_edgeR (A B : Vec3 R) :
  A <> B ->
  let w := vsub B A in
  let dir := mkVec3 (e0 w / norm w) (e1 w / norm w) (e2 w / norm w) in
  0 < norm w /\ B = vadd A (vscale dir (norm w)) /\ squaredNorm dir = 1 /\
  forall s, edge_atR A B s = vadd A (vscale dir (s * norm w)).
Proof.
  intros HAB w dir.
  assert (Hsq : 0 <= squaredNorm w).
  { unfold squaredNorm, vdot. real_ops.
    pose proof (Rle_0_sqr (e0 w)) as P0. pose proof (Rle_0_sqr (e1 w)) as P1.
    pose proof (Rle_0_sqr (e2 w)) as P2. unfold Rsqr in P0, P1, P2. Lra.lra. }
  assert (Hnz : squaredNorm w <> 0).
  { intros E. apply HAB. revert E. subst w.
    destruct A as [a0 a1 a2], B as [b0 b1 b2].
    unfold squaredNorm, vdot, vsub. cbn [e0 e1 e2]. real_ops. intros E.
    pose proof (Rle_0_sqr (b0 - a0)) as P0. pose proof (Rle_0_sqr (b1 - a1)) as P1.
    pose proof (Rle_0_sqr (b2 - a2)) as P2. unfold Rsqr in P0, P1, P2.
    assert (Z0 : (b0 - a0) * (b0 - a0) = 0) by Lra.lra.
    assert (Z1 : (b1 - a1) * (b1 - a1) = 0) by Lra.lra.
    assert (Z2 : (b2 - a2) * (b2 - a2) = 0) by Lra.lra.
    apply Rsqr_0_uniq in Z0, Z1, Z2.
    f_equal; Lra.lra. }
  assert (Hpos : 0 < norm w).
  { unfold norm. apply sqrt_lt_R0. Lra.lra. }
  assert (Hnn : norm w * norm w = squaredNorm w).
  { unfold norm. apply sqrt_sqrt. exact Hsq. }
  assert (Nn : norm w <> 0) by Lra.lra.
  split; [exact Hpos | split; [ | split]].
  - subst dir. destruct A as [a0 a1 a2], B as [b0 b1 b2].
    apply vec3_eq; unfold vadd, vscale; cbn [e0 e1 e2]; real_ops;
      subst w; unfold vsub in *; cbn [e0 e1 e2] in *; revert Nn; real_ops;
      generalize (norm {| e0 := b0 - a0; e1 := b1 - a1; e2 := b2 - a2 |});
      intros n Nn; field; exact Nn.
  - subst dir. revert Hnn. unfold squaredNorm, vdot. cbn [e0 e1 e2]. real_ops. intros Hnn.
    replace (e0 w / norm w * (e0 w / norm w) + e1 w / norm w * (e1 w / norm w)
             + e2 w / norm w * (e2 w / norm w))
      with ((e0 w * e0 w + e1 w * e1 w + e2 w * e2 w) / (norm w * norm w))
      by (field; exact Nn).
    rewrite <- Hnn. field. exact Nn.
  - intros s. subst dir. unfold edge_atR. fold w.
    apply vec3_eq; unfold vadd, vscale; cbn [e0 e1 e2]; real_ops; field; exact Nn.
Qed.

(** The edge [closestPointOnTrianglePerimeter] selects is one whose closest
    point is nearest. *)
Lemma closestPointOnTrianglePerimeter_choiceR (v dir : Arr3 (Vec3 R)) (len : Arr3 R)
    (p : Vec3 R) :
  exists k, (0 <= k <= 2)%Z /\
    fst (closestPointOnTrianglePerimeter v dir len p) = edge_point v dir len p k /\
    forall j, (0 <= j <= 2)%Z ->
      edge_dist2 v dir len p k <= edge_dist2 v dir len p j.
Proof.
  destruct v as [[v0 v1] v2], dir as [[g0 g1] g2], len as [[l0 l1] l2].
  unfold closestPointOnTrianglePerimeter, edge_dist2, edge_point. cbv zeta.
  cbn [aget next Z.eqb Pos.eqb]. real_ops.
  set (d0 := squaredNorm (vsub (closestPointOnLineSegment v0 v1 g0 l0 p) p)).
  set (d1 := squaredNorm (vsub (closestPointOnLineSegment v1 v2 g1 l1 p) p)).
  set (d2 := squaredNorm (vsub (closestPointOnLineSegment v2 v0 g2 l2 p) p)).
  assert (J : forall j, (0 <= j <= 2)%Z -> j = 0%Z \/ j = 1%Z \/ j = 2%Z) by (intros; lia).
  destruct (Rltb d0 d1) eqn:E01; [apply Rltb_lt in E01 | apply Rltb_ge in E01];
  [ destruct (Rltb d0 d2) eqn:E02; [apply Rltb_lt in E02 | apply Rltb_ge in E02]
  | destruct (Rltb d1 d2) eqn:E12; [apply Rltb_lt in E12 | apply Rltb_ge in E12] ];
  cbn [fst aget Z.eqb Pos.eqb].
  - exists 0%Z. split; [lia | split; [reflexivity | ]].
    intros j Hj. destruct (J j Hj) as [-> | [-> | ->]]; cbn [aget next Z.eqb Pos.eqb];
      fold d0 d1 d2; Lra.lra.
  - exists 2%Z. split; [lia | split; [reflexivity | ]].
    intros j Hj. destruct (J j Hj) as [-> | [-> | ->]]; cbn [aget next Z.eqb Pos.eqb];
      fold d0 d1 d2; Lra.lra.
  - exists 1%Z. split; [lia | split; [reflexivity | ]].
    intros j Hj. destruct (J j Hj) as [-> | [-> | ->]]; cbn [aget next Z.eqb Pos.eqb];
      fold d0 d1 d2; Lra.lra.
  - exists 2%Z. split; [lia | split; [reflexivity | ]].
    intros j Hj. destruct (J j Hj) as [-> | [-> | ->]]; cbn [aget next Z.eqb Pos.eqb];
      fold d0 d1 d2; Lra.lra.
Qed.

(** Over the real numbers, with the square root for [Vector3::norm], the
    overload of [closestPointOnTrianglePerimeter] that takes the three
    vertices returns a point of the perimeter nearest to the query point,
    for every triangle whose three vertices are different. *)
Lemma closestPointOnTrianglePerimeter_of_vertices_leastR (v0 v1 v2 point : Vec3 R) :
  v0 <> v1 -> v1 <> v2 -> v2 <> v0 ->
  let res := closestPointOnTrianglePerimeter_of_vertices norm v0 v1 v2 point in
  (exists s, 0 <= s <= 1 /\
     (res = edge_atR v0 v1 s \/ res = edge_atR v1 v2 s \/ res = edge_atR v2 v0 s)) /\
  (forall s, 0 <= s <= 1 ->
     dist2R res point <= dist2R (edge_atR v0 v1 s) point /\
     dist2R res point <= dist2R (edge_atR v1 v2 s) point /\
     dist2R res point <= dist2R (edge_atR v2 v0 s) point).
Proof.
  intros D01 D12 D20.
  destruct (normalized_edgeR v0 v1 D01) as (L0 & S0 & U0 & P0).
  destruct (normalized_edgeR v1 v2 D12) as (L1 & S1 & U1 & P1).
  destruct (normalized_edgeR v2 v0 D20) as (L2 & S2 & U2 & P2).
  unfold closestPointOnTrianglePerimeter_of_vertices. cbv zeta.
  cbn [aget Z.eqb Pos.eqb]. real_ops.
  set (g0 := mkVec3 (e0 (vsub v1 v0) / norm (vsub v1 v0)) (e1 (vsub v1 v0) / norm (vsub v1 v0))
                    (e2 (vsub v1 v0) / norm (vsub v1 v0))) in *.
  set (g1 := mkVec3 (e0 (vsub v2 v1) / norm (vsub v2 v1)) (e1 (vsub v2 v1) / norm (vsub v2 v1))
                    (e2 (vsub v2 v1) / norm (vsub v2 v1))) in *.
  set (g2 := mkVec3 (e0 (vsub v0 v2) / norm (vsub v0 v2)) (e1 (vsub v0 v2) / norm (vsub v0 v2))
                    (e2 (vsub v0 v2) / norm (vsub v0 v2))) in *.
  set (l0 := norm (vsub v1 v0)) in *. set (l1 := norm (vsub v2 v1)) in *.
  set (l2 := norm (vsub v0 v2)) in *.
  pose proof (closestPointOnLineSegment_leastR v0 v1 g0 l0 point (Rlt_le _ _ L0) S0 U0) as C0.
  pose proof (closestPointOnLineSegment_leastR v1 v2 g1 l1 point (Rlt_le _ _ L1) S1 U1) as C1.
  pose proof (closestPointOnLineSegment_leastR v2 v0 g2 l2 point (Rlt_le _ _ L2) S2 U2) as C2.
  cbv zeta in C0, C1, C2.
  destruct (closestPointOnTrianglePerimeter_choiceR (v0, v1, v2) (g0, g1, g2) (l0, l1, l2) point)
    as (k & Hk & Ek & Hleast).
  rewrite Ek.
  assert (D : forall j, (0 <= j <= 2)%Z ->
            dist2R (edge_point (v0, v1, v2) (g0, g1, g2) (l0, l1, l2) point k) point
            <= edge_dist2 (v0, v1, v2) (g0, g1, g2) (l0, l1, l2) point j)
    by exact Hleast.
  assert (PAR : forall l x, 0 < l -> 0 <= x <= l -> 0 <= x / l <= 1 /\ x / l * l = x).
  { intros l x Hl Hx. assert (Nl : l <> 0) by Lra.lra.
    split; [split | field; exact Nl].
    - apply Rmult_le_pos; [Lra.lra | ]. apply Rlt_le, Rinv_0_lt_compat. exact Hl.
    - apply (Rmult_le_reg_r l); [exact Hl | ].
      replace (x / l * l) with x by (field; exact Nl). Lra.lra. }
  assert (IN : forall l s', 0 < l -> 0 <= s' <= 1 -> 0 <= s' * l <= l).
  { intros l s' Hl Hs'. split; [apply Rmult_le_pos; Lra.lra | ].
    assert (0 <= (1 - s') * l) by (apply Rmult_le_pos; Lra.lra). Lra.lra. }
  split.
  - assert (J : k = 0%Z \/ k = 1%Z \/ k = 2%Z) by lia.
    destruct J as [-> | [-> | ->]]; unfold edge_point; cbn [aget next Z.eqb Pos.eqb].
    + destruct C0 as [(s & Hs & Es) _]. destruct (PAR l0 s L0 Hs) as [R E].
      exists (s / l0). split; [exact R | left]. rewrite Es, P0, E. reflexivity.
    + destruct C1 as [(s & Hs & Es) _]. destruct (PAR l1 s L1 Hs) as [R E].
      exists (s / l1). split; [exact R | right; left]. rewrite Es, P1, E. reflexivity.
    + destruct C2 as [(s & Hs & Es) _]. destruct (PAR l2 s L2 Hs) as [R E].
      exists (s / l2). split; [exact R | right; right]. rewrite Es, P2, E. reflexivity.
  - set (res := edge_point (v0, v1, v2) (g0, g1, g2) (l0, l1, l2) point k) in *.
    clearbody res.
    intros s' Hs'. split; [ | split].
    + rewrite P0. pose proof (D 0%Z ltac:(lia)) as D0.
      unfold edge_dist2, edge_point in D0. cbn [aget next Z.eqb Pos.eqb] in D0.
      pose proof (proj2 C0 (s' * l0) (IN l0 s' L0 Hs')) as M. unfold dist2R in *. Lra.lra.
    + rewrite P1. pose proof (D 1%Z ltac:(lia)) as D1.
      unfold edge_dist2, edge_point in D1. cbn [aget next Z.eqb Pos.eqb] in D1.
      pose proof (proj2 C1 (s' * l1) (IN l1 s' L1 Hs')) as M. unfold dist2R in *. Lra.lra.
    + rewrite P2. pose proof (D 2%Z ltac:(lia)) as D2.
      unfold edge_dist2, edge_point in D2. cbn [aget next Z.eqb Pos.eqb] in D2.
      pose proof (proj2 C2 (s' * l2) (IN l2 s' L2 Hs')) as M. unfold dist2R in *. Lra.lra.
Qed.

(** X8. The overload of [closestPointOnTrianglePerimeter] that takes the
    three vertices, over the real numbers with the square root for
    [Vector3::norm()], for every triangle whose three vertices are
    different: the point returned lies on one of the three edges, and no
    point of an edge is nearer to the query point. *)
Theorem closestPointOnTrianglePerimeter_of_vertices_nearest (v0 v1 v2 point : Vec3 R) :
  v0 <> v1 -> v1 <> v2 -> v2 <> v0 ->
  let res := closestPointOnTrianglePerimeter_of_vertices norm v0 v1 v2 point in
  (exists s, 0 <= s <= 1 /\
     (res = edge_atR v0 v1 s \/ res = edge_atR v1 v2 s \/ res = edge_atR v2 v0 s)) /\
  (forall s, 0 <= s <= 1 ->
     dist2R res point <= dist2R (edge_atR v0 v1 s) point /\
     dist2R res point <= dist2R (edge_atR v1 v2 s) point /\
     dist2R res point <= dist2R (edge_atR v2 v0 s) point).
Proof. exact (closestPointOnTrianglePerimeter_of_vertices_leastR v0 v1 v2 point). Qed.

(** The right triangle with the legs 1, whose third side has the length
    [sqrt 2], and the query point (1, 1, 0). *)
Lemma closestPointOnTrianglePerimeter_of_vertices_nearest_witness :
  let v0 := mkVec3 0 0 0 in let v1 := mkVec3 1 0 0 in let v2 := mkVec3 0 1 0 in
  let p := mkVec3 1 1 0 in
  let res := closestPointOnTrianglePerimeter_of_vertices norm v0 v1 v2 p in
  (v0 <> v1 /\ v1 <> v2 /\ v2 <> v0) /\
  (exists s, 0 <= s <= 1 /\
     (res = edge_atR v0 v1 s \/ res = edge_atR v1 v2 s \/ res = edge_atR v2 v0 s)) /\
  (forall s, 0 <= s <= 1 ->
     dist2R res p <= dist2R (edge_atR v0 v1 s) p /\
     dist2R res p <= dist2R (edge_atR v1 v2 s) p /\
     dist2R res p <= dist2R (edge_atR v2 v0 s) p).
Proof.
  refine ((fun H => conj H (closestPointOnTrianglePerimeter_of_vertices_nearest
                              _ _ _ _ (proj1 H) (proj1 (proj2 H)) (proj2 (proj2 H)))) _).
  split; [ | split]; intros E; injection E; intros; Lra.lra.
Defined.

End PerimeterOfVertices.
